(** * Circuit validation engine (circuit-validator.js)

    A shallow embedding of the [CircuitValidator] class of the breadboard
    circuit builder, and the properties of its five validation layers.

    The file has two parts: the embedding (JavaScript values, the
    containers the validator uses, then one definition per method of the
    class, under the method's name), and the theorems about it. *)

From Stdlib Require Import ZArith Lia Ascii.
From stdpp Require Import base option list strings gmap relations pretty.

Open Scope string_scope.
Open Scope list_scope.
Open Scope nat_scope.

Set Warnings "-clear-no-such-hyp".


(* ===================================================================== *)
(** * Part 1: the embedding *)
(* ===================================================================== *)

(** ** JavaScript values

    Circuit documents and component definitions are parsed JSON.  An object
    is the list of its own enumerable properties in enumeration order.  A
    number is kept as its decimal text, the way JavaScript prints it
    ([String(n)]): the validator tests a number for truthiness and prints
    it, and does nothing else with one.

    What a value inherits from the built-in prototypes is not part of the
    value.  Two reads by a computed key see an inherited member and act on
    it: [busCounts[bus]] in [checkBusConflicts] and [index[componentType]]
    in [loadComponent]; both model it.  (In [placement[pinName]] and
    [pins[pinName]] an inherited member ends as a missing one does: it is
    no key of the bus map, and it has no [pwmCapable].) *)

#[warnings="-register-all"]
Inductive JSValue : Type :=
  | JUndefined
  | JNull
  | JBool (b : bool)
  | JNum (text : string)
  | JStr (s : string)
  | JArr (items : list JSValue)
  | JObj (fields : list (string * JSValue)).

(** What a call can do besides returning: throw, or (for the loops, which
    are run on fuel) fail to finish within the fuel it was given. *)
Inductive JSError : Type := TypeError | Error.

Inductive outcome (A : Type) : Type :=
  | Returned (a : A)
  | Thrown (e : JSError)
  | OutOfFuel.
Arguments Returned {A} a.
Arguments Thrown {A} e.
Arguments OutOfFuel {A}.

#[global] Instance outcome_ret : MRet outcome := λ A a, Returned a.
#[global] Instance outcome_bind : MBind outcome := λ A B f m,
  match m with
  | Returned a => f a
  | Thrown e => Thrown e
  | OutOfFuel => OutOfFuel
  end.

(** [try { m } catch { h }]: only a throw is caught. *)
Definition try_catch {A} (m : outcome A) (h : JSError → outcome A) : outcome A :=
  match m with
  | Thrown e => h e
  | _ => m
  end.

(** [!!v]: a number is falsy when it is [0], [-0] (both print as ["0"])
    or [NaN]. *)
Definition truthy (v : JSValue) : bool :=
  match v with
  | JUndefined | JNull => false
  | JBool b => b
  | JNum text => negb (String.eqb text "0") && negb (String.eqb text "NaN")
  | JStr s => negb (String.eqb s "")
  | JArr _ | JObj _ => true
  end.

(** [typeof v === 'object'] (true of [null] as well) *)
Definition typeof_object (v : JSValue) : bool :=
  match v with
  | JNull | JArr _ | JObj _ => true
  | _ => false
  end.

(** [typeof v === 'string'] *)
Definition typeof_string (v : JSValue) : bool :=
  match v with
  | JStr _ => true
  | _ => false
  end.

(** [Array.isArray(v)] *)
Definition isArray (v : JSValue) : bool :=
  match v with
  | JArr _ => true
  | _ => false
  end.

(** [v === s] for a string literal [s] *)
Definition is_string (s : string) (v : JSValue) : bool :=
  match v with
  | JStr s' => String.eqb s' s
  | _ => false
  end.

(** [v === false] and [v === true] *)
Definition is_false (v : JSValue) : bool :=
  match v with
  | JBool false => true
  | _ => false
  end.

Definition is_true (v : JSValue) : bool :=
  match v with
  | JBool true => true
  | _ => false
  end.

(** First binding of a key in an association list. *)
Fixpoint assoc {V : Type} (k : string) (l : list (string * V)) : option V :=
  match l with
  | [] => None
  | (k', v) :: rest => if String.eqb k k' then Some v else assoc k rest
  end.

(** The position an array-index key names, among the first [n]. *)
Definition index_of_key (k : string) (n : nat) : option nat :=
  List.find (λ i, String.eqb (pretty i) k) (seq 0 n).

(** Own property [v[k]] of a value that is neither [null] nor
    [undefined]. *)
Definition own_prop (k : string) (v : JSValue) : JSValue :=
  match v with
  | JObj fields => default JUndefined (assoc k fields)
  | JArr items =>
      if String.eqb k "length" then JNum (pretty (length items))
      else match index_of_key k (length items) with
           | Some i => default JUndefined (items !! i)
           | None => JUndefined
           end
  | JStr s =>
      if String.eqb k "length" then JNum (pretty (String.length s))
      else match index_of_key k (String.length s) with
           | Some i => match String.get i s with
                       | Some c => JStr (String c EmptyString)
                       | None => JUndefined
                       end
           | None => JUndefined
           end
  | _ => JUndefined
  end.

(** Property read [v.k]: a TypeError on [null] and [undefined]. *)
Definition get (k : string) (v : JSValue) : outcome JSValue :=
  match v with
  | JUndefined | JNull => Thrown TypeError
  | _ => Returned (own_prop k v)
  end.

(** Optional chaining [v?.k] *)
Definition get_opt (k : string) (v : JSValue) : JSValue :=
  match v with
  | JUndefined | JNull => JUndefined
  | _ => own_prop k v
  end.

(** [Object.entries(v)] for an object or an array. *)
Definition entries (v : JSValue) : list (string * JSValue) :=
  match v with
  | JObj fields => fields
  | JArr items => imap (λ i x, (pretty i, x)) items
  | _ => []
  end.

(** [Object.hasOwn(v, k)] *)
Definition has_own (k : string) (v : JSValue) : bool :=
  match v with
  | JObj fields =>
      match assoc k fields with
      | Some _ => true
      | None => false
      end
  | JArr items =>
      String.eqb k "length" ||
      match index_of_key k (length items) with
      | Some _ => true
      | None => false
      end
  | JStr s =>
      String.eqb k "length" ||
      match index_of_key k (String.length s) with
      | Some _ => true
      | None => false
      end
  | _ => false
  end.

(** The string a template literal makes of a value, [`${v}`].  An array
    is joined with [","], its [null] elements printing as nothing.  An
    object is converted by its [toString] method, then by [valueOf]: a
    parsed object that has an entry [toString] of its own has shadowed
    the inherited method by a value that cannot be called, [valueOf]
    (its own, or the inherited one, which returns the object) gives no
    primitive either, and the conversion throws a TypeError; any other
    object prints as ["[object Object]"]. *)
Fixpoint join (element : JSValue → outcome string) (xs : list JSValue)
    : outcome string :=
  match xs with
  | [] => Returned ""
  | x :: rest =>
      first ← element x;
      match rest with
      | [] => Returned first
      | _ => later ← join element rest; Returned (first +:+ "," +:+ later)
      end
  end.

Fixpoint to_string (v : JSValue) : outcome string :=
  match v with
  | JUndefined => Returned "undefined"
  | JNull => Returned "null"
  | JBool true => Returned "true"
  | JBool false => Returned "false"
  | JNum text => Returned text
  | JStr s => Returned s
  | JArr items =>
      join (λ x, match x with
                 | JUndefined | JNull => Returned ""
                 | _ => to_string x
                 end) items
  | JObj fields =>
      match assoc "toString" fields with
      | Some _ => Thrown TypeError
      | None => Returned "[object Object]"
      end
  end.

(** ** Strings *)

(** [s.startsWith(p)] *)
Definition startsWith (p s : string) : bool := String.prefix p s.

(** [s.includes(sub)] *)
Fixpoint includes (sub s : string) : bool :=
  String.prefix sub s ||
  match s with
  | EmptyString => false
  | String _ rest => includes sub rest
  end.

(** [s.split('.')] *)
Fixpoint split_dot (s : string) : list string :=
  match s with
  | EmptyString => [""]
  | String c rest =>
      if Ascii.eqb c "."%char then "" :: split_dot rest
      else match split_dot rest with
           | [] => [String c ""]
           | part :: parts => String c part :: parts
           end
  end.

(** [const [compId, pinName] = endpoint.split('.')] *)
Definition split_reference (endpoint : string) : string * option string :=
  match split_dot endpoint with
  | compId :: pinName :: _ => (compId, Some pinName)
  | compId :: [] => (compId, None)
  | [] => ("", None)
  end.

(** ** Containers

    A [Map] or [Set] that the validator iterates is kept in insertion
    order; one that it only queries is a [gmap] or [gset]. *)

Module OMap.
Definition t (V : Type) : Type := list (string * V).

Definition get {V} (k : string) (m : t V) : option V := assoc k m.

Definition has {V} (k : string) (m : t V) : bool :=
  match assoc k m with
  | Some _ => true
  | None => false
  end.

(** [m.set(k, v)]: an existing key keeps its position. *)
Fixpoint set {V} (k : string) (v : V) (m : t V) : t V :=
  match m with
  | [] => [(k, v)]
  | (k', v') :: rest =>
      if String.eqb k k' then (k, v) :: rest else (k', v') :: set k v rest
  end.

Definition keys {V} (m : t V) : list string := m.*1.
End OMap.

Module OSet.
Definition t : Type := list string.

Definition has (x : string) (s : t) : bool := bool_decide (x ∈ s).

Definition add (x : string) (s : t) : t := if has x s then s else s ++ [x].
End OSet.

(** A plain object used as a dictionary ([busCounts]).  Its enumeration
    order puts the array-index keys first, ascending, then the other keys
    in insertion order. *)
Module Dict.
Definition t (V : Type) : Type := list (string * V).

Fixpoint digits (s : string) (acc : N) : option N :=
  match s with
  | EmptyString => Some acc
  | String c rest =>
      let n := Ascii.N_of_ascii c in
      if ((48 <=? n) && (n <=? 57))%N then digits rest (acc * 10 + (n - 48))%N
      else None
  end.

(** The array index a key is the canonical spelling of, if any. *)
Definition array_index (k : string) : option N :=
  match k with
  | EmptyString => None
  | _ => match digits k 0%N with
         | Some n => if String.eqb (pretty n) k && (n <? 4294967295)%N
                     then Some n else None
         | None => None
         end
  end.

(** Does a new key [k] enumerate before the existing key [k']? *)
Definition before (k k' : string) : bool :=
  match array_index k, array_index k' with
  | Some n, Some n' => (n <? n')%N
  | Some _, None => true
  | None, _ => false
  end.

(** [d[k] = v] *)
Fixpoint set {V} (k : string) (v : V) (d : t V) : t V :=
  match d with
  | [] => [(k, v)]
  | (k', v') :: rest =>
      if String.eqb k k' then (k, v) :: rest
      else if before k k' && negb (OMap.has k rest) then (k, v) :: (k', v') :: rest
      else (k', v') :: set k v rest
  end.

Definition get {V} (k : string) (d : t V) : option V := assoc k d.
End Dict.

(** The members every plain object inherits from [Object.prototype]: read
    through [busCounts[bus]] they are truthy and have no [push]. *)
Definition object_prototype_keys : list string :=
  [ "constructor"; "__defineGetter__"; "__defineSetter__"; "hasOwnProperty";
    "__lookupGetter__"; "__lookupSetter__"; "isPrototypeOf";
    "propertyIsEnumerable"; "toString"; "valueOf"; "__proto__";
    "toLocaleString" ].

Definition inherited_key (k : string) : bool :=
  bool_decide (k ∈ object_prototype_keys).

(** ** Data model *)

(** A breadboard hole, as the breadboard generator emits it: [id], the
    [bus] it belongs to and its [type] (['main'], ['power'], ['ground']). *)
Record Hole : Type := {
  hole_id : string;
  hole_bus : string;
  hole_type : string
}.

(** A bus as the validator holds it in a variable: a string, or [None] for
    the [undefined] of a failed [busMap.get] and the [null] of
    [getEndpointBus]. *)
Definition BusRef : Type := option string.

(** The truthiness test [if (bus)] and the filter [.filter(Boolean)]. *)
Definition bus_truthy (bus : BusRef) : bool :=
  match bus with
  | Some b => negb (String.eqb b "")
  | None => false
  end.

Definition filter_Boolean (buses : list BusRef) : list string :=
  omap (λ bus, if bus_truthy bus then bus else None) buses.

Inductive Severity : Type := SevError | SevWarning.

(** The structured fields [createError] spreads into a diagnostic. *)
Inductive Extra : Type :=
  | NoExtra
  | ShortCircuitExtra (bus : string) (pins : list string) (holes : list string)
  | PowerGroundExtra (powerHoles groundHoles : list string)
  | OpenCircuitExtra (ledBuses : list BusRef) (resistorBuses : list string)
  | CathodeBusExtra (cathodeBus : BusRef)
  | AnodeBusExtra (anodeBus : BusRef)
  | GroupsExtra (groupCount : nat) (groupSizes : list nat)
  | PwmPinExtra (pin : option string) (wireId : string).

(** A diagnostic.  Its [message] is text for the reader, which no code of
    the validator reads back, and is not kept; what is kept of a message
    is its evaluation where that can throw (see [push_about]). *)
Record Diagnostic : Type := {
  d_type : string;
  d_severity : Severity;
  d_location : string;
  d_extra : Extra
}.

Record ValidationResult : Type := {
  valid : bool;
  errors : list Diagnostic;
  warnings : list Diagnostic
}.

Definition createError (type location : string) (metadata : Extra) : Diagnostic :=
  {| d_type := type; d_severity := SevError; d_location := location;
     d_extra := metadata |}.

Definition createWarning (type location : string) (metadata : Extra) : Diagnostic :=
  {| d_type := type; d_severity := SevWarning; d_location := location;
     d_extra := metadata |}.

(** [arr.forEach((x, index) => errors.push(...f(x, index)))]: the
    diagnostics of every element in order; a throw at one element ends the
    iteration. *)
Fixpoint collect {A} (f : A → nat → outcome (list Diagnostic)) (index : nat)
    (arr : list A) : outcome (list Diagnostic) :=
  match arr with
  | [] => mret []
  | x :: rest =>
      here ← f x index;
      later ← collect f (S index) rest;
      mret (here ++ later)
  end.

Definition array_items (v : JSValue) : list JSValue :=
  match v with
  | JArr items => items
  | _ => []
  end.

(** [errors.push(this.createError(type, location, `… ${v} …`))] where [v]
    is a value of the document: the template literal of the message is
    evaluated before the diagnostic is made, and throws when [v] has no
    string form. *)
Definition push_about (v : JSValue) (d : Diagnostic) : outcome (list Diagnostic) :=
  _ ← to_string v;
  mret [d].

(** ** Layer 1: structural validation *)

(** [!v || typeof v !== 'string'] *)
Definition not_a_nonempty_string (v : JSValue) : bool :=
  negb (truthy v) || negb (typeof_string v).

Definition validateMetadata (metadata : JSValue) : outcome (list Diagnostic) :=
  collect (λ field _,
      v ← get field metadata;
      mret (if not_a_nonempty_string v
            then [createError "INVALID_METADATA" "metadata" NoExtra]
            else []))
    0 ["name"; "description"].

(** Every message of [validateComponentSchema] but the first quotes
    [component.id], whatever it is. *)
Definition validateComponentSchema (component : JSValue) (index : nat)
    : outcome (list Diagnostic) :=
  let location := "components[" +:+ pretty index +:+ "]" in
  id ← get "id" component;
  let idErrors :=
    if not_a_nonempty_string id
    then [createError "MISSING_COMPONENT_ID" location NoExtra] else [] in
  type ← get "type" component;
  typeErrors ←
    (if not_a_nonempty_string type
     then push_about id (createError "MISSING_COMPONENT_TYPE" location NoExtra)
     else mret []);
  placement ← get "placement" component;
  placementErrors ←
    (if negb (truthy placement) || negb (typeof_object placement)
     then push_about id (createError "MISSING_PLACEMENT" location NoExtra)
     else
       emptyErrors ←
         (if (length (entries placement) =? 0)%nat
          then push_about id (createError "EMPTY_PLACEMENT" location NoExtra)
          else mret []);
       holeErrors ←
         collect (λ '(pin, holeId) _,
             if negb (typeof_string holeId)
             then push_about id (createError "INVALID_HOLE_ID" location NoExtra)
             else mret [])
           0 (entries placement);
       mret (emptyErrors ++ holeErrors));
  properties ← get "properties" component;
  propertiesErrors ←
    (if truthy properties && negb (typeof_object properties)
     then push_about id (createError "INVALID_PROPERTIES" location NoExtra)
     else mret []);
  mret (idErrors ++ typeErrors ++ placementErrors ++ propertiesErrors).

(** The messages about [from] and [to] quote [wire.id]. *)
Definition validateWireSchema (wire : JSValue) (index : nat)
    : outcome (list Diagnostic) :=
  let location := "wires[" +:+ pretty index +:+ "]" in
  id ← get "id" wire;
  let idErrors :=
    if not_a_nonempty_string id
    then [createError "MISSING_WIRE_ID" location NoExtra] else [] in
  from ← get "from" wire;
  fromErrors ←
    (if not_a_nonempty_string from
     then push_about id (createError "MISSING_WIRE_FROM" location NoExtra)
     else mret []);
  to ← get "to" wire;
  toErrors ←
    (if not_a_nonempty_string to
     then push_about id (createError "MISSING_WIRE_TO" location NoExtra)
     else mret []);
  mret (idErrors ++ fromErrors ++ toErrors).

Definition validateSchema (circuitJSON : JSValue) : outcome (list Diagnostic) :=
  if negb (truthy circuitJSON) || negb (typeof_object circuitJSON)
  then mret [createError "INVALID_JSON" "Root" NoExtra]
  else
    circuit ← get "circuit" circuitJSON;
    if negb (truthy circuit)
    then mret [createError "MISSING_CIRCUIT" "Root" NoExtra]
    else
      metadata ← get "metadata" circuit;
      components ← get "components" circuit;
      wires ← get "wires" circuit;
      let missing :=
        (if negb (truthy metadata)
         then [createError "MISSING_METADATA" "circuit" NoExtra] else []) ++
        (if negb (truthy components) || negb (isArray components)
         then [createError "MISSING_COMPONENTS" "circuit" NoExtra] else []) ++
        (if negb (truthy wires) || negb (isArray wires)
         then [createError "MISSING_WIRES" "circuit" NoExtra] else []) in
      inMetadata ← (if truthy metadata then validateMetadata metadata else mret []);
      inComponents ← (if isArray components
                      then collect validateComponentSchema 0 (array_items components)
                      else mret []);
      inWires ← (if isArray wires
                 then collect validateWireSchema 0 (array_items wires)
                 else mret []);
      mret (missing ++ inMetadata ++ inComponents ++ inWires).

(** ** The circuit as layers 2 to 5 read it

    The later layers run only on a document that layer 1 passed, and read
    from it the fields below; [circuit_of] extracts them ([None] on a
    document of another shape, which layer 1 rejects, see
    [circuit_of_schema_valid]). *)

Record ComponentInstance : Type := {
  comp_id : string;
  comp_type : string;
  comp_placement : list (string * string)
}.

Record WireInstance : Type := {
  wire_id : string;
  wire_from : string;
  wire_to : string;
  wire_properties : JSValue
}.

Record Circuit : Type := {
  components : list ComponentInstance;
  wires : list WireInstance
}.

Definition string_of (v : JSValue) : option string :=
  match v with
  | JStr s => Some s
  | _ => None
  end.

Definition component_of (v : JSValue) : option ComponentInstance :=
  id ← string_of (get_opt "id" v);
  type ← string_of (get_opt "type" v);
  placement ← mapM (λ '(pin, holeId), h ← string_of holeId; Some (pin, h))
                   (entries (get_opt "placement" v));
  Some {| comp_id := id; comp_type := type; comp_placement := placement |}.

Definition wire_of (v : JSValue) : option WireInstance :=
  id ← string_of (get_opt "id" v);
  from ← string_of (get_opt "from" v);
  to ← string_of (get_opt "to" v);
  Some {| wire_id := id; wire_from := from; wire_to := to;
          wire_properties := get_opt "properties" v |}.

Definition circuit_of (circuitJSON : JSValue) : option Circuit :=
  let circuit := get_opt "circuit" circuitJSON in
  match get_opt "components" circuit, get_opt "wires" circuit with
  | JArr cs, JArr ws =>
      components ← mapM component_of cs;
      wires ← mapM wire_of ws;
      Some {| components := components; wires := wires |}
  | _, _ => None
  end.

(** ** The validator object *)

Record CircuitValidator : Type := {
  holes : list Hole;
  busMap : gmap string string;
  holeMap : gmap string Hole;
  componentLibrary : JSValue;
  loadedComponents : gmap string JSValue
}.

Definition buildBusMap (holes : list Hole) : gmap string string :=
  foldl (λ map hole, <[hole_id hole := hole_bus hole]> map) ∅ holes.

Definition buildHoleMap (holes : list Hole) : gmap string Hole :=
  foldl (λ map hole, <[hole_id hole := hole]> map) ∅ holes.

(** [new CircuitValidator(breadboardHoles)] *)
Definition new_CircuitValidator (breadboardHoles : list Hole) : CircuitValidator :=
  {| holes := breadboardHoles;
     busMap := buildBusMap breadboardHoles;
     holeMap := buildHoleMap breadboardHoles;
     componentLibrary := JNull;
     loadedComponents := ∅ |}.

(** The network: what a [fetch] of a URL answers, given the requests made
    before it.  [Some data] is the parsed body of an [ok] response; [None]
    is any failure (rejected fetch, status not ok, body not JSON). *)
Definition Network : Type := list string → string → option JSValue.

(** The built-in members of the engine: [builtins v k] is the member named
    [k] that the value [v] inherits from the built-in prototypes
    ([toString], [constructor], [push] on an array, …), if it inherits
    one, given by the text a template literal prints for it.  Which
    members there are depends on the edition of the language, and the
    text of a built-in function on the engine. *)
Definition Builtins : Type := JSValue → string → option string.

(** The validator together with the log of the requests made so far, and
    the built-in members of the engine it runs on. *)
Record State : Type := {
  this : CircuitValidator;
  requests : list string;
  builtins : Builtins
}.

Definition log_request (url : string) (st : State) : State :=
  {| this := this st; requests := requests st ++ [url]; builtins := builtins st |}.

Definition set_componentLibrary (library : JSValue) (st : State) : State :=
  {| this := {| holes := holes (this st);
                busMap := busMap (this st);
                holeMap := holeMap (this st);
                componentLibrary := library;
                loadedComponents := loadedComponents (this st) |};
     requests := requests st;
     builtins := builtins st |}.

Definition cache_component (componentType : string) (component : JSValue)
    (st : State) : State :=
  {| this := {| holes := holes (this st);
                busMap := busMap (this st);
                holeMap := holeMap (this st);
                componentLibrary := componentLibrary (this st);
                loadedComponents :=
                  <[componentType := component]> (loadedComponents (this st)) |};
     requests := requests st;
     builtins := builtins st |}.

Definition nullish (v : JSValue) : bool :=
  match v with
  | JUndefined | JNull => true
  | _ => false
  end.

(** [Object.keys(v)] *)
Definition object_keys (v : JSValue) : outcome (list string) :=
  match v with
  | JUndefined | JNull => Thrown TypeError
  | JObj fields => Returned fields.*1
  | JArr items => Returned (pretty <$> seq 0 (length items))
  | JStr s => Returned (pretty <$> seq 0 (String.length s))
  | _ => Returned []
  end.

(** [init()]: whatever fails inside the [try] is caught and turned into
    the return value [false]. *)
Definition init (net : Network) (st : State) : outcome bool * State :=
  let url := "components/library.json" in
  let st1 := log_request url st in
  match net (requests st) url with
  | None => (try_catch (Thrown Error) (λ _, Returned false), st1)
  | Some data =>
      match get "library" data with
      | Returned library =>
          let st2 := set_componentLibrary library st1 in
          (try_catch (index ← get "index" library;
                      _ ← object_keys index;
                      mret true)
                     (λ _, Returned false), st2)
      | failure => (try_catch (_ ← failure; mret true) (λ _, Returned false), st1)
      end
  end.

(** What a read [v[k]] by a computed key finds: a property of the value
    itself, a member it inherits (a built-in function or prototype object,
    which is truthy), or nothing ([undefined]). *)
Inductive Member : Type :=
  | Own (value : JSValue)
  | Inherited (text : string)
  | Missing.

(** [v[k]]: a TypeError on [null] and [undefined]. *)
Definition read (builtins : Builtins) (k : string) (v : JSValue) : outcome Member :=
  if nullish v then Thrown TypeError
  else if has_own k v then Returned (Own (own_prop k v))
  else match builtins v k with
       | Some text => Returned (Inherited text)
       | None => Returned Missing
       end.

(** [!!m] and [`${m}`] of what was read. *)
Definition member_truthy (m : Member) : bool :=
  match m with
  | Own value => truthy value
  | Inherited _ => true
  | Missing => false
  end.

Definition member_text (m : Member) : outcome string :=
  match m with
  | Own value => to_string value
  | Inherited text => Returned text
  | Missing => Returned "undefined"
  end.

(** [loadComponent(componentType)].  Whatever is thrown inside its [try],
    the template literal of the URL included, is caught and thrown again
    as an [Error]. *)
Definition loadComponent (net : Network) (componentType : string) (st : State)
    : outcome JSValue * State :=
  match loadedComponents (this st) !! componentType with
  | Some component => (Returned component, st)
  | None =>
      if negb (truthy (componentLibrary (this st))) then (Thrown Error, st)
      else
        match (index ← get "index" (componentLibrary (this st));
               read (builtins st) componentType index) with
        | Returned componentPath =>
            if negb (member_truthy componentPath) then (Thrown Error, st)
            else
              match member_text componentPath with
              | Returned path =>
                  let url := "components/" +:+ path in
                  let st1 := log_request url st in
                  match net (requests st) url with
                  | None => (Thrown Error, st1)
                  | Some data =>
                      match get "component" data with
                      | Returned component =>
                          (Returned component,
                           cache_component componentType component st1)
                      | _ => (Thrown Error, st1)
                      end
                  end
              | Thrown _ => (Thrown Error, st)
              | OutOfFuel => (OutOfFuel, st)
              end
        | Thrown e => (Thrown e, st)
        | OutOfFuel => (OutOfFuel, st)
        end
  end.

(** A [for … of] loop whose body awaits [loadComponent]: the state is
    threaded through, a throw or an exhausted fuel ends the loop. *)
Fixpoint collect_st {A} (f : A → State → outcome (list Diagnostic) * State)
    (arr : list A) (st : State) : outcome (list Diagnostic) * State :=
  match arr with
  | [] => (Returned [], st)
  | x :: rest =>
      match f x st with
      | (Returned here, st1) =>
          match collect_st f rest st1 with
          | (Returned later, st2) => (Returned (here ++ later), st2)
          | stopped => stopped
          end
      | stopped => stopped
      end
  end.

(** ** Layer 2: reference validation *)

(** The two uniqueness passes: every truthy id already in the set gets a
    diagnostic of the given type, located at the id. *)
Definition checkUniqueIds (type : string) (ids : list string)
    : list Diagnostic * gset string :=
  foldl (λ '(errors, seen) id,
      if String.eqb id "" then (errors, seen)
      else ((if bool_decide (id ∈ seen)
             then errors ++ [createError type id NoExtra] else errors),
            {[id]} ∪ seen))
    ([], ∅) ids.

Definition validateWireEndpoint (this : CircuitValidator) (wire : WireInstance)
    (reference : string) (componentIds : gset string) : list Diagnostic :=
  if String.eqb reference "" then []
  else if includes "." reference then
    let '(compId, _) := split_reference reference in
    if bool_decide (compId ∈ componentIds) then []
    else [createError "INVALID_WIRE_COMPONENT" (wire_id wire) NoExtra]
  else
    match holeMap this !! reference with
    | Some _ => []
    | None => [createError "INVALID_WIRE_HOLE" (wire_id wire) NoExtra]
    end.

(** The body of the loop over component types, with its [try]/[catch]. *)
Definition checkComponentType (net : Network) (comp : ComponentInstance)
    (st : State) : outcome (list Diagnostic) * State :=
  if String.eqb (comp_type comp) "" then (Returned [], st)
  else
    let '(loaded, st1) := loadComponent net (comp_type comp) st in
    (try_catch
       (componentDef ← loaded;
        pins ← get "pins" componentDef;
        if truthy pins then
          definedPins ← object_keys pins;
          mret (flat_map (λ pin,
                    if bool_decide (pin ∈ definedPins) then []
                    else [createError "INVALID_PIN_NAME" (comp_id comp) NoExtra])
                  (comp_placement comp).*1)
        else mret [])
       (λ _, Returned [createError "UNKNOWN_COMPONENT_TYPE" (comp_id comp) NoExtra]),
     st1).

Definition validateReferences (net : Network) (circuit : Circuit) (st : State)
    : outcome (list Diagnostic) * State :=
  let '(duplicateComponents, componentIds) :=
    checkUniqueIds "DUPLICATE_COMPONENT_ID" (comp_id <$> components circuit) in
  match collect_st (checkComponentType net) (components circuit) st with
  | (Returned typeErrors, st1) =>
      let holeErrors :=
        flat_map (λ comp,
            flat_map (λ '(pin, holeId),
                match holeMap (this st1) !! holeId with
                | Some _ => []
                | None => [createError "INVALID_HOLE_REFERENCE" (comp_id comp) NoExtra]
                end)
              (comp_placement comp))
          (components circuit) in
      let endpointErrors :=
        flat_map (λ wire,
            validateWireEndpoint (this st1) wire (wire_from wire) componentIds ++
            validateWireEndpoint (this st1) wire (wire_to wire) componentIds)
          (wires circuit) in
      let '(duplicateWires, _) :=
        checkUniqueIds "DUPLICATE_WIRE_ID" (wire_id <$> wires circuit) in
      (Returned (duplicateComponents ++ typeErrors ++ holeErrors ++
                 endpointErrors ++ duplicateWires), st1)
  | stopped => stopped
  end.

(** ** Layer 3: electrical rule check *)

(** An entry of [pinBuses]: [{ pin, hole, bus }]. *)
Record PinBus : Type := {
  pb_pin : string;
  pb_hole : string;
  pb_bus : string
}.

Definition pinBuses (this : CircuitValidator) (component : ComponentInstance)
    : list PinBus :=
  omap (λ '(pinName, holeId),
      match busMap this !! holeId with
      | Some bus =>
          if bus_truthy (Some bus)
          then Some {| pb_pin := pinName; pb_hole := holeId; pb_bus := bus |}
          else None
      | None => None
      end)
    (comp_placement component).

(** One step of grouping the pins by bus.  [busCounts] is a plain object:
    on a bus named like a member of [Object.prototype] the test
    [!busCounts[pb.bus]] sees the inherited member, nothing is created, and
    the [push] that follows throws. *)
Definition groupPin (busCounts : Dict.t (list string)) (pb : PinBus)
    : outcome (Dict.t (list string)) :=
  match Dict.get (pb_bus pb) busCounts with
  | Some pins => Returned (Dict.set (pb_bus pb) (pins ++ [pb_pin pb]) busCounts)
  | None =>
      if inherited_key (pb_bus pb) then Thrown TypeError
      else Returned (Dict.set (pb_bus pb) [pb_pin pb] busCounts)
  end.

Fixpoint groupPins (busCounts : Dict.t (list string)) (pbs : list PinBus)
    : outcome (Dict.t (list string)) :=
  match pbs with
  | [] => Returned busCounts
  | pb :: rest => grouped ← groupPin busCounts pb; groupPins grouped rest
  end.

Definition checkBusConflicts (this : CircuitValidator)
    (component : ComponentInstance) : outcome (list Diagnostic) :=
  let pbs := pinBuses this component in
  busCounts ← groupPins [] pbs;
  mret (flat_map (λ '(bus, pins),
            if (1 <? length pins)%nat
            then [createError "SHORT_CIRCUIT" (comp_id component)
                    (ShortCircuitExtra bus pins
                       (pb_hole <$> filter (λ pb, pb_bus pb = bus) pbs))]
            else [])
          busCounts).

(** The net of one wire: [new Set([wire.from, wire.to])]. *)
Definition wireNodes (wire : WireInstance) : OSet.t :=
  OSet.add (wire_to wire) (OSet.add (wire_from wire) []).

(** [buildNets]: one net per wire, numbered from 0. *)
Definition buildNets (circuit : Circuit) : list (nat * OSet.t) :=
  imap (λ netId wire, (netId, wireNodes wire)) (wires circuit).

Definition is_type (type : string) (h : Hole) : bool :=
  String.eqb (hole_type h) type.

(** The holes of a net: its nodes without the references to component
    pins, looked up in the hole map. *)
Definition netHoles (this : CircuitValidator) (nodes : OSet.t) : list Hole :=
  let holeNodes := filter (λ n, includes "." n = false) nodes in
  omap (λ holeId, holeMap this !! holeId) holeNodes.

Definition checkPowerGroundShorts (this : CircuitValidator) (circuit : Circuit)
    : list Diagnostic :=
  flat_map (λ '(netId, nodes),
      let holes := netHoles this nodes in
      let hasPower := existsb (is_type "power") holes in
      let hasGround := existsb (is_type "ground") holes in
      if hasPower && hasGround
      then [createError "POWER_GROUND_SHORT" ("net-" +:+ pretty netId)
              (PowerGroundExtra
                 (hole_id <$> filter (λ h, is_type "power" h = true) holes)
                 (hole_id <$> filter (λ h, is_type "ground" h = true) holes))]
      else [])
    (buildNets circuit).

Definition validateElectricalRules (this : CircuitValidator) (circuit : Circuit)
    : outcome (list Diagnostic) :=
  busConflicts ← collect (λ comp _, checkBusConflicts this comp) 0 (components circuit);
  mret (busConflicts ++ checkPowerGroundShorts this circuit).

(** The warning pass is disabled in the source: it returns no warning. *)
Definition checkElectricalWarnings (circuit : Circuit) : list Diagnostic := [].

(** ** Layer 4: graph-based topology *)

(** The bus-connectivity graph: a [Map] from a bus to the [Set] of its
    neighbours, both in insertion order. *)
Definition Graph : Type := OMap.t OSet.t.

Definition addEdge (graph : Graph) (bus1 bus2 : BusRef) : Graph :=
  match bus1, bus2 with
  | Some b1, Some b2 =>
      if negb (bus_truthy bus1) || negb (bus_truthy bus2) || String.eqb b1 b2
      then graph
      else
        let graph := if OMap.has b1 graph then graph else OMap.set b1 [] graph in
        let graph := if OMap.has b2 graph then graph else OMap.set b2 [] graph in
        let graph :=
          OMap.set b1 (OSet.add b2 (default [] (OMap.get b1 graph))) graph in
        OMap.set b2 (OSet.add b1 (default [] (OMap.get b2 graph))) graph
  | _, _ => graph
  end.

(** The buses the placed pins of a component resolve to:
    [Object.values(placement).map(h => busMap.get(h)).filter(Boolean)]. *)
Definition placedBuses (this : CircuitValidator) (placement : list (string * string))
    : list string :=
  filter_Boolean ((λ holeId, busMap this !! holeId) <$> placement.*2).

(** The double loop [for i … for j = i + 1 …] over the buses of one
    component. *)
Fixpoint addPairs (graph : Graph) (buses : list string) : Graph :=
  match buses with
  | [] => graph
  | bus_i :: later =>
      addPairs (foldl (λ g bus_j, addEdge g (Some bus_i) (Some bus_j)) graph later)
               later
  end.

Definition getEndpointBus (this : CircuitValidator) (endpoint : string)
    (circuit : Circuit) : BusRef :=
  if negb (includes "." endpoint) then busMap this !! endpoint
  else
    let '(compId, pinName) := split_reference endpoint in
    match List.find (λ c, String.eqb (comp_id c) compId) (components circuit) with
    | None => None
    | Some component =>
        match assoc (default "undefined" pinName) (comp_placement component) with
        | Some holeId =>
            if negb (String.eqb holeId "") then busMap this !! holeId else None
        | None => None
        end
    end.

Definition buildBusConnectivityGraph (this : CircuitValidator) (circuit : Circuit)
    : Graph :=
  let fromPlacements :=
    foldl (λ graph comp, addPairs graph (placedBuses this (comp_placement comp)))
          [] (components circuit) in
  foldl (λ graph wire,
      let fromBus := getEndpointBus this (wire_from wire) circuit in
      let toBus := getEndpointBus this (wire_to wire) circuit in
      if bus_truthy fromBus && bus_truthy toBus
      then addEdge graph fromBus toBus
      else graph)
    fromPlacements (wires circuit).

(** [graph.get(currentBus) || new Set()] *)
Definition neighbors (graph : Graph) (currentBus : BusRef) : list string :=
  match currentBus with
  | Some bus => default [] (OMap.get bus graph)
  | None => []
  end.

(** The buses still to be expanded weigh their number of neighbours. *)
Fixpoint unseen_weight (graph : Graph) (seen : string → bool) : nat :=
  match graph with
  | [] => 0
  | (bus, adj) :: rest =>
      (if seen bus then 0 else length adj) + unseen_weight rest seen
  end.

(** Fuel for the breadth-first loops: a bus is expanded once and then
    queues its neighbours, and every pass takes one bus off the queue, so
    the number of passes is bounded by the total number of neighbours (see
    [pathExists_loop_fuel]). *)
Definition bfs_fuel (graph : Graph) : nat :=
  S (S (unseen_weight graph (λ _, false))).

Fixpoint pathExists_loop (fuel : nat) (graph : Graph) (targetBus : BusRef)
    (visited : gset BusRef) (queue : list BusRef) : outcome bool :=
  match fuel with
  | O => OutOfFuel
  | S fuel =>
      match queue with
      | [] => Returned false
      | currentBus :: queue =>
          if bool_decide (currentBus ∈ visited)
          then pathExists_loop fuel graph targetBus visited queue
          else if bool_decide (currentBus = targetBus) then Returned true
          else pathExists_loop fuel graph targetBus ({[currentBus]} ∪ visited)
                 (queue ++ (Some <$> neighbors graph currentBus))
      end
  end.

Definition pathExists (graph : Graph) (startBus targetBus : BusRef) : outcome bool :=
  if bool_decide (startBus = targetBus) then Returned true
  else pathExists_loop (bfs_fuel graph) graph targetBus ∅ [startBus].

(** [[compId, pinName] = endpoint.split('.')] followed by the lookup of the
    component: the pin name when the endpoint is a reference to a pin of a
    component of the circuit. *)
Definition referencedPin (endpoint : string) (circuit : Circuit) : option string :=
  if negb (includes "." endpoint) then None
  else
    let '(compId, pinName) := split_reference endpoint in
    match List.find (λ c, String.eqb (comp_id c) compId) (components circuit) with
    | None => None
    | Some _ => pinName
    end.

Definition isGroundPin (endpoint : string) (circuit : Circuit) : bool :=
  match referencedPin endpoint circuit with
  | Some pinName => includes "GND" pinName
  | None => false
  end.

Definition isGPIOPin (endpoint : string) (circuit : Circuit) : bool :=
  match referencedPin endpoint circuit with
  | Some pinName => startsWith "GP" pinName
  | None => false
  end.

(** [circuit.wires.filter(w => fromBus === currentBus || toBus === currentBus)] *)
Definition wiresOnBus (this : CircuitValidator) (circuit : Circuit)
    (currentBus : string) : list WireInstance :=
  filter (λ w, getEndpointBus this (wire_from w) circuit = Some currentBus
               ∨ getEndpointBus this (wire_to w) circuit = Some currentBus)
         (wires circuit).

Definition busHoles (this : CircuitValidator) (currentBus : BusRef) : list Hole :=
  filter (λ h, Some (hole_bus h) = currentBus) (holes this).

Fixpoint pathToGround_loop (fuel : nat) (this : CircuitValidator) (graph : Graph)
    (circuit : Circuit) (visited : gset string) (queue : list string)
    : outcome bool :=
  match fuel with
  | O => OutOfFuel
  | S fuel =>
      match queue with
      | [] => Returned false
      | currentBus :: queue =>
          if bool_decide (currentBus ∈ visited)
          then pathToGround_loop fuel this graph circuit visited queue
          else if existsb (is_type "ground") (busHoles this (Some currentBus))
          then Returned true
          else if existsb (λ wire, isGroundPin (wire_from wire) circuit
                                   || isGroundPin (wire_to wire) circuit)
                          (wiresOnBus this circuit currentBus)
          then Returned true
          else pathToGround_loop fuel this graph circuit ({[currentBus]} ∪ visited)
                 (queue ++ neighbors graph (Some currentBus))
      end
  end.

Definition pathToGround (this : CircuitValidator) (startBus : BusRef)
    (graph : Graph) (circuit : Circuit) : outcome bool :=
  match startBus with
  | Some bus =>
      if negb (bus_truthy startBus) then Returned false
      else pathToGround_loop (bfs_fuel graph) this graph circuit ∅ [bus]
  | None => Returned false
  end.

(** The object [pathToPowerSource] returns. *)
Record PowerSource : Type := {
  found : bool;
  isPowerRail : option bool;
  pin : option string
}.

Definition noPowerSource : PowerSource :=
  {| found := false; isPowerRail := None; pin := None |}.

Fixpoint pathToPowerSource_loop (fuel : nat) (this : CircuitValidator)
    (graph : Graph) (circuit : Circuit) (visited : gset string)
    (queue : list string) : outcome PowerSource :=
  match fuel with
  | O => OutOfFuel
  | S fuel =>
      match queue with
      | [] => Returned noPowerSource
      | currentBus :: queue =>
          if bool_decide (currentBus ∈ visited)
          then pathToPowerSource_loop fuel this graph circuit visited queue
          else if existsb (is_type "power") (busHoles this (Some currentBus))
          then Returned {| found := true; isPowerRail := Some true; pin := None |}
          else
            match List.find (λ wire, isGPIOPin (wire_from wire) circuit
                                     || isGPIOPin (wire_to wire) circuit)
                            (wiresOnBus this circuit currentBus) with
            | Some wire =>
                Returned {| found := true; isPowerRail := Some false;
                            pin := Some (if isGPIOPin (wire_from wire) circuit
                                         then wire_from wire else wire_to wire) |}
            | None =>
                pathToPowerSource_loop fuel this graph circuit
                  ({[currentBus]} ∪ visited)
                  (queue ++ neighbors graph (Some currentBus))
            end
      end
  end.

Definition pathToPowerSource (this : CircuitValidator) (startBus : BusRef)
    (graph : Graph) (circuit : Circuit) : outcome PowerSource :=
  match startBus with
  | Some bus =>
      if negb (bus_truthy startBus) then Returned noPowerSource
      else pathToPowerSource_loop (bfs_fuel graph) this graph circuit ∅ [bus]
  | None => Returned noPowerSource
  end.

Definition is_led (c : ComponentInstance) : bool :=
  String.eqb (comp_type c) "led" || String.eqb (comp_type c) "led-red-5mm".

Definition is_resistor (c : ComponentInstance) : bool :=
  String.eqb (comp_type c) "resistor" || String.eqb (comp_type c) "resistor-220".

(** [this.busMap.get(component.placement[pin])] *)
Definition placedPinBus (this : CircuitValidator) (component : ComponentInstance)
    (pin : string) : BusRef :=
  match assoc pin (comp_placement component) with
  | Some holeId => busMap this !! holeId
  | None => None
  end.

(** [buses.includes(bus)] *)
Definition includesBus (buses : list string) (bus : BusRef) : bool :=
  match bus with
  | Some b => bool_decide (b ∈ buses)
  | None => false
  end.

(** [resistorBuses.some(rBus => pathExists(…, ledAnodeBus) || pathExists(…, ledCathodeBus))] *)
Fixpoint someConnected (graph : Graph) (ledAnodeBus ledCathodeBus : BusRef)
    (resistorBuses : list string) : outcome bool :=
  match resistorBuses with
  | [] => mret false
  | rBus :: rest =>
      toAnode ← pathExists graph (Some rBus) ledAnodeBus;
      if (toAnode : bool) then mret true
      else
        toCathode ← pathExists graph (Some rBus) ledCathodeBus;
        if (toCathode : bool) then mret true
        else someConnected graph ledAnodeBus ledCathodeBus rest
  end.

Definition checkSeriesConnections (this : CircuitValidator) (circuit : Circuit)
    (graph : Graph) : outcome (list Diagnostic) :=
  match List.find is_led (components circuit),
        List.find is_resistor (components circuit) with
  | Some led, Some resistor =>
      let ledAnodeBus := placedPinBus this led "anode" in
      let ledCathodeBus := placedPinBus this led "cathode" in
      let resistorBuses := placedBuses this (comp_placement resistor) in
      let directConnection :=
        includesBus resistorBuses ledAnodeBus || includesBus resistorBuses ledCathodeBus in
      if negb directConnection then
        connected ← someConnected graph ledAnodeBus ledCathodeBus resistorBuses;
        mret (if negb connected
              then [createError "OPEN_CIRCUIT" "led-resistor"
                      (OpenCircuitExtra [ledAnodeBus; ledCathodeBus] resistorBuses)]
              else [])
      else mret []
  | _, _ => mret []
  end.

Definition checkCompletePaths (this : CircuitValidator) (circuit : Circuit)
    (graph : Graph) : outcome (list Diagnostic) :=
  match List.find is_led (components circuit) with
  | None => mret []
  | Some led =>
      let ledCathodeBus := placedPinBus this led "cathode" in
      let ledAnodeBus := placedPinBus this led "anode" in
      cathodeToGround ← pathToGround this ledCathodeBus graph circuit;
      anodeToSource ← pathToPowerSource this ledAnodeBus graph circuit;
      mret ((if negb cathodeToGround
             then [createError "NO_GROUND_PATH" (comp_id led)
                     (CathodeBusExtra ledCathodeBus)]
             else []) ++
            (if negb (found anodeToSource)
             then [createError "NO_SOURCE_PATH" (comp_id led)
                     (AnodeBusExtra ledAnodeBus)]
             else []))
  end.

(** The inner loop of [findConnectedGroups]: the buses newly visited from
    the queue, in visiting order. *)
Fixpoint group_loop (fuel : nat) (graph : Graph) (visited : gset string)
    (group : list string) (queue : list string)
    : outcome (gset string * list string) :=
  match fuel with
  | O => OutOfFuel
  | S fuel =>
      match queue with
      | [] => Returned (visited, group)
      | node :: queue =>
          if bool_decide (node ∈ visited)
          then group_loop fuel graph visited group queue
          else group_loop fuel graph ({[node]} ∪ visited) (group ++ [node])
                 (queue ++ neighbors graph (Some node))
      end
  end.

Fixpoint groups_from (graph : Graph) (startNodes : list string)
    (visited : gset string) (groups : list (list string))
    : outcome (list (list string)) :=
  match startNodes with
  | [] => Returned groups
  | startNode :: rest =>
      if bool_decide (startNode ∈ visited) then groups_from graph rest visited groups
      else
        '(visited, group) ← group_loop (bfs_fuel graph) graph visited [] [startNode];
        groups_from graph rest visited (groups ++ [group])
  end.

Definition findConnectedGroups (graph : Graph) : outcome (list (list string)) :=
  groups_from graph (OMap.keys graph) ∅ [].

Definition checkIsolatedComponents (circuit : Circuit) (graph : Graph)
    : outcome (list Diagnostic) :=
  connectedGroups ← findConnectedGroups graph;
  mret (if (1 <? length connectedGroups)%nat
        then [createError "DISCONNECTED_GROUPS" "circuit"
                (GroupsExtra (length connectedGroups) (length <$> connectedGroups))]
        else []).

Definition validateTopology (this : CircuitValidator) (circuit : Circuit)
    : outcome (list Diagnostic) :=
  if (length (components circuit) =? 0)%nat
  then mret [createError "EMPTY_CIRCUIT" "circuit" NoExtra]
  else if (length (wires circuit) =? 0)%nat && (0 <? length (components circuit))%nat
  then mret [createError "NO_CONNECTIONS" "circuit" NoExtra]
  else
    let graph := buildBusConnectivityGraph this circuit in
    seriesErrors ← checkSeriesConnections this circuit graph;
    pathErrors ← checkCompletePaths this circuit graph;
    isolationErrors ← checkIsolatedComponents circuit graph;
    mret (seriesErrors ++ pathErrors ++ isolationErrors).

(** ** Layer 5: component-specific rules *)

(** [wire.from.startsWith(`${component.id}.`)] *)
Definition touches (component : ComponentInstance) (endpoint : string) : bool :=
  startsWith (comp_id component +:+ ".") endpoint.

Definition placed (component : ComponentInstance) (pin : string) : bool :=
  match assoc pin (comp_placement component) with
  | Some holeId => negb (String.eqb holeId "")
  | None => false
  end.

Definition ledRules (this : CircuitValidator) (component : ComponentInstance)
    : list Diagnostic :=
  (if negb (placed component "anode") || negb (placed component "cathode")
   then [createError "INVALID_LED_PLACEMENT" (comp_id component) NoExtra]
   else []) ++
  (if placed component "anode" && placed component "cathode" then
     let anodeBus := placedPinBus this component "anode" in
     let cathodeBus := placedPinBus this component "cathode" in
     let cathodeHoles := busHoles this cathodeBus in
     let anodeHoles := busHoles this anodeBus in
     (if existsb (is_type "power") cathodeHoles
      then [createError "LED_REVERSED" (comp_id component) NoExtra] else []) ++
     (if existsb (is_type "ground") anodeHoles
      then [createError "LED_REVERSED" (comp_id component) NoExtra] else [])
   else []).

Definition resistorRules (component : ComponentInstance) : list Diagnostic :=
  if negb (length (comp_placement component) =? 2)%nat
  then [createError "INVALID_RESISTOR_PLACEMENT" (comp_id component) NoExtra]
  else [].

Definition microcontrollerRules (component : ComponentInstance)
    (componentDef : JSValue) (circuit : Circuit) : outcome (list Diagnostic) :=
  let picoWires :=
    filter (λ w, touches component (wire_from w) = true
                 ∨ touches component (wire_to w) = true) (wires circuit) in
  collect (λ wire _,
      let isPWMSignal :=
        is_string "pwm" (get_opt "signal_type" (wire_properties wire)) ||
        is_string "signal" (get_opt "function" (wire_properties wire)) in
      if isPWMSignal then
        let endpoint := if touches component (wire_from wire)
                        then wire_from wire else wire_to wire in
        let pinName := split_dot endpoint !! 1%nat in
        pins ← get "pins" componentDef;
        pinDef ← get (default "undefined" pinName) pins;
        let pwmErrors :=
          if truthy pinDef && is_false (get_opt "pwmCapable" pinDef)
          then [createError "INVALID_PWM_PIN" (comp_id component)
                  (PwmPinExtra pinName (wire_id wire))]
          else [] in
        _ ← (if truthy pinDef && is_true (get_opt "pwmCapable" pinDef)
             then to_string (get_opt "pwmChannel" pinDef)
             else mret "");
        mret pwmErrors
      else mret [])
    0 picoWires.

Definition validateAgainstComponentRules (this : CircuitValidator)
    (component : ComponentInstance) (componentDef : JSValue) (circuit : Circuit)
    : outcome (list Diagnostic) :=
  validation ← get "validation" componentDef;
  if negb (truthy validation) then mret []
  else
    rules ← get "rules" validation;
    if negb (truthy rules) then mret []
    else
      electricalType ← get "electricalType" validation;
      let ledErrors :=
        if is_string "led" electricalType then ledRules this component else [] in
      let resistorErrors :=
        if is_string "resistor" electricalType then resistorRules component else [] in
      microcontrollerErrors ←
        (if is_string "microcontroller" electricalType
         then microcontrollerRules component componentDef circuit
         else mret []);
      mret (ledErrors ++ resistorErrors ++ microcontrollerErrors).

(** The body of the loop of [validateComponentRules], with its
    [try]/[catch]: a component whose definition cannot be loaded, or whose
    rules throw, contributes nothing. *)
Definition checkComponentRules (net : Network) (circuit : Circuit)
    (comp : ComponentInstance) (st : State) : outcome (list Diagnostic) * State :=
  let '(loaded, st1) := loadComponent net (comp_type comp) st in
  (try_catch
     (componentDef ← loaded;
      validation ← get "validation" componentDef;
      if truthy validation
      then validateAgainstComponentRules (this st1) comp componentDef circuit
      else mret [])
     (λ _, Returned []),
   st1).

Definition validateComponentRules (net : Network) (circuit : Circuit) (st : State)
    : outcome (list Diagnostic) * State :=
  collect_st (checkComponentRules net circuit) (components circuit) st.

(** ** The entry point *)

(** Sequencing of two steps of an [async] method: the second runs when the
    first returned. *)
Definition andThen {A B} (m : outcome A * State)
    (k : A → State → outcome B * State) : outcome B * State :=
  match m with
  | (Returned a, st) => k a st
  | (Thrown e, st) => (Thrown e, st)
  | (OutOfFuel, st) => (OutOfFuel, st)
  end.

(** [validate] from layer 1 on, once the component library is there. *)
Definition validateLayers (net : Network) (circuitJSON : JSValue) (st : State)
    : outcome ValidationResult * State :=
  andThen (validateSchema circuitJSON, st) (λ structuralErrors st,
    if (0 <? length structuralErrors)%nat
    then (Returned {| valid := false; errors := structuralErrors; warnings := [] |}, st)
    else
      match circuit_of circuitJSON with
      | None => (Thrown TypeError, st)
      | Some circuit =>
          andThen (validateReferences net circuit st) (λ referenceErrors st,
          andThen (validateElectricalRules (this st) circuit, st) (λ electricalErrors st,
          let electricalWarnings := checkElectricalWarnings circuit in
          andThen (validateTopology (this st) circuit, st) (λ topologyErrors st,
          andThen (validateComponentRules net circuit st) (λ componentErrors st,
          let errors := structuralErrors ++ referenceErrors ++ electricalErrors ++
                        topologyErrors ++ componentErrors in
          (Returned {| valid := (length errors =? 0)%nat;
                       errors := errors;
                       warnings := electricalWarnings |}, st)))))
      end).

Definition libraryLoadFailed : ValidationResult :=
  {| valid := false;
     errors := [createError "LIBRARY_LOAD_FAILED" "validator" NoExtra];
     warnings := [] |}.

(** [validate(circuitJSON)] *)
Definition validate (net : Network) (circuitJSON : JSValue) (st : State)
    : outcome ValidationResult * State :=
  if negb (truthy (componentLibrary (this st)))
  then andThen (init net st) (λ loaded st,
         if negb loaded then (Returned libraryLoadFailed, st)
         else validateLayers net circuitJSON st)
  else validateLayers net circuitJSON st.

(** ** Sample data

    A corner of the breadboard as the generator lays it out (columns 1, 5
    and 9 of the main grid, one hole of each top rail), and small circuits
    on it. *)
Module Sample.
Definition hole (id bus type : string) : Hole :=
  {| hole_id := id; hole_bus := bus; hole_type := type |}.

Definition breadboard : list Hole :=
  [ hole "1J" "bus1-top" "main"; hole "1F" "bus1-top" "main";
    hole "1E" "bus1-bottom" "main";
    hole "5J" "bus5-top" "main"; hole "5F" "bus5-top" "main";
    hole "5E" "bus5-bottom" "main"; hole "5A" "bus5-bottom" "main";
    hole "9J" "bus9-top" "main"; hole "9E" "bus9-bottom" "main";
    hole "1W" "rail-top-W" "power"; hole "1X" "rail-top-X" "ground" ].

Definition validator : CircuitValidator := new_CircuitValidator breadboard.

Definition component (id type : string) (placement : list (string * string))
    : ComponentInstance :=
  {| comp_id := id; comp_type := type; comp_placement := placement |}.

Definition wire (id from to : string) : WireInstance :=
  {| wire_id := id; wire_from := from; wire_to := to;
     wire_properties := JUndefined |}.

(** A resistor with both legs in column 5, top half: one bus. *)
Definition shortedResistor : ComponentInstance :=
  component "r1" "resistor" [("pin0", "5J"); ("pin1", "5F")].

(** The power rail wired to column 5 and, from another hole of the same
    column, on to the ground rail: a short through the bus, made of two
    wires. *)
Definition shortThroughBus : Circuit :=
  {| components := [component "r1" "resistor" [("pin0", "1J"); ("pin1", "9J")]];
     wires := [wire "w1" "1W" "5J"; wire "w2" "5F" "1X"] |}.

(** The power rail wired straight to the ground rail. *)
Definition directShort : Circuit :=
  {| components := [component "r1" "resistor" [("pin0", "1J"); ("pin1", "9J")]];
     wires := [wire "w1" "1J" "9J"; wire "w2" "1W" "1X"] |}.

(** An LED across the gap of column 1 and the shorted resistor. *)
Definition shortedCircuit : Circuit :=
  {| components := [component "led1" "led" [("anode", "1F"); ("cathode", "1E")];
                    shortedResistor];
     wires := [wire "w1" "1J" "5J"] |}.

Definition led1 : ComponentInstance :=
  component "led1" "led" [("anode", "1F"); ("cathode", "1E")].

Definition r1 : ComponentInstance :=
  component "r1" "resistor" [("pin0", "5J"); ("pin1", "9J")].

(** An LED in column 1 and a resistor from column 5 to column 9, and
    nothing between them: once without any wire, once with a wire that
    leads elsewhere, once with a wire from the LED to the resistor. *)
Definition apartNoWires : Circuit :=
  {| components := [led1; r1]; wires := [] |}.

Definition apartOneWire : Circuit :=
  {| components := [led1; r1]; wires := [wire "w1" "9E" "1X"] |}.

Definition joinedByWire : Circuit :=
  {| components := [led1; r1]; wires := [wire "w1" "1J" "5F"] |}.

(** The same LED under a type name of its own. *)
Definition customLed : Circuit :=
  {| components := [component "led1" "led-green-3mm"
                      [("anode", "1F"); ("cathode", "1E")]; r1];
     wires := [wire "w1" "9E" "1X"] |}.

(** The component library and three component files. *)
Definition library : JSValue :=
  JObj [("library",
         JObj [("version", JStr "1.0");
               ("index",
                JObj [("led", JStr "basic/led.json");
                      ("resistor", JStr "basic/resistor.json");
                      ("raspberry-pi-pico", JStr "microcontrollers/pico.json")])])].

Definition ledDefinition : JSValue :=
  JObj [("pins", JObj [("anode", JObj [("electricalType", JStr "input")]);
                       ("cathode", JObj [("electricalType", JStr "output")])]);
        ("validation", JObj [("electricalType", JStr "led"); ("rules", JObj [])])].

Definition resistorDefinition : JSValue :=
  JObj [("pins", JObj [("pin0", JObj [("electricalType", JStr "io")]);
                       ("pin1", JObj [("electricalType", JStr "io")])]);
        ("validation", JObj [("electricalType", JStr "resistor"); ("rules", JObj [])])].

Definition picoDefinition : JSValue :=
  JObj [("pins", JObj [("GP0", JObj [("electricalType", JStr "gpio");
                                     ("pwmCapable", JBool true);
                                     ("pwmChannel", JStr "0A")]);
                       ("GND_3", JObj [("electricalType", JStr "ground");
                                       ("pwmCapable", JBool false)])]);
        ("validation",
         JObj [("electricalType", JStr "microcontroller"); ("rules", JObj [])])].

Definition files : list (string * JSValue) :=
  [ ("components/library.json", library);
    ("components/basic/led.json", JObj [("component", ledDefinition)]);
    ("components/basic/resistor.json", JObj [("component", resistorDefinition)]);
    ("components/microcontrollers/pico.json", JObj [("component", picoDefinition)]) ].

(** An LED whose cathode sits on the power rail, a resistor with one leg,
    and a Pico with a PWM signal wired to its ground pin. *)
Definition reversedLed : ComponentInstance :=
  component "led1" "led" [("anode", "1F"); ("cathode", "1W")].

Definition oneLeg : ComponentInstance :=
  component "r1" "resistor" [("pin0", "5J")].

Definition pico : ComponentInstance :=
  component "pico1" "raspberry-pi-pico" [("GP0", "1J"); ("GND_3", "5J")].

(** A microcontroller definition that lists no pins. *)
Definition bareDefinition : JSValue :=
  JObj [("validation",
         JObj [("electricalType", JStr "microcontroller"); ("rules", JObj [])])].

Definition pwmOnGround : Circuit :=
  {| components := [pico];
     wires := [ {| wire_id := "w1"; wire_from := "pico1.GND_3"; wire_to := "9J";
                   wire_properties := JObj [("signal_type", JStr "pwm")] |} ] |}.

(** A server that has the files, and a network that is down. *)
Definition network : Network := λ _ url, assoc url files.

Definition offline : Network := λ _ _, None.

(** The members an object inherits from [Object.prototype], printed the
    way V8 prints them.  (The index of the sample library is an object;
    what arrays, strings and numbers inherit is left out of the sample.) *)
Definition engine : Builtins := λ v k,
  match v with
  | JObj _ =>
      if String.eqb k "__proto__" then Some "[object Object]"
      else if String.eqb k "constructor" then Some "function Object() { [native code] }"
      else if inherited_key k then Some ("function " +:+ k +:+ "() { [native code] }")
      else None
  | _ => None
  end.

(** The validator as constructed, and after a successful [init()]. *)
Definition fresh : State :=
  {| this := validator; requests := []; builtins := engine |}.

Definition ready : State := (init network fresh).2.

(** Circuit documents. *)
Definition componentJSON (id type : string) (placement : list (string * string))
    : JSValue :=
  JObj [("id", JStr id); ("type", JStr type);
        ("placement", JObj (prod_map Datatypes.id JStr <$> placement))].

Definition wireJSON (id from to : string) : JSValue :=
  JObj [("id", JStr id); ("from", JStr from); ("to", JStr to)].

Definition document (components wires : list JSValue) : JSValue :=
  JObj [("circuit",
         JObj [("metadata", JObj [("name", JStr "Sample");
                                  ("description", JStr "A sample circuit")]);
               ("components", JArr components);
               ("wires", JArr wires)])].

(** Power rail, resistor, LED, ground rail. *)
Definition litLed : JSValue :=
  document
    [ componentJSON "r1" "resistor" [("pin0", "1J"); ("pin1", "5J")];
      componentJSON "led1" "led" [("anode", "5F"); ("cathode", "5E")] ]
    [ wireJSON "w1" "1W" "1J"; wireJSON "w2" "5E" "1X" ].

(** A document without a [components] array. *)
Definition noComponents : JSValue :=
  JObj [("circuit",
         JObj [("metadata", JObj [("name", JStr "Sample")]);
               ("wires", JArr [wireJSON "w1" "1W" "1J"])])].

(** A document whose [components] array holds a [null]. *)
Definition nullComponent : JSValue := document [JNull] [].


(** A document whose only component has an object for [id], with an entry
    [toString] of its own, and no [type]. *)
Definition unprintableId : JSValue :=
  document [JObj [("id", JObj [("toString", JNum "1")])]] [].
End Sample.

(** ** Vocabulary of the statements *)

(** Bus [b] is in the adjacency set of bus [a]. *)
Definition adjacent (graph : Graph) (a b : string) : Prop :=
  ∃ adj, OMap.get a graph = Some adj ∧ b ∈ adj.

(** One edge of the graph, between the values [pathExists] handles. *)
Definition step (graph : Graph) (a b : BusRef) : Prop :=
  ∃ x y, a = Some x ∧ b = Some y ∧ adjacent graph x y.

(** [b] can be reached from [a] by following edges of the graph. *)
Definition reachable (graph : Graph) : BusRef → BusRef → Prop := rtc (step graph).

(** [bus] is what the bus index answers for some hole, and passes the
    validator's truthiness tests. *)
Definition resolves (this : CircuitValidator) (bus : string) : Prop :=
  bus ≠ "" ∧ ∃ holeId, busMap this !! holeId = Some bus.

(** The invariant of the graph under construction: the adjacency sets are
    symmetric, no bus is its own neighbour, and every bus joined by an
    edge is one the bus index resolved. *)
Definition graph_invariant (this : CircuitValidator) (graph : Graph) : Prop :=
  ∀ a b, adjacent graph a b →
    adjacent graph b a ∧ a ≠ b ∧ resolves this a ∧ resolves this b.

(** No bus of the breadboard is named like a member of [Object.prototype]
    (the generator names them [bus<col>-top], [bus<col>-bottom],
    [rail-top-<row>] and [rail-bottom-<row>]). *)
Definition plain_buses (this : CircuitValidator) : Prop :=
  ∀ holeId bus, busMap this !! holeId = Some bus → inherited_key bus = false.

(** The pins of a component that sit on a given bus, in placement order. *)
Definition pins_on (bus : string) (pbs : list PinBus) : list string :=
  pb_pin <$> filter (λ pb, pb_bus pb = bus) pbs.

(** The breadboard hole a wire endpoint names: an endpoint with a ['.'] is
    a reference to a component pin, any other is looked up as a hole id. *)
Definition endpointHole (this : CircuitValidator) (endpoint : string) : option Hole :=
  if includes "." endpoint then None else holeMap this !! endpoint.

(** The two endpoints of the wire are holes, one of type ['power'] and the
    other of type ['ground']. *)
Definition power_to_ground (this : CircuitValidator) (wire : WireInstance) : Prop :=
  ∃ p g, hole_type p = "power" ∧ hole_type g = "ground" ∧
    ((endpointHole this (wire_from wire) = Some p ∧
      endpointHole this (wire_to wire) = Some g) ∨
     (endpointHole this (wire_from wire) = Some g ∧
      endpointHole this (wire_to wire) = Some p)).

(** The series connection as [checkSeriesConnections] computes it, from
    the buses it collects: a bus of a placed resistor pin is the anode or
    the cathode bus of the LED, or can be reached from one of the two in
    the bus graph of the circuit. *)
Definition series_connected (this : CircuitValidator) (circuit : Circuit)
    (led resistor : ComponentInstance) : Prop :=
  ∃ rBus ledBus,
    rBus ∈ placedBuses this (comp_placement resistor) ∧
    (ledBus = placedPinBus this led "anode" ∨
     ledBus = placedPinBus this led "cathode") ∧
    (ledBus = Some rBus ∨
     reachable (buildBusConnectivityGraph this circuit) ledBus (Some rBus)).

(** [circuitJSON.circuit.components] and [circuitJSON.circuit.wires], read
    without throwing. *)
Definition components_of (circuitJSON : JSValue) : JSValue :=
  get_opt "components" (get_opt "circuit" circuitJSON).

Definition wires_of (circuitJSON : JSValue) : JSValue :=
  get_opt "wires" (get_opt "circuit" circuitJSON).


(** The value has a string form: a template literal that quotes it
    returns. *)
Definition printable (v : JSValue) : Prop := ∃ text, to_string v = Returned text.



(** The type codes of layer 1. *)
Definition structural_types : list string :=
  [ "INVALID_JSON"; "MISSING_CIRCUIT"; "MISSING_METADATA"; "MISSING_COMPONENTS";
    "MISSING_WIRES"; "INVALID_METADATA"; "MISSING_COMPONENT_ID";
    "MISSING_COMPONENT_TYPE"; "MISSING_PLACEMENT"; "EMPTY_PLACEMENT";
    "INVALID_HOLE_ID"; "INVALID_PROPERTIES"; "MISSING_WIRE_ID";
    "MISSING_WIRE_FROM"; "MISSING_WIRE_TO" ].

(** A diagnostic of severity ['error']; one that layer 1 makes. *)
Definition is_error (d : Diagnostic) : Prop := d_severity d = SevError.

(** The diagnostic is an error of the given type, at the given location,
    with the given structured fields. *)
Definition reports (d : Diagnostic) (type location : string) (extra : Extra) : Prop :=
  d_type d = type ∧ d_severity d = SevError ∧ d_location d = location ∧
  d_extra d = extra.

Definition is_structural (d : Diagnostic) : Prop :=
  d_severity d = SevError ∧ d_type d ∈ structural_types.


(** What a call leaves untouched of the validator: everything but the
    cache of loaded components. *)
Definition same_board (st st' : State) : Prop :=
  holes (this st') = holes (this st) ∧
  busMap (this st') = busMap (this st) ∧
  holeMap (this st') = holeMap (this st) ∧
  componentLibrary (this st') = componentLibrary (this st).


(** ** Vocabulary of the statements about the bus graph and the paths *)

(** A pin of the component is placed on a hole of the bus. *)
Definition component_on (this : CircuitValidator) (component : ComponentInstance)
    (bus : string) : Prop :=
  bus ≠ "" ∧
  ∃ pinName holeId, (pinName, holeId) ∈ comp_placement component ∧
    busMap this !! holeId = Some bus.

(** The component is the first of the circuit with the id. *)
Definition first_with_id (circuit : Circuit) (id : string)
    (component : ComponentInstance) : Prop :=
  ∃ before after, components circuit = before ++ component :: after ∧
    Forall (λ c, comp_id c ≠ id) before ∧ comp_id component = id.

(** The bus a wire endpoint stands for: the bus of the hole it names or,
    for a reference [id.pin] (an endpoint with a ['.']: [id] is what
    stands before the first ['.'], [pin] what follows up to the next), the
    bus of the hole where the first component with that id has the pin. *)
Definition endpoint_bus (this : CircuitValidator) (circuit : Circuit)
    (endpoint bus : string) : Prop :=
  (includes "." endpoint = false ∧ busMap this !! endpoint = Some bus) ∨
  (includes "." endpoint = true ∧
   ∃ pinName component holeId,
     (split_reference endpoint).2 = Some pinName ∧
     first_with_id circuit (split_reference endpoint).1 component ∧
     assoc pinName (comp_placement component) = Some holeId ∧
     holeId ≠ "" ∧ busMap this !! holeId = Some bus).

(** The endpoint is a reference [id.pin] to the pin of that name of a
    component of the circuit. *)
Definition pin_reference (circuit : Circuit) (endpoint pinName : string) : Prop :=
  includes "." endpoint = true ∧
  (split_reference endpoint).2 = Some pinName ∧
  (split_reference endpoint).1 ∈ comp_id <$> components circuit.

(** The two ends of the wire stand for the two buses, in either order. *)
Definition wire_between (this : CircuitValidator) (circuit : Circuit)
    (wire : WireInstance) (a b : string) : Prop :=
  a ≠ "" ∧ b ≠ "" ∧
  ((endpoint_bus this circuit (wire_from wire) a ∧
    endpoint_bus this circuit (wire_to wire) b) ∨
   (endpoint_bus this circuit (wire_from wire) b ∧
    endpoint_bus this circuit (wire_to wire) a)).

(** Two buses are joined directly: by two pins of one component, or by the
    two ends of one wire. *)
Definition joined (this : CircuitValidator) (circuit : Circuit) (a b : string) : Prop :=
  (∃ component, component ∈ components circuit ∧
     component_on this component a ∧ component_on this component b) ∨
  (∃ wire, wire ∈ wires circuit ∧ wire_between this circuit wire a b).

(** The shape of a graph that [addEdge] built: no bus is listed twice, as
    a node or as a neighbour, every node has a neighbour, and every
    neighbour is a node. *)
Definition well_formed (graph : Graph) : Prop :=
  NoDup (OMap.keys graph) ∧
  ∀ bus adj, (bus, adj) ∈ graph →
    adj ≠ [] ∧ NoDup adj ∧ ∀ b, b ∈ adj → b ∈ OMap.keys graph.

(** A wire of the circuit one end of which stands for the bus. *)
Definition wire_on (this : CircuitValidator) (circuit : Circuit) (bus : string)
    (wire : WireInstance) : Prop :=
  wire ∈ wires circuit ∧
  (endpoint_bus this circuit (wire_from wire) bus ∨
   endpoint_bus this circuit (wire_to wire) bus).

(** A ground pin: a pin of a component of the circuit whose name contains
    ["GND"].  A GPIO pin: one whose name starts with ["GP"]. *)
Definition ground_pin (circuit : Circuit) (endpoint : string) : Prop :=
  ∃ pinName, pin_reference circuit endpoint pinName ∧ includes "GND" pinName = true.

Definition gpio_pin (circuit : Circuit) (endpoint : string) : Prop :=
  ∃ pinName, pin_reference circuit endpoint pinName ∧ startsWith "GP" pinName = true.

(** What ends the search of [pathToGround] at a bus: a hole of type
    ['ground'] on it, or a wire on it one end of which is a ground pin. *)
Definition grounded (this : CircuitValidator) (circuit : Circuit) (bus : string)
    : Prop :=
  (∃ h, h ∈ holes this ∧ hole_bus h = bus ∧ hole_type h = "ground") ∨
  (∃ wire, wire_on this circuit bus wire ∧
     (ground_pin circuit (wire_from wire) ∨ ground_pin circuit (wire_to wire))).

(** What ends the search of [pathToPowerSource] at a bus: a hole of type
    ['power'] on it, or a wire on it one end of which is a GPIO pin. *)
Definition powered (this : CircuitValidator) (circuit : Circuit) (bus : string)
    : Prop :=
  (∃ h, h ∈ holes this ∧ hole_bus h = bus ∧ hole_type h = "power") ∨
  (∃ wire, wire_on this circuit bus wire ∧
     (gpio_pin circuit (wire_from wire) ∨ gpio_pin circuit (wire_to wire))).

(** Every node of the graph can be reached from every other. *)
Definition connected (graph : Graph) : Prop :=
  ∀ a b, a ∈ OMap.keys graph → b ∈ OMap.keys graph →
    reachable graph (Some a) (Some b).


(** The pin of the component is placed on a hole of the bus. *)
Definition pin_bus (this : CircuitValidator) (component : ComponentInstance)
    (pin bus : string) : Prop :=
  ∃ holeId, assoc pin (comp_placement component) = Some holeId ∧
    busMap this !! holeId = Some bus.

(** Two different buses joined directly; two buses wired together: the
    same bus, or two buses with a chain of such joints between them. *)
Definition linked (this : CircuitValidator) (circuit : Circuit) (a b : string) : Prop :=
  a ≠ b ∧ joined this circuit a b.

Definition wired (this : CircuitValidator) (circuit : Circuit) : relation string :=
  rtc (linked this circuit).

(** The circuit is in one piece: any two buses that are joined to some
    other bus are wired together. *)
Definition in_one_piece (this : CircuitValidator) (circuit : Circuit) : Prop :=
  ∀ a b, (∃ c, linked this circuit a c) → (∃ c, linked this circuit b c) →
    wired this circuit a b.

(** The LED and the resistor are in series: a pin of the resistor sits on
    a bus that is the bus of the anode or of the cathode of the LED, or is
    wired to it. *)
Definition in_series (this : CircuitValidator) (circuit : Circuit)
    (led resistor : ComponentInstance) : Prop :=
  ∃ rBus ledBus,
    component_on this resistor rBus ∧
    (pin_bus this led "anode" ledBus ∨ pin_bus this led "cathode" ledBus) ∧
    wired this circuit ledBus rBus.

(** ** Vocabulary of the statements about the references *)

(** The id occurs at two positions of the list. *)
Definition repeated (id : string) (ids : list string) : Prop :=
  ∃ i j, i < j ∧ ids !! i = Some id ∧ ids !! j = Some id.

(** The reference a wire endpoint makes is one the reference check
    accepts: an empty one, a pin of a component of the circuit (the part
    of the reference up to its first ['.'] is the id, whatever follows),
    or a hole of the breadboard. *)
Definition endpoint_resolves (this : CircuitValidator) (circuit : Circuit)
    (reference : string) : Prop :=
  reference = "" ∨
  (includes "." reference = true ∧
   (split_reference reference).1 ≠ "" ∧
   (split_reference reference).1 ∈ comp_id <$> components circuit) ∨
  (includes "." reference = false ∧ is_Some (holeMap this !! reference)).

(** The request log of [st'] extends that of [st], and the cache of loaded
    components of [st'] holds every entry of that of [st]. *)
Definition extends (st st' : State) : Prop :=
  requests st `prefix_of` requests st' ∧
  loadedComponents (this st) ⊆ loadedComponents (this st').

(** ** Vocabulary of the statements about strings *)

(** A decimal digit; a string of decimal digits. *)
Definition is_digit (c : ascii) : bool :=
  ((48 <=? Ascii.N_of_ascii c) && (Ascii.N_of_ascii c <=? 57))%N.

Fixpoint digit_string (s : string) : bool :=
  match s with
  | EmptyString => true
  | String c rest => is_digit c && digit_string rest
  end.

(* ===================================================================== *)
(** ** Vocabulary of the statements about the component rules *)

(** The definition carries rules of the given electrical type: its
    [validation] and the [rules] of it are truthy, and
    [validation.electricalType] is the type. *)
Definition rules_of_type (componentDef : JSValue) (electricalType : string) : Prop :=
  truthy (get_opt "validation" componentDef) = true ∧
  truthy (get_opt "rules" (get_opt "validation" componentDef)) = true ∧
  get_opt "electricalType" (get_opt "validation" componentDef) = JStr electricalType.

(** The pin is placed, on a hole with a non-empty id. *)
Definition pin_placed (component : ComponentInstance) (pin : string) : Prop :=
  ∃ holeId, assoc pin (comp_placement component) = Some holeId ∧ holeId ≠ "".

(** The pin is placed on a bus that has a hole of the given type. *)
Definition pin_on_rail (this : CircuitValidator) (component : ComponentInstance)
    (pin type : string) : Prop :=
  ∃ bus h, pin_bus this component pin bus ∧
    h ∈ holes this ∧ hole_bus h = bus ∧ hole_type h = type.

(** The wire carries a PWM signal: its [properties] say [signal_type:
    'pwm'] or [function: 'signal']. *)
Definition pwm_signal (wire : WireInstance) : Prop :=
  get_opt "signal_type" (wire_properties wire) = JStr "pwm" ∨
  get_opt "function" (wire_properties wire) = JStr "signal".

(** The end of the wire at the component: [from] when it starts with the
    id of the component and a ['.'], otherwise [to] when that does. *)
Definition wire_end (component : ComponentInstance) (wire : WireInstance)
    (endpoint : string) : Prop :=
  (startsWith (comp_id component +:+ ".") (wire_from wire) = true ∧
   endpoint = wire_from wire) ∨
  (startsWith (comp_id component +:+ ".") (wire_from wire) = false ∧
   startsWith (comp_id component +:+ ".") (wire_to wire) = true ∧
   endpoint = wire_to wire).

(** The type codes of layer 5. *)
Definition rule_types : list string :=
  ["INVALID_LED_PLACEMENT"; "LED_REVERSED"; "INVALID_RESISTOR_PLACEMENT";
   "INVALID_PWM_PIN"].

(** * Part 2: properties *)
(* ===================================================================== *)

(** ** The helpers on the sample data *)

Example split_reference_pin : split_reference "pico1.GP0" = ("pico1", Some "GP0").
Proof. reflexivity. Qed.

Example split_reference_three_parts : split_reference "a.b.c" = ("a", Some "b").
Proof. reflexivity. Qed.

Example includes_dot : includes "." "pico1.GND_3" = true ∧ includes "." "5J" = false.
Proof. split; reflexivity. Qed.

Example isGroundPin_of_component :
  isGroundPin "r1.GND" Sample.apartOneWire = true ∧
  isGroundPin "pico1.GND_3" Sample.apartOneWire = false.
Proof. split; reflexivity. Qed.

Example buildBusConnectivityGraph_joinedByWire :
  buildBusConnectivityGraph Sample.validator Sample.joinedByWire =
  [ ("bus1-top", ["bus1-bottom"; "bus5-top"]);
    ("bus1-bottom", ["bus1-top"]);
    ("bus5-top", ["bus9-top"; "bus1-top"]);
    ("bus9-top", ["bus5-top"]) ].
Proof. vm_compute. reflexivity. Qed.

Example pathExists_joinedByWire :
  pathExists (buildBusConnectivityGraph Sample.validator Sample.joinedByWire)
    (Some "bus9-top") (Some "bus1-bottom") = Returned true.
Proof. vm_compute. reflexivity. Qed.

Example pathExists_apartOneWire :
  pathExists (buildBusConnectivityGraph Sample.validator Sample.apartOneWire)
    (Some "bus9-top") (Some "bus1-bottom") = Returned false.
Proof. vm_compute. reflexivity. Qed.

Example pathExists_undefined_target :
  pathExists (buildBusConnectivityGraph Sample.validator Sample.joinedByWire)
    (Some "bus9-top") None = Returned false.
Proof. vm_compute. reflexivity. Qed.

Example Dict_set_order :
  Dict.set "2" 0 (Dict.set "a" 1 (Dict.set "10" 2 [])) = [("2", 0); ("10", 2); ("a", 1)].
Proof. vm_compute. reflexivity. Qed.

(** ** Association lists, maps and sets *)

Lemma assoc_set_eq {V} k (v : V) m : assoc k (OMap.set k v m) = Some v.
Proof.
  induction m as [|[k' v'] m IH]; simpl.
  - by rewrite String.eqb_refl.
  - destruct (String.eqb k k') eqn:E; simpl.
    + by rewrite String.eqb_refl.
    + by rewrite E.
Qed.

Lemma assoc_set_ne {V} k k' (v : V) m :
  k ≠ k' → assoc k' (OMap.set k v m) = assoc k' m.
Proof.
  intros Hne. induction m as [|[k0 v0] m IH]; simpl.
  - destruct (String.eqb k' k) eqn:E; [|done].
    apply String.eqb_eq in E. congruence.
  - destruct (String.eqb k k0) eqn:E; simpl.
    + apply String.eqb_eq in E. subst k0.
      destruct (String.eqb k' k) eqn:E'; [|done].
      apply String.eqb_eq in E'. congruence.
    + by rewrite IH.
Qed.

Lemma assoc_set {V} k k' (v : V) m :
  assoc k' (OMap.set k v m) = if String.eqb k k' then Some v else assoc k' m.
Proof.
  destruct (String.eqb k k') eqn:E.
  - apply String.eqb_eq in E. subst. apply assoc_set_eq.
  - apply String.eqb_neq in E. by apply assoc_set_ne.
Qed.

Lemma assoc_elem_of {V} k (v : V) m : assoc k m = Some v → (k, v) ∈ m.
Proof.
  induction m as [|[k' v'] m IH]; simpl; [done|].
  destruct (String.eqb k k') eqn:E.
  - apply String.eqb_eq in E. intros [= ->]. subst. left.
  - intros. right. auto.
Qed.

Lemma OSet_elem_of_add x y s : x ∈ OSet.add y s ↔ x = y ∨ x ∈ s.
Proof.
  unfold OSet.add, OSet.has. case_bool_decide.
  - split; [by right | intros [->|]; done].
  - rewrite elem_of_app, list_elem_of_singleton. tauto.
Qed.

(** ** The graph *)

Lemma adjacent_neighbors graph a b :
  adjacent graph a b ↔ b ∈ neighbors graph (Some a).
Proof.
  unfold adjacent, neighbors, OMap.get. split.
  - intros (adj & -> & H). done.
  - destruct (assoc a graph) as [adj|]; simpl; [eauto | by intros ?%elem_of_nil].
Qed.

Lemma neighbors_set graph k adj a :
  neighbors (OMap.set k adj graph) (Some a)
  = if String.eqb k a then adj else neighbors graph (Some a).
Proof.
  unfold neighbors, OMap.get. rewrite assoc_set.
  by destruct (String.eqb k a).
Qed.

Lemma neighbors_ensure graph k a :
  neighbors (if OMap.has k graph then graph else OMap.set k [] graph) (Some a)
  = neighbors graph (Some a).
Proof.
  unfold OMap.has. destruct (assoc k graph) eqn:E; [done|].
  rewrite neighbors_set. destruct (String.eqb k a) eqn:E'; [|done].
  apply String.eqb_eq in E'. subst. unfold neighbors, OMap.get. by rewrite E.
Qed.

(** The effect of [addEdge] on the adjacency sets. *)
Lemma adjacent_addEdge graph bus1 bus2 a b :
  adjacent (addEdge graph bus1 bus2) a b ↔
  adjacent graph a b ∨
  (bus_truthy bus1 = true ∧ bus_truthy bus2 = true ∧ bus1 ≠ bus2 ∧
   ((bus1 = Some a ∧ bus2 = Some b) ∨ (bus1 = Some b ∧ bus2 = Some a))).
Proof.
  unfold addEdge.
  destruct bus1 as [b1|]; [|split; [by left | by intros [?|[? _]]]].
  destruct bus2 as [b2|]; [|split; [by left | by intros [?|(_ & ? & _)]]].
  destruct (bus_truthy (Some b1)) eqn:T1;
    [|cbn [negb orb]; split; [by left | by intros [?|[? _]]]].
  destruct (bus_truthy (Some b2)) eqn:T2;
    [|cbn [negb orb]; split; [by left | by intros [?|(_ & ? & _)]]].
  cbn [negb orb].
  destruct (String.eqb b1 b2) eqn:E.
  { apply String.eqb_eq in E. subst.
    split; [by left | by intros [?|(_ & _ & ? & _)]]. }
  apply String.eqb_neq in E.
  rewrite !adjacent_neighbors, neighbors_set.
  change (default [] (OMap.get ?k ?g)) with (neighbors g (Some k)).
  destruct (String.eqb b2 a) eqn:E2.
  - apply String.eqb_eq in E2. subst a.
    rewrite OSet_elem_of_add, neighbors_set.
    replace (String.eqb b1 b2) with false by (symmetry; by apply String.eqb_neq).
    rewrite !neighbors_ensure.
    split.
    + intros [->|?]; [right|by left]. repeat split; [congruence | by right].
    + intros [?|(_ & _ & _ & [[? ?]|[? _]])]; [by right | congruence | left; congruence].
  - apply String.eqb_neq in E2.
    rewrite neighbors_set.
    destruct (String.eqb b1 a) eqn:E1.
    + apply String.eqb_eq in E1. subst a.
      rewrite OSet_elem_of_add, !neighbors_ensure.
      split.
      * intros [->|?]; [right|by left]. repeat split; [congruence | by left].
      * intros [?|(_ & _ & _ & [[_ ?]|[_ ?]])]; [by right | left; congruence | congruence].
    + apply String.eqb_neq in E1. rewrite !neighbors_ensure.
      split; [by left|].
      intros [?|(_ & _ & _ & [[? _]|[_ ?]])]; [done | congruence | congruence].
Qed.

Lemma bus_truthy_Some b : bus_truthy (Some b) = true ↔ b ≠ "".
Proof.
  unfold bus_truthy. rewrite negb_true_iff. apply String.eqb_neq.
Qed.

Lemma elem_of_filter_Boolean b buses :
  b ∈ filter_Boolean buses ↔ Some b ∈ buses ∧ b ≠ "".
Proof.
  unfold filter_Boolean. rewrite list_elem_of_omap. split.
  - intros ([x|] & Hin & Hx); [|done].
    destruct (bus_truthy (Some x)) eqn:T; [|done].
    injection Hx as ->. by apply bus_truthy_Some in T.
  - intros [Hin Hne]. exists (Some b). split; [done|].
    apply bus_truthy_Some in Hne. by rewrite Hne.
Qed.

Section GraphInvariant.

Context (this : CircuitValidator).

Lemma placedBuses_resolves placement b :
  b ∈ placedBuses this placement → resolves this b.
Proof.
  unfold placedBuses. rewrite elem_of_filter_Boolean.
  intros [Hin Hne]. split; [done|].
  apply list_elem_of_fmap in Hin as (holeId & Hb & _). eauto.
Qed.

Lemma getEndpointBus_resolves endpoint circuit b :
  getEndpointBus this endpoint circuit = Some b → b ≠ "" → resolves this b.
Proof.
  unfold getEndpointBus. intros H Hne. split; [done|].
  destruct (negb (includes "." endpoint)); [eauto|].
  destruct (split_reference endpoint) as [compId pinName].
  destruct (List.find _ _) as [component|]; [|done].
  destruct (assoc _ _) as [holeId|]; [|done].
  destruct (negb (String.eqb holeId "")); [eauto | done].
Qed.

Lemma graph_invariant_empty : graph_invariant this [].
Proof. intros a b (adj & H & _). done. Qed.

Lemma graph_invariant_addEdge graph bus1 bus2 :
  (∀ b, bus1 = Some b → b ≠ "" → resolves this b) →
  (∀ b, bus2 = Some b → b ≠ "" → resolves this b) →
  graph_invariant this graph →
  graph_invariant this (addEdge graph bus1 bus2).
Proof.
  intros R1 R2 Inv a b. rewrite !adjacent_addEdge.
  intros [H|(T1 & T2 & Hne & Hab)].
  - destruct (Inv a b H) as (? & ? & ? & ?).
    split; [by left|]. by split; [|split].
  - assert (Ha : ∀ x, bus1 = Some x → resolves this x).
    { intros x ->. apply R1; [done|]. by apply bus_truthy_Some. }
    assert (Hb : ∀ x, bus2 = Some x → resolves this x).
    { intros x ->. apply R2; [done|]. by apply bus_truthy_Some. }
    destruct Hab as [[-> ->]|[-> ->]].
    + split; [right; by split; [|split; [|split; [|right]]]|].
      split; [congruence|]. split; [by apply Ha | by apply Hb].
    + split; [right; by split; [|split; [|split; [|left]]]|].
      split; [congruence|]. split; [by apply Hb | by apply Ha].
Qed.

Lemma graph_invariant_addPairs buses graph :
  (∀ b, b ∈ buses → resolves this b) →
  graph_invariant this graph →
  graph_invariant this (addPairs graph buses).
Proof.
  revert graph. induction buses as [|bus_i later IH]; intros graph R Inv; [done|].
  cbn [addPairs]. apply IH; [intros; apply R; by right|].
  assert (Hlater : ∀ b, b ∈ later → resolves this b) by (intros; apply R; by right).
  assert (Hi : resolves this bus_i) by (apply R; left).
  clear IH R. revert graph Inv.
  induction later as [|bus_j later IH]; intros graph Inv; [done|].
  cbn [foldl]. apply IH; [intros; apply Hlater; by right|].
  apply graph_invariant_addEdge; [| |done].
  - by intros ? [= <-] _.
  - intros ? [= <-] _. apply Hlater. left.
Qed.

Lemma graph_invariant_build circuit :
  graph_invariant this (buildBusConnectivityGraph this circuit).
Proof.
  unfold buildBusConnectivityGraph.
  generalize (wires circuit) as ws.
  assert (Inv : graph_invariant this
            (foldl (λ graph comp, addPairs graph (placedBuses this (comp_placement comp)))
               [] (components circuit))).
  { generalize graph_invariant_empty.
    generalize (@nil (string * OSet.t)) as graph.
    induction (components circuit) as [|comp cs IH]; intros graph Inv; [done|].
    cbn [foldl]. apply IH, graph_invariant_addPairs; [|done].
    intros b. apply placedBuses_resolves. }
  revert Inv. generalize (foldl (λ graph comp, addPairs graph (placedBuses this (comp_placement comp)))
               [] (components circuit)) as graph.
  intros graph Inv ws. revert graph Inv.
  induction ws as [|wire ws IH]; intros graph Inv; [done|].
  cbn [foldl]. apply IH.
  destruct (bus_truthy _ && bus_truthy _); [|done].
  apply graph_invariant_addEdge; [| |done]; intros b Hb; by eapply getEndpointBus_resolves.
Qed.

(** C6: the graph [buildBusConnectivityGraph] builds is symmetric (bus [b]
    is in the adjacency set of bus [a] exactly when [a] is in that of [b])
    and irreflexive (no bus is in its own adjacency set: an edge whose two
    ends are the same bus is dropped), and it joins only buses that the bus
    index resolved. *)
Theorem buildBusConnectivityGraph_symmetric_irreflexive (circuit : Circuit) :
  let graph := buildBusConnectivityGraph this circuit in
  (∀ a b, adjacent graph a b ↔ adjacent graph b a) ∧
  (∀ a, ¬ adjacent graph a a) ∧
  (∀ a b, adjacent graph a b → resolves this a ∧ resolves this b).
Proof.
  intros graph.
  pose proof (graph_invariant_build circuit) as Inv. fold graph in Inv.
  split; [|split].
  - intros a b. split; intros H; by destruct (Inv _ _ H).
  - intros a H. by destruct (Inv _ _ H) as (_ & Hne & _).
  - intros a b H. by destruct (Inv _ _ H) as (_ & _ & ? & ?).
Qed.

End GraphInvariant.

(** ** Termination of the breadth-first loops *)

Lemma unseen_weight_mono graph (seen seen' : string → bool) :
  (∀ k, seen k = true → seen' k = true) →
  unseen_weight graph seen' ≤ unseen_weight graph seen.
Proof.
  intros Hsub.
  induction graph as [|[k adj] graph IH]; simpl; [done|].
  destruct (seen k) eqn:E.
  - rewrite (Hsub _ E). lia.
  - destruct (seen' k); lia.
Qed.

Lemma unseen_weight_expand graph (seen seen' : string → bool) c :
  seen c = false → seen' c = true →
  (∀ k, seen k = true → seen' k = true) →
  length (neighbors graph (Some c)) + unseen_weight graph seen'
  ≤ unseen_weight graph seen.
Proof.
  intros Hc Hc' Hsub. unfold neighbors, OMap.get.
  induction graph as [|[k adj] graph IH]; simpl; [done|].
  destruct (String.eqb c k) eqn:E.
  - apply String.eqb_eq in E. subst k. rewrite Hc, Hc'. simpl.
    pose proof (unseen_weight_mono graph seen seen' Hsub) as Hm. lia.
  - destruct (seen k) eqn:Ek.
    + rewrite (Hsub _ Ek). lia.
    + destruct (seen' k); lia.
Qed.

Section BreadthFirst.

Context (graph : Graph).

(** Every pass of the loop of [pathExists] lowers the pending work, so the
    loop ends within any fuel above it. *)
Lemma pathExists_loop_fuel targetBus fuel visited queue :
  length queue + unseen_weight graph (λ k, bool_decide (Some k ∈ visited)) < fuel →
  ∃ result, pathExists_loop fuel graph targetBus visited queue = Returned result.
Proof.
  revert visited queue.
  induction fuel as [|fuel IH]; intros visited queue Hfuel; [lia|].
  destruct queue as [|currentBus queue]; simpl; [eauto|].
  case_bool_decide as Hvisited.
  { apply IH. simpl in Hfuel. lia. }
  case_bool_decide; [eauto|].
  apply IH. rewrite length_app, length_fmap. simpl in Hfuel.
  assert (Hsub : ∀ k, bool_decide (Some k ∈ visited) = true →
            bool_decide (Some k ∈ ({[currentBus]} ∪ visited : gset BusRef)) = true).
  { intros k Hk. apply bool_decide_eq_true in Hk.
    apply bool_decide_eq_true. set_solver. }
  destruct currentBus as [c|].
  - pose proof (unseen_weight_expand graph
        (λ k, bool_decide (Some k ∈ visited))
        (λ k, bool_decide (Some k ∈ ({[Some c]} ∪ visited : gset BusRef))) c) as Hw.
    cbv beta in Hw.
    rewrite bool_decide_eq_false_2, bool_decide_eq_true_2 in Hw by set_solver.
    specialize (Hw eq_refl eq_refl Hsub).
    apply Nat.succ_lt_mono in Hfuel.
    eapply Nat.le_lt_trans; [|exact Hfuel].
    rewrite <- Nat.add_assoc. apply Nat.add_le_mono_l. exact Hw.
  - pose proof (unseen_weight_mono graph _ _ Hsub) as Hw.
    apply Nat.succ_lt_mono in Hfuel.
    eapply Nat.le_lt_trans; [|exact Hfuel].
    cbn [neighbors length]. rewrite Nat.add_0_r. apply Nat.add_le_mono_l. exact Hw.
Qed.

(** [pathExists] always returns. *)
Lemma pathExists_returns startBus targetBus :
  ∃ result, pathExists graph startBus targetBus = Returned result.
Proof.
  unfold pathExists. case_bool_decide; [eauto|].
  apply pathExists_loop_fuel. unfold bfs_fuel. simpl.
  pose proof (unseen_weight_mono graph (λ _, false)
                (λ k, bool_decide (Some k ∈ (∅ : gset BusRef)))) as Hw.
  specialize (Hw ltac:(done)).
  apply Nat.lt_succ_r. cbn [length Nat.add]. apply le_n_S. exact Hw.
Qed.

(** ** Correctness of [pathExists] *)

Lemma step_neighbors a b :
  step graph a b ↔ b ∈ (Some <$> neighbors graph a).
Proof.
  unfold step. rewrite list_elem_of_fmap. split.
  - intros (x & y & -> & -> & H). exists y. split; [done|]. by apply adjacent_neighbors.
  - intros (y & -> & H). destruct a as [x|]; [|by apply elem_of_nil in H].
    exists x, y. repeat split. by apply adjacent_neighbors.
Qed.

(** A [true] answer is sound whenever the queue holds reachable buses. *)
Lemma pathExists_loop_true startBus targetBus fuel visited queue :
  (∀ x, x ∈ queue → reachable graph startBus x) →
  pathExists_loop fuel graph targetBus visited queue = Returned true →
  reachable graph startBus targetBus.
Proof.
  revert visited queue.
  induction fuel as [|fuel IH]; intros visited queue Hq; [done|].
  destruct queue as [|currentBus queue]; simpl; [done|].
  case_bool_decide.
  { apply IH. intros x Hx. apply Hq. by right. }
  case_bool_decide as Htarget.
  { intros _. subst. apply Hq. left. }
  apply IH. intros x [Hx|Hx]%elem_of_app.
  - apply Hq. by right.
  - eapply rtc_r; [apply Hq; left|]. by apply step_neighbors.
Qed.

(** A set of buses closed under the edges holds everything reachable from
    its members. *)
Lemma closed_reachable (visited : gset BusRef) (x target : BusRef) :
  (∀ v w, v ∈ visited → step graph v w → w ∈ visited) →
  x ∈ visited → reachable graph x target → target ∈ visited.
Proof.
  intros Hclosed Hx Hreach. induction Hreach as [|x y z Hxy _ IHr]; [done|].
  apply IHr. by eapply Hclosed.
Qed.

(** A [false] answer is complete: the visited buses are closed under the
    edges up to the queue, and the target is not among them. *)
Lemma pathExists_loop_false targetBus fuel visited queue :
  targetBus ∉ visited →
  (∀ v w, v ∈ visited → step graph v w → w ∈ visited ∨ w ∈ queue) →
  pathExists_loop fuel graph targetBus visited queue = Returned false →
  ∀ x, x ∈ visited ∨ x ∈ queue → ¬ reachable graph x targetBus.
Proof.
  revert visited queue.
  induction fuel as [|fuel IH]; intros visited queue Htarget Hclosed; [done|].
  destruct queue as [|currentBus queue]; simpl.
  - intros _ x [Hx|Hx]; [|by apply elem_of_nil in Hx].
    intros Hreach. apply Htarget.
    eapply closed_reachable; [|done..].
    intros v w Hv Hvw. by destruct (Hclosed v w Hv Hvw) as [?|?%elem_of_nil].
  - case_bool_decide as Hvisited.
    { intros Hloop x Hx. eapply (IH visited queue); [done| |done|].
      - intros v w Hv Hvw. destruct (Hclosed v w Hv Hvw) as [?|[->|?]%elem_of_cons]; auto.
      - destruct Hx as [?|[->|?]%elem_of_cons]; auto. }
    case_bool_decide as Hcur; [done|].
    intros Hloop x Hx.
    eapply (IH ({[currentBus]} ∪ visited) (queue ++ (Some <$> neighbors graph currentBus)));
      [set_solver| |done|].
    + intros v w [->%elem_of_singleton|Hv]%elem_of_union Hvw.
      * right. apply elem_of_app. right. by apply step_neighbors.
      * destruct (Hclosed v w Hv Hvw) as [?|[->|?]%elem_of_cons].
        -- left. set_solver.
        -- left. set_solver.
        -- right. apply elem_of_app. by left.
    + destruct Hx as [?|[->|?]%elem_of_cons].
      * left. set_solver.
      * left. set_solver.
      * right. apply elem_of_app. by left.
Qed.

Lemma pathExists_true_iff startBus targetBus :
  pathExists graph startBus targetBus = Returned true ↔
  reachable graph startBus targetBus.
Proof.
  split.
  - unfold pathExists. case_bool_decide as Heq; [intros _; subst; apply rtc_refl|].
    apply pathExists_loop_true. intros x ->%list_elem_of_singleton. apply rtc_refl.
  - intros Hreach.
    destruct (pathExists_returns startBus targetBus) as [[|] Hres]; [done|].
    exfalso. revert Hres. unfold pathExists.
    case_bool_decide as Heq; [done|]. intros Hloop.
    eapply pathExists_loop_false in Hloop; [by apply Hloop| |set_solver|right; left].
    set_solver.
Qed.

End BreadthFirst.

(** C5: [pathExists(graph, startBus, targetBus)] returns, and returns
    [true] exactly when [targetBus] can be reached from [startBus] along
    edges of the graph; in particular it returns [true] when the two are
    the same bus, so two holes of one bus are connected in the graph of any
    circuit, whatever its wires. *)
Theorem pathExists_iff_reachable (graph : Graph) (startBus targetBus : BusRef) :
  (pathExists graph startBus targetBus = Returned true
   ↔ reachable graph startBus targetBus) ∧
  (pathExists graph startBus targetBus = Returned false
   ↔ ¬ reachable graph startBus targetBus) ∧
  pathExists graph startBus startBus = Returned true ∧
  (∀ (this : CircuitValidator) (circuit : Circuit) (hole1 hole2 : string),
     busMap this !! hole1 = busMap this !! hole2 →
     pathExists (buildBusConnectivityGraph this circuit)
       (busMap this !! hole1) (busMap this !! hole2) = Returned true).
Proof.
  split; [apply pathExists_true_iff|]. split; [|split].
  - rewrite <- pathExists_true_iff.
    destruct (pathExists_returns graph startBus targetBus) as [[|] ->].
    + split; [done|]. by intros [].
    + split; [|done]. by intros _ ?.
  - apply pathExists_true_iff, rtc_refl.
  - intros this circuit hole1 hole2 ->. apply pathExists_true_iff, rtc_refl.
Qed.

(** ** The dictionary [busCounts] *)

Lemma Dict_get_set {V} k k' (v : V) d :
  Dict.get k' (Dict.set k v d) = if String.eqb k k' then Some v else Dict.get k' d.
Proof.
  unfold Dict.get. induction d as [|[k0 v0] d IH]; simpl; [by rewrite String.eqb_sym|].
  destruct (String.eqb k k0) eqn:E0.
  - apply String.eqb_eq in E0. subst k0. simpl. rewrite (String.eqb_sym k' k).
    by destruct (String.eqb k k').
  - destruct (Dict.before k k0 && negb (OMap.has k d)); simpl.
    + rewrite (String.eqb_sym k' k). by destruct (String.eqb k k').
    + rewrite IH. destruct (String.eqb k' k0) eqn:E1; [|done].
      apply String.eqb_eq in E1. subst k0.
      rewrite String.eqb_sym in E0. by rewrite String.eqb_sym, E0.
Qed.

Lemma assoc_None_keys {V} k (d : list (string * V)) : assoc k d = None ↔ k ∉ d.*1.
Proof.
  induction d as [|[k0 v0] d IH]; simpl.
  - split; [intros _ ?%elem_of_nil; done | done].
  - rewrite not_elem_of_cons. destruct (String.eqb k k0) eqn:E.
    + apply String.eqb_eq in E. split; [done | intros [? _]; done].
    + apply String.eqb_neq in E. rewrite IH. tauto.
Qed.

Lemma Dict_set_keys {V} k (v : V) d x :
  x ∈ (Dict.set k v d).*1 ↔ x = k ∨ x ∈ d.*1.
Proof.
  induction d as [|[k0 v0] d IH]; simpl.
  - rewrite list_elem_of_singleton. split; [by left | intros [?|?%elem_of_nil]; done].
  - destruct (String.eqb k k0) eqn:E0.
    + apply String.eqb_eq in E0. subst k0. simpl. rewrite !elem_of_cons. tauto.
    + destruct (Dict.before k k0 && negb (OMap.has k d)); simpl.
      * rewrite !elem_of_cons. tauto.
      * rewrite !elem_of_cons, IH. tauto.
Qed.

Lemma Dict_set_NoDup {V} k (v : V) d : NoDup d.*1 → NoDup (Dict.set k v d).*1.
Proof.
  induction d as [|[k0 v0] d IH]; simpl; intros Hd.
  - apply NoDup_singleton.
  - apply NoDup_cons in Hd as [Hk0 Hd].
    destruct (String.eqb k k0) eqn:E0.
    + apply String.eqb_eq in E0. subst k0. simpl. by apply NoDup_cons.
    + apply String.eqb_neq in E0.
      destruct (Dict.before k k0 && negb (OMap.has k d)) eqn:E1; simpl.
      * apply andb_true_iff in E1 as [_ Hhas]. apply negb_true_iff in Hhas.
        unfold OMap.has in Hhas.
        destruct (assoc k d) eqn:Ha; [done|]. apply assoc_None_keys in Ha.
        apply NoDup_cons. split; [|by apply NoDup_cons].
        rewrite not_elem_of_cons. done.
      * apply NoDup_cons. split; [|by apply IH].
        rewrite Dict_set_keys. intros [?|?]; [congruence | done].
Qed.

Lemma elem_of_assoc {V} k (v : V) d : NoDup d.*1 → (k, v) ∈ d → assoc k d = Some v.
Proof.
  induction d as [|[k0 v0] d IH]; simpl; intros Hd Hin.
  - by apply elem_of_nil in Hin.
  - apply NoDup_cons in Hd as [Hk0 Hd].
    apply elem_of_cons in Hin as [[= <- <-]|Hin].
    + by rewrite String.eqb_refl.
    + destruct (String.eqb k k0) eqn:E; [|by apply IH].
      apply String.eqb_eq in E. subst k0. exfalso. apply Hk0.
      apply list_elem_of_fmap. by exists (k, v).
Qed.

Lemma pins_on_app bus pbs1 pbs2 :
  pins_on bus (pbs1 ++ pbs2) = pins_on bus pbs1 ++ pins_on bus pbs2.
Proof. unfold pins_on. by rewrite filter_app, fmap_app. Qed.

Lemma pins_on_singleton bus pb :
  pins_on bus [pb] = if String.eqb (pb_bus pb) bus then [pb_pin pb] else [].
Proof.
  unfold pins_on. rewrite filter_cons, filter_nil.
  destruct (String.eqb (pb_bus pb) bus) eqn:E.
  - apply String.eqb_eq in E. by rewrite decide_True.
  - apply String.eqb_neq in E. by rewrite decide_False.
Qed.

(** What the grouping loop computes: under every bus that occurs, its pins
    in order. *)
Lemma groupPins_spec pbs busCounts processed :
  (∀ pb, pb ∈ pbs → inherited_key (pb_bus pb) = false) →
  NoDup busCounts.*1 →
  (∀ bus, Dict.get bus busCounts =
          match pins_on bus processed with [] => None | pins => Some pins end) →
  ∃ grouped, groupPins busCounts pbs = Returned grouped ∧
    NoDup grouped.*1 ∧
    ∀ bus, Dict.get bus grouped =
           match pins_on bus (processed ++ pbs) with [] => None | pins => Some pins end.
Proof.
  revert busCounts processed.
  induction pbs as [|pb pbs IH]; intros busCounts processed Hplain Hnodup Hget.
  - exists busCounts. rewrite app_nil_r. done.
  - cbn [groupPins]. unfold groupPin.
    assert (Hstep : ∀ pins' : list string,
      pins' = pins_on (pb_bus pb) processed ++ [pb_pin pb] →
      ∀ bus, Dict.get bus (Dict.set (pb_bus pb) pins' busCounts) =
        match pins_on bus (processed ++ [pb]) with [] => None | pins => Some pins end).
    { intros pins' -> bus. rewrite Dict_get_set, pins_on_app, Hget, pins_on_singleton.
      destruct (String.eqb (pb_bus pb) bus) eqn:E.
      - apply String.eqb_eq in E. subst bus.
        by destruct (pins_on (pb_bus pb) processed).
      - by rewrite app_nil_r. }
    rewrite (Hget (pb_bus pb)).
    destruct (pins_on (pb_bus pb) processed) as [|pin pins] eqn:Hpins.
    + rewrite Hplain by left. cbn [mbind outcome_bind].
      replace (processed ++ pb :: pbs) with ((processed ++ [pb]) ++ pbs)
        by (by rewrite <- app_assoc).
      apply IH; [intros; apply Hplain; by right | by apply Dict_set_NoDup |].
      apply Hstep. by rewrite ?Hpins.
    + cbn [mbind outcome_bind].
      replace (processed ++ pb :: pbs) with ((processed ++ [pb]) ++ pbs)
        by (by rewrite <- app_assoc).
      apply IH; [intros; apply Hplain; by right | by apply Dict_set_NoDup |].
      apply Hstep. by rewrite ?Hpins.
Qed.

(** ** Layer 3: bus conflicts *)

Lemma elem_of_pinBuses this component pb :
  pb ∈ pinBuses this component →
  (pb_pin pb, pb_hole pb) ∈ comp_placement component ∧
  busMap this !! pb_hole pb = Some (pb_bus pb) ∧ pb_bus pb ≠ "".
Proof.
  unfold pinBuses. rewrite list_elem_of_omap. intros ([pin hole] & Hin & Hpb).
  destruct (busMap this !! hole) as [bus|] eqn:Hbus; [|done].
  destruct (bus_truthy (Some bus)) eqn:T; [|done].
  injection Hpb as <-. simpl. by apply bus_truthy_Some in T.
Qed.

Lemma elem_of_flat_map {A B} (f : A → list B) (l : list A) (y : B) :
  y ∈ flat_map f l ↔ ∃ x, x ∈ l ∧ y ∈ f x.
Proof.
  rewrite list_elem_of_In, in_flat_map.
  split; intros (x & Hx & Hy); exists x; by rewrite ?list_elem_of_In in *.
Qed.

(** The diagnostics of [checkBusConflicts]: one [SHORT_CIRCUIT] for every
    bus that holds more than one pin of the component, and nothing else. *)
Lemma checkBusConflicts_spec this component :
  plain_buses this →
  ∃ errs, checkBusConflicts this component = Returned errs ∧
    ∀ d, d ∈ errs ↔
      ∃ bus, 1 < length (pins_on bus (pinBuses this component)) ∧
        d = createError "SHORT_CIRCUIT" (comp_id component)
              (ShortCircuitExtra bus (pins_on bus (pinBuses this component))
                 (pb_hole <$> filter (λ pb, pb_bus pb = bus) (pinBuses this component))).
Proof.
  intros Hplain. unfold checkBusConflicts.
  destruct (groupPins_spec (pinBuses this component) [] []) as (grouped & -> & Hnodup & Hget).
  { intros pb (_ & Hbus & _)%elem_of_pinBuses. by eapply Hplain. }
  { apply NoDup_nil_2. }
  { done. }
  cbn [mbind outcome_bind mret outcome_ret]. eexists. split; [done|].
  intros d. rewrite elem_of_flat_map. rewrite app_nil_l in Hget. split.
  - intros ([bus pins] & Hin & Hd).
    apply elem_of_assoc in Hin; [|done]. fold (Dict.get bus grouped) in Hin.
    rewrite Hget in Hin.
    destruct (pins_on bus (pinBuses this component)) as [|pin pins'] eqn:Hpins; [done|].
    injection Hin as <-.
    destruct (1 <? length (pin :: pins')) eqn:Hlen; [|by apply elem_of_nil in Hd].
    apply list_elem_of_singleton in Hd. apply Nat.ltb_lt in Hlen.
    exists bus. by rewrite Hpins.
  - intros (bus & Hlen & ->).
    exists (bus, pins_on bus (pinBuses this component)). split.
    + apply assoc_elem_of. fold (Dict.get bus grouped). rewrite Hget.
      by destruct (pins_on bus (pinBuses this component)); [simpl in Hlen; lia|].
    + apply Nat.ltb_lt in Hlen. rewrite Hlen. by apply list_elem_of_singleton.
Qed.

Lemma lookup_two {A} (l : list A) i j x y :
  i < j → l !! i = Some x → l !! j = Some y →
  ∃ l1 l2 l3, l = l1 ++ x :: l2 ++ y :: l3.
Proof.
  intros Hij Hi Hj.
  exists (take i l), (take (j - S i) (drop (S i) l)), (drop (S (j - S i)) (drop (S i) l)).
  rewrite <- (take_drop_middle l i x Hi) at 1. f_equal. f_equal.
  symmetry. apply take_drop_middle.
  rewrite lookup_drop. by replace (S i + (j - S i)) with j by lia.
Qed.

Lemma pinBuses_app this id type l1 l2 :
  pinBuses this {| comp_id := id; comp_type := type; comp_placement := l1 ++ l2 |} =
  pinBuses this {| comp_id := id; comp_type := type; comp_placement := l1 |} ++
  pinBuses this {| comp_id := id; comp_type := type; comp_placement := l2 |}.
Proof. unfold pinBuses. simpl. apply omap_app. Qed.

Lemma pinBuses_cons this id type pin hole bus l :
  busMap this !! hole = Some bus → bus ≠ "" →
  pinBuses this {| comp_id := id; comp_type := type; comp_placement := (pin, hole) :: l |} =
  {| pb_pin := pin; pb_hole := hole; pb_bus := bus |} ::
  pinBuses this {| comp_id := id; comp_type := type; comp_placement := l |}.
Proof.
  intros Hbus Hne. unfold pinBuses. cbn [comp_placement omap list_omap].
  rewrite Hbus. apply bus_truthy_Some in Hne. by rewrite Hne.
Qed.

Lemma pins_on_cons bus pb pbs :
  pins_on bus (pb :: pbs) =
  (if String.eqb (pb_bus pb) bus then [pb_pin pb] else []) ++ pins_on bus pbs.
Proof. by rewrite <- pins_on_singleton, <- pins_on_app. Qed.

(** Two pins placed on one bus both show up in the pin list of that bus. *)
Lemma pins_on_two this component i j pin1 hole1 pin2 hole2 bus :
  i < j →
  comp_placement component !! i = Some (pin1, hole1) →
  comp_placement component !! j = Some (pin2, hole2) →
  busMap this !! hole1 = Some bus → busMap this !! hole2 = Some bus → bus ≠ "" →
  2 ≤ length (pins_on bus (pinBuses this component)) ∧
  pin1 ∈ pins_on bus (pinBuses this component) ∧
  pin2 ∈ pins_on bus (pinBuses this component).
Proof.
  intros Hij Hi Hj Hb1 Hb2 Hne.
  destruct (lookup_two _ _ _ _ _ Hij Hi Hj) as (l1 & l2 & l3 & Hl).
  destruct component as [id type placement]. simpl in Hl. subst placement.
  rewrite pinBuses_app, (pinBuses_cons _ _ _ _ _ bus) by done.
  rewrite pinBuses_app, (pinBuses_cons _ _ _ _ _ bus) by done.
  rewrite pins_on_app, pins_on_cons. cbn [pb_bus pb_pin]. rewrite String.eqb_refl.
  rewrite pins_on_app, pins_on_cons. cbn [pb_bus pb_pin]. rewrite String.eqb_refl.
  rewrite !length_app. cbn [length]. split; [lia|].
  rewrite !elem_of_app, !list_elem_of_singleton. tauto.
Qed.

(** The pin list and the hole list of a bus, read off the placement. *)
Lemma elem_of_pinBuses_2 this component pin hole bus :
  (pin, hole) ∈ comp_placement component →
  busMap this !! hole = Some bus → bus ≠ "" →
  {| pb_pin := pin; pb_hole := hole; pb_bus := bus |} ∈ pinBuses this component.
Proof.
  intros Hin Hbus Hne. unfold pinBuses. apply list_elem_of_omap.
  exists (pin, hole). split; [done|].
  rewrite Hbus. apply bus_truthy_Some in Hne. by rewrite Hne.
Qed.

Lemma pins_on_spec_strong this component bus pin :
  pin ∈ pins_on bus (pinBuses this component) →
  ∃ hole, (pin, hole) ∈ comp_placement component ∧ busMap this !! hole = Some bus ∧
          bus ≠ "".
Proof.
  unfold pins_on. rewrite list_elem_of_fmap.
  intros (pb & -> & [<- Hpb]%list_elem_of_filter).
  apply elem_of_pinBuses in Hpb as (? & ? & ?). eauto.
Qed.

Lemma pins_on_spec this component bus pin :
  bus ≠ "" →
  pin ∈ pins_on bus (pinBuses this component) ↔
  ∃ hole, (pin, hole) ∈ comp_placement component ∧ busMap this !! hole = Some bus.
Proof.
  intros Hne. unfold pins_on. rewrite list_elem_of_fmap. split.
  - intros (pb & -> & [<- Hpb]%list_elem_of_filter).
    apply elem_of_pinBuses in Hpb as (? & ? & _). eauto.
  - intros (hole & Hin & Hbus).
    exists {| pb_pin := pin; pb_hole := hole; pb_bus := bus |}. split; [done|].
    apply list_elem_of_filter. split; [done|]. by apply elem_of_pinBuses_2.
Qed.

Lemma holes_on_spec this component bus hole :
  bus ≠ "" →
  hole ∈ pb_hole <$> filter (λ pb, pb_bus pb = bus) (pinBuses this component) ↔
  ∃ pin, (pin, hole) ∈ comp_placement component ∧ busMap this !! hole = Some bus.
Proof.
  intros Hne. rewrite list_elem_of_fmap. split.
  - intros (pb & -> & [<- Hpb]%list_elem_of_filter).
    apply elem_of_pinBuses in Hpb as (? & ? & _). eauto.
  - intros (pin & Hin & Hbus).
    exists {| pb_pin := pin; pb_hole := hole; pb_bus := bus |}. split; [done|].
    apply list_elem_of_filter. split; [done|]. by apply elem_of_pinBuses_2.
Qed.

(** A pin list of more than one pin comes from two entries of the
    placement. *)
Lemma pins_on_two_inv this component bus :
  1 < length (pins_on bus (pinBuses this component)) →
  ∃ i j pin1 hole1 pin2 hole2,
    i < j ∧
    comp_placement component !! i = Some (pin1, hole1) ∧
    comp_placement component !! j = Some (pin2, hole2) ∧
    busMap this !! hole1 = Some bus ∧ busMap this !! hole2 = Some bus ∧ bus ≠ "".
Proof.
  destruct component as [id type placement]. cbn [comp_placement].
  induction placement as [|[pin hole] rest IH]; [cbn; lia|].
  change ((pin, hole) :: rest) with ([(pin, hole)] ++ rest).
  rewrite pinBuses_app, pins_on_app, length_app.
  set (here := pins_on bus (pinBuses this
                 {| comp_id := id; comp_type := type; comp_placement := [(pin, hole)] |})).
  destruct (decide (here = [])) as [Hhere|Hhere].
  - rewrite Hhere. cbn [length Nat.add]. intros Hlen.
    destruct (IH Hlen) as (i & j & pin1 & hole1 & pin2 & hole2 & Hij & Hi & Hj & ?).
    exists (S i), (S j), pin1, hole1, pin2, hole2. split; [lia|]. done.
  - intros Hlen.
    assert (∃ p, p ∈ here) as [p Hp] by (destruct here as [|p ?]; [done | exists p; left]).
    apply pins_on_spec_strong in Hp as (h & Hin & Hbus & Hne).
    apply list_elem_of_singleton in Hin as [= -> ->].
    assert (length here ≤ 1) as Hle.
    { unfold here, pins_on, pinBuses. cbn [comp_placement omap list_omap].
      destruct (busMap this !! hole) as [b|]; [|cbn; lia].
      destruct (bus_truthy (Some b)); [|cbn; lia].
      rewrite length_fmap. rewrite filter_cons. case_decide; cbn; lia. }
    assert (∃ q, q ∈ pins_on bus (pinBuses this
               {| comp_id := id; comp_type := type; comp_placement := rest |}))
      as [q Hq].
    { clearbody here. revert Hlen.
      destruct (pins_on bus (pinBuses this
                  {| comp_id := id; comp_type := type; comp_placement := rest |}))
        as [|q ?]; [cbn [length]; intros; exfalso; lia | exists q; left]. }
    apply pins_on_spec_strong in Hq as (h2 & [j Hj]%list_elem_of_lookup_1 & Hbus2 & _).
    exists 0, (S j), pin, hole, q, h2. split; [lia|]. done.
Qed.

Lemma NoDup_filter_le {A B} `{EqDecision B} (f : A → B) (b : B) (l : list A) :
  NoDup (f <$> l) → length (filter (λ x, f x = b) l) ≤ 1.
Proof.
  induction l as [|x l IH]; [intros _; cbn; lia|].
  rewrite fmap_cons, NoDup_cons, filter_cons. intros [Hx Hl].
  case_decide as Hfx; [|by apply IH].
  subst b. cbn [length]. apply le_n_S.
  destruct (filter (λ y, f y = f x) l) as [|y rest] eqn:Hfilter; [done|].
  exfalso. apply Hx.
  assert (Hy : y ∈ filter (λ y, f y = f x) l) by (rewrite Hfilter; left).
  apply list_elem_of_filter in Hy as [<- Hy]. apply list_elem_of_fmap. eauto.
Qed.

(** ** The maps of the constructor *)

Lemma buildBusMap_lookup holes holeId bus :
  buildBusMap holes !! holeId = Some bus →
  ∃ h, h ∈ holes ∧ hole_id h = holeId ∧ hole_bus h = bus.
Proof.
  unfold buildBusMap.
  assert (H : ∀ (m : gmap string string),
    foldl (λ map hole, <[hole_id hole := hole_bus hole]> map) m holes !! holeId = Some bus →
    m !! holeId = Some bus ∨ ∃ h, h ∈ holes ∧ hole_id h = holeId ∧ hole_bus h = bus).
  { induction holes as [|h holes IH]; intros m; cbn [foldl]; [by left|].
    intros [Hm|(h' & ? & ? & ?)]%IH.
    - destruct (decide (hole_id h = holeId)) as [<-|Hne].
      + rewrite lookup_insert_eq in Hm. injection Hm as <-.
        right. exists h. split; [left|done].
      + rewrite lookup_insert_ne in Hm by done. by left.
    - right. exists h'. split; [by right|done]. }
  intros [Hm|?]%H; [|done]. by rewrite lookup_empty in Hm.
Qed.

(** The buses of a new validator are plain when the hole list says so. *)
Lemma plain_buses_new holes :
  forallb (λ h, negb (inherited_key (hole_bus h))) holes = true →
  plain_buses (new_CircuitValidator holes).
Proof.
  intros Hall holeId bus (h & Hin & _ & <-)%buildBusMap_lookup.
  rewrite forallb_forall in Hall. apply negb_true_iff, Hall.
  by apply list_elem_of_In.
Qed.

(** ** Layer 3: power-to-ground shorts *)

Lemma existsb_is_type type (holes : list Hole) :
  existsb (is_type type) holes = true ↔ ∃ h, h ∈ holes ∧ hole_type h = type.
Proof.
  rewrite existsb_exists. unfold is_type.
  split; intros (h & Hin & Ht); exists h;
    (split; [by apply list_elem_of_In | by apply String.eqb_eq]).
Qed.

(** The holes of the net of one wire. *)
Lemma elem_of_netHoles this (wire : WireInstance) h :
  h ∈ netHoles this (wireNodes wire) ↔
  endpointHole this (wire_from wire) = Some h ∨
  endpointHole this (wire_to wire) = Some h.
Proof.
  unfold netHoles, wireNodes. rewrite list_elem_of_omap. unfold endpointHole. split.
  - intros (n & [Hdot Hn]%list_elem_of_filter & Hh).
    apply OSet_elem_of_add in Hn as [->|Hn]; [right; by rewrite Hdot|].
    apply OSet_elem_of_add in Hn as [->|Hn]; [left; by rewrite Hdot|].
    by apply elem_of_nil in Hn.
  - intros [Hh|Hh].
    + destruct (includes "." (wire_from wire)) eqn:Hdot; [done|].
      exists (wire_from wire). split; [|done].
      apply list_elem_of_filter. split; [done|].
      apply OSet_elem_of_add. right. apply OSet_elem_of_add. by left.
    + destruct (includes "." (wire_to wire)) eqn:Hdot; [done|].
      exists (wire_to wire). split; [|done].
      apply list_elem_of_filter. split; [done|].
      apply OSet_elem_of_add. by left.
Qed.

(** The test the loop of [checkPowerGroundShorts] makes on one net. *)
Lemma net_short_iff this (wire : WireInstance) :
  existsb (is_type "power") (netHoles this (wireNodes wire)) &&
  existsb (is_type "ground") (netHoles this (wireNodes wire)) = true ↔
  power_to_ground this wire.
Proof.
  rewrite andb_true_iff, !existsb_is_type.
  setoid_rewrite elem_of_netHoles. unfold power_to_ground. split.
  - intros [(p & Hp & Tp) (g & Hg & Tg)]. exists p, g. split; [done|]. split; [done|].
    destruct Hp as [Hp|Hp], Hg as [Hg|Hg]; [|by left|by right|];
      rewrite Hp in Hg; injection Hg as ->; rewrite Tp in Tg; discriminate.
  - intros (p & g & Tp & Tg & [[Hp Hg]|[Hg Hp]]); split;
      solve [exists p; auto | exists g; auto].
Qed.

(** The diagnostics of [checkPowerGroundShorts], wire by wire. *)
Lemma elem_of_checkPowerGroundShorts this circuit d :
  d ∈ checkPowerGroundShorts this circuit ↔
  ∃ netId wire, wires circuit !! netId = Some wire ∧
    power_to_ground this wire ∧
    d = createError "POWER_GROUND_SHORT" ("net-" +:+ pretty netId)
          (PowerGroundExtra
             (hole_id <$> filter (λ h, is_type "power" h = true)
                            (netHoles this (wireNodes wire)))
             (hole_id <$> filter (λ h, is_type "ground" h = true)
                            (netHoles this (wireNodes wire)))).
Proof.
  unfold checkPowerGroundShorts, buildNets. rewrite elem_of_flat_map. split.
  - intros ([netId nodes] & (i & wire & [= -> ->] & Hwire)%elem_of_lookup_imap & Hd).
    exists i, wire. split; [done|]. cbv zeta in Hd.
    destruct (_ && _) eqn:Hshort; [|by apply elem_of_nil in Hd].
    apply net_short_iff in Hshort.
    by apply list_elem_of_singleton in Hd.
  - intros (netId & wire & Hwire & Hshort & ->).
    exists (netId, wireNodes wire). split; [by apply (elem_of_lookup_imap_2 (λ netId wire, (netId, wireNodes wire)))|].
    apply net_short_iff in Hshort. cbv zeta. rewrite Hshort.
    by apply list_elem_of_singleton.
Qed.

Lemma net_location_inj (i j : nat) :
  "net-" +:+ pretty i = "net-" +:+ pretty j → i = j.
Proof. intros H. by apply String.app_inj, pretty_nat_inj in H. Qed.

(** C7: [checkPowerGroundShorts] reports [POWER_GROUND_SHORT] for a wire
    (under the location [net-<index of the wire>]) exactly when the two
    endpoints of that very wire are breadboard holes of which one is of
    type ['power'] and the other of type ['ground']; every diagnostic it
    returns is one of those, so a connection that runs through several
    wires or a bus is never reported. *)
Theorem checkPowerGroundShorts_direct_wires_only
    (this : CircuitValidator) (circuit : Circuit) :
  (∀ netId wire, wires circuit !! netId = Some wire →
     ((∃ d, d ∈ checkPowerGroundShorts this circuit ∧
            d_type d = "POWER_GROUND_SHORT" ∧
            d_location d = "net-" +:+ pretty netId)
      ↔ power_to_ground this wire)) ∧
  (∀ d, d ∈ checkPowerGroundShorts this circuit →
     d_type d = "POWER_GROUND_SHORT" ∧
     ∃ netId wire, wires circuit !! netId = Some wire ∧
       d_location d = "net-" +:+ pretty netId ∧ power_to_ground this wire).
Proof.
  split.
  - intros netId wire Hwire. split.
    + intros (d & (i & wire' & Hwire' & Hshort & ->)%elem_of_checkPowerGroundShorts & _ & Hloc).
      apply net_location_inj in Hloc. subst i. congruence.
    + intros Hshort. eexists. split.
      * apply elem_of_checkPowerGroundShorts. by exists netId, wire.
      * done.
  - intros d (i & wire & Hwire & Hshort & ->)%elem_of_checkPowerGroundShorts.
    split; [done|]. by exists i, wire.
Qed.

Example checkPowerGroundShorts_directShort :
  checkPowerGroundShorts Sample.validator Sample.directShort =
  [createError "POWER_GROUND_SHORT" "net-1" (PowerGroundExtra ["1W"] ["1X"])].
Proof. vm_compute. reflexivity. Qed.

Example checkPowerGroundShorts_shortThroughBus :
  checkPowerGroundShorts Sample.validator Sample.shortThroughBus = [].
Proof. vm_compute. reflexivity. Qed.

(** ** Loops over arrays *)

(** A [forEach] whose body returns at every element returns the
    diagnostics of all the elements. *)
Lemma collect_returns {A} (f : A → nat → outcome (list Diagnostic)) (index : nat)
    (arr : list A) :
  (∀ i x, arr !! i = Some x → ∃ es, f x (index + i) = Returned es) →
  ∃ all, collect f index arr = Returned all ∧
    ∀ d, d ∈ all ↔
      ∃ i x es, arr !! i = Some x ∧ f x (index + i) = Returned es ∧ d ∈ es.
Proof.
  revert index. induction arr as [|x arr IH]; intros index Hf.
  - exists []. split; [done|]. intros d. split; [by intros ?%elem_of_nil|].
    by intros (i & ? & ? & ? & _).
  - destruct (Hf 0 x eq_refl) as [here Hhere]. rewrite Nat.add_0_r in Hhere.
    destruct (IH (S index)) as (later & Hlater & Hall).
    { intros i y Hy. destruct (Hf (S i) y Hy) as [es Hes].
      exists es. by rewrite Nat.add_succ_comm. }
    exists (here ++ later). cbn [collect]. rewrite Hhere, Hlater. split; [done|].
    intros d. rewrite elem_of_app, Hall. split.
    + intros [Hd|(i & y & es & Hy & Hes & Hd)].
      * exists 0, x, here. by rewrite Nat.add_0_r.
      * exists (S i), y, es. by rewrite <- Nat.add_succ_comm.
    + intros ([|i] & y & es & Hy & Hes & Hd).
      * injection Hy as <-. rewrite Nat.add_0_r in Hes. left. congruence.
      * right. exists i, y, es. by rewrite Nat.add_succ_comm.
Qed.

(** A [forEach] that returned did so at every element. *)
Lemma collect_returned {A} (f : A → nat → outcome (list Diagnostic)) (index : nat)
    (arr : list A) all :
  collect f index arr = Returned all →
  ∀ i x, arr !! i = Some x → ∃ es, f x (index + i) = Returned es.
Proof.
  revert index all. induction arr as [|x arr IH]; intros index all Hall i y Hy; [done|].
  cbn [collect] in Hall.
  destruct (f x index) as [here| |] eqn:Hhere; [|done..].
  cbn [mbind outcome_bind] in Hall.
  destruct (collect f (S index) arr) as [later| |] eqn:Hlater; [|done..].
  destruct i as [|i].
  - injection Hy as <-. rewrite Nat.add_0_r. eauto.
  - rewrite <- Nat.add_succ_comm. by eapply IH.
Qed.

Section PlainBuses.

Context (this : CircuitValidator).
Hypothesis plain : plain_buses this.

(** Layer 3 returns on a breadboard with plain bus names, and its
    diagnostics are those of the two checks. *)
Lemma validateElectricalRules_spec circuit :
  ∃ errs, validateElectricalRules this circuit = Returned errs ∧
    ∀ d, d ∈ errs ↔
      (∃ component es, component ∈ components circuit ∧
         checkBusConflicts this component = Returned es ∧ d ∈ es) ∨
      d ∈ checkPowerGroundShorts this circuit.
Proof.
  unfold validateElectricalRules.
  destruct (collect_returns (λ comp _, checkBusConflicts this comp) 0 (components circuit))
    as (conflicts & -> & Hconflicts).
  { intros i comp _. destruct (checkBusConflicts_spec this comp plain) as (es & ? & _). eauto. }
  eexists. split; [done|]. intros d. rewrite elem_of_app, Hconflicts.
  split; (intros [H|?]; [left|by right]).
  - destruct H as (i & comp & es & Hcomp & Hes & Hd). exists comp, es.
    split; [|done]. by eapply list_elem_of_lookup_2.
  - destruct H as (comp & es & [i Hi]%list_elem_of_lookup_1 & Hes & Hd).
    by exists i, comp, es.
Qed.

(** C3: for a component of a circuit, two placed pins that the bus index
    maps to the same bus make the electrical rule check return a
    [SHORT_CIRCUIT] diagnostic for that component, naming the bus, the
    pins of the component placed on it (a list of length at least 2 that
    holds both pins) and their holes; a component no two placed pins of
    which land on the same bus gets no diagnostic from the bus conflict
    check. *)
Theorem checkBusConflicts_short_circuit
    (circuit : Circuit) (component : ComponentInstance) :
  component ∈ components circuit →
  ∃ errs layerErrs,
    checkBusConflicts this component = Returned errs ∧
    validateElectricalRules this circuit = Returned layerErrs ∧
    (∀ d, d ∈ errs → d ∈ layerErrs) ∧
    (∀ i j pin1 hole1 pin2 hole2 bus,
       i ≠ j →
       comp_placement component !! i = Some (pin1, hole1) →
       comp_placement component !! j = Some (pin2, hole2) →
       busMap this !! hole1 = Some bus → busMap this !! hole2 = Some bus →
       bus ≠ "" →
       ∃ d pins holes,
         d ∈ errs ∧
         d_type d = "SHORT_CIRCUIT" ∧ d_severity d = SevError ∧
         d_location d = comp_id component ∧
         d_extra d = ShortCircuitExtra bus pins holes ∧
         2 ≤ length pins ∧ pin1 ∈ pins ∧ pin2 ∈ pins ∧
         (∀ pin, pin ∈ pins ↔
            ∃ hole, (pin, hole) ∈ comp_placement component ∧
                    busMap this !! hole = Some bus) ∧
         (∀ hole, hole ∈ holes ↔
            ∃ pin, (pin, hole) ∈ comp_placement component ∧
                   busMap this !! hole = Some bus)) ∧
    ((∀ i j pin1 hole1 pin2 hole2 bus,
        i ≠ j →
        comp_placement component !! i = Some (pin1, hole1) →
        comp_placement component !! j = Some (pin2, hole2) →
        busMap this !! hole1 = Some bus → busMap this !! hole2 = Some bus →
        bus = "") →
     errs = []).
Proof.
  intros Hcomp.
  destruct (checkBusConflicts_spec this component plain) as (errs & Hres & Herrs).
  destruct (validateElectricalRules_spec circuit) as (layerErrs & Hlayer & Hin).
  exists errs, layerErrs. split; [done|]. split; [done|]. split; [|split].
  - intros d Hd. apply Hin. left. by exists component, errs.
  - intros i j pin1 hole1 pin2 hole2 bus Hij Hi Hj Hb1 Hb2 Hne.
    assert (Htwo : 2 ≤ length (pins_on bus (pinBuses this component)) ∧
                   pin1 ∈ pins_on bus (pinBuses this component) ∧
                   pin2 ∈ pins_on bus (pinBuses this component)).
    { destruct (Nat.lt_total i j) as [Hlt|[Heq|Hlt]]; [|done|].
      - by eapply pins_on_two.
      - destruct (pins_on_two this component j i pin2 hole2 pin1 hole1 bus) as (? & ? & ?);
          done. }
    destruct Htwo as (Hlen & Hp1 & Hp2).
    assert (Hd : createError "SHORT_CIRCUIT" (comp_id component)
                   (ShortCircuitExtra bus (pins_on bus (pinBuses this component))
                      (pb_hole <$> filter (λ pb, pb_bus pb = bus)
                                          (pinBuses this component))) ∈ errs).
    { apply Herrs. exists bus. split; [lia | done]. }
    eexists _, _, _. split; [exact Hd|].
    split_and!; [reflexivity..|done|done|done| |].
    + intros pin. by apply pins_on_spec.
    + intros hole. by apply holes_on_spec.
  - intros Hdistinct. destruct errs as [|d errs]; [done|]. exfalso.
    destruct (proj1 (Herrs d)) as (bus & Hlen & _); [left|].
    destruct (pins_on_two_inv this component bus Hlen)
      as (i & j & pin1 & hole1 & pin2 & hole2 & Hij & Hi & Hj & Hb1 & Hb2 & Hne).
    apply Hne. eapply (Hdistinct i j); [lia|done..].
Qed.

End PlainBuses.

Lemma checkBusConflicts_short_circuit_witness :
  ∃ errs layerErrs,
    checkBusConflicts Sample.validator Sample.shortedResistor = Returned errs ∧
    validateElectricalRules Sample.validator Sample.shortedCircuit = Returned layerErrs ∧
    (∀ d, d ∈ errs → d ∈ layerErrs) ∧
    (∀ i j pin1 hole1 pin2 hole2 bus,
       i ≠ j →
       comp_placement Sample.shortedResistor !! i = Some (pin1, hole1) →
       comp_placement Sample.shortedResistor !! j = Some (pin2, hole2) →
       busMap Sample.validator !! hole1 = Some bus →
       busMap Sample.validator !! hole2 = Some bus →
       bus ≠ "" →
       ∃ d pins holes,
         d ∈ errs ∧
         d_type d = "SHORT_CIRCUIT" ∧ d_severity d = SevError ∧
         d_location d = comp_id Sample.shortedResistor ∧
         d_extra d = ShortCircuitExtra bus pins holes ∧
         2 ≤ length pins ∧ pin1 ∈ pins ∧ pin2 ∈ pins ∧
         (∀ pin, pin ∈ pins ↔
            ∃ hole, (pin, hole) ∈ comp_placement Sample.shortedResistor ∧
                    busMap Sample.validator !! hole = Some bus) ∧
         (∀ hole, hole ∈ holes ↔
            ∃ pin, (pin, hole) ∈ comp_placement Sample.shortedResistor ∧
                   busMap Sample.validator !! hole = Some bus)) ∧
    ((∀ i j pin1 hole1 pin2 hole2 bus,
        i ≠ j →
        comp_placement Sample.shortedResistor !! i = Some (pin1, hole1) →
        comp_placement Sample.shortedResistor !! j = Some (pin2, hole2) →
        busMap Sample.validator !! hole1 = Some bus →
        busMap Sample.validator !! hole2 = Some bus →
        bus = "") →
     errs = []).
Proof.
  apply (checkBusConflicts_short_circuit Sample.validator
           (plain_buses_new Sample.breadboard eq_refl)
           Sample.shortedCircuit Sample.shortedResistor).
  unfold Sample.shortedCircuit. cbn [components]. apply elem_of_cons. right.
    apply elem_of_cons. left. reflexivity.
Defined.

Example checkBusConflicts_shortedResistor :
  checkBusConflicts Sample.validator Sample.shortedResistor =
  Returned [createError "SHORT_CIRCUIT" "r1"
              (ShortCircuitExtra "bus5-top" ["pin0"; "pin1"] ["5J"; "5F"])].
Proof. vm_compute. reflexivity. Qed.

Example validateElectricalRules_shortedCircuit :
  validateElectricalRules Sample.validator Sample.shortedCircuit =
  Returned [createError "SHORT_CIRCUIT" "r1"
              (ShortCircuitExtra "bus5-top" ["pin0"; "pin1"] ["5J"; "5F"])].
Proof. vm_compute. reflexivity. Qed.

(** ** Layer 4: the loops return *)

(** Expanding an unvisited bus does not raise the pending work. *)
Lemma expand_measure graph (visited : gset string) currentBus (queue : list string) :
  currentBus ∉ visited →
  length (queue ++ neighbors graph (Some currentBus)) +
  unseen_weight graph (λ k, bool_decide (k ∈ {[currentBus]} ∪ visited))
  ≤ length queue + unseen_weight graph (λ k, bool_decide (k ∈ visited)).
Proof.
  intros Hvisited. rewrite length_app, <- Nat.add_assoc. apply Nat.add_le_mono_l.
  apply (unseen_weight_expand graph (λ k, bool_decide (k ∈ visited))
           (λ k, bool_decide (k ∈ {[currentBus]} ∪ visited)) currentBus).
  - by apply bool_decide_eq_false_2.
  - apply bool_decide_eq_true_2. set_solver.
  - intros k Hk%bool_decide_eq_true. apply bool_decide_eq_true_2. set_solver.
Qed.

Lemma initial_measure graph (visited : gset string) (startBus : string) :
  length [startBus] + unseen_weight graph (λ k, bool_decide (k ∈ visited))
  < bfs_fuel graph.
Proof.
  unfold bfs_fuel. cbn [length Nat.add]. apply Nat.lt_succ_r, le_n_S.
  by apply unseen_weight_mono.
Qed.

Lemma pathToGround_loop_fuel this graph circuit fuel visited queue :
  length queue + unseen_weight graph (λ k, bool_decide (k ∈ visited)) < fuel →
  ∃ result, pathToGround_loop fuel this graph circuit visited queue = Returned result.
Proof.
  revert visited queue.
  induction fuel as [|fuel IH]; intros visited queue Hfuel; [lia|].
  destruct queue as [|currentBus queue]; cbn [pathToGround_loop]; [eauto|].
  cbn [length] in Hfuel.
  case_bool_decide as Hvisited; [apply IH; lia|].
  destruct (existsb _ (busHoles _ _)); [eauto|].
  destruct (existsb _ (wiresOnBus _ _ _)); [eauto|].
  apply IH. pose proof (expand_measure graph visited currentBus queue Hvisited). lia.
Qed.

Lemma pathToGround_returns this startBus graph circuit :
  ∃ result, pathToGround this startBus graph circuit = Returned result.
Proof.
  unfold pathToGround. destruct startBus as [bus|]; [|eauto].
  destruct (negb _); [eauto|].
  apply pathToGround_loop_fuel, initial_measure.
Qed.

Lemma pathToPowerSource_loop_fuel this graph circuit fuel visited queue :
  length queue + unseen_weight graph (λ k, bool_decide (k ∈ visited)) < fuel →
  ∃ result, pathToPowerSource_loop fuel this graph circuit visited queue = Returned result.
Proof.
  revert visited queue.
  induction fuel as [|fuel IH]; intros visited queue Hfuel; [lia|].
  destruct queue as [|currentBus queue]; cbn [pathToPowerSource_loop]; [eauto|].
  cbn [length] in Hfuel.
  case_bool_decide as Hvisited; [apply IH; lia|].
  destruct (existsb _ (busHoles _ _)); [eauto|].
  destruct (List.find _ (wiresOnBus _ _ _)); [eauto|].
  apply IH. pose proof (expand_measure graph visited currentBus queue Hvisited). lia.
Qed.

Lemma pathToPowerSource_returns this startBus graph circuit :
  ∃ result, pathToPowerSource this startBus graph circuit = Returned result.
Proof.
  unfold pathToPowerSource. destruct startBus as [bus|]; [|eauto].
  destruct (negb _); [eauto|].
  apply pathToPowerSource_loop_fuel, initial_measure.
Qed.

Lemma group_loop_fuel graph fuel visited group queue :
  length queue + unseen_weight graph (λ k, bool_decide (k ∈ visited)) < fuel →
  ∃ result, group_loop fuel graph visited group queue = Returned result.
Proof.
  revert visited group queue.
  induction fuel as [|fuel IH]; intros visited group queue Hfuel; [lia|].
  destruct queue as [|node queue]; cbn [group_loop]; [eauto|].
  cbn [length] in Hfuel.
  case_bool_decide as Hvisited; [apply IH; lia|].
  apply IH. pose proof (expand_measure graph visited node queue Hvisited). lia.
Qed.

Lemma groups_from_returns graph startNodes visited groups :
  ∃ result, groups_from graph startNodes visited groups = Returned result.
Proof.
  revert visited groups.
  induction startNodes as [|startNode rest IH]; intros visited groups;
    cbn [groups_from]; [eauto|].
  case_bool_decide; [apply IH|].
  destruct (group_loop_fuel graph (bfs_fuel graph) visited [] [startNode])
    as [[visited' group] ->]; [apply initial_measure|].
  cbn [mbind outcome_bind]. apply IH.
Qed.

Lemma checkIsolatedComponents_spec circuit graph :
  ∃ errs, checkIsolatedComponents circuit graph = Returned errs ∧
    ∀ d, d ∈ errs → d_type d = "DISCONNECTED_GROUPS".
Proof.
  unfold checkIsolatedComponents, findConnectedGroups.
  destruct (groups_from_returns graph (OMap.keys graph) ∅ []) as [groups ->].
  cbn [mbind outcome_bind mret outcome_ret]. eexists. split; [done|].
  intros d. destruct (1 <? length groups); [|by intros ?%elem_of_nil].
  by intros ->%list_elem_of_singleton.
Qed.

Lemma checkCompletePaths_spec this circuit graph :
  ∃ errs, checkCompletePaths this circuit graph = Returned errs ∧
    ∀ d, d ∈ errs →
      ∃ led, List.find is_led (components circuit) = Some led ∧
        (d = createError "NO_GROUND_PATH" (comp_id led)
               (CathodeBusExtra (placedPinBus this led "cathode")) ∨
         d = createError "NO_SOURCE_PATH" (comp_id led)
               (AnodeBusExtra (placedPinBus this led "anode"))).
Proof.
  unfold checkCompletePaths.
  destruct (List.find is_led (components circuit)) as [led|].
  - destruct (pathToGround_returns this (placedPinBus this led "cathode") graph circuit)
      as [toGround ->].
    destruct (pathToPowerSource_returns this (placedPinBus this led "anode") graph circuit)
      as [toSource ->].
    cbn [mbind outcome_bind mret outcome_ret]. eexists. split; [done|].
    intros d [Hd|Hd]%elem_of_app; exists led; (split; [done|]).
    + destruct (negb toGround); [|by apply elem_of_nil in Hd].
      left. by apply list_elem_of_singleton in Hd.
    + destruct (negb (found toSource)); [|by apply elem_of_nil in Hd].
      right. by apply list_elem_of_singleton in Hd.
  - exists []. split; [done|]. by intros d ?%elem_of_nil.
Qed.

(** ** Layer 4: the series check *)

Lemma reachable_sym graph x y :
  (∀ a b, adjacent graph a b → adjacent graph b a) →
  reachable graph x y → reachable graph y x.
Proof.
  intros Hsym Hreach. induction Hreach as [|x y z Hxy _ IH]; [apply rtc_refl|].
  eapply rtc_r; [exact IH|].
  destruct Hxy as (a & b & -> & -> & Hab). exists b, a. auto.
Qed.

Lemma includesBus_true buses bus :
  includesBus buses bus = true ↔ ∃ b, b ∈ buses ∧ bus = Some b.
Proof.
  unfold includesBus. destruct bus as [b|].
  - rewrite bool_decide_eq_true. split; [eauto|]. by intros (? & ? & [= ->]).
  - split; [done|]. by intros (? & _ & ?).
Qed.

Lemma someConnected_spec graph ledAnodeBus ledCathodeBus resistorBuses :
  ∃ connected,
    someConnected graph ledAnodeBus ledCathodeBus resistorBuses = Returned connected ∧
    (connected = true ↔
     ∃ rBus, rBus ∈ resistorBuses ∧
       (reachable graph (Some rBus) ledAnodeBus ∨
        reachable graph (Some rBus) ledCathodeBus)).
Proof.
  induction resistorBuses as [|rBus rest (connected & IH & Hiff)]; cbn [someConnected].
  - exists false. split; [done|]. split; [done|]. by intros (? & ?%elem_of_nil & _).
  - destruct (pathExists_returns graph (Some rBus) ledAnodeBus) as [toAnode HtoAnode].
    destruct (pathExists_returns graph (Some rBus) ledCathodeBus) as [toCathode HtoCathode].
    rewrite HtoAnode. cbn [mbind outcome_bind].
    destruct toAnode.
    { exists true. split; [done|]. split; [|done]. intros _. exists rBus.
      split; [left|]. left. by apply pathExists_true_iff. }
    rewrite HtoCathode. cbn [mbind outcome_bind].
    destruct toCathode.
    { exists true. split; [done|]. split; [|done]. intros _. exists rBus.
      split; [left|]. right. by apply pathExists_true_iff. }
    exists connected. split; [done|]. rewrite Hiff. split.
    + intros (r & Hr & H). exists r. split; [by right|done].
    + intros (r & [->|Hr]%elem_of_cons & H); [|eauto].
      destruct H as [H|H]; apply pathExists_true_iff in H; congruence.
Qed.

(** What the series check returns for the LED and the resistor it picked. *)
Lemma checkSeriesConnections_spec this circuit led resistor :
  List.find is_led (components circuit) = Some led →
  List.find is_resistor (components circuit) = Some resistor →
  (series_connected this circuit led resistor ∧
   checkSeriesConnections this circuit (buildBusConnectivityGraph this circuit)
   = Returned []) ∨
  (¬ series_connected this circuit led resistor ∧
   checkSeriesConnections this circuit (buildBusConnectivityGraph this circuit)
   = Returned [createError "OPEN_CIRCUIT" "led-resistor"
                 (OpenCircuitExtra [placedPinBus this led "anode";
                                    placedPinBus this led "cathode"]
                    (placedBuses this (comp_placement resistor)))]).
Proof.
  intros Hled Hresistor. unfold checkSeriesConnections. rewrite Hled, Hresistor.
  set (graph := buildBusConnectivityGraph this circuit).
  set (anode := placedPinBus this led "anode").
  set (cathode := placedPinBus this led "cathode").
  set (rBuses := placedBuses this (comp_placement resistor)).
  assert (Hsym : ∀ a b, adjacent graph a b → adjacent graph b a).
  { intros a b H. by destruct (graph_invariant_build this circuit a b H). }
  destruct (includesBus rBuses anode) eqn:Hanode.
  { left. split; [|done]. apply includesBus_true in Hanode as (r & Hr & Heq).
    exists r, anode. split; [done|]. split; [by left|]. by left. }
  destruct (includesBus rBuses cathode) eqn:Hcathode.
  { left. split; [|done]. apply includesBus_true in Hcathode as (r & Hr & Heq).
    exists r, cathode. split; [done|]. split; [by right|]. by left. }
  cbn [orb negb].
  destruct (someConnected_spec graph anode cathode rBuses) as (connected & -> & Hiff).
  cbn [mbind outcome_bind mret outcome_ret].
  destruct connected.
  - left. split; [|done]. destruct (proj1 Hiff eq_refl) as (r & Hr & H).
    destruct H as [H|H]; apply (reachable_sym _ _ _ Hsym) in H.
    + exists r, anode. split; [done|]. split; [by left|]. by right.
    + exists r, cathode. split; [done|]. split; [by right|]. by right.
  - right. split; [|done]. intros (r & ledBus & Hr & HledBus & H).
    assert (Hreach : reachable graph ledBus (Some r)).
    { destruct H as [->|H]; [apply rtc_refl | done]. }
    apply (reachable_sym _ _ _ Hsym) in Hreach.
    assert (Hfalse : false = true); [|done]. apply Hiff.
    exists r. split; [done|]. destruct HledBus as [->| ->]; [by left | by right].
Qed.

Lemma checkSeriesConnections_no_led this circuit graph :
  List.find is_led (components circuit) = None →
  checkSeriesConnections this circuit graph = Returned [].
Proof. intros H. unfold checkSeriesConnections. by rewrite H. Qed.

Lemma checkSeriesConnections_returns this circuit :
  ∃ errs, checkSeriesConnections this circuit (buildBusConnectivityGraph this circuit)
          = Returned errs ∧
    ∀ d, d ∈ errs →
      ∃ led resistor,
        List.find is_led (components circuit) = Some led ∧
        List.find is_resistor (components circuit) = Some resistor ∧
        d = createError "OPEN_CIRCUIT" "led-resistor"
              (OpenCircuitExtra [placedPinBus this led "anode";
                                 placedPinBus this led "cathode"]
                 (placedBuses this (comp_placement resistor))).
Proof.
  destruct (List.find is_led (components circuit)) as [led|] eqn:Hled.
  - destruct (List.find is_resistor (components circuit)) as [resistor|] eqn:Hresistor.
    + destruct (checkSeriesConnections_spec this circuit led resistor Hled Hresistor)
        as [[_ ->]|[_ ->]].
      * exists []. split; [done|]. by intros d ?%elem_of_nil.
      * eexists. split; [done|]. intros d ->%list_elem_of_singleton. by exists led, resistor.
    + exists []. split; [|by intros d ?%elem_of_nil].
      unfold checkSeriesConnections. by rewrite Hled, Hresistor.
  - exists []. split; [|by intros d ?%elem_of_nil].
    by apply checkSeriesConnections_no_led.
Qed.

(** Layer 4 always returns; past its two guards, its diagnostics are those
    of the three checks. *)
Lemma validateTopology_spec this circuit :
  ∃ errs, validateTopology this circuit = Returned errs ∧
    (components circuit = [] → errs = [createError "EMPTY_CIRCUIT" "circuit" NoExtra]) ∧
    (components circuit ≠ [] → wires circuit = [] →
     errs = [createError "NO_CONNECTIONS" "circuit" NoExtra]) ∧
    (components circuit ≠ [] → wires circuit ≠ [] →
     ∃ seriesErrors pathErrors isolationErrors,
       checkSeriesConnections this circuit (buildBusConnectivityGraph this circuit)
         = Returned seriesErrors ∧
       checkCompletePaths this circuit (buildBusConnectivityGraph this circuit)
         = Returned pathErrors ∧
       checkIsolatedComponents circuit (buildBusConnectivityGraph this circuit)
         = Returned isolationErrors ∧
       errs = seriesErrors ++ pathErrors ++ isolationErrors).
Proof.
  unfold validateTopology.
  destruct (components circuit) as [|comp comps] eqn:Hcomps.
  { eexists. split; [done|]. split; [done|]. split; by intros []. }
  cbn [length Nat.eqb Nat.ltb Nat.leb andb].
  destruct (wires circuit) as [|wire ws] eqn:Hwires.
  { eexists. split; [done|]. split; [done|]. split; [done|]. by intros _ []. }
  cbn [length Nat.eqb andb].
  destruct (checkSeriesConnections_returns this circuit) as (seriesErrors & -> & _).
  destruct (checkCompletePaths_spec this circuit (buildBusConnectivityGraph this circuit))
    as (pathErrors & -> & _).
  destruct (checkIsolatedComponents_spec circuit (buildBusConnectivityGraph this circuit))
    as (isolationErrors & -> & _).
  cbn [mbind outcome_bind mret outcome_ret].
  eexists. split; [done|]. split; [done|]. split; [done|].
  intros _ _. by exists seriesErrors, pathErrors, isolationErrors.
Qed.

(** ** Layer 4: which components the checks look at *)

Lemma find_first {A} (P : A → bool) (before : list A) (x : A) (after : list A) :
  Forall (λ y, P y = false) before → P x = true →
  List.find P (before ++ x :: after) = Some x.
Proof.
  intros Hbefore Hx. induction Hbefore as [|y before Hy _ IH]; simpl.
  - by rewrite Hx.
  - by rewrite Hy.
Qed.

Lemma find_Some_first {A} (P : A → bool) (l : list A) (x : A) :
  List.find P l = Some x →
  ∃ before after, l = before ++ x :: after ∧
    Forall (λ y, P y = false) before ∧ P x = true.
Proof.
  induction l as [|y l IH]; simpl; [done|].
  destruct (P y) eqn:Hy.
  - intros [= ->]. exists [], l. by repeat split.
  - intros (before & after & -> & Hbefore & Hx)%IH.
    exists (y :: before), after. repeat split; [|done]. by constructor.
Qed.

Lemma find_None_all {A} (P : A → bool) (l : list A) :
  (∀ x, x ∈ l → P x = false) → List.find P l = None.
Proof.
  induction l as [|y l IH]; intros Hall; simpl; [done|].
  rewrite (Hall y) by left. apply IH. intros x Hx. apply Hall. by right.
Qed.

Lemma is_led_iff c :
  is_led c = true ↔ comp_type c = "led" ∨ comp_type c = "led-red-5mm".
Proof. unfold is_led. by rewrite orb_true_iff, !String.eqb_eq. Qed.

Lemma is_resistor_iff c :
  is_resistor c = true ↔ comp_type c = "resistor" ∨ comp_type c = "resistor-220".
Proof. unfold is_resistor. by rewrite orb_true_iff, !String.eqb_eq. Qed.

(** The diagnostics of layer 4, by type. *)
Lemma elem_of_validateTopology this circuit errs d :
  validateTopology this circuit = Returned errs → d ∈ errs →
  d = createError "EMPTY_CIRCUIT" "circuit" NoExtra ∨
  d = createError "NO_CONNECTIONS" "circuit" NoExtra ∨
  d_type d = "DISCONNECTED_GROUPS" ∨
  (∃ led, List.find is_led (components circuit) = Some led ∧
     (d = createError "NO_GROUND_PATH" (comp_id led)
            (CathodeBusExtra (placedPinBus this led "cathode")) ∨
      d = createError "NO_SOURCE_PATH" (comp_id led)
            (AnodeBusExtra (placedPinBus this led "anode")) ∨
      ∃ resistor, List.find is_resistor (components circuit) = Some resistor ∧
        wires circuit ≠ [] ∧
        checkSeriesConnections this circuit (buildBusConnectivityGraph this circuit)
          = Returned [d] ∧
        d = createError "OPEN_CIRCUIT" "led-resistor"
              (OpenCircuitExtra [placedPinBus this led "anode";
                                 placedPinBus this led "cathode"]
                 (placedBuses this (comp_placement resistor))))).
Proof.
  intros Hres Hd.
  destruct (validateTopology_spec this circuit) as (errs' & Hres' & Hempty & Hnowire & Hchecks).
  rewrite Hres in Hres'. injection Hres' as <-.
  destruct (components circuit) as [|comp comps] eqn:Hcomps.
  { rewrite Hempty in Hd by done. left. by apply list_elem_of_singleton in Hd. }
  destruct (wires circuit) as [|wire ws] eqn:Hwires.
  { rewrite Hnowire in Hd by done. right. left. by apply list_elem_of_singleton in Hd. }
  destruct Hchecks as (seriesErrors & pathErrors & isolationErrors
                       & Hseries & Hpath & Hisolation & ->); [done..|].
  rewrite <- Hcomps in *.
  apply elem_of_app in Hd as [Hd|[Hd|Hd]%elem_of_app].
  - destruct (checkSeriesConnections_returns this circuit) as (es & Hes & Hall).
    rewrite Hseries in Hes. injection Hes as <-.
    destruct (Hall d Hd) as (led & resistor & Hled & Hresistor & ->).
    do 3 right. exists led. split; [done|]. do 2 right.
    exists resistor. split; [done|]. split; [done|]. split; [|done].
    destruct (checkSeriesConnections_spec this circuit led resistor Hled Hresistor)
      as [[_ Heq]|[_ Heq]]; rewrite Heq in Hseries; injection Hseries as <-; [|done].
    by apply elem_of_nil in Hd.
  - destruct (checkCompletePaths_spec this circuit (buildBusConnectivityGraph this circuit))
      as (es & Hes & Hall).
    rewrite Hpath in Hes. injection Hes as <-.
    destruct (Hall d Hd) as (led & Hled & Hcases).
    do 3 right. exists led. split; [done|]. destruct Hcases; auto.
  - destruct (checkIsolatedComponents_spec circuit (buildBusConnectivityGraph this circuit))
      as (es & Hes & Hall).
    rewrite Hisolation in Hes. injection Hes as <-.
    do 2 right. left. by apply Hall.
Qed.

(** C10: the series and complete-path checks of layer 4 pick the LED (and
    the resistor) by comparing the declared [type] with the two literal
    names, and look at the first match in circuit order only; when no
    component carries one of the two LED type names, layer 4 returns no
    [OPEN_CIRCUIT], [NO_GROUND_PATH] or [NO_SOURCE_PATH]. *)
Theorem validateTopology_selects_by_type_name
    (this : CircuitValidator) (circuit : Circuit) :
  (∀ c, is_led c = true ↔ comp_type c = "led" ∨ comp_type c = "led-red-5mm") ∧
  (∀ c, is_resistor c = true
        ↔ comp_type c = "resistor" ∨ comp_type c = "resistor-220") ∧
  ∃ errs, validateTopology this circuit = Returned errs ∧
    (∀ before led after,
       components circuit = before ++ led :: after →
       Forall (λ c, is_led c = false) before → is_led led = true →
       ∀ d, d ∈ errs →
         (d_type d = "NO_GROUND_PATH" →
          d = createError "NO_GROUND_PATH" (comp_id led)
                (CathodeBusExtra (placedPinBus this led "cathode"))) ∧
         (d_type d = "NO_SOURCE_PATH" →
          d = createError "NO_SOURCE_PATH" (comp_id led)
                (AnodeBusExtra (placedPinBus this led "anode"))) ∧
         (d_type d = "OPEN_CIRCUIT" →
          ∃ before' resistor after',
            components circuit = before' ++ resistor :: after' ∧
            Forall (λ c, is_resistor c = false) before' ∧
            is_resistor resistor = true ∧
            d = createError "OPEN_CIRCUIT" "led-resistor"
                  (OpenCircuitExtra [placedPinBus this led "anode";
                                     placedPinBus this led "cathode"]
                     (placedBuses this (comp_placement resistor))))) ∧
    ((∀ c, c ∈ components circuit →
        comp_type c ≠ "led" ∧ comp_type c ≠ "led-red-5mm") →
     ∀ d, d ∈ errs →
       d_type d ≠ "OPEN_CIRCUIT" ∧ d_type d ≠ "NO_GROUND_PATH" ∧
       d_type d ≠ "NO_SOURCE_PATH").
Proof.
  split; [apply is_led_iff|]. split; [apply is_resistor_iff|].
  destruct (validateTopology_spec this circuit) as (errs & Hres & _).
  exists errs. split; [done|]. split.
  - intros before led after Hcomps Hbefore Hled d Hd.
    assert (Hfind : List.find is_led (components circuit) = Some led).
    { rewrite Hcomps. by apply find_first. }
    destruct (elem_of_validateTopology this circuit errs d Hres Hd)
      as [->|[->|[Htype|(led' & Hfind' & Hcases)]]];
      [by repeat split..| |].
    { rewrite Htype. by repeat split. }
    rewrite Hfind in Hfind'. injection Hfind' as <-.
    destruct Hcases as [->|[->|(resistor & Hresistor & _ & _ & ->)]];
      [by repeat split..|].
    split; [done|]. split; [done|]. intros _.
    apply find_Some_first in Hresistor as (before' & after' & ? & ? & ?).
    by exists before', resistor, after'.
  - intros Hnone d Hd.
    assert (Hfind : List.find is_led (components circuit) = None).
    { apply find_None_all. intros c Hc. destruct (Hnone c Hc) as [H1 H2].
      destruct (is_led c) eqn:E; [|done]. apply is_led_iff in E. tauto. }
    destruct (elem_of_validateTopology this circuit errs d Hres Hd)
      as [->|[->|[Htype|(led' & Hfind' & _)]]]; [by repeat split..| |congruence].
    rewrite Htype. by repeat split.
Qed.

Example validateTopology_customLed :
  validateTopology Sample.validator Sample.customLed =
  Returned [createError "DISCONNECTED_GROUPS" "circuit" (GroupsExtra 3 [2; 2; 2])].
Proof. vm_compute. reflexivity. Qed.

Example validateTopology_apartOneWire :
  validateTopology Sample.validator Sample.apartOneWire =
  Returned [createError "OPEN_CIRCUIT" "led-resistor"
              (OpenCircuitExtra [Some "bus1-top"; Some "bus1-bottom"]
                 ["bus5-top"; "bus9-top"]);
            createError "NO_GROUND_PATH" "led1" (CathodeBusExtra (Some "bus1-bottom"));
            createError "NO_SOURCE_PATH" "led1" (AnodeBusExtra (Some "bus1-top"));
            createError "DISCONNECTED_GROUPS" "circuit" (GroupsExtra 3 [2; 2; 2])].
Proof. vm_compute. reflexivity. Qed.

(** ** The pipeline on the sample documents *)

Example init_ready : init Sample.network Sample.fresh = (Returned true, Sample.ready).
Proof. vm_compute. reflexivity. Qed.

Example validate_litLed :
  (validate Sample.network Sample.litLed Sample.fresh).1 =
  Returned {| valid := true; errors := []; warnings := [] |}.
Proof. vm_compute. reflexivity. Qed.

Example validate_litLed_requests :
  requests (validate Sample.network Sample.litLed Sample.fresh).2 =
  ["components/library.json"; "components/basic/resistor.json"; "components/basic/led.json"].
Proof. vm_compute. reflexivity. Qed.

Example validate_noComponents :
  (validate Sample.network Sample.noComponents Sample.ready).1 =
  Returned {| valid := false;
              errors := [createError "MISSING_COMPONENTS" "circuit" NoExtra;
                         createError "INVALID_METADATA" "metadata" NoExtra];
              warnings := [] |}.
Proof. vm_compute. reflexivity. Qed.

Example validate_nullComponent :
  (validate Sample.network Sample.nullComponent Sample.ready).1 = Thrown TypeError.
Proof. vm_compute. reflexivity. Qed.

Example validate_offline :
  (validate Sample.offline Sample.litLed Sample.fresh).1 = Returned libraryLoadFailed.
Proof. vm_compute. reflexivity. Qed.

(** ** Layer 1 *)

Lemma truthy_not_nullish v : truthy v = true → nullish v = false.
Proof. by destruct v. Qed.

Lemma get_present k v : nullish v = false → get k v = Returned (own_prop k v).
Proof. by destruct v. Qed.

Lemma get_opt_present k v : nullish v = false → get_opt k v = own_prop k v.
Proof. by destruct v. Qed.

Lemma get_Returned k v r : get k v = Returned r → nullish v = false ∧ r = own_prop k v.
Proof. destruct v; simpl; by intros [= <-]. Qed.

Lemma join_outcome element xs :
  Forall (λ x, (∃ text, element x = Returned text) ∨ element x = Thrown TypeError) xs →
  (∃ text, join element xs = Returned text) ∨ join element xs = Thrown TypeError.
Proof.
  induction 1 as [|x rest Hx _ IH]; cbn [join]; [eauto|].
  destruct Hx as [[first ->]| ->]; [|by right].
  cbn [mbind outcome_bind]. destruct rest as [|y rest]; [eauto|].
  destruct IH as [[later ->]| ->]; [|by right].
  cbn [mbind outcome_bind]. eauto.
Qed.

(** A template literal returns a string or throws a TypeError. *)
Lemma to_string_outcome v :
  (∃ text, to_string v = Returned text) ∨ to_string v = Thrown TypeError.
Proof.
  revert v. fix IH 1. intros [| |[]|text|s|items|fields]; cbn [to_string].
  1-6: clear IH; eauto.
  - apply join_outcome.
    induction items as [|x rest IHrest]; constructor; [|exact IHrest].
    pose proof (IH x) as Hx. clear IH IHrest. destruct x; eauto.
  - clear IH. destruct (assoc "toString" fields); eauto.
Qed.

Lemma push_about_cases v d :
  (printable v ∧ push_about v d = Returned [d]) ∨
  (¬ printable v ∧ push_about v d = Thrown TypeError).
Proof.
  unfold push_about, printable.
  destruct (to_string_outcome v) as [[text Hv]|Hv]; rewrite Hv.
  - left. eauto.
  - right. split; [|done]. by intros [text [=]].
Qed.


Lemma push_about_Returned v d errs : push_about v d = Returned errs → errs = [d].
Proof.
  destruct (push_about_cases v d) as [[_ ->]|[_ ->]]; [|done]. by intros [= <-].
Qed.

Lemma push_about_outcome v d :
  (∃ errs, push_about v d = Returned errs) ∨ push_about v d = Thrown TypeError.
Proof. destruct (push_about_cases v d) as [[_ ->]|[_ ->]]; eauto. Qed.

(** The loop over the placement of a component: what it returns, when it
    returns. *)
Lemma collect_hole_ids id d index (placement : list (string * JSValue)) :
  let pushed :=
    collect (λ '(pin, holeId) _,
        if negb (typeof_string holeId) then push_about id d else mret [])
      index placement in
  let holeErrors :=
    flat_map (λ '(pin, holeId), if negb (typeof_string holeId) then [d] else [])
      placement in
  (pushed = Returned holeErrors ∧ (printable id ∨ holeErrors = [])) ∨
  (pushed = Thrown TypeError ∧ ¬ printable id).
Proof.
  cbv zeta. revert index.
  induction placement as [|[pin holeId] rest IH]; intros index; [by left; eauto|].
  cbn [collect flat_map]. specialize (IH (S index)).
  destruct (negb (typeof_string holeId)).
  - destruct IH as [[-> _]|[_ Hno]].
    + destruct (push_about_cases id d) as [[Hid ->]|[Hid ->]]; [|by right].
      left. split; [done | by left].
    + right. split; [|done].
      by destruct (push_about_cases id d) as [[Hid _]|[_ ->]].
  - cbn [mbind outcome_bind mret outcome_ret].
    destruct IH as [[-> Hor]|[-> Hno]]; [|by right].
    left. split; [done|]. destruct Hor as [?|Hnil]; [by left | right; by rewrite Hnil].
Qed.

(** What [validateComponentSchema] returns, when it returns: the
    diagnostics of its five tests. *)
Lemma validateComponentSchema_Returned component index errs :
  validateComponentSchema component index = Returned errs →
  nullish component = false ∧
  errs =
    (let location := "components[" +:+ pretty index +:+ "]" in
     (if not_a_nonempty_string (own_prop "id" component)
      then [createError "MISSING_COMPONENT_ID" location NoExtra] else []) ++
     (if not_a_nonempty_string (own_prop "type" component)
      then [createError "MISSING_COMPONENT_TYPE" location NoExtra] else []) ++
     (if negb (truthy (own_prop "placement" component))
         || negb (typeof_object (own_prop "placement" component))
      then [createError "MISSING_PLACEMENT" location NoExtra]
      else
        (if (length (entries (own_prop "placement" component)) =? 0)%nat
         then [createError "EMPTY_PLACEMENT" location NoExtra] else []) ++
        flat_map (λ '(pin, holeId),
            if negb (typeof_string holeId)
            then [createError "INVALID_HOLE_ID" location NoExtra] else [])
          (entries (own_prop "placement" component))) ++
     (if truthy (own_prop "properties" component)
         && negb (typeof_object (own_prop "properties" component))
      then [createError "INVALID_PROPERTIES" location NoExtra] else [])).
Proof.
  unfold validateComponentSchema.
  destruct (nullish component) eqn:Hpresent; [by destruct component|].
  rewrite !get_present by done. cbv zeta. cbn [mbind outcome_bind].
  intros Hres. split; [done|]. revert Hres.
  set (id := own_prop "id" component).
  destruct (not_a_nonempty_string (own_prop "type" component)).
  all: try (destruct (push_about_cases id
              (createError "MISSING_COMPONENT_TYPE"
                 ("components[" +:+ pretty index +:+ "]") NoExtra))
            as [[_ ->]|[_ ->]]; [|done]).
  all: cbn [mbind outcome_bind mret outcome_ret].
  all: destruct (negb (truthy (own_prop "placement" component))
                 || negb (typeof_object (own_prop "placement" component))).
  all: try (destruct (push_about_cases id
              (createError "MISSING_PLACEMENT"
                 ("components[" +:+ pretty index +:+ "]") NoExtra))
            as [[_ ->]|[_ ->]]; [|done]).
  all: try (destruct (length (entries (own_prop "placement" component)) =? 0)%nat;
            [destruct (push_about_cases id
               (createError "EMPTY_PLACEMENT"
                  ("components[" +:+ pretty index +:+ "]") NoExtra))
             as [[_ ->]|[_ ->]]; [|done] |];
            cbn [mbind outcome_bind mret outcome_ret];
            (destruct (collect_hole_ids id
               (createError "INVALID_HOLE_ID"
                  ("components[" +:+ pretty index +:+ "]") NoExtra)
               0 (entries (own_prop "placement" component)))
             as [[-> _]|[-> _]]; [|done])).
  all: cbn [mbind outcome_bind mret outcome_ret].
  all: destruct (truthy (own_prop "properties" component)
                 && negb (typeof_object (own_prop "properties" component))).
  all: try (destruct (push_about_cases id
              (createError "INVALID_PROPERTIES"
                 ("components[" +:+ pretty index +:+ "]") NoExtra))
            as [[_ ->]|[_ ->]]; [|done]).
  all: cbn [mbind outcome_bind mret outcome_ret].
  all: by intros [= <-].
Qed.



Lemma validateWireSchema_Returned wire index errs :
  validateWireSchema wire index = Returned errs →
  nullish wire = false ∧
  errs =
    (let location := "wires[" +:+ pretty index +:+ "]" in
     (if not_a_nonempty_string (own_prop "id" wire)
      then [createError "MISSING_WIRE_ID" location NoExtra] else []) ++
     (if not_a_nonempty_string (own_prop "from" wire)
      then [createError "MISSING_WIRE_FROM" location NoExtra] else []) ++
     (if not_a_nonempty_string (own_prop "to" wire)
      then [createError "MISSING_WIRE_TO" location NoExtra] else [])).
Proof.
  unfold validateWireSchema.
  destruct (nullish wire) eqn:Hpresent; [by destruct wire|].
  rewrite !get_present by done. cbv zeta. cbn [mbind outcome_bind].
  intros Hres. split; [done|]. revert Hres.
  destruct (not_a_nonempty_string (own_prop "from" wire)).
  all: try (destruct (push_about_cases (own_prop "id" wire)
              (createError "MISSING_WIRE_FROM"
                 ("wires[" +:+ pretty index +:+ "]") NoExtra))
            as [[_ ->]|[_ ->]]; [|done]).
  all: cbn [mbind outcome_bind mret outcome_ret].
  all: destruct (not_a_nonempty_string (own_prop "to" wire)).
  all: try (destruct (push_about_cases (own_prop "id" wire)
              (createError "MISSING_WIRE_TO"
                 ("wires[" +:+ pretty index +:+ "]") NoExtra))
            as [[_ ->]|[_ ->]]; [|done]).
  all: cbn [mbind outcome_bind mret outcome_ret].
  all: by intros [= <-].
Qed.








(** A document whose [components] is not an array does not pass layer 1. *)
Lemma validateSchema_missing_components circuitJSON errs :
  isArray (components_of circuitJSON) = false →
  validateSchema circuitJSON = Returned errs → errs ≠ [].
Proof.
  intros Harr. unfold validateSchema.
  destruct (negb (truthy circuitJSON) || negb (typeof_object circuitJSON)) eqn:Hroot.
  { by intros [= <-]. }
  apply orb_false_iff in Hroot as [Hroot%negb_false_iff%truthy_not_nullish _].
  unfold components_of in Harr.
  rewrite (get_opt_present "circuit" circuitJSON) in Harr by done.
  rewrite get_present by done. cbn [mbind outcome_bind].
  destruct (negb (truthy (own_prop "circuit" circuitJSON))) eqn:Hcircuit.
  { by intros [= <-]. }
  apply negb_false_iff, truthy_not_nullish in Hcircuit.
  rewrite get_opt_present in Harr by done.
  rewrite !get_present by done. cbn [mbind outcome_bind].
  rewrite Harr. rewrite orb_true_r.
  destruct (if truthy _ then validateMetadata _ else mret []); [|done..].
  cbn [mbind outcome_bind mret outcome_ret].
  destruct (if isArray _ then collect validateWireSchema _ _ else _); [|done..].
  cbn [mbind outcome_bind mret outcome_ret].
  intros [= <-]. by destruct (negb (truthy (own_prop "metadata" _))).
Qed.

Lemma collect_nil {A} (f : A → nat → outcome (list Diagnostic)) index arr :
  collect f index arr = Returned [] →
  ∀ i x, arr !! i = Some x → f x (index + i) = Returned [].
Proof.
  revert index. induction arr as [|y arr IH]; intros index Hall i x Hx; [done|].
  cbn [collect] in Hall.
  destruct (f y index) as [here| |] eqn:Hhere; [|done..].
  cbn [mbind outcome_bind] in Hall.
  destruct (collect f (S index) arr) as [later| |] eqn:Hlater; [|done..].
  cbn [mbind outcome_bind mret outcome_ret] in Hall.
  injection Hall as Hall. apply app_eq_nil in Hall as [-> ->].
  destruct i as [|i].
  - injection Hx as <-. by rewrite Nat.add_0_r.
  - rewrite <- Nat.add_succ_comm. by apply IH.
Qed.

Lemma not_a_nonempty_string_false v :
  not_a_nonempty_string v = false → ∃ s, v = JStr s ∧ s ≠ "".
Proof.
  unfold not_a_nonempty_string.
  destruct v as [| |b|n|s|xs|fs]; cbn; rewrite ?orb_true_r; try done.
  intros H. exists s. split; [done|]. intros ->. done.
Qed.

Lemma if_singleton_nil {A} (b : bool) (x : A) : (if b then [x] else []) = [] → b = false.
Proof. by destruct b. Qed.

Lemma flat_map_nil {A B} (f : A → list B) (l : list A) :
  flat_map f l = [] → ∀ x, x ∈ l → f x = [].
Proof.
  induction l as [|y l IH]; simpl; [by intros _ x ?%elem_of_nil|].
  intros [Hy Hl]%app_eq_nil x [->|Hx]%elem_of_cons; auto.
Qed.

(** A component that layer 1 has nothing to say about has the fields the
    later layers read. *)
Lemma validateComponentSchema_nil component index :
  validateComponentSchema component index = Returned [] →
  ∃ c, component_of component = Some c.
Proof.
  intros [Hpresent Herrs]%validateComponentSchema_Returned. cbv zeta in Herrs.
  symmetry in Herrs. unfold component_of.
  rewrite !get_opt_present by done.
  apply app_eq_nil in Herrs as [Hid Herrs].
  apply app_eq_nil in Herrs as [Htype Herrs].
  apply app_eq_nil in Herrs as [Hplacement _].
  apply if_singleton_nil, not_a_nonempty_string_false in Hid as (id & -> & _).
  apply if_singleton_nil, not_a_nonempty_string_false in Htype as (type & -> & _).
  destruct (negb (truthy (own_prop "placement" component))
            || negb (typeof_object (own_prop "placement" component))); [done|].
  apply app_eq_nil in Hplacement as [_ Hholes].
  cbn [string_of option_bind mbind].
  assert (is_Some (mapM (λ '(pin, holeId), h ← string_of holeId; Some (pin, h))
                     (entries (own_prop "placement" component)))) as [placement ->].
  { apply mapM_is_Some, Forall_forall. intros [pin holeId] Hin.
    pose proof (flat_map_nil _ _ Hholes _ Hin) as Hhole. cbv beta iota in Hhole.
    apply if_singleton_nil, negb_false_iff in Hhole.
    destruct holeId; try done. by eexists. }
  cbn [option_bind mbind]. eauto.
Qed.

Lemma validateWireSchema_nil wire index :
  validateWireSchema wire index = Returned [] →
  ∃ w, wire_of wire = Some w.
Proof.
  intros [Hpresent Herrs]%validateWireSchema_Returned. cbv zeta in Herrs.
  symmetry in Herrs. unfold wire_of.
  rewrite !get_opt_present by done.
  apply app_eq_nil in Herrs as [Hid Herrs].
  apply app_eq_nil in Herrs as [Hfrom Hto].
  apply if_singleton_nil, not_a_nonempty_string_false in Hid as (id & -> & _).
  apply if_singleton_nil, not_a_nonempty_string_false in Hfrom as (from & -> & _).
  apply if_singleton_nil, not_a_nonempty_string_false in Hto as (to & -> & _).
  cbn [string_of option_bind mbind]. eauto.
Qed.

Lemma mapM_collect_nil {A B} (f : A → nat → outcome (list Diagnostic))
    (g : A → option B) index arr :
  (∀ x i, f x i = Returned [] → is_Some (g x)) →
  collect f index arr = Returned [] → is_Some (mapM g arr).
Proof.
  intros Hfg Hall. apply mapM_is_Some, Forall_forall. intros x [i Hi]%list_elem_of_lookup_1.
  eapply Hfg. by eapply collect_nil.
Qed.

Lemma validateSchema_missing_wires circuitJSON errs :
  isArray (wires_of circuitJSON) = false →
  validateSchema circuitJSON = Returned errs → errs ≠ [].
Proof.
  intros Harr. unfold validateSchema.
  destruct (negb (truthy circuitJSON) || negb (typeof_object circuitJSON)) eqn:Hroot.
  { by intros [= <-]. }
  apply orb_false_iff in Hroot as [Hroot%negb_false_iff%truthy_not_nullish _].
  unfold wires_of in Harr.
  rewrite (get_opt_present "circuit" circuitJSON) in Harr by done.
  rewrite get_present by done. cbn [mbind outcome_bind].
  destruct (negb (truthy (own_prop "circuit" circuitJSON))) eqn:Hcircuit.
  { by intros [= <-]. }
  apply negb_false_iff, truthy_not_nullish in Hcircuit.
  rewrite get_opt_present in Harr by done.
  rewrite !get_present by done. cbn [mbind outcome_bind].
  rewrite Harr. rewrite orb_true_r.
  destruct (if truthy _ then validateMetadata _ else mret []); [|done..].
  cbn [mbind outcome_bind mret outcome_ret].
  destruct (if isArray _ then collect validateComponentSchema _ _ else _); [|done..].
  cbn [mbind outcome_bind mret outcome_ret].
  intros [= <-].
  by destruct (negb (truthy (own_prop "metadata" _))), (negb (truthy (own_prop "components" _)) || _).
Qed.


(** ** The component registry *)

Lemma same_board_refl st : same_board st st.
Proof. by repeat split. Qed.

Lemma same_board_trans st1 st2 st3 :
  same_board st1 st2 → same_board st2 st3 → same_board st1 st3.
Proof.
  intros (? & ? & ? & ?) (? & ? & ? & ?). repeat split; congruence.
Qed.

Lemma get_finishes k v : get k v ≠ OutOfFuel.
Proof. by destruct v. Qed.

Lemma object_keys_finishes v : object_keys v ≠ OutOfFuel.
Proof. by destruct v. Qed.

Lemma bind_finishes {A B} (m : outcome A) (f : A → outcome B) :
  m ≠ OutOfFuel → (∀ a, f a ≠ OutOfFuel) → (m ≫= f) ≠ OutOfFuel.
Proof. destruct m; cbn; auto. Qed.

Lemma try_catch_returns {A} (m : outcome A) (fallback : A) :
  m ≠ OutOfFuel → ∃ r, try_catch m (λ _, Returned fallback) = Returned r.
Proof. destruct m; cbn; [eauto..|done]. Qed.

Lemma collect_finishes {A} (f : A → nat → outcome (list Diagnostic)) index arr :
  (∀ x i, f x i ≠ OutOfFuel) → collect f index arr ≠ OutOfFuel.
Proof.
  intros Hf. revert index. induction arr as [|x arr IH]; intros index; [done|].
  cbn [collect]. apply bind_finishes; [done|]. intros here.
  apply bind_finishes; [done|]. done.
Qed.

Lemma to_string_finishes v : to_string v ≠ OutOfFuel.
Proof. by destruct (to_string_outcome v) as [[text ->]| ->]. Qed.

Lemma read_finishes builtins k v : read builtins k v ≠ OutOfFuel.
Proof.
  unfold read. destruct (nullish v); [done|]. destruct (has_own k v); [done|].
  by destruct (builtins v k).
Qed.

Lemma member_text_finishes m : member_text m ≠ OutOfFuel.
Proof. destruct m; [apply to_string_finishes | done..]. Qed.

(** [loadComponent] touches nothing but the cache and the request log, and
    ends by returning or throwing. *)
Lemma loadComponent_spec net componentType st :
  same_board st (loadComponent net componentType st).2 ∧
  (loadComponent net componentType st).1 ≠ OutOfFuel.
Proof.
  unfold loadComponent.
  destruct (loadedComponents (this st) !! componentType); [by split; [apply same_board_refl|]|].
  destruct (negb (truthy (componentLibrary (this st)))); [by split; [apply same_board_refl|]|].
  destruct (get "index" (componentLibrary (this st))) as [index| |] eqn:Hindex;
    cbn [mbind outcome_bind];
    [|by split; [apply same_board_refl|] | by destruct (get_finishes _ _ Hindex)].
  destruct (read (builtins st) componentType index) as [componentPath| |] eqn:Hpath;
    [|by split; [apply same_board_refl|] | by destruct (read_finishes _ _ _ Hpath)].
  destruct (negb (member_truthy componentPath)); [by split; [apply same_board_refl|]|].
  destruct (member_text componentPath) as [path| |] eqn:Htext;
    [|by split; [apply same_board_refl|] | by destruct (member_text_finishes _ Htext)].
  destruct (net (requests st) _) as [data|]; [|by split].
  destruct (get "component" data); by split.
Qed.

(** C9: a call of [loadComponent] that succeeded is answered from the
    cache ever after: a second call for the same type returns the same
    definition and leaves the state as it is, request log included,
    whatever the network would answer. *)
Theorem loadComponent_cached (net net' : Network) (componentType : string)
    (st st1 : State) (component : JSValue) :
  loadComponent net componentType st = (Returned component, st1) →
  loadComponent net' componentType st1 = (Returned component, st1).
Proof.
  unfold loadComponent at 1.
  destruct (loadedComponents (this st) !! componentType) as [cached|] eqn:Hcached.
  { intros [= <- <-]. unfold loadComponent. by rewrite Hcached. }
  destruct (negb (truthy (componentLibrary (this st)))); [done|].
  destruct (get "index" (componentLibrary (this st)) ≫= read (builtins st) componentType)
    as [componentPath| |]; [|done..].
  destruct (negb (member_truthy componentPath)); [done|].
  destruct (member_text componentPath) as [path| |]; [|done..].
  destruct (net (requests st) _) as [data|]; [|done].
  destruct (get "component" data) as [loaded| |]; [|done..].
  intros [= <- <-]. unfold loadComponent, cache_component. cbn [this loadedComponents].
  by rewrite lookup_insert_eq.
Qed.

Lemma loadComponent_cached_witness :
  loadComponent Sample.offline "led" (loadComponent Sample.network "led" Sample.ready).2
  = (Returned Sample.ledDefinition, (loadComponent Sample.network "led" Sample.ready).2).
Proof.
  apply (loadComponent_cached Sample.network Sample.offline "led" Sample.ready).
  vm_compute. reflexivity.
Defined.

Example loadComponent_fetches_once :
  requests (loadComponent Sample.network "led"
              (loadComponent Sample.network "led" Sample.ready).2).2
  = ["components/library.json"; "components/basic/led.json"].
Proof. vm_compute. reflexivity. Qed.

(** ** Layers 2 and 5 return *)

Lemma collect_st_returns {A} (f : A → State → outcome (list Diagnostic) * State)
    (arr : list A) (st0 st : State) :
  same_board st0 st →
  (∀ x st, ∃ errs, (f x st).1 = Returned errs ∧ same_board st (f x st).2) →
  ∃ errs st', collect_st f arr st = (Returned errs, st') ∧ same_board st0 st'.
Proof.
  intros Hst Hf. revert st Hst.
  induction arr as [|x arr IH]; intros st Hst; cbn [collect_st]; [eauto|].
  destruct (Hf x st) as (here & Hhere & Hsame).
  destruct (f x st) as [result st1]. cbn [fst snd] in *. subst result.
  destruct (IH st1) as (later & st2 & -> & Hsame2).
  { by eapply same_board_trans. }
  eauto.
Qed.

Lemma checkComponentType_returns net comp st :
  ∃ errs, (checkComponentType net comp st).1 = Returned errs ∧
          same_board st (checkComponentType net comp st).2.
Proof.
  unfold checkComponentType.
  destruct (String.eqb (comp_type comp) ""); [by eexists; split; [|apply same_board_refl]|].
  destruct (loadComponent_spec net (comp_type comp) st) as [Hsame Hfinish].
  destruct (loadComponent net (comp_type comp) st) as [loaded st1].
  cbn [fst snd] in *.
  destruct (try_catch_returns
              (componentDef ← loaded;
               pins ← get "pins" componentDef;
               if truthy pins then
                 definedPins ← object_keys pins;
                 mret (flat_map (λ pin,
                           if bool_decide (pin ∈ definedPins) then []
                           else [createError "INVALID_PIN_NAME" (comp_id comp) NoExtra])
                         (comp_placement comp).*1)
               else mret [])
              [createError "UNKNOWN_COMPONENT_TYPE" (comp_id comp) NoExtra])
    as [errs Herrs]; [|eauto].
  apply bind_finishes; [done|]. intros componentDef.
  apply bind_finishes; [apply get_finishes|]. intros pins.
  destruct (truthy pins); [|done].
  apply bind_finishes; [apply object_keys_finishes | done].
Qed.


Lemma microcontrollerRules_finishes component componentDef circuit :
  microcontrollerRules component componentDef circuit ≠ OutOfFuel.
Proof.
  unfold microcontrollerRules. apply collect_finishes. intros wire _.
  destruct (_ || _); [|done].
  apply bind_finishes; [apply get_finishes|]. intros pins.
  apply bind_finishes; [apply get_finishes|]. intros pinDef.
  apply bind_finishes; [|done].
  destruct (_ && _); [apply to_string_finishes | done].
Qed.

Lemma validateAgainstComponentRules_finishes this component componentDef circuit :
  validateAgainstComponentRules this component componentDef circuit ≠ OutOfFuel.
Proof.
  unfold validateAgainstComponentRules.
  apply bind_finishes; [apply get_finishes|]. intros validation.
  destruct (negb (truthy validation)); [done|].
  apply bind_finishes; [apply get_finishes|]. intros rules.
  destruct (negb (truthy rules)); [done|].
  apply bind_finishes; [apply get_finishes|]. intros electricalType.
  apply bind_finishes; [|done].
  destruct (is_string "microcontroller" electricalType); [|done].
  apply microcontrollerRules_finishes.
Qed.

Lemma checkComponentRules_returns net circuit comp st :
  ∃ errs, (checkComponentRules net circuit comp st).1 = Returned errs ∧
          same_board st (checkComponentRules net circuit comp st).2.
Proof.
  unfold checkComponentRules.
  destruct (loadComponent_spec net (comp_type comp) st) as [Hsame Hfinish].
  destruct (loadComponent net (comp_type comp) st) as [loaded st1].
  cbn [fst snd] in *.
  destruct (try_catch_returns
              (componentDef ← loaded;
               validation ← get "validation" componentDef;
               if truthy validation
               then validateAgainstComponentRules (this st1) comp componentDef circuit
               else mret [])
              ([] : list Diagnostic))
    as [errs Herrs]; [|eauto].
  apply bind_finishes; [done|]. intros componentDef.
  apply bind_finishes; [apply get_finishes|]. intros validation.
  destruct (truthy validation); [|done].
  apply validateAgainstComponentRules_finishes.
Qed.

(** Layer 5 returns, whatever the registry answers. *)
Lemma validateComponentRules_returns net circuit st :
  ∃ errs st', validateComponentRules net circuit st = (Returned errs, st') ∧
              same_board st st'.
Proof.
  unfold validateComponentRules.
  apply collect_st_returns; [apply same_board_refl|].
  intros. apply checkComponentRules_returns.
Qed.


(** ** The pipeline returns *)


(** ** Every diagnostic of the five layers is an error *)

Lemma Forall_flat_map {A B} (P : B → Prop) (f : A → list B) (l : list A) :
  (∀ x, x ∈ l → Forall P (f x)) → Forall P (flat_map f l).
Proof.
  intros Hf. apply Forall_forall. intros y (x & Hx & Hy)%elem_of_flat_map.
  specialize (Hf x Hx). rewrite Forall_forall in Hf. by apply Hf.
Qed.

Lemma Forall_collect {A} (P : Diagnostic → Prop)
    (f : A → nat → outcome (list Diagnostic)) index arr errs :
  (∀ x i es, f x i = Returned es → Forall P es) →
  collect f index arr = Returned errs → Forall P errs.
Proof.
  intros Hf. revert index errs.
  induction arr as [|x arr IH]; intros index errs; cbn [collect].
  - intros [= <-]. constructor.
  - destruct (f x index) as [here| |] eqn:Hhere; [|done..].
    cbn [mbind outcome_bind].
    destruct (collect f (S index) arr) as [later| |] eqn:Hlater; [|done..].
    intros [= <-]. apply Forall_app. split; [by eapply Hf | by eapply IH].
Qed.

Lemma Forall_collect_st {A} (P : Diagnostic → Prop)
    (f : A → State → outcome (list Diagnostic) * State) arr st errs st' :
  (∀ x st es, (f x st).1 = Returned es → Forall P es) →
  collect_st f arr st = (Returned errs, st') → Forall P errs.
Proof.
  intros Hf. revert st errs st'.
  induction arr as [|x arr IH]; intros st errs st'; cbn [collect_st].
  - intros [= <- _]. constructor.
  - destruct (f x st) as [[here| |] st1] eqn:Hhere; [|done..].
    destruct (collect_st f arr st1) as [[later| |] st2] eqn:Hlater; [|done..].
    intros [= <- _]. apply Forall_app. split.
    + apply (Hf x st). by rewrite Hhere.
    + by eapply IH.
Qed.

(** Lists built from [createError] by appending, branching and mapping. *)
Ltac all_errors :=
  repeat first
    [ apply Forall_nil_2
    | apply Forall_app; split
    | apply Forall_cons; split;
        [first [ reflexivity
               | split; [reflexivity
                        | repeat first [apply list_elem_of_here | apply list_elem_of_further]] ]|]
    | apply Forall_flat_map; intros
    | match goal with
      | |- Forall _ (if ?b then _ else _) => destruct b
      | |- Forall _ (match ?x with _ => _ end) => destruct x
      end ].

Lemma validateSchema_structural circuitJSON errs :
  validateSchema circuitJSON = Returned errs → Forall is_structural errs.
Proof.
  unfold validateSchema.
  destruct (negb (truthy circuitJSON) || negb (typeof_object circuitJSON)).
  { intros [= <-]. all_errors. }
  destruct (get "circuit" circuitJSON) as [circuit| |]; [|done..].
  cbn [mbind outcome_bind].
  destruct (negb (truthy circuit)).
  { intros [= <-]. all_errors. }
  destruct (get "metadata" circuit) as [metadata| |]; [|done..].
  destruct (get "components" circuit) as [components| |]; [|done..].
  destruct (get "wires" circuit) as [wires| |]; [|done..].
  cbn [mbind outcome_bind].
  destruct (if truthy metadata then _ else _) as [inMetadata| |] eqn:Hm; [|done..].
  destruct (if isArray components then _ else _) as [inComponents| |] eqn:Hc; [|done..].
  destruct (if isArray wires then _ else _) as [inWires| |] eqn:Hw; [|done..].
  cbn [mbind outcome_bind mret outcome_ret]. intros [= <-].
  repeat (apply Forall_app; split).
  - all_errors.
  - all_errors.
  - all_errors.
  - destruct (truthy metadata); [|injection Hm as <-; all_errors].
    revert Hm. apply Forall_collect. intros field i es.
    destruct (get field metadata); [|done..]. intros [= <-]. all_errors.
  - destruct (isArray components); [|injection Hc as <-; all_errors].
    revert Hc. apply Forall_collect. intros x i es.
    intros [_ ->]%validateComponentSchema_Returned. cbv zeta. all_errors.
  - destruct (isArray wires); [|injection Hw as <-; all_errors].
    revert Hw. apply Forall_collect. intros x i es.
    intros [_ ->]%validateWireSchema_Returned. cbv zeta. all_errors.
Qed.

Lemma checkUniqueIds_errors type ids : Forall is_error (checkUniqueIds type ids).1.
Proof.
  unfold checkUniqueIds.
  assert (H : ∀ (acc : list Diagnostic * gset string),
    Forall is_error acc.1 →
    Forall is_error (foldl (λ '(errors, seen) id,
        if String.eqb id "" then (errors, seen)
        else ((if bool_decide (id ∈ seen)
               then errors ++ [createError type id NoExtra] else errors),
              {[id]} ∪ seen)) acc ids).1).
  { induction ids as [|id ids IH]; intros [errors seen] Hacc; cbn [foldl]; [done|].
    apply IH. destruct (String.eqb id ""); [done|]. cbn [fst] in *.
    destruct (bool_decide _); [|done]. all_errors. done. }
  apply H. constructor.
Qed.

Lemma try_catch_Returned {A} (m : outcome A) (h : JSError → outcome A) r :
  try_catch m h = Returned r → m = Returned r ∨ ∃ e, m = Thrown e ∧ h e = Returned r.
Proof. destruct m; cbn; eauto. Qed.

Lemma checkComponentType_errors net comp st es :
  (checkComponentType net comp st).1 = Returned es → Forall is_error es.
Proof.
  unfold checkComponentType.
  destruct (String.eqb (comp_type comp) ""); [intros [= <-]; constructor|].
  destruct (loadComponent net (comp_type comp) st) as [loaded st1]. cbn [fst].
  intros [Hbody|(e & _ & [= <-])]%try_catch_Returned; [|all_errors].
  destruct loaded as [componentDef| |]; [|done..]. cbn [mbind outcome_bind] in Hbody.
  destruct (get "pins" componentDef) as [pins| |]; [|done..].
  cbn [mbind outcome_bind] in Hbody.
  destruct (truthy pins); [|injection Hbody as <-; constructor].
  destruct (object_keys pins) as [definedPins| |]; [|done..].
  injection Hbody as <-. all_errors.
Qed.

Lemma validateReferences_errors net circuit st errs st' :
  validateReferences net circuit st = (Returned errs, st') → Forall is_error errs.
Proof.
  unfold validateReferences.
  pose proof (checkUniqueIds_errors "DUPLICATE_COMPONENT_ID" (comp_id <$> components circuit))
    as Hcomps.
  pose proof (checkUniqueIds_errors "DUPLICATE_WIRE_ID" (wire_id <$> wires circuit))
    as Hwires.
  destruct (checkUniqueIds _ (comp_id <$> _)) as [duplicateComponents componentIds].
  destruct (checkUniqueIds _ (wire_id <$> _)) as [duplicateWires wireIds].
  destruct (collect_st _ _ _) as [[typeErrors| |] st1] eqn:Htypes; [|done..].
  intros [= <- _]. repeat (apply Forall_app; split); [done| | | |done].
  - revert Htypes. apply Forall_collect_st. apply checkComponentType_errors.
  - all_errors.
  - unfold validateWireEndpoint. all_errors.
Qed.

Lemma validateElectricalRules_errors this circuit errs :
  validateElectricalRules this circuit = Returned errs → Forall is_error errs.
Proof.
  unfold validateElectricalRules.
  destruct (collect _ _ _) as [busConflicts| |] eqn:Hconflicts; [|done..].
  intros [= <-]. apply Forall_app. split.
  - revert Hconflicts. apply Forall_collect. intros comp _ es. unfold checkBusConflicts.
    destruct (groupPins _ _) as [busCounts| |]; [|done..].
    intros [= <-]. all_errors.
  - unfold checkPowerGroundShorts. all_errors.
Qed.

Lemma validateTopology_errors this circuit errs :
  validateTopology this circuit = Returned errs → Forall is_error errs.
Proof.
  intros Hres. apply Forall_forall. intros d Hd.
  destruct (validateTopology_spec this circuit) as (errs' & Hres' & Hempty & Hnowire & Hchecks).
  rewrite Hres in Hres'. injection Hres' as <-.
  destruct (components circuit) as [|comp comps] eqn:Hcomps.
  { rewrite Hempty in Hd by done. by apply list_elem_of_singleton in Hd as ->. }
  destruct (wires circuit) as [|wire ws] eqn:Hwires.
  { rewrite Hnowire in Hd by done. by apply list_elem_of_singleton in Hd as ->. }
  destruct Hchecks as (seriesErrors & pathErrors & isolationErrors
                       & Hseries & Hpath & Hisolation & ->); [done..|].
  rewrite <- Hcomps in *.
  apply elem_of_app in Hd as [Hd|[Hd|Hd]%elem_of_app].
  - destruct (checkSeriesConnections_returns this circuit) as (es & Hes & Hall).
    rewrite Hseries in Hes. injection Hes as <-.
    by destruct (Hall d Hd) as (led & resistor & _ & _ & ->).
  - destruct (checkCompletePaths_spec this circuit (buildBusConnectivityGraph this circuit))
      as (es & Hes & Hall).
    rewrite Hpath in Hes. injection Hes as <-.
    by destruct (Hall d Hd) as (led & _ & [-> | ->]).
  - revert Hisolation. unfold checkIsolatedComponents.
    destruct (findConnectedGroups _) as [groups| |]; [|done..].
    cbn [mbind outcome_bind mret outcome_ret]. intros [= <-].
    destruct (1 <? length groups); [|by apply elem_of_nil in Hd].
    by apply list_elem_of_singleton in Hd as ->.
Qed.

Lemma validateAgainstComponentRules_errors this component componentDef circuit es :
  validateAgainstComponentRules this component componentDef circuit = Returned es →
  Forall is_error es.
Proof.
  unfold validateAgainstComponentRules.
  destruct (get "validation" componentDef) as [validation| |]; [|done..].
  cbn [mbind outcome_bind].
  destruct (negb (truthy validation)); [intros [= <-]; constructor|].
  destruct (get "rules" validation) as [rules| |]; [|done..].
  cbn [mbind outcome_bind].
  destruct (negb (truthy rules)); [intros [= <-]; constructor|].
  destruct (get "electricalType" validation) as [electricalType| |]; [|done..].
  cbn [mbind outcome_bind].
  destruct (if is_string "microcontroller" electricalType then _ else _)
    as [microcontrollerErrors| |] eqn:Hmicro; [|done..].
  cbn [mbind outcome_bind mret outcome_ret]. intros [= <-].
  repeat (apply Forall_app; split).
  - destruct (is_string "led" electricalType); [|constructor].
    unfold ledRules. all_errors.
  - destruct (is_string "resistor" electricalType); [|constructor].
    unfold resistorRules. all_errors.
  - destruct (is_string "microcontroller" electricalType);
      [|injection Hmicro as <-; constructor].
    revert Hmicro. unfold microcontrollerRules. apply Forall_collect. intros wire _ es.
    destruct (_ || _); [|intros [= <-]; constructor].
    destruct (get "pins" componentDef) as [pins| |]; [|done..].
    cbn [mbind outcome_bind].
    destruct (get _ pins) as [pinDef| |]; [|done..].
    cbn [mbind outcome_bind].
    destruct (if truthy pinDef && is_true _ then _ else _); [|done..].
    intros [= <-]. all_errors.
Qed.

Lemma validateComponentRules_errors net circuit st errs st' :
  validateComponentRules net circuit st = (Returned errs, st') → Forall is_error errs.
Proof.
  unfold validateComponentRules. apply Forall_collect_st. intros comp st0 es.
  unfold checkComponentRules.
  destruct (loadComponent net (comp_type comp) st0) as [loaded st1]. cbn [fst].
  intros [Hbody|(e & _ & [= <-])]%try_catch_Returned; [|constructor].
  destruct loaded as [componentDef| |]; [|done..]. cbn [mbind outcome_bind] in Hbody.
  destruct (get "validation" componentDef) as [validation| |]; [|done..].
  cbn [mbind outcome_bind] in Hbody.
  destruct (truthy validation); [|injection Hbody as <-; constructor].
  by eapply validateAgainstComponentRules_errors.
Qed.

(** ** The entry point *)



(** What [validate] returns from layer 1 on. *)
Lemma validateLayers_result net circuitJSON st result st' :
  validateLayers net circuitJSON st = (Returned result, st') →
  valid result = (length (errors result) =? 0) ∧
  Forall is_error (errors result) ∧
  warnings result = [].
Proof.
  unfold validateLayers.
  destruct (validateSchema circuitJSON) as [structuralErrors| |] eqn:Hschema; [|done..].
  cbn [andThen].
  destruct structuralErrors as [|d structuralErrors].
  - cbn [length Nat.ltb Nat.leb].
    destruct (circuit_of circuitJSON) as [circuit|]; [|done].
    destruct (validateReferences net circuit st) as [[referenceErrors| |] st1] eqn:Hrefs;
      [|done..].
    cbn [andThen].
    destruct (validateElectricalRules (this st1) circuit) as [electricalErrors| |] eqn:Herc;
      [|done..].
    cbn [andThen].
    destruct (validateTopology (this st1) circuit) as [topologyErrors| |] eqn:Htopo;
      [|done..].
    cbn [andThen].
    destruct (validateComponentRules net circuit st1) as [[componentErrors| |] st2] eqn:Hrules;
      [|done..].
    cbn [andThen]. intros [= <- _]. cbn [valid errors warnings].
    split; [done|]. split; [|done].
    repeat (apply Forall_app; split).
    + by eapply validateReferences_errors.
    + by eapply validateElectricalRules_errors.
    + by eapply validateTopology_errors.
    + by eapply validateComponentRules_errors.
  - cbn [length Nat.ltb Nat.leb]. intros [= <- _]. cbn [valid errors warnings].
    split; [done|]. split; [|done].
    apply validateSchema_structural in Hschema.
    eapply Forall_impl; [exact Hschema|]. by intros ? [? _].
Qed.

(** C1: in every result [validate] returns, [valid] is true exactly when
    [errors] is empty; [errors] holds diagnostics of severity ['error']
    only, and [warnings] has no part in [valid] (it holds none of
    severity ['error'], as it is empty). *)
Theorem validate_valid_iff_no_errors
    (net : Network) (circuitJSON : JSValue) (st st' : State)
    (result : ValidationResult) :
  validate net circuitJSON st = (Returned result, st') →
  (valid result = true ↔ errors result = []) ∧
  Forall is_error (errors result) ∧
  Forall (λ d, d_severity d = SevWarning) (warnings result).
Proof.
  intros Hvalidate.
  assert (H : valid result = (length (errors result) =? 0) ∧
              Forall is_error (errors result) ∧ warnings result = []).
  { revert Hvalidate. unfold validate.
    destruct (negb (truthy (componentLibrary (this st)))).
    - destruct (init net st) as [[loaded| |] st1]; [|done..]. cbn [andThen].
      destruct (negb loaded); [|apply validateLayers_result].
      intros [= <- _]. split; [done|]. split; [|done].
      repeat constructor.
    - apply validateLayers_result. }
  destruct H as (Hvalid & Herrors & Hwarnings).
  split; [|split; [done|]].
  - rewrite Hvalid, Nat.eqb_eq. split; [apply nil_length_inv | by intros ->].
  - rewrite Hwarnings. constructor.
Qed.

Lemma validate_valid_iff_no_errors_witness :
  (valid {| valid := true; errors := []; warnings := [] |} = true
   ↔ errors {| valid := true; errors := []; warnings := [] |} = []) ∧
  Forall is_error (errors {| valid := true; errors := []; warnings := [] |}) ∧
  Forall (λ d, d_severity d = SevWarning)
    (warnings {| valid := true; errors := []; warnings := [] |}).
Proof.
  apply (validate_valid_iff_no_errors Sample.network Sample.litLed Sample.fresh
           (validate Sample.network Sample.litLed Sample.fresh).2).
  vm_compute. reflexivity.
Defined.







(** ** Diagnostics, field by field *)

Lemma reported_iff (errs : list Diagnostic) (P : string → Prop) type location :
  (∀ d, d ∈ errs → P (d_type d) → d = createError (d_type d) (d_location d) NoExtra) →
  P type →
  (∃ d, d ∈ errs ∧ d_type d = type ∧ d_location d = location) ↔
  createError type location NoExtra ∈ errs.
Proof.
  intros Hshape HP. split.
  - intros (d & Hd & <- & <-). by rewrite <- (Hshape d Hd HP).
  - intros Hd. by exists (createError type location NoExtra).
Qed.

Lemma unknown_pins_reports (definedPins pins : list string) location :
  let errs := flat_map (λ pin,
                  if bool_decide (pin ∈ definedPins) then []
                  else [createError "INVALID_PIN_NAME" location NoExtra]) pins in
  Forall (λ d, reports d "INVALID_PIN_NAME" location NoExtra) errs ∧
  length errs = length (filter (λ pin, pin ∉ definedPins) pins).
Proof.
  cbv zeta. induction pins as [|pin pins [IH1 IH2]]; [done|].
  cbn [flat_map]. rewrite filter_cons. case_bool_decide as Hpin.
  - rewrite decide_False by tauto. done.
  - rewrite decide_True by done. cbn [app length]. split; [|by rewrite IH2].
    apply Forall_cons. split; [done | exact IH1].
Qed.

(** ** Wire endpoints *)

Lemma prefix_dot c s :
  String.prefix "." (String c s) = Ascii.eqb c "."%char.
Proof.
  cbn [String.prefix]. destruct (ascii_dec "." c) as [<-|Hne].
  - by destruct s.
  - symmetry. apply Ascii.eqb_neq. congruence.
Qed.

Lemma includes_dot_cons c s :
  includes "." (String c s) = Ascii.eqb c "."%char || includes "." s.
Proof. cbn [includes]. by rewrite prefix_dot. Qed.

Lemma split_dot_nonempty s : split_dot s ≠ [].
Proof.
  induction s as [|c s IH]; cbn [split_dot]; [done|].
  destruct (Ascii.eqb c "."); [done|]. by destruct (split_dot s).
Qed.

(** A string without a ['.'] is its own only part. *)
Lemma split_dot_plain s : includes "." s = false → split_dot s = [s].
Proof.
  induction s as [|c s IH]; [done|].
  rewrite includes_dot_cons. intros [Hc Hs]%orb_false_iff.
  cbn [split_dot]. rewrite Hc, IH by done. done.
Qed.

(** [`${compId}.${rest}`.split('.')] gives [compId] back as its first
    part. *)
Lemma split_dot_reference compId rest :
  includes "." compId = false →
  split_dot (compId +:+ "." +:+ rest) = compId :: split_dot rest.
Proof.
  induction compId as [|c s IH]; [done|].
  rewrite includes_dot_cons. intros [Hc Hs]%orb_false_iff.
  change (String c s +:+ "." +:+ rest) with (String c (s +:+ "." +:+ rest)).
  cbn [split_dot]. by rewrite Hc, IH.
Qed.

Lemma includes_dot_reference compId rest :
  includes "." (compId +:+ "." +:+ rest) = true.
Proof.
  induction compId as [|c s IH].
  { change (includes "." (String "." rest) = true). by rewrite includes_dot_cons. }
  change (String c s +:+ "." +:+ rest) with (String c (s +:+ "." +:+ rest)).
  rewrite includes_dot_cons, IH. apply orb_true_r.
Qed.

Lemma split_reference_pin_of compId pinName :
  includes "." compId = false → includes "." pinName = false →
  split_reference (compId +:+ "." +:+ pinName) = (compId, Some pinName).
Proof.
  intros Hc Hp. unfold split_reference.
  by rewrite split_dot_reference, (split_dot_plain pinName).
Qed.

Lemma split_reference_component compId rest :
  includes "." compId = false →
  (split_reference (compId +:+ "." +:+ rest)).1 = compId.
Proof.
  intros Hc. unfold split_reference. rewrite split_dot_reference by done.
  pose proof (split_dot_nonempty rest). by destruct (split_dot rest).
Qed.

Lemma find_None_ids compId (cs : list ComponentInstance) :
  (∀ c, c ∈ cs → comp_id c ≠ compId) →
  List.find (λ c, String.eqb (comp_id c) compId) cs = None.
Proof.
  intros Hall. apply find_None_all. intros c Hc. apply String.eqb_neq. by apply Hall.
Qed.

Lemma find_elem_of {A} (P : A → bool) (l : list A) x :
  List.find P l = Some x → x ∈ l ∧ P x = true.
Proof. intros [H ?]%find_some. by apply list_elem_of_In in H. Qed.

Lemma find_None_elem_of {A} (P : A → bool) (l : list A) x :
  List.find P l = None → x ∈ l → P x = false.
Proof. intros H Hx%list_elem_of_In. by eapply find_none in H. Qed.

Lemma find_by_id circuit id component :
  List.find (λ c, String.eqb (comp_id c) id) (components circuit) = Some component ↔
  first_with_id circuit id component.
Proof.
  unfold first_with_id. split.
  - intros (before & after & Hl & Hbefore & Hid%String.eqb_eq)%find_Some_first.
    exists before, after. split; [done|]. split; [|done].
    eapply Forall_impl; [exact Hbefore|]. by intros c ?%String.eqb_neq.
  - intros (before & after & -> & Hbefore & Hid). apply find_first.
    + eapply Forall_impl; [exact Hbefore|]. by intros c ?%String.eqb_neq.
    + by apply String.eqb_eq.
Qed.

Lemma find_id_is_Some circuit id :
  is_Some (List.find (λ c, String.eqb (comp_id c) id) (components circuit)) ↔
  id ∈ comp_id <$> components circuit.
Proof.
  rewrite list_elem_of_fmap. split.
  - intros [c [Hc Hid%String.eqb_eq]%find_elem_of]. eauto.
  - intros (c & -> & Hc).
    destruct (List.find _ _) as [c'|] eqn:Hfind; [done|].
    eapply find_None_elem_of in Hfind; [|exact Hc]. by rewrite String.eqb_refl in Hfind.
Qed.

(** An endpoint with a ['.'] has a second part. *)
Lemma split_dot_two s :
  includes "." s = true → ∃ first second rest, split_dot s = first :: second :: rest.
Proof.
  induction s as [|c s IH]; [done|].
  rewrite includes_dot_cons. cbn [split_dot].
  destruct (Ascii.eqb c ".") eqn:Hc.
  - intros _. pose proof (split_dot_nonempty s).
    destruct (split_dot s) as [|second rest]; [done|]. eauto.
  - cbn [orb]. intros (first & second & rest & ->)%IH. eauto.
Qed.

Lemma split_reference_pin_Some endpoint :
  includes "." endpoint = true → ∃ pinName, (split_reference endpoint).2 = Some pinName.
Proof.
  intros (first & second & rest & Hsplit)%split_dot_two.
  unfold split_reference. rewrite Hsplit. eauto.
Qed.

(** What [getEndpointBus] answers, in terms of the circuit. *)
Lemma getEndpointBus_Some this circuit endpoint bus :
  getEndpointBus this endpoint circuit = Some bus ↔ endpoint_bus this circuit endpoint bus.
Proof.
  unfold getEndpointBus, endpoint_bus.
  destruct (includes "." endpoint) eqn:Hdot; cbn [negb].
  2:{ split; [by left | by intros [[_ ?]|[? _]]]. }
  destruct (split_reference_pin_Some endpoint Hdot) as [pinName Hpin].
  destruct (split_reference endpoint) as [compId pin]. cbn [fst snd] in *. subst pin.
  change (default "undefined" (Some pinName)) with pinName. split.
  - destruct (List.find _ _) as [component|] eqn:Hfind; [|done].
    apply find_by_id in Hfind.
    destruct (assoc pinName (comp_placement component)) as [holeId|] eqn:Hhole; [|done].
    destruct (String.eqb holeId "") eqn:Hempty; [done|]. cbn [negb].
    apply String.eqb_neq in Hempty. intros Hbus. right. split; [done|].
    by exists pinName, component, holeId.
  - intros [[? _]|(_ & pinName' & component & holeId & [= <-] & Hfind%find_by_id
                   & Hhole & Hempty%String.eqb_neq & Hbus)]; [done|].
    by rewrite Hfind, Hhole, Hempty.
Qed.

Lemma referencedPin_Some endpoint circuit pinName :
  referencedPin endpoint circuit = Some pinName ↔ pin_reference circuit endpoint pinName.
Proof.
  unfold referencedPin, pin_reference.
  destruct (includes "." endpoint) eqn:Hdot; cbn [negb].
  2:{ split; [done | by intros [? _]]. }
  pose proof (find_id_is_Some circuit (split_reference endpoint).1) as Hfind.
  destruct (split_reference endpoint) as [compId pin]. cbn [fst snd] in *.
  destruct (List.find _ _) as [component|].
  - split.
    + intros ->. split; [done|]. split; [done|]. by apply Hfind.
    + by intros (_ & -> & _).
  - split; [done|]. intros (_ & _ & [? ?]%Hfind). done.
Qed.

Lemma isGroundPin_true endpoint circuit :
  isGroundPin endpoint circuit = true ↔ ground_pin circuit endpoint.
Proof.
  unfold isGroundPin, ground_pin.
  destruct (referencedPin endpoint circuit) as [pinName|] eqn:Hpin.
  - apply referencedPin_Some in Hpin. split; [eauto|].
    intros (pinName' & (_ & Hsame & _) & Hgnd). destruct Hpin as (_ & Hpin & _).
    congruence.
  - split; [done|]. intros (pinName & Href%referencedPin_Some & _). congruence.
Qed.

Lemma isGPIOPin_true endpoint circuit :
  isGPIOPin endpoint circuit = true ↔ gpio_pin circuit endpoint.
Proof.
  unfold isGPIOPin, gpio_pin.
  destruct (referencedPin endpoint circuit) as [pinName|] eqn:Hpin.
  - apply referencedPin_Some in Hpin. split; [eauto|].
    intros (pinName' & (_ & Hsame & _) & Hgnd). destruct Hpin as (_ & Hpin & _).
    congruence.
  - split; [done|]. intros (pinName & Href%referencedPin_Some & _). congruence.
Qed.

(** ** The edges of the bus graph *)

Lemma adjacent_foldl_addEdge bus_i later graph a b :
  adjacent (foldl (λ g bus_j, addEdge g (Some bus_i) (Some bus_j)) graph later) a b ↔
  adjacent graph a b ∨
  (bus_i ≠ "" ∧ a ≠ b ∧
   ((a = bus_i ∧ b ∈ later ∧ b ≠ "") ∨ (b = bus_i ∧ a ∈ later ∧ a ≠ ""))).
Proof.
  revert graph. induction later as [|bus_j later IH]; intros graph.
  - cbn [foldl]. split; [by left|].
    intros [?|(_ & _ & [(_ & H%elem_of_nil & _)|(_ & H%elem_of_nil & _)])]; done.
  - cbn [foldl]. rewrite IH, adjacent_addEdge, !bus_truthy_Some.
    split.
    + intros [[H|(Hi & Hj & Hne & [[[= <-] [= <-]]|[[= <-] [= <-]]])]|H].
      * by left.
      * right. split; [done|]. split; [congruence|]. left. split; [done|].
        split; [left | done].
      * right. split; [done|]. split; [congruence|]. right. split; [done|].
        split; [left | done].
      * right. destruct H as (Hi & Hne & [(-> & Hin & Hb)|(-> & Hin & Ha)]).
        -- split; [done|]. split; [done|]. left. split; [done|]. split; [by right | done].
        -- split; [done|]. split; [done|]. right. split; [done|]. split; [by right | done].
    + intros [H|(Hi & Hne & [(-> & Hin & Hb)|(-> & Hin & Ha)])].
      * by left; left.
      * apply elem_of_cons in Hin as [->|Hin].
        -- left. right. split; [done|]. split; [done|]. split; [congruence|]. by left.
        -- right. split; [done|]. split; [done|]. by left.
      * apply elem_of_cons in Hin as [->|Hin].
        -- left. right. split; [done|]. split; [done|]. split; [congruence|]. by right.
        -- right. split; [done|]. split; [done|]. by right.
Qed.

Lemma adjacent_addPairs buses graph a b :
  (∀ x, x ∈ buses → x ≠ "") →
  adjacent (addPairs graph buses) a b ↔
  adjacent graph a b ∨ (a ≠ b ∧ a ∈ buses ∧ b ∈ buses).
Proof.
  revert graph. induction buses as [|bus_i later IH]; intros graph Hne.
  - cbn [addPairs]. split; [by left|]. by intros [?|(_ & ?%elem_of_nil & _)].
  - cbn [addPairs]. rewrite IH by (intros; apply Hne; by right).
    rewrite adjacent_foldl_addEdge.
    assert (Hi : bus_i ≠ "") by (apply Hne; left).
    split.
    + intros [[H|(_ & Hab & [(-> & Hin & _)|(-> & Hin & _)])]|(Hab & Ha & Hb)].
      * by left.
      * right. split; [done|]. split; [left | by right].
      * right. split; [done|]. split; [by right | left].
      * right. split; [done|]. split; by right.
    + intros [H|(Hab & Ha & Hb)]; [by left; left|].
      apply elem_of_cons in Ha as [->|Ha]; apply elem_of_cons in Hb as [->|Hb].
      * done.
      * left. right. split; [done|]. split; [done|]. left.
        split; [done|]. split; [done|]. by apply Hne; right.
      * left. right. split; [done|]. split; [done|]. right.
        split; [done|]. split; [done|]. by apply Hne; right.
      * right. by split.
Qed.

Lemma elem_of_placedBuses this component bus :
  bus ∈ placedBuses this (comp_placement component) ↔ component_on this component bus.
Proof.
  unfold placedBuses, component_on. rewrite elem_of_filter_Boolean, list_elem_of_fmap.
  split.
  - intros [(holeId & Hbus & Hin) Hne]. split; [done|].
    apply list_elem_of_fmap in Hin as ([pinName holeId'] & -> & Hin). eauto.
  - intros (Hne & pinName & holeId & Hin & Hbus). split; [|done].
    exists holeId. split; [done|]. apply list_elem_of_fmap. by exists (pinName, holeId).
Qed.

Lemma adjacent_placements this cs graph a b :
  adjacent (foldl (λ graph comp, addPairs graph (placedBuses this (comp_placement comp)))
              graph cs) a b ↔
  adjacent graph a b ∨
  (a ≠ b ∧ ∃ component, component ∈ cs ∧
     component_on this component a ∧ component_on this component b).
Proof.
  revert graph. induction cs as [|comp cs IH]; intros graph.
  - cbn [foldl]. split; [by left|]. by intros [?|(_ & ? & ?%elem_of_nil & _)].
  - cbn [foldl]. rewrite IH, adjacent_addPairs.
    2:{ intros x Hx%elem_of_placedBuses. by destruct Hx. }
    rewrite !elem_of_placedBuses. split.
    + intros [[H|(Hab & Ha & Hb)]|(Hab & c & Hc & Ha & Hb)].
      * by left.
      * right. split; [done|]. exists comp. split; [left | done].
      * right. split; [done|]. exists c. split; [by right | done].
    + intros [H|(Hab & c & Hc & Ha & Hb)]; [by left; left|].
      apply elem_of_cons in Hc as [->|Hc].
      * left. right. done.
      * right. split; [done|]. by exists c.
Qed.

Lemma adjacent_wires this circuit ws graph a b :
  adjacent (foldl (λ graph wire,
      let fromBus := getEndpointBus this (wire_from wire) circuit in
      let toBus := getEndpointBus this (wire_to wire) circuit in
      if bus_truthy fromBus && bus_truthy toBus
      then addEdge graph fromBus toBus
      else graph) graph ws) a b ↔
  adjacent graph a b ∨
  (a ≠ b ∧ ∃ wire, wire ∈ ws ∧ wire_between this circuit wire a b).
Proof.
  revert graph. induction ws as [|wire ws IH]; intros graph.
  - cbn [foldl]. split; [by left|]. by intros [?|(_ & ? & ?%elem_of_nil & _)].
  - cbn [foldl]. rewrite IH. cbv zeta.
    assert (Hhere : adjacent
        (if bus_truthy (getEndpointBus this (wire_from wire) circuit) &&
            bus_truthy (getEndpointBus this (wire_to wire) circuit)
         then addEdge graph (getEndpointBus this (wire_from wire) circuit)
                (getEndpointBus this (wire_to wire) circuit)
         else graph) a b ↔
        adjacent graph a b ∨ (a ≠ b ∧ wire_between this circuit wire a b)).
    { unfold wire_between. rewrite <- !getEndpointBus_Some.
      destruct (getEndpointBus this (wire_from wire) circuit) as [f|] eqn:Ef;
        [|cbn; split; [by left | by intros [?|(_ & _ & _ & [[? _]|[? _]])]]].
      destruct (getEndpointBus this (wire_to wire) circuit) as [t|] eqn:Et;
        [|rewrite andb_false_r; split; [by left | by intros [?|(_ & _ & _ & [[_ ?]|[_ ?]])]]].
      destruct (bus_truthy (Some f)) eqn:Tf.
      2:{ cbn. split; [by left|]. intros [?|(_ & Ha & Hb & [[[= <-] _]|[[= <-] _]])]; [done|..].
          - apply bus_truthy_Some in Ha. congruence.
          - apply bus_truthy_Some in Hb. congruence. }
      destruct (bus_truthy (Some t)) eqn:Tt.
      2:{ cbn. split; [by left|]. intros [?|(_ & Ha & Hb & [[_ [= <-]]|[_ [= <-]]])]; [done|..].
          - apply bus_truthy_Some in Hb. congruence.
          - apply bus_truthy_Some in Ha. congruence. }
      cbn [andb]. rewrite adjacent_addEdge, Tf, Tt.
      apply bus_truthy_Some in Tf, Tt.
      split.
      - intros [?|(_ & _ & Hne & [[[= <-] [= <-]]|[[= <-] [= <-]]])]; [by left|..].
        + right. split; [congruence|]. split; [done|]. split; [done|]. by left.
        + right. split; [congruence|]. split; [done|]. split; [done|]. by right.
      - intros [?|(Hab & Ha & Hb & [[[= <-] [= <-]]|[[= <-] [= <-]]])]; [by left|..].
        + right. split; [done|]. split; [done|]. split; [congruence|]. by left.
        + right. split; [done|]. split; [done|]. split; [congruence|]. by right. }
    rewrite Hhere. split.
    + intros [[H|(Hab & Hw)]|(Hab & w & Hin & Hw)].
      * by left.
      * right. split; [done|]. exists wire. split; [left | done].
      * right. split; [done|]. exists w. split; [by right | done].
    + intros [H|(Hab & w & Hin & Hw)]; [by left; left|].
      apply elem_of_cons in Hin as [->|Hin].
      * left. by right.
      * right. split; [done|]. by exists w.
Qed.

Lemma adjacent_build
    (this : CircuitValidator) (circuit : Circuit) (a b : string) :
  adjacent (buildBusConnectivityGraph this circuit) a b ↔
  a ≠ b ∧ joined this circuit a b.
Proof.
  unfold buildBusConnectivityGraph, joined.
  rewrite adjacent_wires, adjacent_placements.
  split.
  - intros [[(adj & H & _)|(Hab & c & Hc & Ha & Hb)]|(Hab & w & Hw & Hbetween)];
      [done|..]; (split; [done|]); [left | right]; eauto.
  - intros (Hab & [(c & Hc & Ha & Hb)|(w & Hw & Hbetween)]).
    + left. right. split; [done|]. eauto.
    + right. split; [done|]. eauto.
Qed.

(** X1: the bus graph has an edge between two buses exactly when they are
    two different buses joined by two placed pins of one component or by
    the two ends of one wire (both ends resolving to a bus). *)
Theorem buildBusConnectivityGraph_edges
    (this : CircuitValidator) (circuit : Circuit) (a b : string) :
  adjacent (buildBusConnectivityGraph this circuit) a b ↔
  a ≠ b ∧ joined this circuit a b.
Proof. apply adjacent_build. Qed.

(** ** The shape of the bus graph *)

Lemma OMap_has_keys {V} k (m : OMap.t V) : OMap.has k m = true ↔ k ∈ OMap.keys m.
Proof.
  unfold OMap.has, OMap.keys.
  destruct (assoc k m) eqn:E.
  - split; [|done]. intros _. apply assoc_elem_of in E.
    apply list_elem_of_fmap. by exists (k, v).
  - split; [done|]. by apply assoc_None_keys in E.
Qed.

Lemma OMap_set_keys {V} k (v : V) (m : OMap.t V) :
  OMap.keys (OMap.set k v m) =
  if OMap.has k m then OMap.keys m else OMap.keys m ++ [k].
Proof.
  unfold OMap.keys, OMap.has.
  induction m as [|[k' v'] m IH]; [done|].
  cbn [OMap.set assoc]. destruct (String.eqb k k') eqn:E.
  - apply String.eqb_eq in E. by subst.
  - cbn [fmap list_fmap]. cbn [fmap] in IH. rewrite IH.
    by destruct (assoc k m).
Qed.

Lemma OMap_set_NoDup {V} k (v : V) (m : OMap.t V) :
  NoDup (OMap.keys m) → NoDup (OMap.keys (OMap.set k v m)).
Proof.
  intros Hm. rewrite OMap_set_keys.
  destruct (OMap.has k m) eqn:E; [done|].
  apply NoDup_app. split; [done|]. split; [|apply NoDup_singleton].
  intros x Hx ->%list_elem_of_singleton.
  apply OMap_has_keys in Hx. congruence.
Qed.

Lemma OSet_add_NoDup x s : NoDup s → NoDup (OSet.add x s).
Proof.
  intros Hs. unfold OSet.add, OSet.has. case_bool_decide; [done|].
  apply NoDup_app. split; [done|]. split; [|apply NoDup_singleton].
  by intros y Hy ->%list_elem_of_singleton.
Qed.

Lemma OSet_add_nonempty x s : OSet.add x s ≠ [].
Proof.
  unfold OSet.add, OSet.has. case_bool_decide as H.
  - intros ->. by apply elem_of_nil in H.
  - by destruct s.
Qed.

(** The adjacency sets after [addEdge] of two different truthy buses. *)
Lemma assoc_addEdge graph b1 b2 k :
  b1 ≠ "" → b2 ≠ "" → b1 ≠ b2 →
  assoc k (addEdge graph (Some b1) (Some b2)) =
  if String.eqb b1 k then Some (OSet.add b2 (neighbors graph (Some b1)))
  else if String.eqb b2 k then Some (OSet.add b1 (neighbors graph (Some b2)))
  else assoc k graph.
Proof.
  intros H1 H2 Hne. unfold addEdge.
  apply bus_truthy_Some in H1, H2. rewrite H1, H2. cbn [negb orb].
  replace (String.eqb b1 b2) with false by (symmetry; by apply String.eqb_neq).
  change (default [] (OMap.get ?x ?g)) with (neighbors g (Some x)).
  rewrite assoc_set, neighbors_set.
  replace (String.eqb b1 b2) with false by (symmetry; by apply String.eqb_neq).
  rewrite !neighbors_ensure, assoc_set, ?neighbors_ensure.
  destruct (String.eqb b2 k) eqn:E2.
  { apply String.eqb_eq in E2. subst k.
    by replace (String.eqb b1 b2) with false by (symmetry; by apply String.eqb_neq). }
  destruct (String.eqb b1 k) eqn:E1; [done|].
  unfold OMap.has.
  destruct (assoc b1 graph) eqn:A1.
  - destruct (assoc b2 graph) eqn:A2; [done|]. rewrite assoc_set. by rewrite E2.
  - rewrite assoc_set.
    replace (String.eqb b1 b2) with false by (symmetry; by apply String.eqb_neq).
    destruct (assoc b2 graph) eqn:A2.
    + rewrite assoc_set. by rewrite E1.
    + rewrite !assoc_set. by rewrite E1, E2.
Qed.

Lemma keys_addEdge graph bus1 bus2 :
  NoDup (OMap.keys graph) → NoDup (OMap.keys (addEdge graph bus1 bus2)).
Proof.
  intros Hg. unfold addEdge.
  destruct bus1 as [b1|]; [|done]. destruct bus2 as [b2|]; [|done].
  destruct (_ || _); [done|].
  apply OMap_set_NoDup, OMap_set_NoDup.
  assert (H1 : NoDup (OMap.keys (if OMap.has b1 graph then graph
                                 else OMap.set b1 [] graph))).
  { destruct (OMap.has b1 graph); [done | by apply OMap_set_NoDup]. }
  destruct (OMap.has b2 _); [done | by apply OMap_set_NoDup].
Qed.

Lemma keys_is_Some {V} k (m : OMap.t V) : k ∈ OMap.keys m ↔ is_Some (assoc k m).
Proof.
  rewrite <- OMap_has_keys. unfold OMap.has.
  destruct (assoc k m); split; intros H; try done; try (by eauto); by destruct H.
Qed.

Lemma well_formed_neighbors graph x :
  well_formed graph →
  NoDup (neighbors graph (Some x)) ∧
  ∀ b, b ∈ neighbors graph (Some x) → b ∈ OMap.keys graph.
Proof.
  intros [Hkeys Hadj]. unfold neighbors, OMap.get.
  destruct (assoc x graph) as [adj|] eqn:E; cbn [default].
  - apply assoc_elem_of, Hadj in E as (_ & ? & ?). done.
  - split; [apply NoDup_nil_2 | by intros ? ?%elem_of_nil].
Qed.

Lemma addEdge_unchanged graph bus1 bus2 :
  ¬ (∃ b1 b2, bus1 = Some b1 ∧ bus2 = Some b2 ∧ b1 ≠ "" ∧ b2 ≠ "" ∧ b1 ≠ b2) →
  addEdge graph bus1 bus2 = graph.
Proof.
  intros H. unfold addEdge.
  destruct bus1 as [b1|]; [|done]. destruct bus2 as [b2|]; [|done].
  destruct (bus_truthy (Some b1)) eqn:T1; [|done].
  destruct (bus_truthy (Some b2)) eqn:T2; [|done].
  destruct (String.eqb b1 b2) eqn:E; [done|].
  exfalso. apply H. exists b1, b2.
  apply bus_truthy_Some in T1, T2. by apply String.eqb_neq in E.
Qed.

Lemma well_formed_addEdge graph bus1 bus2 :
  well_formed graph → well_formed (addEdge graph bus1 bus2).
Proof.
  intros Hwf.
  destruct bus1 as [b1|];
    [|rewrite addEdge_unchanged; [done|]; by intros (? & ? & ? & _)].
  destruct bus2 as [b2|];
    [|rewrite addEdge_unchanged; [done|]; by intros (? & ? & _ & ? & _)].
  destruct (decide (b1 = "")) as [->|H1];
    [rewrite addEdge_unchanged; [done|]; intros (? & ? & [= <-] & _ & ? & _); done|].
  destruct (decide (b2 = "")) as [->|H2];
    [rewrite addEdge_unchanged; [done|]; intros (? & ? & _ & [= <-] & _ & ? & _); done|].
  destruct (decide (b1 = b2)) as [->|Hne];
    [rewrite addEdge_unchanged; [done|];
     intros (? & ? & [= <-] & [= <-] & _ & _ & ?); done|].
  assert (Hkeys : NoDup (OMap.keys (addEdge graph (Some b1) (Some b2))))
    by (apply keys_addEdge, Hwf).
  assert (Hin : ∀ b, b = b1 ∨ b = b2 ∨ b ∈ OMap.keys graph →
                     b ∈ OMap.keys (addEdge graph (Some b1) (Some b2))).
  { intros b Hb. apply keys_is_Some. rewrite assoc_addEdge by done.
    destruct (String.eqb b1 b) eqn:E1; [done|].
    destruct (String.eqb b2 b) eqn:E2; [done|].
    apply String.eqb_neq in E1, E2.
    destruct Hb as [->|[->|Hb]]; [done..|]. by apply keys_is_Some. }
  split; [done|].
  intros bus adj Hadj. apply elem_of_assoc in Hadj; [|done].
  rewrite assoc_addEdge in Hadj by done.
  destruct (well_formed_neighbors graph b1 Hwf) as [Hn1 Hk1].
  destruct (well_formed_neighbors graph b2 Hwf) as [Hn2 Hk2].
  destruct (String.eqb b1 bus) eqn:E1.
  { injection Hadj as <-. split; [apply OSet_add_nonempty|].
    split; [by apply OSet_add_NoDup|].
    intros b [->|Hb]%OSet_elem_of_add; apply Hin; auto. }
  destruct (String.eqb b2 bus) eqn:E2.
  { injection Hadj as <-. split; [apply OSet_add_nonempty|].
    split; [by apply OSet_add_NoDup|].
    intros b [->|Hb]%OSet_elem_of_add; apply Hin; auto. }
  destruct Hwf as [_ Hwf]. apply assoc_elem_of, Hwf in Hadj as (? & ? & Hsub).
  split; [done|]. split; [done|]. intros b Hb. apply Hin. auto.
Qed.

Lemma well_formed_addPairs buses graph :
  well_formed graph → well_formed (addPairs graph buses).
Proof.
  revert graph. induction buses as [|bus_i later IH]; intros graph Hwf; [done|].
  cbn [addPairs]. apply IH. clear IH. revert graph Hwf.
  induction later as [|bus_j later IH]; intros graph Hwf; [done|].
  cbn [foldl]. by apply IH, well_formed_addEdge.
Qed.

Lemma well_formed_build this circuit :
  well_formed (buildBusConnectivityGraph this circuit).
Proof.
  unfold buildBusConnectivityGraph.
  assert (Hempty : well_formed []).
  { split; [apply NoDup_nil_2 | by intros ? ? ?%elem_of_nil]. }
  assert (Hplaced : well_formed
            (foldl (λ graph comp, addPairs graph (placedBuses this (comp_placement comp)))
               [] (components circuit))).
  { revert Hempty. generalize (@nil (string * OSet.t)) as graph.
    induction (components circuit) as [|comp cs IH]; intros graph Hwf; [done|].
    cbn [foldl]. by apply IH, well_formed_addPairs. }
  revert Hplaced.
  generalize (foldl (λ graph comp, addPairs graph (placedBuses this (comp_placement comp)))
                [] (components circuit)) as graph.
  induction (wires circuit) as [|wire ws IH]; intros graph Hwf; [done|].
  cbn [foldl]. apply IH.
  destruct (bus_truthy _ && bus_truthy _); [|done].
  by apply well_formed_addEdge.
Qed.

(** X2: the graph [buildBusConnectivityGraph] returns lists no bus twice,
    neither as a node nor in an adjacency set; every node has at least one
    neighbour (a bus enters the graph only with an edge), and every
    neighbour is a node of the graph. *)
Theorem buildBusConnectivityGraph_well_formed
    (this : CircuitValidator) (circuit : Circuit) :
  let graph := buildBusConnectivityGraph this circuit in
  NoDup (OMap.keys graph) ∧
  (∀ bus, bus ∈ OMap.keys graph →
     neighbors graph (Some bus) ≠ [] ∧ NoDup (neighbors graph (Some bus))) ∧
  (∀ a b, adjacent graph a b → a ∈ OMap.keys graph ∧ b ∈ OMap.keys graph).
Proof.
  intros graph. pose proof (well_formed_build this circuit) as Hwf. fold graph in Hwf.
  split; [apply Hwf|]. split.
  - intros bus (adj & Hadj)%keys_is_Some.
    unfold neighbors, OMap.get. rewrite Hadj. cbn [default].
    destruct Hwf as [_ Hwf]. by apply assoc_elem_of, Hwf in Hadj as (? & ? & _).
  - intros a b (adj & Hadj & Hb). unfold OMap.get in Hadj. split.
    + apply keys_is_Some. by rewrite Hadj.
    + destruct Hwf as [_ Hwf]. apply assoc_elem_of, Hwf in Hadj as (_ & _ & Hsub). auto.
Qed.

(** ** Paths of the bus graph *)

Lemma reachable_Some graph a x :
  reachable graph (Some a) x → ∃ b, x = Some b.
Proof.
  intros H. remember (Some a) as s eqn:Hs. revert a Hs.
  induction H as [|x y z Hxy _ IH]; intros a ->; [eauto|].
  destruct Hxy as (? & w & _ & -> & _). by eapply IH.
Qed.

Lemma reachable_adjacent graph a b :
  reachable graph (Some a) (Some b) ↔ rtc (adjacent graph) a b.
Proof.
  split.
  - intros H. remember (Some a) as x eqn:Hx. remember (Some b) as y eqn:Hy.
    revert a b Hx Hy.
    induction H as [|x y z Hxy _ IH]; intros a b -> Hy.
    + injection Hy as ->. apply rtc_refl.
    + destruct Hxy as (a' & w & [= <-] & -> & Hadj).
      eapply rtc_l; [done|]. by apply IH.
  - induction 1 as [|x y z Hxy _ IH]; [apply rtc_refl|].
    eapply rtc_l; [|done]. by exists x, y.
Qed.

(** ** Layer 4: the series check, in terms of the placement *)

Lemma placedPinBus_Some this component pin bus :
  placedPinBus this component pin = Some bus ↔ pin_bus this component pin bus.
Proof.
  unfold placedPinBus, pin_bus. destruct (assoc pin (comp_placement component)) as [holeId|].
  - split; [eauto|]. by intros (? & [= <-] & ?).
  - split; [done|]. by intros (? & ? & _).
Qed.

Lemma reachable_from_None graph b : reachable graph None b → b = None.
Proof.
  intros H. remember None as a eqn:Ha. revert Ha.
  induction H as [|a b c Hab _ _]; [done|].
  intros ->. by destruct Hab as (x & y & ? & _).
Qed.

(** The paths of the bus graph are the chains of joints of the circuit. *)
Lemma reachable_wired this circuit a b :
  reachable (buildBusConnectivityGraph this circuit) (Some a) (Some b) ↔
  wired this circuit a b.
Proof.
  rewrite reachable_adjacent. unfold wired, linked.
  split; apply rtc_subrel; intros x y; apply adjacent_build.
Qed.

Lemma node_linked this circuit a :
  a ∈ OMap.keys (buildBusConnectivityGraph this circuit) ↔ ∃ b, linked this circuit a b.
Proof.
  pose proof (well_formed_build this circuit) as [_ Hwf]. split.
  - intros [adj Hadj]%keys_is_Some.
    destruct (Hwf a adj (assoc_elem_of _ _ _ Hadj)) as (Hne & _ & _).
    destruct adj as [|b adj]; [done|]. exists b.
    apply adjacent_build. exists (b :: adj). split; [done | left].
  - intros (b & (adj & Hadj & _)%adjacent_build).
    apply keys_is_Some. unfold OMap.get in Hadj. by rewrite Hadj.
Qed.

Lemma connected_in_one_piece this circuit :
  connected (buildBusConnectivityGraph this circuit) ↔ in_one_piece this circuit.
Proof.
  unfold connected, in_one_piece. split.
  - intros H a b Ha%node_linked Hb%node_linked. by apply reachable_wired, H.
  - intros H a b Ha%node_linked Hb%node_linked. by apply reachable_wired, H.
Qed.

(** The buses the series check collects are those of the placement. *)
Lemma series_connected_iff this circuit led resistor :
  series_connected this circuit led resistor ↔ in_series this circuit led resistor.
Proof.
  unfold series_connected, in_series. split.
  - intros (rBus & ledBus & Hr%elem_of_placedBuses & Hled & Hjoin).
    destruct ledBus as [bus|].
    2:{ destruct Hjoin as [?|H%reachable_from_None]; done. }
    exists rBus, bus. split; [done|]. split.
    + destruct Hled as [Hled|Hled]; symmetry in Hled;
        apply placedPinBus_Some in Hled; [by left | by right].
    + destruct Hjoin as [[= ->]|?]; [apply rtc_refl | by apply reachable_wired].
  - intros (rBus & bus & Hr%elem_of_placedBuses & Hled & Hjoin).
    exists rBus, (Some bus). split; [done|]. split.
    + destruct Hled as [Hled|Hled]; apply placedPinBus_Some in Hled;
        [by left | by right].
    + right. by apply reachable_wired.
Qed.

(** C4 (amended): for a circuit with at least one wire in which the series
    check finds an LED and a resistor, layer 4 returns an [OPEN_CIRCUIT]
    diagnostic carrying the buses of both (the bus of the anode and of
    the cathode of the LED, and the buses of the placed resistor pins)
    when no bus of a placed resistor pin is the anode or cathode bus of
    the LED or wired to one of them (by a chain of buses, each joined to
    the next by two pins of one component or by the two ends of one wire),
    and returns no [OPEN_CIRCUIT] when one is. *)
Theorem validateTopology_open_circuit
    (this : CircuitValidator) (circuit : Circuit) (led resistor : ComponentInstance) :
  wires circuit ≠ [] →
  List.find is_led (components circuit) = Some led →
  List.find is_resistor (components circuit) = Some resistor →
  ∃ errs, validateTopology this circuit = Returned errs ∧
    (¬ in_series this circuit led resistor →
     ∃ d anodeBus cathodeBus resistorBuses,
       d ∈ errs ∧
       d_type d = "OPEN_CIRCUIT" ∧ d_severity d = SevError ∧
       d_location d = "led-resistor" ∧
       d_extra d = OpenCircuitExtra [anodeBus; cathodeBus] resistorBuses ∧
       (∀ bus, anodeBus = Some bus ↔ pin_bus this led "anode" bus) ∧
       (∀ bus, cathodeBus = Some bus ↔ pin_bus this led "cathode" bus) ∧
       (∀ bus, bus ∈ resistorBuses ↔ component_on this resistor bus)) ∧
    (in_series this circuit led resistor →
     ∀ d, d ∈ errs → d_type d ≠ "OPEN_CIRCUIT").
Proof.
  intros Hwires Hled Hresistor.
  destruct (validateTopology_spec this circuit) as (errs & Hres & _ & _ & Hchecks).
  exists errs. split; [done|].
  destruct Hchecks as (seriesErrors & pathErrors & isolationErrors
                       & Hseries & Hpath & Hisolation & ->); [|done|].
  { intros Hnil. by rewrite Hnil in Hled. }
  destruct (checkSeriesConnections_spec this circuit led resistor Hled Hresistor)
    as [[Hconn Heq]|[Hopen Heq]]; rewrite Heq in Hseries; injection Hseries as <-.
  - apply series_connected_iff in Hconn.
    split; [done|]. intros _ d [Hd|[Hd|Hd]%elem_of_app]%elem_of_app.
    + by apply elem_of_nil in Hd.
    + destruct (checkCompletePaths_spec this circuit (buildBusConnectivityGraph this circuit))
        as (es & Hes & Hall).
      rewrite Hpath in Hes. injection Hes as <-.
      by destruct (Hall d Hd) as (? & _ & [-> | ->]).
    + destruct (checkIsolatedComponents_spec circuit (buildBusConnectivityGraph this circuit))
        as (es & Hes & Hall).
      rewrite Hisolation in Hes. injection Hes as <-.
      by rewrite (Hall d Hd).
  - split; [|by intros ?%series_connected_iff]. intros _.
    eexists _, _, _, _. split; [apply elem_of_app; left; left|].
    split_and!; [reflexivity..| | |].
    + intros bus. apply placedPinBus_Some.
    + intros bus. apply placedPinBus_Some.
    + intros bus. apply elem_of_placedBuses.
Qed.

Lemma validateTopology_open_circuit_witness :
  ∃ errs, validateTopology Sample.validator Sample.apartOneWire = Returned errs ∧
    (¬ in_series Sample.validator Sample.apartOneWire Sample.led1 Sample.r1 →
     ∃ d anodeBus cathodeBus resistorBuses,
       d ∈ errs ∧
       d_type d = "OPEN_CIRCUIT" ∧ d_severity d = SevError ∧
       d_location d = "led-resistor" ∧
       d_extra d = OpenCircuitExtra [anodeBus; cathodeBus] resistorBuses ∧
       (∀ bus, anodeBus = Some bus ↔ pin_bus Sample.validator Sample.led1 "anode" bus) ∧
       (∀ bus, cathodeBus = Some bus ↔ pin_bus Sample.validator Sample.led1 "cathode" bus) ∧
       (∀ bus, bus ∈ resistorBuses ↔ component_on Sample.validator Sample.r1 bus)) ∧
    (in_series Sample.validator Sample.apartOneWire Sample.led1 Sample.r1 →
     ∀ d, d ∈ errs → d_type d ≠ "OPEN_CIRCUIT").
Proof.
  apply (validateTopology_open_circuit Sample.validator Sample.apartOneWire
           Sample.led1 Sample.r1).
  - discriminate.
  - reflexivity.
  - reflexivity.
Defined.

(** C4, as stated, fails on a circuit without wires: the LED and the
    resistor are found and are not in series, yet layer 4 stops at its
    guard and returns [NO_CONNECTIONS] alone. *)
Lemma validateTopology_open_circuit_counterexample :
  List.find is_led (components Sample.apartNoWires) = Some Sample.led1 ∧
  List.find is_resistor (components Sample.apartNoWires) = Some Sample.r1 ∧
  ¬ in_series Sample.validator Sample.apartNoWires Sample.led1 Sample.r1 ∧
  ∃ d, validateTopology Sample.validator Sample.apartNoWires = Returned [d] ∧
       d_type d = "NO_CONNECTIONS".
Proof.
  split; [reflexivity|]. split; [reflexivity|]. split.
  - intros Hseries%series_connected_iff.
    destruct (checkSeriesConnections_spec Sample.validator Sample.apartNoWires
                Sample.led1 Sample.r1 eq_refl eq_refl) as [[_ Heq]|[Hopen _]]; [|done].
    vm_compute in Heq. discriminate.
  - eexists. split; reflexivity.
Qed.

(** ** The searches for ground and for a power source *)

Lemma closed_adjacent graph (visited : gset string) (x target : string) :
  (∀ v w, v ∈ visited → adjacent graph v w → w ∈ visited) →
  x ∈ visited → rtc (adjacent graph) x target → target ∈ visited.
Proof.
  intros Hclosed Hx Hreach. induction Hreach as [|x y z Hxy _ IHr]; [done|].
  apply IHr. by eapply Hclosed.
Qed.

Lemma elem_of_wiresOnBus this circuit bus wire :
  wire ∈ wiresOnBus this circuit bus ↔ wire_on this circuit bus wire.
Proof.
  unfold wiresOnBus, wire_on. rewrite list_elem_of_filter, <- !getEndpointBus_Some. tauto.
Qed.

Lemma elem_of_busHoles this bus h :
  h ∈ busHoles this (Some bus) ↔ h ∈ holes this ∧ hole_bus h = bus.
Proof.
  unfold busHoles. rewrite list_elem_of_filter. split.
  - intros [[= ?] ?]. done.
  - intros [? <-]. done.
Qed.

Lemma existsb_elem_of {A} (P : A → bool) (l : list A) :
  existsb P l = true ↔ ∃ x, x ∈ l ∧ P x = true.
Proof.
  rewrite existsb_exists. split; intros (x & Hx & HP); exists x; split; try done;
    by apply list_elem_of_In.
Qed.

Lemma grounded_test this circuit bus :
  existsb (is_type "ground") (busHoles this (Some bus)) ||
  existsb (λ wire, isGroundPin (wire_from wire) circuit
                   || isGroundPin (wire_to wire) circuit)
          (wiresOnBus this circuit bus) = true ↔
  grounded this circuit bus.
Proof.
  unfold grounded. rewrite orb_true_iff, existsb_is_type, existsb_elem_of.
  split.
  - intros [(h & Hh%elem_of_busHoles & Ht)|(w & Hw%elem_of_wiresOnBus & Hp)].
    + left. exists h. tauto.
    + right. exists w. by rewrite orb_true_iff, !isGroundPin_true in Hp.
  - intros [(h & Hh & Hb & Ht)|(w & Hw & Hp)].
    + left. exists h. split; [by apply elem_of_busHoles | done].
    + right. exists w. split; [by apply elem_of_wiresOnBus|].
      by rewrite orb_true_iff, !isGroundPin_true.
Qed.

Lemma pathToGround_loop_true this graph circuit startBus fuel visited queue :
  (∀ x, x ∈ queue → rtc (adjacent graph) startBus x) →
  pathToGround_loop fuel this graph circuit visited queue = Returned true →
  ∃ bus, rtc (adjacent graph) startBus bus ∧ grounded this circuit bus.
Proof.
  revert visited queue.
  induction fuel as [|fuel IH]; intros visited queue Hq; [done|].
  destruct queue as [|currentBus queue]; cbn [pathToGround_loop]; [done|].
  case_bool_decide.
  { apply IH. intros x Hx. apply Hq. by right. }
  destruct (existsb (is_type "ground") (busHoles this (Some currentBus))) eqn:Eh.
  { intros _. exists currentBus. split; [apply Hq; left|].
    apply grounded_test. by rewrite Eh. }
  destruct (existsb _ (wiresOnBus this circuit currentBus)) eqn:Ew.
  { intros _. exists currentBus. split; [apply Hq; left|].
    apply grounded_test. rewrite Eh. exact Ew. }
  apply IH. intros x [Hx|Hx]%elem_of_app.
  - apply Hq. by right.
  - eapply rtc_r; [apply Hq; left|]. by apply adjacent_neighbors.
Qed.

Lemma pathToGround_loop_false this graph circuit fuel visited queue :
  (∀ v, v ∈ visited → ¬ grounded this circuit v) →
  (∀ v w, v ∈ visited → adjacent graph v w → w ∈ visited ∨ w ∈ queue) →
  pathToGround_loop fuel this graph circuit visited queue = Returned false →
  ∀ x bus, x ∈ visited ∨ x ∈ queue → rtc (adjacent graph) x bus →
    ¬ grounded this circuit bus.
Proof.
  revert visited queue.
  induction fuel as [|fuel IH]; intros visited queue Hnone Hclosed; [done|].
  destruct queue as [|currentBus queue]; cbn [pathToGround_loop].
  - intros _ x bus [Hx|Hx] Hreach; [|by apply elem_of_nil in Hx].
    apply Hnone. eapply closed_adjacent; [|done..].
    intros v w Hv Hvw. by destruct (Hclosed v w Hv Hvw) as [?|?%elem_of_nil].
  - case_bool_decide as Hvisited.
    { intros Hloop x bus Hx. eapply (IH visited queue); [done| |done|].
      - intros v w Hv Hvw.
        destruct (Hclosed v w Hv Hvw) as [?|[->|?]%elem_of_cons]; auto.
      - destruct Hx as [?|[->|?]%elem_of_cons]; auto. }
    destruct (existsb (is_type "ground") (busHoles this (Some currentBus))) eqn:Eh;
      [done|].
    destruct (existsb _ (wiresOnBus this circuit currentBus)) eqn:Ew; [done|].
    intros Hloop x bus Hx.
    eapply (IH ({[currentBus]} ∪ visited) (queue ++ neighbors graph (Some currentBus)));
      [| |done|].
    + intros v [->%elem_of_singleton|Hv]%elem_of_union; [|by apply Hnone].
      intros Hg%grounded_test. rewrite Eh in Hg. cbn [orb] in Hg. congruence.
    + intros v w [->%elem_of_singleton|Hv]%elem_of_union Hvw.
      * right. apply elem_of_app. right. by apply adjacent_neighbors.
      * destruct (Hclosed v w Hv Hvw) as [?|[->|?]%elem_of_cons].
        -- left. set_solver.
        -- left. set_solver.
        -- right. apply elem_of_app. by left.
    + destruct Hx as [?|[->|?]%elem_of_cons].
      * left. set_solver.
      * left. set_solver.
      * right. apply elem_of_app. by left.
Qed.

Lemma pathToGround_spec
    (this : CircuitValidator) (startBus : BusRef) (graph : Graph) (circuit : Circuit) :
  ∃ result, pathToGround this startBus graph circuit = Returned result ∧
    (result = true ↔
     ∃ start bus, startBus = Some start ∧ start ≠ "" ∧
       reachable graph (Some start) (Some bus) ∧ grounded this circuit bus).
Proof.
  destruct (pathToGround_returns this startBus graph circuit) as [result Hres].
  exists result. split; [done|].
  unfold pathToGround in Hres.
  destruct startBus as [start|].
  2:{ injection Hres as <-. split; [done|]. by intros (? & ? & ? & _). }
  destruct (bus_truthy (Some start)) eqn:T; cbn [negb] in Hres.
  2:{ injection Hres as <-. split; [done|]. intros (? & ? & [= <-] & Hne & _).
      apply bus_truthy_Some in Hne. congruence. }
  apply bus_truthy_Some in T.
  destruct result.
  - split; [intros _|done].
    apply (pathToGround_loop_true _ _ _ start) in Hres as (bus & Hreach & Hg).
    + exists start, bus. by rewrite reachable_adjacent.
    + intros x ->%list_elem_of_singleton. apply rtc_refl.
  - split; [done|]. intros (s & bus & [= <-] & _ & Hreach & Hg). exfalso.
    apply reachable_adjacent in Hreach.
    eapply pathToGround_loop_false in Hres; [by apply Hres| | |right; left|done].
    + set_solver.
    + set_solver.
Qed.

(** X3: [pathToGround] always returns, and returns [true] exactly when
    the start bus is truthy and some bus that can be reached from it in the
    graph (the start bus included) has a hole of type ['ground'] or a wire
    on it one end of which is a ground pin of a component. *)
Theorem pathToGround_iff_grounded
    (this : CircuitValidator) (startBus : BusRef) (graph : Graph) (circuit : Circuit) :
  ∃ result, pathToGround this startBus graph circuit = Returned result ∧
    (result = true ↔
     ∃ start bus, startBus = Some start ∧ start ≠ "" ∧
       reachable graph (Some start) (Some bus) ∧ grounded this circuit bus).
Proof. apply pathToGround_spec. Qed.

Lemma powered_test this circuit bus :
  existsb (is_type "power") (busHoles this (Some bus)) = true ∨
  is_Some (List.find (λ wire, isGPIOPin (wire_from wire) circuit
                              || isGPIOPin (wire_to wire) circuit)
                     (wiresOnBus this circuit bus)) ↔
  powered this circuit bus.
Proof.
  unfold powered. rewrite existsb_is_type. split.
  - intros [(h & Hh%elem_of_busHoles & Ht)|[w Hw]].
    + left. exists h. tauto.
    + right. apply find_elem_of in Hw as [Hw%elem_of_wiresOnBus Hp].
      exists w. by rewrite orb_true_iff, !isGPIOPin_true in Hp.
  - intros [(h & Hh & Hb & Ht)|(w & Hw & Hp)].
    + left. exists h. split; [by apply elem_of_busHoles | done].
    + right. destruct (List.find _ _) eqn:E; [done|]. exfalso.
      eapply find_None_elem_of in E; [|by apply elem_of_wiresOnBus].
      rewrite <- !isGPIOPin_true, <- orb_true_iff in Hp. congruence.
Qed.

(** The answers of [pathToPowerSource]: nothing found, a power rail, or a
    GPIO pin at an end of a wire of the circuit. *)
Lemma pathToPowerSource_loop_shape this graph circuit fuel visited queue result :
  pathToPowerSource_loop fuel this graph circuit visited queue = Returned result →
  result = noPowerSource ∨
  result = {| found := true; isPowerRail := Some true; pin := None |} ∨
  ∃ wire endpoint,
    result = {| found := true; isPowerRail := Some false; pin := Some endpoint |} ∧
    wire ∈ wires circuit ∧
    (endpoint = wire_from wire ∨ endpoint = wire_to wire) ∧
    isGPIOPin endpoint circuit = true.
Proof.
  revert visited queue.
  induction fuel as [|fuel IH]; intros visited queue; [done|].
  destruct queue as [|currentBus queue]; cbn [pathToPowerSource_loop].
  { intros [= <-]. by left. }
  case_bool_decide; [apply IH|].
  destruct (existsb (is_type "power") (busHoles this (Some currentBus))).
  { intros [= <-]. right. by left. }
  destruct (List.find _ _) as [wire|] eqn:E; [|apply IH].
  intros [= <-]. right. right.
  apply find_elem_of in E as [[Hw _]%elem_of_wiresOnBus Hp].
  exists wire. eexists. split; [done|]. split; [done|].
  destruct (isGPIOPin (wire_from wire) circuit) eqn:Ef; [by split; [left|]|].
  split; [by right|]. exact Hp.
Qed.

Lemma pathToPowerSource_loop_true this graph circuit startBus fuel visited queue result :
  (∀ x, x ∈ queue → rtc (adjacent graph) startBus x) →
  pathToPowerSource_loop fuel this graph circuit visited queue = Returned result →
  found result = true →
  ∃ bus, rtc (adjacent graph) startBus bus ∧ powered this circuit bus.
Proof.
  revert visited queue.
  induction fuel as [|fuel IH]; intros visited queue Hq; [done|].
  destruct queue as [|currentBus queue]; cbn [pathToPowerSource_loop].
  { by intros [= <-]. }
  case_bool_decide.
  { apply IH. intros x Hx. apply Hq. by right. }
  destruct (existsb (is_type "power") (busHoles this (Some currentBus))) eqn:Eh.
  { intros _ _. exists currentBus. split; [apply Hq; left|].
    apply powered_test. by left. }
  destruct (List.find _ _) as [wire|] eqn:Ew.
  { intros _ _. exists currentBus. split; [apply Hq; left|].
    apply powered_test. right. by rewrite Ew. }
  apply IH. intros x [Hx|Hx]%elem_of_app.
  - apply Hq. by right.
  - eapply rtc_r; [apply Hq; left|]. by apply adjacent_neighbors.
Qed.

Lemma pathToPowerSource_loop_false this graph circuit fuel visited queue result :
  (∀ v, v ∈ visited → ¬ powered this circuit v) →
  (∀ v w, v ∈ visited → adjacent graph v w → w ∈ visited ∨ w ∈ queue) →
  pathToPowerSource_loop fuel this graph circuit visited queue = Returned result →
  found result = false →
  ∀ x bus, x ∈ visited ∨ x ∈ queue → rtc (adjacent graph) x bus →
    ¬ powered this circuit bus.
Proof.
  revert visited queue.
  induction fuel as [|fuel IH]; intros visited queue Hnone Hclosed; [done|].
  destruct queue as [|currentBus queue]; cbn [pathToPowerSource_loop].
  - intros _ _ x bus [Hx|Hx] Hreach; [|by apply elem_of_nil in Hx].
    apply Hnone. eapply closed_adjacent; [|done..].
    intros v w Hv Hvw. by destruct (Hclosed v w Hv Hvw) as [?|?%elem_of_nil].
  - case_bool_decide as Hvisited.
    { intros Hloop Hfound x bus Hx. eapply (IH visited queue); [done| |done|done|].
      - intros v w Hv Hvw.
        destruct (Hclosed v w Hv Hvw) as [?|[->|?]%elem_of_cons]; auto.
      - destruct Hx as [?|[->|?]%elem_of_cons]; auto. }
    destruct (existsb (is_type "power") (busHoles this (Some currentBus))) eqn:Eh.
    { by intros [= <-]. }
    destruct (List.find _ _) as [wire|] eqn:Ew.
    { by intros [= <-]. }
    intros Hloop Hfound x bus Hx.
    eapply (IH ({[currentBus]} ∪ visited) (queue ++ neighbors graph (Some currentBus)));
      [| |done|done|].
    + intros v [->%elem_of_singleton|Hv]%elem_of_union; [|by apply Hnone].
      intros [Hg|Hg]%powered_test; [congruence|].
      rewrite Ew in Hg. by destruct Hg.
    + intros v w [->%elem_of_singleton|Hv]%elem_of_union Hvw.
      * right. apply elem_of_app. right. by apply adjacent_neighbors.
      * destruct (Hclosed v w Hv Hvw) as [?|[->|?]%elem_of_cons].
        -- left. set_solver.
        -- left. set_solver.
        -- right. apply elem_of_app. by left.
    + destruct Hx as [?|[->|?]%elem_of_cons].
      * left. set_solver.
      * left. set_solver.
      * right. apply elem_of_app. by left.
Qed.

Lemma pathToPowerSource_spec
    (this : CircuitValidator) (startBus : BusRef) (graph : Graph) (circuit : Circuit) :
  ∃ result, pathToPowerSource this startBus graph circuit = Returned result ∧
    (found result = true ↔
     ∃ start bus, startBus = Some start ∧ start ≠ "" ∧
       reachable graph (Some start) (Some bus) ∧ powered this circuit bus) ∧
    (result = noPowerSource ∨
     result = {| found := true; isPowerRail := Some true; pin := None |} ∨
     ∃ wire endpoint,
       result = {| found := true; isPowerRail := Some false; pin := Some endpoint |} ∧
       wire ∈ wires circuit ∧
       (endpoint = wire_from wire ∨ endpoint = wire_to wire) ∧
       isGPIOPin endpoint circuit = true).
Proof.
  destruct (pathToPowerSource_returns this startBus graph circuit) as [result Hres].
  exists result. split; [done|].
  unfold pathToPowerSource in Hres.
  destruct startBus as [start|].
  2:{ injection Hres as <-. split; [|by left].
      split; [done|]. by intros (? & ? & ? & _). }
  destruct (bus_truthy (Some start)) eqn:T; cbn [negb] in Hres.
  2:{ injection Hres as <-. split; [|by left].
      split; [done|]. intros (? & ? & [= <-] & Hne & _).
      apply bus_truthy_Some in Hne. congruence. }
  apply bus_truthy_Some in T.
  split; [|by eapply pathToPowerSource_loop_shape].
  destruct (found result) eqn:Hfound.
  - split; [intros _|done].
    eapply (pathToPowerSource_loop_true _ _ _ start) in Hres as (bus & Hreach & Hg);
      [| |done].
    + exists start, bus. by rewrite reachable_adjacent.
    + intros x ->%list_elem_of_singleton. apply rtc_refl.
  - split; [done|]. intros (s & bus & [= <-] & _ & Hreach & Hg). exfalso.
    apply reachable_adjacent in Hreach.
    eapply pathToPowerSource_loop_false in Hres; [by apply Hres| | |done|right; left|done].
    + set_solver.
    + set_solver.
Qed.

(** X4: [pathToPowerSource] always returns; it reports [found] exactly
    when the start bus is truthy and some bus that can be reached from it
    (the start bus included) has a hole of type ['power'] or a wire on it
    one end of which is a GPIO pin of a component.  What it returns is
    [{found: false}], or a power rail, or the GPIO end of a wire of the
    circuit. *)
Theorem pathToPowerSource_iff_powered
    (this : CircuitValidator) (startBus : BusRef) (graph : Graph) (circuit : Circuit) :
  ∃ result, pathToPowerSource this startBus graph circuit = Returned result ∧
    (found result = true ↔
     ∃ start bus, startBus = Some start ∧ start ≠ "" ∧
       reachable graph (Some start) (Some bus) ∧ powered this circuit bus) ∧
    (result = noPowerSource ∨
     result = {| found := true; isPowerRail := Some true; pin := None |} ∨
     ∃ wire endpoint,
       result = {| found := true; isPowerRail := Some false; pin := Some endpoint |} ∧
       wire ∈ wires circuit ∧
       (endpoint = wire_from wire ∨ endpoint = wire_to wire) ∧
       gpio_pin circuit endpoint).
Proof.
  destruct (pathToPowerSource_spec this startBus graph circuit)
    as (result & Hres & Hfound & Hshape).
  exists result. split; [done|]. split; [done|].
  destruct Hshape as [?|[?|(wire & endpoint & ? & ? & ? & Hgpio%isGPIOPin_true)]];
    [by left | by right; left |].
  right. right. by exists wire, endpoint.
Qed.

(** ** The connected groups *)

Lemma group_loop_spec graph start (V0 : gset string) fuel visited group queue
    visited' group' :
  (∀ x, x ∈ visited ↔ x ∈ V0 ∨ x ∈ group) →
  NoDup group → (∀ x, x ∈ group → x ∉ V0) →
  (∀ x, x ∈ group ∨ x ∈ queue → rtc (adjacent graph) start x) →
  (∀ v w, v ∈ visited → adjacent graph v w → w ∈ visited ∨ w ∈ queue) →
  group_loop fuel graph visited group queue = Returned (visited', group') →
  (∀ x, x ∈ visited' ↔ x ∈ V0 ∨ x ∈ group') ∧
  NoDup group' ∧ (∀ x, x ∈ group' → x ∉ V0) ∧
  (∀ x, x ∈ group' → rtc (adjacent graph) start x) ∧
  (∀ v w, v ∈ visited' → adjacent graph v w → w ∈ visited') ∧
  (∀ x, x ∈ queue → x ∈ visited') ∧
  (∀ x, x ∈ group → x ∈ group').
Proof.
  revert visited group queue.
  induction fuel as [|fuel IH]; intros visited group queue Hvis Hnodup Hfresh Hreach Hclosed;
    [done|].
  destruct queue as [|node queue]; cbn [group_loop].
  { intros [= <- <-]. split_and!; try done; try apply Hvis.
    - intros x Hx. apply Hreach. by left.
    - intros v w Hv Hvw. by destruct (Hclosed v w Hv Hvw) as [?|?%elem_of_nil].
    - by intros x ?%elem_of_nil. }
  case_bool_decide as Hnode.
  - intros Hloop. eapply IH in Hloop as (H1 & H2 & H3 & H4 & H5 & H6 & H7); [|done..| |].
    + split_and!; try done; try apply H1.
      intros x [->|Hx]%elem_of_cons; [|by apply H6].
      apply H1. apply Hvis in Hnode as [?|?]; auto.
    + intros x [?|?]; apply Hreach; auto. right. by right.
    + intros v w Hv Hvw.
      destruct (Hclosed v w Hv Hvw) as [?|[->|?]%elem_of_cons]; auto.
  - intros Hloop. eapply IH in Hloop as (H1 & H2 & H3 & H4 & H5 & H6 & H7).
    + split_and!; try done; try apply H1.
      * intros x [->|Hx]%elem_of_cons.
        -- apply H1. right. apply H7, elem_of_app. right. left.
        -- apply H6, elem_of_app. by left.
      * intros x Hx. apply H7, elem_of_app. by left.
    + intros x. rewrite elem_of_union, elem_of_singleton, elem_of_app,
        list_elem_of_singleton, Hvis. tauto.
    + apply NoDup_app. split; [done|]. split; [|apply NoDup_singleton].
      intros x Hx ->%list_elem_of_singleton. apply Hnode, Hvis. by right.
    + intros x [Hx| ->%list_elem_of_singleton]%elem_of_app; [by apply Hfresh|].
      intros HV. apply Hnode, Hvis. by left.
    + intros x [[Hx| ->%list_elem_of_singleton]%elem_of_app|[Hx|Hx]%elem_of_app].
      * apply Hreach. by left.
      * apply Hreach. right. left.
      * apply Hreach. right. by right.
      * eapply rtc_r; [apply Hreach; right; left|]. by apply adjacent_neighbors.
    + intros v w [->%elem_of_singleton|Hv]%elem_of_union Hvw.
      * right. apply elem_of_app. right. by apply adjacent_neighbors.
      * destruct (Hclosed v w Hv Hvw) as [?|[->|?]%elem_of_cons].
        -- left. apply elem_of_union. by right.
        -- left. apply elem_of_union. left. by apply elem_of_singleton.
        -- right. apply elem_of_app. by left.
Qed.

Lemma rtc_adjacent_sym graph x y :
  (∀ a b, adjacent graph a b → adjacent graph b a) →
  rtc (adjacent graph) x y → rtc (adjacent graph) y x.
Proof.
  intros Hsym H. induction H as [|a b c Hab _ IH]; [apply rtc_refl|].
  eapply rtc_r; [exact IH|]. by apply Hsym.
Qed.


Lemma elem_of_concat {A} (x : A) (ls : list (list A)) :
  x ∈ concat ls ↔ ∃ l, l ∈ ls ∧ x ∈ l.
Proof.
  induction ls as [|l ls IH]; cbn [concat].
  - split; [by intros ?%elem_of_nil | by intros (? & ?%elem_of_nil & _)].
  - rewrite elem_of_app, IH. split.
    + intros [?|(l' & ? & ?)]; [exists l; split; [left | done]|].
      exists l'. split; [by right | done].
    + intros (l' & [->|?]%elem_of_cons & ?); [by left|]. right. by exists l'.
Qed.

Lemma groups_from_spec graph startNodes (visited : gset string) groups result :
  (∀ a b, adjacent graph a b → adjacent graph b a) →
  (∀ v w, v ∈ visited → adjacent graph v w → w ∈ visited) →
  (∀ x, x ∈ visited ↔ x ∈ concat groups) →
  NoDup (concat groups) →
  Forall (λ group, group ≠ []) groups →
  (∀ x y, x ∈ concat groups → y ∈ concat groups →
     (rtc (adjacent graph) x y ↔ ∃ group, group ∈ groups ∧ x ∈ group ∧ y ∈ group)) →
  groups_from graph startNodes visited groups = Returned result →
  NoDup (concat result) ∧
  Forall (λ group, group ≠ []) result ∧
  (∀ x y, x ∈ concat result → y ∈ concat result →
     (rtc (adjacent graph) x y ↔ ∃ group, group ∈ result ∧ x ∈ group ∧ y ∈ group)) ∧
  (∀ x, x ∈ startNodes → x ∈ concat result) ∧
  (∀ x, x ∈ concat result →
     x ∈ concat groups ∨ ∃ k, k ∈ startNodes ∧ rtc (adjacent graph) k x) ∧
  (∀ x, x ∈ concat groups → x ∈ concat result).
Proof.
  intros Hsym. revert visited groups.
  induction startNodes as [|startNode rest IH];
    intros visited groups Hclosed Hvis Hnodup Hne Hsame; cbn [groups_from].
  { intros [= <-]. split_and!; try done; try apply Hsame.
    - by intros x ?%elem_of_nil.
    - intros x Hx. by left. }
  case_bool_decide as Hstart.
  { intros Hres. eapply IH in Hres as (H1 & H2 & H3 & H4 & H5 & H6); [|done..].
    split_and!; try done; try apply H3.
    - intros x [->|Hx]%elem_of_cons; [|by apply H4]. by apply H6, Hvis.
    - intros x Hx. destruct (H5 x Hx) as [?|(k & Hk & ?)]; [by left|].
      right. exists k. split; [by right | done]. }
  destruct (group_loop_fuel graph (bfs_fuel graph) visited [] [startNode])
    as [[visited1 group] Hloop]; [apply initial_measure|].
  rewrite Hloop. cbn.
  eapply (group_loop_spec graph startNode visited) in Hloop
    as (G1 & G2 & G3 & G4 & G5 & G6 & _).
  2:{ intros x. split; [by left|]. by intros [?|?%elem_of_nil]. }
  2:{ apply NoDup_nil_2. }
  2:{ by intros x ?%elem_of_nil. }
  2:{ intros x [?%elem_of_nil| ->%list_elem_of_singleton]; [done|]. apply rtc_refl. }
  2:{ intros v w Hv Hvw. left. by eapply Hclosed. }
  assert (Hin : startNode ∈ group).
  { destruct (proj1 (G1 startNode)) as [?|?]; [apply G6; left|done..]. }
  assert (Hconcat : ∀ x, x ∈ concat (groups ++ [group]) ↔ x ∈ concat groups ∨ x ∈ group).
  { intros x. rewrite concat_app, elem_of_app. cbn [concat]. by rewrite app_nil_r. }
  assert (Hgroup : ∀ x y, x ∈ group → y ∈ group → rtc (adjacent graph) x y).
  { intros x y Hx Hy. etrans; [|by apply G4].
    apply rtc_adjacent_sym; [done|]. by apply G4. }
  intros Hres. eapply IH in Hres as (H1 & H2 & H3 & H4 & H5 & H6).
  - split_and!; try done; try apply H3.
    + intros x [->|Hx]%elem_of_cons; [|by apply H4]. apply H6, Hconcat. by right.
    + intros x Hx. destruct (H5 x Hx) as [[?|?]%Hconcat|(k & Hk & ?)].
      * by left.
      * right. exists startNode. split; [left | by apply G4].
      * right. exists k. split; [by right | done].
    + intros x Hx. apply H6, Hconcat. by left.
  - done.
  - intros x. rewrite G1, Hconcat, Hvis. done.
  - rewrite concat_app. cbn [concat]. rewrite app_nil_r.
    apply NoDup_app. split; [done|]. split; [|done].
    intros x Hx Hx'. by apply (G3 x Hx'), Hvis.
  - apply Forall_app. split; [done|]. apply Forall_singleton.
    intros ->. by apply elem_of_nil in Hin.
  - intros x y Hx%Hconcat Hy%Hconcat.
    assert (Hsep : ∀ u v, u ∈ concat groups → v ∈ group → ¬ rtc (adjacent graph) u v).
    { intros u v Hu Hv Huv. apply (G3 v Hv).
      eapply closed_adjacent; [exact Hclosed| |exact Huv]. by apply Hvis. }
    destruct Hx as [Hx|Hx], Hy as [Hy|Hy].
    + rewrite (Hsame x y Hx Hy). split.
      * intros (g & Hg & ? & ?). exists g. split; [|done]. apply elem_of_app. by left.
      * intros (g & [Hg| ->%list_elem_of_singleton]%elem_of_app & Hgx & Hgy); [by exists g|].
        exfalso. by apply (G3 x Hgx), Hvis.
    + split; [intros Hr; by destruct (Hsep x y Hx Hy)|].
      intros (g & [Hg| ->%list_elem_of_singleton]%elem_of_app & Hgx & Hgy).
      * exfalso. apply (G3 y Hy), Hvis. apply elem_of_concat. by exists g.
      * exfalso. by apply (G3 x Hgx), Hvis.
    + split; [intros Hr; destruct (Hsep y x Hy Hx); by apply rtc_adjacent_sym|].
      intros (g & [Hg| ->%list_elem_of_singleton]%elem_of_app & Hgx & Hgy).
      * exfalso. apply (G3 x Hx), Hvis. apply elem_of_concat. by exists g.
      * exfalso. by apply (G3 y Hgy), Hvis.
    + split; [intros _|intros _; by apply Hgroup].
      exists group. split; [|done]. apply elem_of_app. right. left.
Qed.

Lemma findConnectedGroups_symmetric (graph : Graph) :
  (∀ a b, adjacent graph a b → adjacent graph b a) →
  ∃ groups, findConnectedGroups graph = Returned groups ∧
    NoDup (concat groups) ∧
    Forall (λ group, group ≠ []) groups ∧
    (∀ k, k ∈ OMap.keys graph → k ∈ concat groups) ∧
    (∀ x, x ∈ concat groups →
       ∃ k, k ∈ OMap.keys graph ∧ reachable graph (Some k) (Some x)) ∧
    (∀ x y, x ∈ concat groups → y ∈ concat groups →
       (reachable graph (Some x) (Some y)
        ↔ ∃ group, group ∈ groups ∧ x ∈ group ∧ y ∈ group)).
Proof.
  intros Hsym.
  destruct (groups_from_returns graph (OMap.keys graph) ∅ []) as [groups Hres].
  exists groups. split; [done|].
  eapply groups_from_spec in Hres as (H1 & H2 & H3 & H4 & H5 & _); [|done|..].
  - split_and!; try done.
    + intros x Hx. destruct (H5 x Hx) as [?%elem_of_nil|(k & Hk & Hr)]; [done|].
      exists k. by rewrite reachable_adjacent.
    + intros x y Hx Hy. rewrite reachable_adjacent. by apply H3.
  - intros v w Hv. by apply elem_of_empty in Hv.
  - intros x. cbn [concat]. split; [by intros ?%elem_of_empty | by intros ?%elem_of_nil].
  - apply NoDup_nil_2.
  - apply Forall_nil_2.
  - by intros x y ?%elem_of_nil.
Qed.

(** X5: on a graph whose adjacency sets are symmetric,
    [findConnectedGroups] returns its connected components: no bus is in
    two groups or twice in one, no group is empty, every node of the graph
    is in a group, every member of a group can be reached from a node, and
    two members are in the same group exactly when one can be reached from
    the other. *)
Theorem findConnectedGroups_components (graph : Graph) :
  (∀ a b, adjacent graph a b → adjacent graph b a) →
  ∃ groups, findConnectedGroups graph = Returned groups ∧
    NoDup (concat groups) ∧
    Forall (λ group, group ≠ []) groups ∧
    (∀ k, k ∈ OMap.keys graph → k ∈ concat groups) ∧
    (∀ x, x ∈ concat groups →
       ∃ k, k ∈ OMap.keys graph ∧ reachable graph (Some k) (Some x)) ∧
    (∀ x y, x ∈ concat groups → y ∈ concat groups →
       (reachable graph (Some x) (Some y)
        ↔ ∃ group, group ∈ groups ∧ x ∈ group ∧ y ∈ group)).
Proof. apply findConnectedGroups_symmetric. Qed.

Lemma findConnectedGroups_components_witness :
  ∃ groups,
    findConnectedGroups (buildBusConnectivityGraph Sample.validator Sample.apartOneWire)
    = Returned groups ∧
    NoDup (concat groups) ∧
    Forall (λ group, group ≠ []) groups ∧
    (∀ k, k ∈ OMap.keys (buildBusConnectivityGraph Sample.validator Sample.apartOneWire) →
       k ∈ concat groups) ∧
    (∀ x, x ∈ concat groups →
       ∃ k, k ∈ OMap.keys (buildBusConnectivityGraph Sample.validator Sample.apartOneWire) ∧
         reachable (buildBusConnectivityGraph Sample.validator Sample.apartOneWire)
           (Some k) (Some x)) ∧
    (∀ x y, x ∈ concat groups → y ∈ concat groups →
       (reachable (buildBusConnectivityGraph Sample.validator Sample.apartOneWire)
          (Some x) (Some y)
        ↔ ∃ group, group ∈ groups ∧ x ∈ group ∧ y ∈ group)).
Proof.
  apply (findConnectedGroups_components
           (buildBusConnectivityGraph Sample.validator Sample.apartOneWire)).
  intros a b H.
  by destruct (graph_invariant_build Sample.validator Sample.apartOneWire a b H).
Defined.

Lemma concat_unique {A} (ls : list (list A)) l1 l2 x :
  NoDup (concat ls) → l1 ∈ ls → l2 ∈ ls → x ∈ l1 → x ∈ l2 → l1 = l2.
Proof.
  induction ls as [|l ls IH]; cbn [concat]; [by intros _ ?%elem_of_nil|].
  intros (Hl & Hdisj & Hls)%NoDup_app [->|H1]%elem_of_cons [->|H2]%elem_of_cons Hx1 Hx2.
  - done.
  - exfalso. apply (Hdisj x Hx1). apply elem_of_concat. eauto.
  - exfalso. apply (Hdisj x Hx2). apply elem_of_concat. eauto.
  - by apply IH.
Qed.

Lemma length_concat {A} (ls : list (list A)) :
  length (concat ls) = sum_list (length <$> ls).
Proof.
  induction ls as [|l ls IH]; [done|].
  cbn [concat fmap list_fmap sum_list]. rewrite length_app. cbn [fmap] in IH. by rewrite IH.
Qed.

Lemma NoDup_two {A} (l : list A) x y :
  NoDup l → x ∈ l → y ∈ l → x ≠ y → 2 ≤ length l.
Proof.
  intros Hl Hx Hy Hne.
  destruct l as [|a [|b l]]; cbn [length]; [by apply elem_of_nil in Hx| |lia].
  apply list_elem_of_singleton in Hx, Hy. congruence.
Qed.

Lemma checkIsolatedComponents_connected
    (this : CircuitValidator) (circuit : Circuit) :
  let graph := buildBusConnectivityGraph this circuit in
  ∃ errs, checkIsolatedComponents circuit graph = Returned errs ∧
    (errs = [] ↔ connected graph) ∧
    (∀ d, d ∈ errs →
       ∃ groupSizes,
         errs = [d] ∧
         d = createError "DISCONNECTED_GROUPS" "circuit"
               (GroupsExtra (length groupSizes) groupSizes) ∧
         2 ≤ length groupSizes ∧
         Forall (λ size, 2 ≤ size) groupSizes ∧
         sum_list groupSizes = length (OMap.keys graph)).
Proof.
  intros graph.
  pose proof (graph_invariant_build this circuit) as Hinv. fold graph in Hinv.
  pose proof (well_formed_build this circuit) as Hwf. fold graph in Hwf.
  assert (Hsym : ∀ a b, adjacent graph a b → adjacent graph b a).
  { intros a b H. by destruct (Hinv a b H). }
  destruct (findConnectedGroups_symmetric graph Hsym)
    as (groups & Hres & Hnodup & Hne & Hkeys & Hfrom & Hsame).
  assert (Hnode : ∀ x, x ∈ concat groups → x ∈ OMap.keys graph).
  { intros x (k & Hk & Hr%reachable_adjacent)%Hfrom.
    apply rtc_inv_r in Hr as [->|(z & _ & Hadj)]; [done|].
    destruct Hadj as (adj & Hadj & Hx). unfold OMap.get in Hadj.
    destruct Hwf as [_ Hwf]. apply assoc_elem_of, Hwf in Hadj as (_ & _ & Hsub). auto. }
  assert (Hsizes : Forall (λ size, 2 ≤ size) (length <$> groups)).
  { apply Forall_fmap, Forall_forall. intros g Hg. cbn.
    assert (NoDup g) as Hg'.
    { clear -Hnodup Hg. induction groups as [|l ls IH]; [by apply elem_of_nil in Hg|].
      cbn [concat] in Hnodup. apply NoDup_app in Hnodup as (? & _ & ?).
      apply elem_of_cons in Hg as [->|Hg]; auto. }
    destruct g as [|x g'] eqn:Eg.
    { rewrite Forall_forall in Hne. by destruct (Hne [] Hg). }
    rewrite <- Eg in *. assert (Hx : x ∈ g) by (rewrite Eg; left).
    assert (Hxc : x ∈ concat groups) by (apply elem_of_concat; eauto).
    pose proof (Hnode x Hxc) as (adj & Hadj)%keys_is_Some.
    pose proof Hadj as Hadj'. destruct Hwf as [_ Hwf'].
    apply assoc_elem_of, Hwf' in Hadj' as (Hadjne & _ & Hsub).
    destruct adj as [|y adj]; [done|].
    assert (Hxy : adjacent graph x y) by (exists (y :: adj); split; [done | left]).
    assert (Hyc : y ∈ concat groups) by (apply Hkeys, Hsub; left).
    destruct (proj1 (Hsame x y Hxc Hyc)) as (g2 & Hg2 & Hx2 & Hy2).
    { apply reachable_adjacent. by apply rtc_once. }
    assert (g = g2) as <- by (by apply (concat_unique groups g g2 x Hnodup)).
    apply (NoDup_two g x y); [done..|].
    intros Heq. rewrite Heq in Hxy. by destruct (Hinv y y Hxy) as (_ & ? & _). }
  assert (Hsum : sum_list (length <$> groups) = length (OMap.keys graph)).
  { rewrite <- length_concat. apply Permutation_length, NoDup_Permutation; [done|apply Hwf|].
    intros x. split; [apply Hnode | apply Hkeys]. }
  assert (Hconn : length groups ≤ 1 ↔ connected graph).
  { split.
    - intros Hlen a b Ha%Hkeys Hb%Hkeys. apply Hsame; [done..|].
      destruct groups as [|g [|g' gs]]; [by apply elem_of_nil in Ha| |cbn in Hlen; lia].
      cbn [concat] in Ha, Hb. rewrite app_nil_r in Ha, Hb.
      exists g. split; [left | done].
    - intros Hc. destruct groups as [|g1 [|g2 gs]]; cbn [length]; [lia..|]. exfalso.
      apply Forall_cons in Hne as [Hne1 Hne]. apply Forall_cons in Hne as [Hne2 _].
      destruct g1 as [|x g1]; [done|]. destruct g2 as [|y g2]; [done|].
      assert (Hx : x ∈ concat ((x :: g1) :: (y :: g2) :: gs)).
      { apply elem_of_concat. exists (x :: g1). split; left. }
      assert (Hy : y ∈ concat ((x :: g1) :: (y :: g2) :: gs)).
      { apply elem_of_concat. exists (y :: g2). split; [right|]; left. }
      destruct (proj1 (Hsame x y Hx Hy)) as (g & Hg & Hgx & Hgy).
      { apply Hc; by apply Hnode. }
      assert (g = x :: g1) as Hg1.
      { apply (concat_unique _ g (x :: g1) x Hnodup); [done | left | done | left]. }
      assert (g = y :: g2) as Hg2.
      { apply (concat_unique _ g (y :: g2) y Hnodup); [done | right; left | done | left]. }
      cbn [concat] in Hnodup. apply NoDup_app in Hnodup as (_ & Hdisj & _).
      apply (Hdisj x); [left|]. apply elem_of_app. left. rewrite <- Hg2, Hg1. left. }
  unfold checkIsolatedComponents. rewrite Hres.
  change (Returned groups ≫= ?f) with (f groups). cbv beta.
  destruct (1 <? length groups) eqn:Hlen.
  - apply Nat.ltb_lt in Hlen. cbv iota. eexists. split; [done|]. split.
    + split; [intros ?; discriminate|]. intros Hc%Hconn. lia.
    + intros d ->%list_elem_of_singleton. exists (length <$> groups).
      rewrite length_fmap. by split_and!.
  - apply Nat.ltb_ge in Hlen. cbv iota. eexists. split; [done|]. split.
    + split; [intros _; by apply Hconn | done].
    + by intros d ?%elem_of_nil.
Qed.

(** X6: on the bus graph of a circuit, [checkIsolatedComponents] returns
    no diagnostic exactly when the circuit is in one piece (any two buses
    that are joined to another bus, by a component or a wire, are wired
    together); otherwise it returns one [DISCONNECTED_GROUPS] error
    located at ['circuit'] whose [groupCount] is the number of its
    [groupSizes], at least two, each at least two, which add up to the
    number of nodes of the graph. *)
Theorem checkIsolatedComponents_iff_disconnected
    (this : CircuitValidator) (circuit : Circuit) :
  let graph := buildBusConnectivityGraph this circuit in
  ∃ errs, checkIsolatedComponents circuit graph = Returned errs ∧
    (errs = [] ↔ in_one_piece this circuit) ∧
    (∀ d, d ∈ errs →
       ∃ groupSizes,
         errs = [d] ∧
         d_type d = "DISCONNECTED_GROUPS" ∧ d_severity d = SevError ∧
         d_location d = "circuit" ∧
         d_extra d = GroupsExtra (length groupSizes) groupSizes ∧
         2 ≤ length groupSizes ∧
         Forall (λ size, 2 ≤ size) groupSizes ∧
         sum_list groupSizes = length (OMap.keys graph)).
Proof.
  intros graph.
  destruct (checkIsolatedComponents_connected this circuit) as (errs & Hres & Hnil & Hone).
  exists errs. split; [exact Hres|]. split.
  - rewrite Hnil. apply connected_in_one_piece.
  - intros d Hd. destruct (Hone d Hd) as (groupSizes & Herrs & -> & Hlen & Hsizes & Hsum).
    exists groupSizes. by split_and!.
Qed.

(** ** The validator's indexes of the breadboard *)

Lemma foldl_insert_last {V} (f : Hole → V) (holes : list Hole) (m : gmap string V) k :
  foldl (λ map hole, <[hole_id hole := f hole]> map) m holes !! k =
  match last (filter (λ h, hole_id h = k) holes) with
  | Some h => Some (f h)
  | None => m !! k
  end.
Proof.
  revert m. induction holes as [|h holes IH]; intros m; [done|].
  cbn [foldl]. rewrite IH, filter_cons.
  destruct (decide (hole_id h = k)) as [<-|Hne].
  - destruct (filter _ holes) as [|h' l] eqn:E.
    + cbn. by rewrite lookup_insert_eq.
    + rewrite !last_cons. by destruct (last l).
  - destruct (last _); [done|]. by rewrite lookup_insert_ne.
Qed.

(** X7: the constructor indexes every hole under its id.  A lookup in
    [holeMap] answers the last hole of the breadboard with that id (a
    later hole replaces an earlier one of the same id) and nothing for an
    id no hole has; [busMap] answers the bus of that hole.  When no two
    holes share an id, every hole is found under its own id. *)
Theorem new_CircuitValidator_indexes (breadboardHoles : list Hole) :
  let this := new_CircuitValidator breadboardHoles in
  (∀ holeId, holeMap this !! holeId
             = last (filter (λ h, hole_id h = holeId) breadboardHoles)) ∧
  (∀ holeId, busMap this !! holeId = hole_bus <$> holeMap this !! holeId) ∧
  (∀ holeId, holeId ∉ hole_id <$> breadboardHoles →
     holeMap this !! holeId = None ∧ busMap this !! holeId = None) ∧
  (NoDup (hole_id <$> breadboardHoles) →
   ∀ h, h ∈ breadboardHoles →
     holeMap this !! hole_id h = Some h ∧ busMap this !! hole_id h = Some (hole_bus h)).
Proof.
  intros this.
  assert (Hhole : ∀ holeId, holeMap this !! holeId
                  = last (filter (λ h, hole_id h = holeId) breadboardHoles)).
  { intros holeId. cbn. unfold buildHoleMap.
    rewrite (foldl_insert_last (λ h, h)). by destruct (last _). }
  assert (Hbus : ∀ holeId, busMap this !! holeId = hole_bus <$> holeMap this !! holeId).
  { intros holeId. rewrite Hhole. cbn. unfold buildBusMap.
    rewrite (foldl_insert_last hole_bus). by destruct (last _). }
  split; [done|]. split; [done|]. split.
  - intros holeId Hnot. rewrite Hbus, Hhole.
    destruct (filter _ breadboardHoles) as [|h l] eqn:E; [done|]. exfalso.
    assert (Hin : h ∈ filter (λ h, hole_id h = holeId) breadboardHoles)
      by (rewrite E; left).
    apply list_elem_of_filter in Hin as [<- Hin]. apply Hnot.
    apply list_elem_of_fmap. by exists h.
  - intros Hnodup h Hin. rewrite Hbus, Hhole.
    assert (Hfilter : filter (λ h', hole_id h' = hole_id h) breadboardHoles = [h]).
    { clear -Hnodup Hin. induction breadboardHoles as [|h0 hs IH];
        [by apply elem_of_nil in Hin|].
      cbn [fmap list_fmap] in Hnodup. apply NoDup_cons in Hnodup as [Hnot Hnodup].
      rewrite filter_cons. apply elem_of_cons in Hin as [->|Hin].
      - rewrite decide_True by done. f_equal.
        destruct (filter _ hs) as [|h' l] eqn:E; [done|]. exfalso.
        assert (Hin : h' ∈ filter (λ h', hole_id h' = hole_id h0) hs) by (rewrite E; left).
        apply list_elem_of_filter in Hin as [Heq Hin]. apply Hnot.
        apply list_elem_of_fmap. by exists h'.
      - rewrite decide_False; [by apply IH|].
        intros Heq. apply Hnot. apply list_elem_of_fmap. by exists h. }
    by rewrite Hfilter.
Qed.

(** ** Layer 2: duplicate ids *)

Lemma repeated_snoc id' ids id :
  repeated id' (ids ++ [id]) ↔ repeated id' ids ∨ (id' = id ∧ id ∈ ids).
Proof.
  unfold repeated. split.
  - intros (i & j & Hij & Hi & Hj).
    apply lookup_app_Some in Hj as [Hj|[Hlen Hj]].
    + left. exists i, j. split; [done|]. split; [|done].
      apply lookup_lt_Some in Hj. by rewrite lookup_app_l in Hi by lia.
    + apply list_lookup_singleton_Some in Hj as [Hj ->].
      right. split; [done|].
      rewrite lookup_app_l in Hi by lia. by eapply list_elem_of_lookup_2.
  - intros [(i & j & Hij & Hi & Hj)|[-> Hin]].
    + exists i, j. split; [done|]. split; by apply lookup_app_l_Some.
    + apply list_elem_of_lookup_1 in Hin as [i Hi].
      exists i, (length ids). split; [by eapply lookup_lt_Some|].
      split; [by apply lookup_app_l_Some|].
      rewrite lookup_app_r by lia. by rewrite Nat.sub_diag.
Qed.

Lemma checkUniqueIds_fold type ids processed errors (seen : gset string) :
  (∀ x, x ∈ seen ↔ x ∈ processed ∧ x ≠ "") →
  (∀ d, d ∈ errors ↔
     ∃ id, d = createError type id NoExtra ∧ id ≠ "" ∧ repeated id processed) →
  let '(errors', seen') :=
    foldl (λ '(errors, seen) id,
        if String.eqb id "" then (errors, seen)
        else ((if bool_decide (id ∈ seen)
               then errors ++ [createError type id NoExtra] else errors),
              {[id]} ∪ seen))
      (errors, seen) ids in
  (∀ x, x ∈ seen' ↔ x ∈ processed ++ ids ∧ x ≠ "") ∧
  (∀ d, d ∈ errors' ↔
     ∃ id, d = createError type id NoExtra ∧ id ≠ "" ∧ repeated id (processed ++ ids)).
Proof.
  revert processed errors seen.
  induction ids as [|id ids IH]; intros processed errors seen Hseen Herrors.
  { cbn [foldl]. by rewrite app_nil_r. }
  cbn [foldl]. replace (processed ++ id :: ids) with ((processed ++ [id]) ++ ids)
    by (by rewrite <- app_assoc).
  destruct (String.eqb id "") eqn:E.
  - apply String.eqb_eq in E. subst id. apply IH.
    + intros x. rewrite Hseen, elem_of_app, list_elem_of_singleton.
      split; [tauto|]. intros [[?|?] ?]; [done|congruence].
    + intros d. rewrite Herrors. split; intros (id & -> & Hne & Hrep); exists id;
        (split; [done|]); (split; [done|]).
      * apply repeated_snoc. by left.
      * apply repeated_snoc in Hrep as [?|[? _]]; [done|congruence].
  - apply String.eqb_neq in E. apply IH.
    + intros x. rewrite elem_of_union, elem_of_singleton, Hseen, elem_of_app,
        list_elem_of_singleton.
      split; [intros [->|[? ?]]; auto | tauto].
    + intros d. case_bool_decide as Hin.
      * rewrite elem_of_app, list_elem_of_singleton, Herrors. split.
        -- intros [(id' & -> & Hne & Hrep)| ->].
           ++ exists id'. split; [done|]. split; [done|]. apply repeated_snoc. by left.
           ++ exists id. split; [done|]. split; [done|]. apply repeated_snoc. right.
              split; [done|]. by apply Hseen in Hin as [? _].
        -- intros (id' & -> & Hne & [Hrep|[-> _]]%repeated_snoc); [left; eauto | by right].
      * rewrite Herrors. split.
        -- intros (id' & -> & Hne & Hrep). exists id'. split; [done|]. split; [done|].
           apply repeated_snoc. by left.
        -- intros (id' & -> & Hne & [Hrep|[-> Hid]]%repeated_snoc); [eauto|].
           exfalso. apply Hin, Hseen. done.
Qed.

Lemma checkUniqueIds_spec type ids :
  (∀ x, x ∈ (checkUniqueIds type ids).2 ↔ x ∈ ids ∧ x ≠ "") ∧
  (∀ d, d ∈ (checkUniqueIds type ids).1 ↔
     ∃ id, d = createError type id NoExtra ∧ id ≠ "" ∧ repeated id ids).
Proof.
  unfold checkUniqueIds.
  pose proof (checkUniqueIds_fold type ids [] [] ∅) as H.
  destruct (foldl _ _ ids) as [errors seen]. apply H.
  - intros x. split; [by intros ?%elem_of_empty | by intros [?%elem_of_nil _]].
  - intros d. split; [by intros ?%elem_of_nil|].
    intros (id & _ & _ & i & j & _ & Hi & _). done.
Qed.

(** ** Layer 2: the five passes *)

Lemma validateWireEndpoint_spec this circuit wire reference (componentIds : gset string) :
  (∀ x, x ∈ componentIds ↔ x ∈ comp_id <$> components circuit ∧ x ≠ "") →
  (endpoint_resolves this circuit reference ∧
   validateWireEndpoint this wire reference componentIds = []) ∨
  (¬ endpoint_resolves this circuit reference ∧
   ((includes "." reference = true ∧
     validateWireEndpoint this wire reference componentIds
     = [createError "INVALID_WIRE_COMPONENT" (wire_id wire) NoExtra]) ∨
    (includes "." reference = false ∧
     validateWireEndpoint this wire reference componentIds
     = [createError "INVALID_WIRE_HOLE" (wire_id wire) NoExtra]))).
Proof.
  intros Hids. unfold validateWireEndpoint, endpoint_resolves.
  destruct (String.eqb reference "") eqn:E.
  { apply String.eqb_eq in E. left. split; [by left | done]. }
  apply String.eqb_neq in E.
  destruct (includes "." reference) eqn:Hdot.
  - destruct (split_reference reference) as [compId pinName]. cbn [fst].
    case_bool_decide as Hin.
    + left. split; [|done]. right. left. apply Hids in Hin as [? ?]. done.
    + right. split; [|by left].
      intros [?|[(_ & ? & ?)|[? _]]]; [done| |done]. apply Hin, Hids. done.
  - destruct (holeMap this !! reference) eqn:Hhole.
    + left. split; [|done]. right. right. done.
    + right. split; [|by right].
      intros [?|[(? & _)|[_ [? ?]]]]; done.
Qed.

Lemma checkComponentType_types net comp st es :
  (checkComponentType net comp st).1 = Returned es →
  Forall (λ d, d_severity d = SevError ∧ d_location d = comp_id comp ∧
               d_extra d = NoExtra ∧
               (d_type d = "INVALID_PIN_NAME" ∨ d_type d = "UNKNOWN_COMPONENT_TYPE")) es.
Proof.
  unfold checkComponentType.
  destruct (String.eqb (comp_type comp) ""); [by intros [= <-]|].
  destruct (loadComponent net (comp_type comp) st) as [loaded st1]. cbn [fst].
  intros [H|(e & _ & [= <-])]%try_catch_Returned.
  2:{ apply Forall_singleton. cbn. auto. }
  destruct loaded as [componentDef| |]; [|done..]. cbn in H.
  destruct (get "pins" componentDef) as [pins| |]; [|done..]. cbn in H.
  destruct (truthy pins); [|by injection H as <-].
  destruct (object_keys pins) as [definedPins| |]; [|done..]. cbn in H.
  injection H as <-. apply Forall_flat_map. intros pin _.
  case_bool_decide; [done|]. apply Forall_singleton. cbn. auto.
Qed.

(** What [validateReferences] returns: the diagnostics of its five passes,
    one after the other. *)
Lemma validateReferences_parts net circuit st :
  ∃ typeErrors st1,
    collect_st (checkComponentType net) (components circuit) st
    = (Returned typeErrors, st1) ∧
    same_board st st1 ∧
    validateReferences net circuit st =
    (Returned (
       (checkUniqueIds "DUPLICATE_COMPONENT_ID" (comp_id <$> components circuit)).1 ++
       typeErrors ++
       flat_map (λ comp,
           flat_map (λ '(pin, holeId),
               match holeMap (this st) !! holeId with
               | Some _ => []
               | None => [createError "INVALID_HOLE_REFERENCE" (comp_id comp) NoExtra]
               end)
             (comp_placement comp))
         (components circuit) ++
       flat_map (λ wire,
           validateWireEndpoint (this st) wire (wire_from wire)
             (checkUniqueIds "DUPLICATE_COMPONENT_ID" (comp_id <$> components circuit)).2 ++
           validateWireEndpoint (this st) wire (wire_to wire)
             (checkUniqueIds "DUPLICATE_COMPONENT_ID" (comp_id <$> components circuit)).2)
         (wires circuit) ++
       (checkUniqueIds "DUPLICATE_WIRE_ID" (wire_id <$> wires circuit)).1), st1).
Proof.
  destruct (collect_st_returns (checkComponentType net) (components circuit) st st)
    as (typeErrors & st1 & Hcollect & Hsame).
  { apply same_board_refl. }
  { intros x st0. apply checkComponentType_returns. }
  exists typeErrors, st1. split; [done|]. split; [done|].
  unfold validateReferences. rewrite Hcollect.
  destruct (checkUniqueIds "DUPLICATE_COMPONENT_ID" _) as [dupC ids].
  destruct (checkUniqueIds "DUPLICATE_WIRE_ID" _) as [dupW ?]. cbn [fst snd].
  destruct Hsame as (_ & _ & Hhole & _).
  assert (Hthis : ∀ wire reference,
            validateWireEndpoint (this st1) wire reference ids
            = validateWireEndpoint (this st) wire reference ids).
  { intros. unfold validateWireEndpoint. by rewrite Hhole. }
  rewrite Hhole. do 5 f_equal. f_equal.
  apply flat_map_ext. intros wire. by rewrite !Hthis.
Qed.

Lemma elem_of_validateReferences net circuit st :
  ∃ typeErrors errs st',
    collect_st (checkComponentType net) (components circuit) st
    = (Returned typeErrors, st') ∧
    validateReferences net circuit st = (Returned errs, st') ∧
    same_board st st' ∧
    Forall (λ d, d_extra d = NoExtra ∧
                 (d_type d = "INVALID_PIN_NAME" ∨ d_type d = "UNKNOWN_COMPONENT_TYPE"))
           typeErrors ∧
    ∀ d, d ∈ errs ↔
      (∃ id, d = createError "DUPLICATE_COMPONENT_ID" id NoExtra ∧ id ≠ "" ∧
         repeated id (comp_id <$> components circuit)) ∨
      d ∈ typeErrors ∨
      (∃ comp pin holeId, comp ∈ components circuit ∧
         (pin, holeId) ∈ comp_placement comp ∧ holeMap (this st) !! holeId = None ∧
         d = createError "INVALID_HOLE_REFERENCE" (comp_id comp) NoExtra) ∨
      (∃ wire reference, wire ∈ wires circuit ∧
         (reference = wire_from wire ∨ reference = wire_to wire) ∧
         ¬ endpoint_resolves (this st) circuit reference ∧
         ((includes "." reference = true ∧
           d = createError "INVALID_WIRE_COMPONENT" (wire_id wire) NoExtra) ∨
          (includes "." reference = false ∧
           d = createError "INVALID_WIRE_HOLE" (wire_id wire) NoExtra))) ∨
      (∃ id, d = createError "DUPLICATE_WIRE_ID" id NoExtra ∧ id ≠ "" ∧
         repeated id (wire_id <$> wires circuit)).
Proof.
  destruct (validateReferences_parts net circuit st)
    as (typeErrors & st1 & Hcollect & Hsame & Hparts).
  eexists typeErrors, _, st1. split; [done|]. split; [exact Hparts|]. split; [done|].
  destruct (checkUniqueIds_spec "DUPLICATE_COMPONENT_ID" (comp_id <$> components circuit))
    as [Hids HdupC].
  destruct (checkUniqueIds_spec "DUPLICATE_WIRE_ID" (wire_id <$> wires circuit))
    as [_ HdupW].
  assert (Htypes : Forall (λ d, d_extra d = NoExtra ∧
              (d_type d = "INVALID_PIN_NAME" ∨ d_type d = "UNKNOWN_COMPONENT_TYPE"))
            typeErrors).
  { eapply Forall_collect_st; [|exact Hcollect].
    intros comp st0 es Hes. apply checkComponentType_types in Hes.
    eapply Forall_impl; [exact Hes|]. cbn. tauto. }
  split; [done|].
  assert (Hholes : ∀ d,
    d ∈ flat_map (λ comp,
           flat_map (λ '(pin, holeId),
               match holeMap (this st) !! holeId with
               | Some _ => []
               | None => [createError "INVALID_HOLE_REFERENCE" (comp_id comp) NoExtra]
               end)
             (comp_placement comp))
         (components circuit) ↔
    ∃ comp pin holeId, comp ∈ components circuit ∧
      (pin, holeId) ∈ comp_placement comp ∧ holeMap (this st) !! holeId = None ∧
      d = createError "INVALID_HOLE_REFERENCE" (comp_id comp) NoExtra).
  { intros d. rewrite elem_of_flat_map. split.
    - intros (comp & Hcomp & ([pin holeId] & Hpin & Hd)%elem_of_flat_map).
      destruct (holeMap (this st) !! holeId) eqn:E; [by apply elem_of_nil in Hd|].
      apply list_elem_of_singleton in Hd. by exists comp, pin, holeId.
    - intros (comp & pin & holeId & Hcomp & Hpin & Hnone & ->).
      exists comp. split; [done|]. apply elem_of_flat_map. exists (pin, holeId).
      split; [done|]. rewrite Hnone. left. }
  assert (Hends : ∀ d,
    d ∈ flat_map (λ wire,
           validateWireEndpoint (this st) wire (wire_from wire)
             (checkUniqueIds "DUPLICATE_COMPONENT_ID" (comp_id <$> components circuit)).2 ++
           validateWireEndpoint (this st) wire (wire_to wire)
             (checkUniqueIds "DUPLICATE_COMPONENT_ID" (comp_id <$> components circuit)).2)
         (wires circuit) ↔
    ∃ wire reference, wire ∈ wires circuit ∧
      (reference = wire_from wire ∨ reference = wire_to wire) ∧
      ¬ endpoint_resolves (this st) circuit reference ∧
      ((includes "." reference = true ∧
        d = createError "INVALID_WIRE_COMPONENT" (wire_id wire) NoExtra) ∨
       (includes "." reference = false ∧
        d = createError "INVALID_WIRE_HOLE" (wire_id wire) NoExtra))).
  { intros d. rewrite elem_of_flat_map.
    assert (Hone : ∀ wire reference,
      d ∈ validateWireEndpoint (this st) wire reference
            (checkUniqueIds "DUPLICATE_COMPONENT_ID" (comp_id <$> components circuit)).2 ↔
      ¬ endpoint_resolves (this st) circuit reference ∧
      ((includes "." reference = true ∧
        d = createError "INVALID_WIRE_COMPONENT" (wire_id wire) NoExtra) ∨
       (includes "." reference = false ∧
        d = createError "INVALID_WIRE_HOLE" (wire_id wire) NoExtra))).
    { intros wire reference.
      destruct (validateWireEndpoint_spec (this st) circuit wire reference _ Hids)
        as [[Hres ->]|[Hnot [[Hdot ->]|[Hdot ->]]]].
      - split; [by intros ?%elem_of_nil | by intros [? _]].
      - rewrite list_elem_of_singleton. split.
        + intros ->. split; [done|]. by left.
        + intros [_ [[_ ->]|[? _]]]; [done|congruence].
      - rewrite list_elem_of_singleton. split.
        + intros ->. split; [done|]. by right.
        + intros [_ [[? _]|[_ ->]]]; [congruence|done]. }
    split.
    - intros (wire & Hwire & [Hd|Hd]%elem_of_app); apply Hone in Hd as [? ?].
      + exists wire, (wire_from wire). split_and!; auto.
      + exists wire, (wire_to wire). split_and!; auto.
    - intros (wire & reference & Hwire & [->| ->] & Hd); exists wire; (split; [done|]);
        apply elem_of_app; [left | right]; by apply Hone. }
  intros d. by rewrite !elem_of_app, HdupC, HdupW, Hholes, Hends.
Qed.

(** X8: [validateReferences] always returns, and reports
    [DUPLICATE_COMPONENT_ID] (or [DUPLICATE_WIRE_ID]) located at an id
    exactly when that id is non-empty and is the id of two components (or
    wires) of the circuit; circuits whose ids are pairwise different get
    neither. *)
Theorem validateReferences_duplicate_ids
    (net : Network) (circuit : Circuit) (st : State) :
  ∃ errs st', validateReferences net circuit st = (Returned errs, st') ∧
    (∀ id, (∃ d, d ∈ errs ∧ d_type d = "DUPLICATE_COMPONENT_ID" ∧ d_location d = id) ↔
           id ≠ "" ∧ repeated id (comp_id <$> components circuit)) ∧
    (∀ id, (∃ d, d ∈ errs ∧ d_type d = "DUPLICATE_WIRE_ID" ∧ d_location d = id) ↔
           id ≠ "" ∧ repeated id (wire_id <$> wires circuit)) ∧
    (∀ d, d ∈ errs →
       d_type d = "DUPLICATE_COMPONENT_ID" ∨ d_type d = "DUPLICATE_WIRE_ID" →
       d_severity d = SevError ∧ d_extra d = NoExtra) ∧
    (NoDup (comp_id <$> components circuit) → NoDup (wire_id <$> wires circuit) →
     ∀ d, d ∈ errs →
       d_type d ≠ "DUPLICATE_COMPONENT_ID" ∧ d_type d ≠ "DUPLICATE_WIRE_ID").
Proof.
  destruct (elem_of_validateReferences net circuit st)
    as (typeErrors & errs & st' & _ & Hres & _ & Htypes & Hin).
  rewrite Forall_forall in Htypes.
  exists errs, st'. split; [done|].
  assert (Hrep : ∀ id ids, NoDup ids → ¬ repeated id ids).
  { intros id ids Hnodup (i & j & Hij & Hi & Hj).
    pose proof (NoDup_lookup _ _ _ _ Hnodup Hi Hj). lia. }
  assert (Hshape : ∀ d, d ∈ errs →
            d_type d = "DUPLICATE_COMPONENT_ID" ∨ d_type d = "DUPLICATE_WIRE_ID" →
            d = createError (d_type d) (d_location d) NoExtra).
  { intros d [Hd|[Hd|[Hd|[Hd|Hd]]]]%Hin Ht.
    + by destruct Hd as (? & -> & _).
    + apply Htypes in Hd as [_ [Hd|Hd]]; rewrite Hd in Ht; by destruct Ht.
    + destruct Hd as (? & ? & ? & _ & _ & _ & ->). by destruct Ht.
    + destruct Hd as (? & ? & _ & _ & _ & [[_ ->]|[_ ->]]); by destruct Ht.
    + by destruct Hd as (? & -> & _). }
  split_and!.
  - intros id. rewrite (reported_iff errs (λ t, t = "DUPLICATE_COMPONENT_ID" ∨ t = "DUPLICATE_WIRE_ID") _ _ Hshape) by (cbv beta; auto). rewrite Hin. split.
    + intros [(? & [= <-] & ? & ?)|[Hd|[Hd|[Hd|Hd]]]]; [done|exfalso..].
      * apply Htypes in Hd as [_ [?|?]]; done.
      * by destruct Hd as (? & ? & ? & _ & _ & _ & ?).
      * by destruct Hd as (? & ? & _ & _ & _ & [[_ ?]|[_ ?]]).
      * by destruct Hd as (? & ? & _).
    + intros [? ?]. left. eauto.
  - intros id. rewrite (reported_iff errs (λ t, t = "DUPLICATE_COMPONENT_ID" ∨ t = "DUPLICATE_WIRE_ID") _ _ Hshape) by (cbv beta; auto). rewrite Hin. split.
    + intros [Hd|[Hd|[Hd|[Hd|(? & [= <-] & ? & ?)]]]]; [exfalso..|done].
      * by destruct Hd as (? & ? & _).
      * apply Htypes in Hd as [_ [?|?]]; done.
      * by destruct Hd as (? & ? & ? & _ & _ & _ & ?).
      * by destruct Hd as (? & ? & _ & _ & _ & [[_ ?]|[_ ?]]).
    + intros [? ?]. do 4 right. eauto.
  - intros d Hd Ht. by rewrite (Hshape d Hd Ht).
  - intros HC HW d [Hd|[Hd|[Hd|[Hd|Hd]]]]%Hin.
    + destruct Hd as (id & _ & _ & Hd). by apply Hrep in Hd.
    + apply Htypes in Hd as [_ [Hd|Hd]]; by rewrite Hd.
    + by destruct Hd as (? & ? & ? & _ & _ & _ & ->).
    + by destruct Hd as (? & ? & _ & _ & _ & [[_ ->]|[_ ->]]).
    + destruct Hd as (id & _ & _ & Hd). by apply Hrep in Hd.
Qed.

(** X9: [validateReferences] reports [INVALID_HOLE_REFERENCE] located at
    a component id exactly when a component of that id has a pin placed on
    a hole id that is not a hole of the breadboard. *)
Theorem validateReferences_hole_references
    (net : Network) (circuit : Circuit) (st : State) :
  ∃ errs st', validateReferences net circuit st = (Returned errs, st') ∧
    (∀ id, (∃ d, d ∈ errs ∧ d_type d = "INVALID_HOLE_REFERENCE" ∧ d_location d = id) ↔
       ∃ comp pin holeId, comp ∈ components circuit ∧ comp_id comp = id ∧
         (pin, holeId) ∈ comp_placement comp ∧
         holeMap (this st) !! holeId = None) ∧
    (∀ d, d ∈ errs → d_type d = "INVALID_HOLE_REFERENCE" →
       d_severity d = SevError ∧ d_extra d = NoExtra).
Proof.
  destruct (elem_of_validateReferences net circuit st)
    as (typeErrors & errs & st' & _ & Hres & _ & Htypes & Hin).
  rewrite Forall_forall in Htypes.
  exists errs, st'. split; [done|].
  assert (Hshape : ∀ d, d ∈ errs → d_type d = "INVALID_HOLE_REFERENCE" →
            d = createError (d_type d) (d_location d) NoExtra).
  { intros d [Hd|[Hd|[Hd|[Hd|Hd]]]]%Hin Ht.
    + destruct Hd as (? & -> & _). done.
    + apply Htypes in Hd as [_ [Hd|Hd]]; by rewrite Hd in Ht.
    + by destruct Hd as (? & ? & ? & _ & _ & _ & ->).
    + destruct Hd as (? & ? & _ & _ & _ & [[_ ->]|[_ ->]]); done.
    + destruct Hd as (? & -> & _). done. }
  split.
  - intros id. rewrite (reported_iff errs (λ t, t = "INVALID_HOLE_REFERENCE") _ _ Hshape) by (cbv beta; auto). rewrite Hin. split.
    + intros [Hd|[Hd|[Hd|[Hd|Hd]]]].
      * by destruct Hd as (? & ? & _).
      * apply Htypes in Hd as [_ [?|?]]; done.
      * destruct Hd as (comp & pin & holeId & ? & ? & ? & [= ->]).
        by exists comp, pin, holeId.
      * by destruct Hd as (? & ? & _ & _ & _ & [[_ ?]|[_ ?]]).
      * by destruct Hd as (? & ? & _).
    + intros (comp & pin & holeId & ? & <- & ? & ?). right. right. left.
      by exists comp, pin, holeId.
  - intros d Hd Ht. by rewrite (Hshape d Hd Ht).
Qed.

(** X10: [validateReferences] reports [INVALID_WIRE_COMPONENT] (for a
    reference with a ['.']) or [INVALID_WIRE_HOLE] (for one without)
    located at a wire id exactly when an end of a wire of that id is a
    reference the check does not accept.  It accepts an empty reference, a
    hole of the breadboard, and [id.anything] for the id of a component of
    the circuit: the pin name is not looked at. *)
Theorem validateReferences_wire_endpoints
    (net : Network) (circuit : Circuit) (st : State) :
  ∃ errs st', validateReferences net circuit st = (Returned errs, st') ∧
    (∀ id, (∃ d, d ∈ errs ∧ d_type d = "INVALID_WIRE_COMPONENT" ∧ d_location d = id) ↔
       ∃ wire reference, wire ∈ wires circuit ∧ wire_id wire = id ∧
         (reference = wire_from wire ∨ reference = wire_to wire) ∧
         includes "." reference = true ∧
         ¬ endpoint_resolves (this st) circuit reference) ∧
    (∀ id, (∃ d, d ∈ errs ∧ d_type d = "INVALID_WIRE_HOLE" ∧ d_location d = id) ↔
       ∃ wire reference, wire ∈ wires circuit ∧ wire_id wire = id ∧
         (reference = wire_from wire ∨ reference = wire_to wire) ∧
         includes "." reference = false ∧
         ¬ endpoint_resolves (this st) circuit reference) ∧
    (∀ d, d ∈ errs →
       d_type d = "INVALID_WIRE_COMPONENT" ∨ d_type d = "INVALID_WIRE_HOLE" →
       d_severity d = SevError ∧ d_extra d = NoExtra).
Proof.
  destruct (elem_of_validateReferences net circuit st)
    as (typeErrors & errs & st' & _ & Hres & _ & Htypes & Hin).
  rewrite Forall_forall in Htypes.
  exists errs, st'. split; [done|].
  assert (Hshape : ∀ d, d ∈ errs →
            d_type d = "INVALID_WIRE_COMPONENT" ∨ d_type d = "INVALID_WIRE_HOLE" →
            d = createError (d_type d) (d_location d) NoExtra).
  { intros d [Hd|[Hd|[Hd|[Hd|Hd]]]]%Hin Ht.
    + destruct Hd as (? & -> & _). by destruct Ht.
    + apply Htypes in Hd as [_ [Hd|Hd]]; rewrite Hd in Ht; by destruct Ht.
    + destruct Hd as (? & ? & ? & _ & _ & _ & ->). by destruct Ht.
    + destruct Hd as (? & ? & _ & _ & _ & [[_ ->]|[_ ->]]); done.
    + destruct Hd as (? & -> & _). by destruct Ht. }
  split_and!.
  - intros id. rewrite (reported_iff errs (λ t, t = "INVALID_WIRE_COMPONENT" ∨ t = "INVALID_WIRE_HOLE") _ _ Hshape) by (cbv beta; auto). rewrite Hin. split.
    + intros [Hd|[Hd|[Hd|[Hd|Hd]]]].
      * by destruct Hd as (? & ? & _).
      * apply Htypes in Hd as [_ [?|?]]; done.
      * by destruct Hd as (? & ? & ? & _ & _ & _ & ?).
      * destruct Hd as (wire & reference & ? & ? & ? & [[? [= ->]]|[_ ?]]); [|done].
        by exists wire, reference.
      * by destruct Hd as (? & ? & _).
    + intros (wire & reference & ? & <- & ? & ? & ?). do 3 right. left.
      exists wire, reference. split_and!; try done. by left.
  - intros id. rewrite (reported_iff errs (λ t, t = "INVALID_WIRE_COMPONENT" ∨ t = "INVALID_WIRE_HOLE") _ _ Hshape) by (cbv beta; auto). rewrite Hin. split.
    + intros [Hd|[Hd|[Hd|[Hd|Hd]]]].
      * by destruct Hd as (? & ? & _).
      * apply Htypes in Hd as [_ [?|?]]; done.
      * by destruct Hd as (? & ? & ? & _ & _ & _ & ?).
      * destruct Hd as (wire & reference & ? & ? & ? & [[_ ?]|[? [= ->]]]); [done|].
        by exists wire, reference.
      * by destruct Hd as (? & ? & _).
    + intros (wire & reference & ? & <- & ? & ? & ?). do 3 right. left.
      exists wire, reference. split_and!; try done. by right.
  - intros d Hd Ht. by rewrite (Hshape d Hd Ht).
Qed.

(** ** The registry *)

Lemma extends_refl st : extends st st.
Proof. split; done. Qed.

Lemma extends_trans st1 st2 st3 : extends st1 st2 → extends st2 st3 → extends st1 st3.
Proof. intros [? ?] [? ?]. split; by etrans. Qed.

Lemma loadComponent_cases net componentType st :
  ∃ result st', loadComponent net componentType st = (result, st') ∧
    same_board st st' ∧
    (requests st' = requests st ∨ ∃ url, requests st' = requests st ++ [url]) ∧
    (∀ k, k ≠ componentType →
       loadedComponents (this st') !! k = loadedComponents (this st) !! k) ∧
    ((∃ component, result = Returned component ∧
        loadedComponents (this st') !! componentType = Some component) ∨
     (∃ e, result = Thrown e ∧
        loadedComponents (this st') = loadedComponents (this st))) ∧
    (is_Some (loadedComponents (this st) !! componentType) ∨
     truthy (componentLibrary (this st)) = false → st' = st) ∧
    (loadedComponents (this st) !! componentType = None →
     truthy (componentLibrary (this st)) = false → result = Thrown Error).
Proof.
  assert (Hsame : ∀ url, same_board st (log_request url st)) by done.
  unfold loadComponent.
  destruct (loadedComponents (this st) !! componentType) as [component|] eqn:Hcache.
  { eexists _, _. split; [done|].
    split_and!; [apply same_board_refl | by left | done | left; eauto | done..]. }
  destruct (truthy (componentLibrary (this st))) eqn:Hlib; cbn [negb].
  2:{ eexists _, _. split; [done|].
      split_and!; [apply same_board_refl | by left | done | right; eauto | done..]. }
  destruct (get "index" (componentLibrary (this st)) ≫= read (builtins st) componentType)
    as [componentPath|e|] eqn:Hpath.
  3:{ exfalso. revert Hpath. apply bind_finishes; [apply get_finishes|].
      intros. apply read_finishes. }
  2:{ eexists _, _. split; [done|].
      split_and!; [apply same_board_refl | by left | done | right; eauto
                  | by intros [[? ?]|?] | done]. }
  destruct (member_truthy componentPath); cbn [negb].
  2:{ eexists _, _. split; [done|].
      split_and!; [apply same_board_refl | by left | done | right; eauto
                  | by intros [[? ?]|?] | done]. }
  destruct (member_text componentPath) as [path|e|] eqn:Htext.
  3:{ exfalso. by eapply member_text_finishes. }
  2:{ eexists _, _. split; [done|].
      split_and!; [apply same_board_refl | by left | done | right; eauto
                  | by intros [[? ?]|?] | done]. }
  destruct (net (requests st) _) as [data|].
  2:{ eexists _, _. split; [done|].
      split_and!; [done | right; eauto | done | right; eauto
                  | by intros [[? ?]|?] | done]. }
  destruct (get "component" data) as [component|e|] eqn:Hdata.
  - eexists _, _. split; [done|].
    split_and!; [done | right; eauto | | | by intros [[? ?]|?] | done].
    + intros k Hk. cbn. by rewrite lookup_insert_ne.
    + left. exists component. split; [done|]. cbn. by rewrite lookup_insert_eq.
  - eexists _, _. split; [done|].
    split_and!; [done | right; eauto | done | right; eauto
                | by intros [[? ?]|?] | done].
  - exfalso. by eapply get_finishes.
Qed.

(** X11: [loadComponent] makes at most one request, and none when the
    type is cached or no library is loaded; it leaves the breadboard
    indexes and the library alone and changes the cache at the requested
    type only.  It either returns a definition, which is then the cached
    one, or throws, and then the cache is as before: a failed load is not
    remembered.  Without a library (and without a cached definition) it
    throws. *)
Theorem loadComponent_outcomes
    (net : Network) (componentType : string) (st : State) :
  ∃ result st', loadComponent net componentType st = (result, st') ∧
    same_board st st' ∧
    (requests st' = requests st ∨ ∃ url, requests st' = requests st ++ [url]) ∧
    (∀ k, k ≠ componentType →
       loadedComponents (this st') !! k = loadedComponents (this st) !! k) ∧
    ((∃ component, result = Returned component ∧
        loadedComponents (this st') !! componentType = Some component) ∨
     (∃ e, result = Thrown e ∧
        loadedComponents (this st') = loadedComponents (this st))) ∧
    (is_Some (loadedComponents (this st) !! componentType) ∨
     truthy (componentLibrary (this st)) = false → st' = st) ∧
    (loadedComponents (this st) !! componentType = None →
     truthy (componentLibrary (this st)) = false → result = Thrown Error).
Proof. apply loadComponent_cases. Qed.

Lemma loadComponent_extends net componentType st :
  extends st (loadComponent net componentType st).2.
Proof.
  destruct (loadComponent_cases net componentType st)
    as (result & st' & Hload & _ & Hreq & Hother & Hcache & Hsame & _).
  rewrite Hload. cbn [snd]. split.
  - destruct Hreq as [->|[url ->]]; [done | by apply prefix_app_r].
  - apply map_subseteq_spec. intros k v Hk.
    destruct (decide (k = componentType)) as [->|Hne]; [|by rewrite Hother].
    rewrite Hsame; [done|]. left. by rewrite Hk.
Qed.

(** The decimal spelling of a number is a string of digits. *)
Lemma pretty_N_go_digits (x : N) s :
  digit_string s = true → digit_string (pretty_N_go x s) = true.
Proof.
  revert s. induction (N.lt_wf_0 x) as [x _ IH]; intros s Hs.
  assert (x = 0 ∨ 0 < x)%N as [->|?] by lia.
  - by rewrite pretty_N_go_0.
  - rewrite pretty_N_go_step by done. apply IH.
    { by apply N.div_lt. }
    cbn [digit_string]. rewrite Hs, andb_true_r.
    unfold pretty_N_char. by repeat case_match.
Qed.

Lemma pretty_nat_digits (n : nat) : digit_string (pretty n) = true.
Proof.
  unfold pretty, pretty_nat, pretty, pretty_N.
  case_decide; [done|]. by apply pretty_N_go_digits.
Qed.

Lemma index_of_key_digits k n i :
  index_of_key k n = Some i → digit_string k = true.
Proof.
  unfold index_of_key. intros [_ H]%find_some.
  apply String.eqb_eq in H as <-. apply pretty_nat_digits.
Qed.

Lemma get_nullish k v :
  get k v = if nullish v then Thrown TypeError else Returned (own_prop k v).
Proof. by destruct v. Qed.

Lemma object_keys_nullish v :
  if nullish v then object_keys v = Thrown TypeError
  else ∃ keys, object_keys v = Returned keys.
Proof. destruct v; cbn; eauto. Qed.

(** Only an object has a property [index]. *)
Lemma own_prop_index_truthy v :
  nullish (own_prop "index" v) = false → truthy v = true.
Proof.
  destruct v as [| | | |s|items|fields]; try done.
  unfold own_prop. cbn [String.eqb Ascii.eqb].
  change (String.eqb "index" "length") with false. cbv iota.
  destruct (index_of_key "index" (String.length s)) eqn:E; [|done].
  by apply index_of_key_digits in E.
Qed.

Lemma init_try library :
  try_catch (index ← get "index" library; _ ← object_keys index; mret true)
            (λ _, Returned false)
  = Returned (negb (nullish library) && negb (nullish (own_prop "index" library))).
Proof.
  rewrite get_nullish. destruct (nullish library); [done|]. cbn [negb andb].
  change (Returned ?x ≫= ?f) with (f x). cbv beta.
  pose proof (object_keys_nullish (own_prop "index" library)) as H.
  destruct (nullish (own_prop "index" library)); [by rewrite H|].
  destruct H as [keys ->]. done.
Qed.

Lemma init_cases (net : Network) (st : State) :
  ∃ loaded st', init net st = (Returned loaded, st') ∧
    requests st' = requests st ++ ["components/library.json"] ∧
    holes (this st') = holes (this st) ∧
    busMap (this st') = busMap (this st) ∧
    holeMap (this st') = holeMap (this st) ∧
    loadedComponents (this st') = loadedComponents (this st) ∧
    (loaded = true ↔
     ∃ data, net (requests st) "components/library.json" = Some data ∧
       nullish data = false ∧
       nullish (own_prop "library" data) = false ∧
       nullish (own_prop "index" (own_prop "library" data)) = false) ∧
    (loaded = true →
     truthy (componentLibrary (this st')) = true ∧
     ∃ data, net (requests st) "components/library.json" = Some data ∧
       componentLibrary (this st') = own_prop "library" data) ∧
    (net (requests st) "components/library.json" = None →
     loaded = false ∧ componentLibrary (this st') = componentLibrary (this st)).
Proof.
  unfold init.
  destruct (net (requests st) "components/library.json") as [data|] eqn:Hnet.
  2:{ eexists _, _. split; [done|]. split_and!; try done.
      split; [done|]. by intros (? & ? & _). }
  rewrite get_nullish. destruct (nullish data) eqn:Hdata.
  { eexists _, _. split; [done|]. split_and!; try done.
    split; [done|]. intros (? & [= <-] & ? & _). congruence. }
  rewrite init_try. eexists _, _. split; [done|]. split_and!; try done.
  - rewrite andb_true_iff, !negb_true_iff. split.
    + intros [? ?]. by exists data.
    + by intros (? & [= <-] & _ & ? & ?).
  - intros [_ Hi%negb_true_iff]%andb_true_iff. split; [|by exists data].
    by apply own_prop_index_truthy.
Qed.

(** X12: [init()] always returns, after exactly one request, for
    [components/library.json]; it leaves the breadboard indexes and the
    cache alone.  It returns [true] exactly when the request was answered
    with a document whose [library.index] exists, and then the library it
    stored is truthy; when the request fails the library is as before. *)
Theorem init_outcomes (net : Network) (st : State) :
  ∃ loaded st', init net st = (Returned loaded, st') ∧
    requests st' = requests st ++ ["components/library.json"] ∧
    holes (this st') = holes (this st) ∧
    busMap (this st') = busMap (this st) ∧
    holeMap (this st') = holeMap (this st) ∧
    loadedComponents (this st') = loadedComponents (this st) ∧
    (loaded = true ↔
     ∃ data, net (requests st) "components/library.json" = Some data ∧
       nullish data = false ∧
       nullish (own_prop "library" data) = false ∧
       nullish (own_prop "index" (own_prop "library" data)) = false) ∧
    (loaded = true →
     truthy (componentLibrary (this st')) = true ∧
     ∃ data, net (requests st) "components/library.json" = Some data ∧
       componentLibrary (this st') = own_prop "library" data) ∧
    (net (requests st) "components/library.json" = None →
     loaded = false ∧ componentLibrary (this st') = componentLibrary (this st)).
Proof. apply init_cases. Qed.

(** ** What a validation leaves of the validator *)

Lemma collect_st_state {A} (R : State → State → Prop)
    (f : A → State → outcome (list Diagnostic) * State) arr st :
  (∀ st, R st st) → (∀ st1 st2 st3, R st1 st2 → R st2 st3 → R st1 st3) →
  (∀ x st, R st (f x st).2) →
  R st (collect_st f arr st).2.
Proof.
  intros Hrefl Htrans Hf. revert st.
  induction arr as [|x rest IH]; intros st; cbn [collect_st]; [apply Hrefl|].
  pose proof (Hf x st) as Hx.
  destruct (f x st) as [[here| |] st1]; cbn [snd] in *; [|done..].
  pose proof (IH st1) as Hrest.
  destruct (collect_st f rest st1) as [[later| |] st2]; cbn [snd] in *;
    by eapply Htrans.
Qed.

Lemma loadComponent_grows net componentType st :
  same_board st (loadComponent net componentType st).2 ∧
  extends st (loadComponent net componentType st).2.
Proof. split; [apply loadComponent_spec | apply loadComponent_extends]. Qed.

Lemma checkComponentType_grows net comp st :
  same_board st (checkComponentType net comp st).2 ∧
  extends st (checkComponentType net comp st).2.
Proof.
  unfold checkComponentType.
  destruct (String.eqb (comp_type comp) "");
    [split; [apply same_board_refl | apply extends_refl]|].
  pose proof (loadComponent_grows net (comp_type comp) st) as H.
  by destruct (loadComponent net (comp_type comp) st).
Qed.

Lemma checkComponentRules_grows net circuit comp st :
  same_board st (checkComponentRules net circuit comp st).2 ∧
  extends st (checkComponentRules net circuit comp st).2.
Proof.
  unfold checkComponentRules.
  pose proof (loadComponent_grows net (comp_type comp) st) as H.
  by destruct (loadComponent net (comp_type comp) st).
Qed.

Lemma grows_refl st : same_board st st ∧ extends st st.
Proof. split; [apply same_board_refl | apply extends_refl]. Qed.

Lemma grows_trans st1 st2 st3 :
  same_board st1 st2 ∧ extends st1 st2 → same_board st2 st3 ∧ extends st2 st3 →
  same_board st1 st3 ∧ extends st1 st3.
Proof.
  intros [? ?] [? ?]. split; [by eapply same_board_trans | by eapply extends_trans].
Qed.

Lemma validateReferences_grows net circuit st :
  same_board st (validateReferences net circuit st).2 ∧
  extends st (validateReferences net circuit st).2.
Proof.
  unfold validateReferences.
  destruct (checkUniqueIds "DUPLICATE_COMPONENT_ID" _) as [dupC ids].
  pose proof (collect_st_state (λ st st', same_board st st' ∧ extends st st')
                (checkComponentType net) (components circuit) st
                grows_refl grows_trans (checkComponentType_grows net)) as H.
  destruct (collect_st _ _ st) as [[typeErrors| |] st1]; [|done..].
  by destruct (checkUniqueIds "DUPLICATE_WIRE_ID" _).
Qed.

Lemma validateComponentRules_grows net circuit st :
  same_board st (validateComponentRules net circuit st).2 ∧
  extends st (validateComponentRules net circuit st).2.
Proof.
  apply (collect_st_state (λ st st', same_board st st' ∧ extends st st'));
    [apply grows_refl | apply grows_trans | apply checkComponentRules_grows].
Qed.

Lemma validateLayers_grows net circuitJSON st :
  same_board st (validateLayers net circuitJSON st).2 ∧
  extends st (validateLayers net circuitJSON st).2.
Proof.
  unfold validateLayers, andThen.
  destruct (validateSchema circuitJSON) as [structuralErrors| |];
    [|apply grows_refl..].
  destruct (0 <? length structuralErrors); [apply grows_refl|].
  destruct (circuit_of circuitJSON) as [circuit|]; [|apply grows_refl].
  pose proof (validateReferences_grows net circuit st) as H2.
  destruct (validateReferences net circuit st) as [[referenceErrors| |] st2];
    cbn [snd] in H2; [|done..].
  destruct (validateElectricalRules (this st2) circuit) as [electricalErrors| |];
    [|done..].
  destruct (validateTopology (this st2) circuit) as [topologyErrors| |]; [|done..].
  pose proof (validateComponentRules_grows net circuit st2) as H5.
  destruct (validateComponentRules net circuit st2) as [[componentErrors| |] st5];
    cbn [snd] in *; by eapply grows_trans.
Qed.

(** X13: whatever [validate] does (return or throw), it leaves the
    breadboard and its two indexes as they were, only adds to the request
    log, and only adds to the cache of loaded components; a library that
    was loaded before the call is the library after it. *)
Theorem validate_keeps_the_validator
    (net : Network) (circuitJSON : JSValue) (st : State) :
  let st' := (validate net circuitJSON st).2 in
  holes (this st') = holes (this st) ∧
  busMap (this st') = busMap (this st) ∧
  holeMap (this st') = holeMap (this st) ∧
  requests st `prefix_of` requests st' ∧
  loadedComponents (this st) ⊆ loadedComponents (this st') ∧
  (truthy (componentLibrary (this st)) = true →
   componentLibrary (this st') = componentLibrary (this st)).
Proof.
  cbv zeta. unfold validate.
  destruct (truthy (componentLibrary (this st))) eqn:Hlib; cbn [negb].
  { destruct (validateLayers_grows net circuitJSON st)
      as [(? & ? & ? & ?) [? ?]]. done. }
  destruct (init_cases net st)
    as (loaded & st1 & Hinit & Hreq & Hholes & Hbus & Hhole & Hcache & _).
  rewrite Hinit. unfold andThen.
  assert (Hprefix : requests st `prefix_of` requests st1).
  { rewrite Hreq. by apply prefix_app_r. }
  destruct loaded; cbn [negb].
  - destruct (validateLayers_grows net circuitJSON st1)
      as [(H1 & H2 & H3 & _) [H4 H5]].
    rewrite H1, H2, H3. split_and!; try done.
    + by etrans.
    + by rewrite <- Hcache.
  - cbn [snd]. split_and!; try done. by rewrite Hcache.
Qed.

(** ** Layer 2: component types and pin names *)

Lemma checkComponentType_cases net comp st :
  comp_type comp ≠ "" →
  ∃ errs,
    checkComponentType net comp st
    = (Returned errs, (loadComponent net (comp_type comp) st).2) ∧
    (∀ componentDef,
       (loadComponent net (comp_type comp) st).1 = Returned componentDef →
       nullish componentDef = false →
       (truthy (own_prop "pins" componentDef) = false → errs = []) ∧
       (truthy (own_prop "pins" componentDef) = true →
        ∃ definedPins,
          object_keys (own_prop "pins" componentDef) = Returned definedPins ∧
          errs = flat_map (λ pin,
                     if bool_decide (pin ∈ definedPins) then []
                     else [createError "INVALID_PIN_NAME" (comp_id comp) NoExtra])
                   (comp_placement comp).*1)) ∧
    ((∀ componentDef,
        (loadComponent net (comp_type comp) st).1 = Returned componentDef →
        nullish componentDef = true) →
     errs = [createError "UNKNOWN_COMPONENT_TYPE" (comp_id comp) NoExtra]).
Proof.
  intros Htype%String.eqb_neq. unfold checkComponentType. rewrite Htype.
  pose proof (loadComponent_spec net (comp_type comp) st) as [_ Hfin].
  destruct (loadComponent net (comp_type comp) st) as [loaded st1]. cbn [fst snd] in *.
  destruct loaded as [componentDef|e|]; [| |done].
  2:{ eexists. split; [done|]. split; [done|]. done. }
  cbn [mbind outcome_bind]. rewrite get_nullish.
  destruct (nullish componentDef) eqn:Hnull.
  { eexists. split; [done|]. split; [|done].
    intros ? [= <-] ?. congruence. }
  cbn [mbind outcome_bind].
  destruct (truthy (own_prop "pins" componentDef)) eqn:Hpins.
  - pose proof (object_keys_nullish (own_prop "pins" componentDef)) as Hkeys.
    rewrite (truthy_not_nullish _ Hpins) in Hkeys. destruct Hkeys as [definedPins Hkeys].
    rewrite Hkeys. cbn. eexists. split; [done|]. split.
    + intros ? [= <-] _. rewrite Hpins. split; [done|]. intros _.
      by exists definedPins.
    + intros Hall. specialize (Hall _ eq_refl). congruence.
  - cbn. eexists. split; [done|]. split.
    + intros ? [= <-] _. by rewrite Hpins.
    + intros Hall. specialize (Hall _ eq_refl). congruence.
Qed.

(** X14: the check of one component's type in [validateReferences] (for a
    component with a type) returns, in the state [loadComponent] left.
    When [loadComponent] throws, or yields [null], it returns exactly one
    [UNKNOWN_COMPONENT_TYPE] error located at the component.  When it
    yields a definition, it returns [INVALID_PIN_NAME] errors located at
    the component, one for every placed pin that is not a key of the
    definition's [pins], and nothing at all when the definition has no
    [pins]. *)
Theorem checkComponentType_outcomes
    (net : Network) (comp : ComponentInstance) (st : State) :
  comp_type comp ≠ "" →
  ∃ errs,
    checkComponentType net comp st
    = (Returned errs, (loadComponent net (comp_type comp) st).2) ∧
    (∀ componentDef,
       (loadComponent net (comp_type comp) st).1 = Returned componentDef →
       nullish componentDef = false →
       (truthy (own_prop "pins" componentDef) = false → errs = []) ∧
       (truthy (own_prop "pins" componentDef) = true →
        ∃ definedPins,
          object_keys (own_prop "pins" componentDef) = Returned definedPins ∧
          Forall (λ d, d_type d = "INVALID_PIN_NAME" ∧ d_severity d = SevError ∧
                       d_location d = comp_id comp ∧ d_extra d = NoExtra) errs ∧
          length errs
          = length (filter (λ pin, pin ∉ definedPins) (comp_placement comp).*1))) ∧
    ((∀ componentDef,
        (loadComponent net (comp_type comp) st).1 = Returned componentDef →
        nullish componentDef = true) →
     ∃ d, errs = [d] ∧
       d_type d = "UNKNOWN_COMPONENT_TYPE" ∧ d_severity d = SevError ∧
       d_location d = comp_id comp ∧ d_extra d = NoExtra).
Proof.
  intros Htype.
  destruct (checkComponentType_cases net comp st Htype) as (errs & Hres & Hdef & Hunknown).
  exists errs. split; [exact Hres|]. split.
  - intros componentDef Hload Hnull.
    destruct (Hdef componentDef Hload Hnull) as [Hnone Hpins]. split; [exact Hnone|].
    intros (definedPins & Hkeys & ->)%Hpins. exists definedPins. split; [exact Hkeys|].
    apply unknown_pins_reports.
  - intros ->%Hunknown. eexists. split; [reflexivity|]. done.
Qed.

Lemma checkComponentType_outcomes_witness :
  ∃ errs,
    checkComponentType Sample.network
      (Sample.component "led1" "led" [("anode", "1F"); ("kathode", "1E")]) Sample.ready
    = (Returned errs,
       (loadComponent Sample.network "led" Sample.ready).2) ∧
    length errs = 1.
Proof.
  destruct (checkComponentType_outcomes Sample.network
              (Sample.component "led1" "led" [("anode", "1F"); ("kathode", "1E")])
              Sample.ready) as (errs & Hres & Hdef & _); [done|].
  exists errs. split; [exact Hres|].
  destruct (Hdef Sample.ledDefinition eq_refl eq_refl) as [_ Hpins].
  destruct (Hpins eq_refl) as (definedPins & [= <-] & _ & ->). reflexivity.
Defined.

(** ** Layer 1: what an accepted document is *)

Lemma validateComponentSchema_accepts component index :
  validateComponentSchema component index = Returned [] →
  ∃ c, component_of component = Some c ∧
    comp_id c ≠ "" ∧ comp_type c ≠ "" ∧ comp_placement c ≠ [].
Proof.
  intros [Hpresent Herrs]%validateComponentSchema_Returned. cbv zeta in Herrs.
  symmetry in Herrs. unfold component_of.
  rewrite !get_opt_present by done.
  apply app_eq_nil in Herrs as [Hid Herrs].
  apply app_eq_nil in Herrs as [Htype Herrs].
  apply app_eq_nil in Herrs as [Hplacement _].
  apply if_singleton_nil, not_a_nonempty_string_false in Hid as (id & -> & Hid).
  apply if_singleton_nil, not_a_nonempty_string_false in Htype as (type & -> & Htype).
  destruct (negb (truthy (own_prop "placement" component))
            || negb (typeof_object (own_prop "placement" component))); [done|].
  apply app_eq_nil in Hplacement as [Hempty Hholes].
  apply if_singleton_nil, Nat.eqb_neq in Hempty.
  cbn [string_of option_bind mbind].
  assert (is_Some (mapM (λ '(pin, holeId), h ← string_of holeId; Some (pin, h))
                     (entries (own_prop "placement" component)))) as [placement Hmap].
  { apply mapM_is_Some, Forall_forall. intros [pin holeId] Hin.
    pose proof (flat_map_nil _ _ Hholes _ Hin) as Hhole. cbv beta iota in Hhole.
    apply if_singleton_nil, negb_false_iff in Hhole.
    destruct holeId; try done. by eexists. }
  rewrite Hmap. cbn [option_bind mbind]. eexists. split; [done|]. cbn.
  split_and!; try done.
  apply length_mapM in Hmap. intros ->. cbn in Hmap. lia.
Qed.

Lemma validateWireSchema_accepts wire index :
  validateWireSchema wire index = Returned [] →
  ∃ w, wire_of wire = Some w ∧ wire_id w ≠ "" ∧ wire_from w ≠ "" ∧ wire_to w ≠ "".
Proof.
  intros [Hpresent Herrs]%validateWireSchema_Returned. cbv zeta in Herrs.
  symmetry in Herrs. unfold wire_of.
  rewrite !get_opt_present by done.
  apply app_eq_nil in Herrs as [Hid Herrs].
  apply app_eq_nil in Herrs as [Hfrom Hto].
  apply if_singleton_nil, not_a_nonempty_string_false in Hid as (id & -> & ?).
  apply if_singleton_nil, not_a_nonempty_string_false in Hfrom as (from & -> & ?).
  apply if_singleton_nil, not_a_nonempty_string_false in Hto as (to & -> & ?).
  cbn [string_of option_bind mbind]. eexists. split; [done|]. done.
Qed.

Lemma mapM_collect_accepts {A B} (f : A → nat → outcome (list Diagnostic))
    (g : A → option B) (P : B → Prop) index arr ys :
  (∀ x i, f x i = Returned [] → ∃ y, g x = Some y ∧ P y) →
  collect f index arr = Returned [] → mapM g arr = Some ys → Forall P ys.
Proof.
  intros Hfg Hall Hmap. apply mapM_Some in Hmap.
  apply Forall_forall. intros y [j Hj]%list_elem_of_lookup_1.
  destruct (Forall2_lookup_r _ _ _ _ _ Hmap Hj) as (x & Hx & Hgx).
  destruct (Hfg x (index + j)) as (y' & Hy' & HP); [by eapply collect_nil|].
  congruence.
Qed.

Lemma validateMetadata_accepts metadata :
  validateMetadata metadata = Returned [] →
  ∃ name description,
    own_prop "name" metadata = JStr name ∧ name ≠ "" ∧
    own_prop "description" metadata = JStr description ∧ description ≠ "".
Proof.
  unfold validateMetadata. intros Hall.
  pose proof (collect_nil _ _ _ Hall 0 "name" eq_refl) as Hname.
  pose proof (collect_nil _ _ _ Hall 1 "description" eq_refl) as Hdesc.
  cbv beta in Hname, Hdesc.
  destruct (get "name" metadata) as [name| |] eqn:En; [|done..].
  apply get_Returned in En as [Hpresent ->]. rewrite get_present in Hdesc by done.
  cbn [mbind outcome_bind mret outcome_ret] in Hname, Hdesc.
  injection Hname as Hname. injection Hdesc as Hdesc.
  apply if_singleton_nil, not_a_nonempty_string_false in Hname as (name & -> & ?).
  apply if_singleton_nil, not_a_nonempty_string_false in Hdesc as (description & -> & ?).
  by exists name, description.
Qed.

Lemma validateSchema_accepted circuitJSON :
  validateSchema circuitJSON = Returned [] →
  ∃ name description circuit,
    own_prop "name" (get_opt "metadata" (get_opt "circuit" circuitJSON)) = JStr name ∧
    name ≠ "" ∧
    own_prop "description" (get_opt "metadata" (get_opt "circuit" circuitJSON))
    = JStr description ∧
    description ≠ "" ∧
    circuit_of circuitJSON = Some circuit ∧
    length (components circuit) = length (array_items (components_of circuitJSON)) ∧
    length (wires circuit) = length (array_items (wires_of circuitJSON)) ∧
    Forall (λ c, comp_id c ≠ "" ∧ comp_type c ≠ "" ∧ comp_placement c ≠ [])
      (components circuit) ∧
    Forall (λ w, wire_id w ≠ "" ∧ wire_from w ≠ "" ∧ wire_to w ≠ "") (wires circuit).
Proof.
  intros Hvalid.
  assert (Hcs : isArray (components_of circuitJSON) = true).
  { destruct (isArray (components_of circuitJSON)) eqn:E; [done|].
    by destruct (validateSchema_missing_components _ _ E Hvalid). }
  assert (Hws : isArray (wires_of circuitJSON) = true).
  { destruct (isArray (wires_of circuitJSON)) eqn:E; [done|].
    by destruct (validateSchema_missing_wires _ _ E Hvalid). }
  unfold circuit_of. fold (components_of circuitJSON) (wires_of circuitJSON).
  destruct (components_of circuitJSON) as [| | | | |cs|] eqn:Ecs; try done.
  destruct (wires_of circuitJSON) as [| | | | |ws|] eqn:Ews; try done.
  revert Hvalid. unfold validateSchema.
  destruct (negb (truthy circuitJSON) || negb (typeof_object circuitJSON)) eqn:Hroot;
    [done|].
  apply orb_false_iff in Hroot as [Hroot%negb_false_iff%truthy_not_nullish _].
  unfold components_of, wires_of in Ecs, Ews.
  rewrite (get_opt_present "circuit" circuitJSON) in Ecs, Ews by done.
  rewrite (get_opt_present "circuit" circuitJSON) by done.
  rewrite get_present by done. cbn [mbind outcome_bind].
  destruct (negb (truthy (own_prop "circuit" circuitJSON))) eqn:Hcircuit; [done|].
  apply negb_false_iff, truthy_not_nullish in Hcircuit.
  rewrite get_opt_present in Ecs, Ews by done.
  rewrite (get_opt_present "metadata") by done.
  rewrite !get_present by done. cbn [mbind outcome_bind].
  rewrite Ecs, Ews. cbn [isArray array_items].
  destruct (truthy (own_prop "metadata" (own_prop "circuit" circuitJSON))) eqn:Hmeta.
  2:{ cbn [negb].
      destruct (collect validateComponentSchema 0 cs); [|done..].
      by destruct (collect validateWireSchema 0 ws). }
  destruct (validateMetadata _) as [inMetadata| |] eqn:Hmetadata; [|done..].
  cbn [mbind outcome_bind].
  destruct (collect validateComponentSchema 0 cs) as [inComponents| |] eqn:Hcomps; [|done..].
  cbn [mbind outcome_bind].
  destruct (collect validateWireSchema 0 ws) as [inWires| |] eqn:Hwires; [|done..].
  cbn [mbind outcome_bind mret outcome_ret]. intros [= Herrs].
  repeat match goal with
         | H : _ ++ _ = [] |- _ => apply app_eq_nil in H as [? ?]
         end.
  subst inMetadata inComponents inWires.
  apply validateMetadata_accepts in Hmetadata
    as (name & description & Hname & ? & Hdesc & ?).
  destruct (mapM_collect_nil validateComponentSchema component_of 0 cs)
    as [components Hcomponents];
    [by intros x i ?%validateComponentSchema_nil | done |].
  destruct (mapM_collect_nil validateWireSchema wire_of 0 ws) as [wires Hwiresmap];
    [by intros x i ?%validateWireSchema_nil | done |].
  rewrite Hcomponents, Hwiresmap. cbn [option_bind mbind].
  exists name, description. eexists. split_and!; try done; cbn.
  - symmetry; by apply length_mapM in Hcomponents.
  - symmetry; by apply length_mapM in Hwiresmap.
  - eapply mapM_collect_accepts; [|exact Hcomps|exact Hcomponents].
    intros x i. apply validateComponentSchema_accepts.
  - eapply mapM_collect_accepts; [|exact Hwires|exact Hwiresmap].
    intros x i. apply validateWireSchema_accepts.
Qed.

(** X15: a document layer 1 has nothing to say about has the shape the
    later layers read: a metadata object with a non-empty [name] and
    [description], a [components] and a [wires] array, every component
    with a non-empty string [id] and [type] and a [placement] of at least
    one pin, all on string hole ids, and every wire with a non-empty
    string [id], [from] and [to]. *)
Theorem validateSchema_accepts_well_shaped (circuitJSON : JSValue) :
  validateSchema circuitJSON = Returned [] →
  ∃ name description circuit,
    own_prop "name" (get_opt "metadata" (get_opt "circuit" circuitJSON)) = JStr name ∧
    name ≠ "" ∧
    own_prop "description" (get_opt "metadata" (get_opt "circuit" circuitJSON))
    = JStr description ∧
    description ≠ "" ∧
    circuit_of circuitJSON = Some circuit ∧
    length (components circuit) = length (array_items (components_of circuitJSON)) ∧
    length (wires circuit) = length (array_items (wires_of circuitJSON)) ∧
    Forall (λ c, comp_id c ≠ "" ∧ comp_type c ≠ "" ∧ comp_placement c ≠ [])
      (components circuit) ∧
    Forall (λ w, wire_id w ≠ "" ∧ wire_from w ≠ "" ∧ wire_to w ≠ "") (wires circuit).
Proof. apply validateSchema_accepted. Qed.

Lemma validateSchema_accepts_well_shaped_witness :
  ∃ name description circuit,
    own_prop "name" (get_opt "metadata" (get_opt "circuit" Sample.litLed)) = JStr name ∧
    name ≠ "" ∧
    own_prop "description" (get_opt "metadata" (get_opt "circuit" Sample.litLed))
    = JStr description ∧
    description ≠ "" ∧
    circuit_of Sample.litLed = Some circuit ∧
    length (components circuit) = length (array_items (components_of Sample.litLed)) ∧
    length (wires circuit) = length (array_items (wires_of Sample.litLed)) ∧
    Forall (λ c, comp_id c ≠ "" ∧ comp_type c ≠ "" ∧ comp_placement c ≠ [])
      (components circuit) ∧
    Forall (λ w, wire_id w ≠ "" ∧ wire_from w ≠ "" ∧ wire_to w ≠ "") (wires circuit).
Proof. apply (validateSchema_accepts_well_shaped Sample.litLed). reflexivity. Defined.

(** ** Layer 1: when it throws *)

Lemma collect_elements {A} (f : A → nat → outcome (list Diagnostic))
    (P Q : A → Prop) index arr :
  (∀ x i, (∃ es, f x i = Returned es ∧ P x) ∨ (f x i = Thrown TypeError ∧ Q x)) →
  (Forall P arr ∧ ∃ es, collect f index arr = Returned es) ∨
  (Exists Q arr ∧ collect f index arr = Thrown TypeError).
Proof.
  intros Hf. revert index.
  induction arr as [|x arr IH]; intros index; cbn [collect].
  { left. split; [done | by eexists]. }
  destruct (Hf x index) as [(here & -> & HP)|[-> HQ]]; cbn [mbind outcome_bind].
  2:{ right. split; [by left | done]. }
  destruct (IH (S index)) as [[Hall [later ->]]|[Hex ->]].
  - left. split; [by constructor | by eexists].
  - right. split; [by right | done].
Qed.

Lemma validateComponentSchema_null component index :
  nullish component = true → validateComponentSchema component index = Thrown TypeError.
Proof. by destruct component. Qed.

Lemma validateWireSchema_null wire index :
  nullish wire = true → validateWireSchema wire index = Thrown TypeError.
Proof. by destruct wire. Qed.





Example validateSchema_unprintableId :
  validateSchema Sample.unprintableId = Thrown TypeError.
Proof. vm_compute. reflexivity. Qed.

(** ** What a valid verdict means *)

(** A component whose type check found nothing and whose type is not empty
    has its definition in the cache afterwards. *)
Lemma checkComponentType_nil_cached net comp st st1 :
  comp_type comp ≠ "" →
  checkComponentType net comp st = (Returned [], st1) →
  is_Some (loadedComponents (this st1) !! comp_type comp).
Proof.
  intros Htype Hcheck.
  destruct (checkComponentType_cases net comp st Htype) as (errs & Hres & _ & Hunknown).
  rewrite Hcheck in Hres. injection Hres as <- ->.
  destruct (loadComponent_cases net (comp_type comp) st)
    as (result & st' & Hload & _ & _ & _ & Hcache & _).
  rewrite Hload in *. cbn [fst snd] in *.
  destruct Hcache as [(component & -> & ->)|(e & -> & _)]; [done|].
  by discriminate Hunknown.
Qed.

Lemma collect_st_nil {A} (f : A → State → outcome (list Diagnostic) * State)
    arr st st' (P : A → State → Prop) :
  (∀ x st0 st1, f x st0 = (Returned [], st1) → P x st1) →
  (∀ x y st0, P x st0 → P x (f y st0).2) →
  collect_st f arr st = (Returned [], st') →
  ∀ x, x ∈ arr → P x st'.
Proof.
  intros Hnil Hkeep. revert st.
  induction arr as [|y rest IH]; intros st Hall x Hx; [by apply elem_of_nil in Hx|].
  cbn [collect_st] in Hall.
  destruct (f y st) as [[here| |] st1] eqn:Hy; [|done..].
  destruct (collect_st f rest st1) as [[later| |] st2] eqn:Hrest; [|done..].
  injection Hall as Hall <-. apply app_eq_nil in Hall as [-> ->].
  rewrite elem_of_cons in Hx. destruct Hx as [->|Hx]; [|by eapply IH].
  apply Hnil in Hy. clear -Hy Hkeep Hrest. revert st1 Hy Hrest.
  induction rest as [|z rest IH]; intros st1 Hy Hrest.
  { cbn in Hrest. by injection Hrest as <-. }
  cbn [collect_st] in Hrest.
  pose proof (Hkeep y z st1 Hy) as Hz.
  destruct (f z st1) as [[here| |] st3]; [|done..]. cbn [snd] in Hz.
  destruct (collect_st f rest st3) as [[later| |] st4] eqn:Hrest'; [|done..].
  injection Hrest as Hnil' <-. apply app_eq_nil in Hnil' as [-> ->]. by eapply IH.
Qed.

Lemma validateReferences_nil_cached net circuit st st' :
  validateReferences net circuit st = (Returned [], st') →
  ∀ comp, comp ∈ components circuit → comp_type comp ≠ "" →
    is_Some (loadedComponents (this st') !! comp_type comp).
Proof.
  intros Hres comp Hcomp Htype.
  destruct (validateReferences_parts net circuit st)
    as (typeErrors & st1 & Hcollect & _ & Hparts).
  rewrite Hres in Hparts. injection Hparts as Hnil ->.
  symmetry in Hnil. apply app_eq_nil in Hnil as [_ Hnil].
  apply app_eq_nil in Hnil as [-> _].
  apply (collect_st_nil _ _ _ _
           (λ comp st, comp_type comp ≠ "" →
                       is_Some (loadedComponents (this st) !! comp_type comp))
           ltac:(intros x st0 st2 Hx Hne; by eapply checkComponentType_nil_cached)
           ltac:(intros x y st0 Hx Hne;
                 destruct (checkComponentType_grows net y st0) as [_ [_ Hsub]];
                 destruct (Hx Hne) as [v Hv];
                 exists v; by eapply lookup_weaken)
           Hcollect comp Hcomp Htype).
Qed.

(** With every type of the circuit in the cache, layer 5 makes no request
    and does not look at the network. *)
Lemma checkComponentRules_cached net net' circuit comp st :
  is_Some (loadedComponents (this st) !! comp_type comp) →
  checkComponentRules net circuit comp st = checkComponentRules net' circuit comp st ∧
  (checkComponentRules net circuit comp st).2 = st.
Proof.
  intros [component Hc]. unfold checkComponentRules, loadComponent. by rewrite Hc.
Qed.

Lemma collect_st_cached {A} (f g : A → State → outcome (list Diagnostic) * State)
    arr st :
  (∀ x, x ∈ arr → f x st = g x st ∧ (f x st).2 = st) →
  collect_st f arr st = collect_st g arr st ∧ (collect_st f arr st).2 = st.
Proof.
  induction arr as [|x rest IH]; intros Hall; cbn [collect_st]; [done|].
  destruct (Hall x) as [Hfg Hst]; [left|]. rewrite <- Hfg.
  destruct (f x st) as [[here| |] st1]; cbn [snd] in Hst; subst; [|done..].
  destruct IH as [IH1 IH2]; [intros; apply Hall; by right|].
  rewrite <- IH1. destruct (collect_st f rest st) as [[later| |] st2];
    cbn [snd] in IH2; by subst.
Qed.

Lemma validateComponentRules_cached net net' circuit st :
  (∀ comp, comp ∈ components circuit →
     is_Some (loadedComponents (this st) !! comp_type comp)) →
  validateComponentRules net circuit st = validateComponentRules net' circuit st ∧
  (validateComponentRules net circuit st).2 = st.
Proof.
  intros Hall. apply collect_st_cached. intros comp Hcomp.
  by apply checkComponentRules_cached, Hall.
Qed.

Lemma checkComponentType_cached net net' comp st :
  is_Some (loadedComponents (this st) !! comp_type comp) →
  checkComponentType net comp st = checkComponentType net' comp st ∧
  (checkComponentType net comp st).2 = st.
Proof.
  intros [component Hc]. unfold checkComponentType, loadComponent. rewrite Hc.
  by destruct (String.eqb (comp_type comp) "").
Qed.

Lemma validateReferences_cached net net' circuit st :
  (∀ comp, comp ∈ components circuit →
     is_Some (loadedComponents (this st) !! comp_type comp)) →
  validateReferences net circuit st = validateReferences net' circuit st ∧
  (validateReferences net circuit st).2 = st.
Proof.
  intros Hall. unfold validateReferences.
  destruct (checkUniqueIds "DUPLICATE_COMPONENT_ID" _) as [dupC ids].
  destruct (collect_st_cached (checkComponentType net) (checkComponentType net')
              (components circuit) st) as [H1 H2].
  { intros comp Hcomp. by apply checkComponentType_cached, Hall. }
  rewrite <- H1.
  destruct (collect_st (checkComponentType net) _ st) as [[typeErrors| |] st1];
    cbn [snd] in H2; subst; [|done..].
  by destruct (checkUniqueIds "DUPLICATE_WIRE_ID" _).
Qed.

Lemma validateLayers_cached net net' circuitJSON st :
  (∀ circuit comp, circuit_of circuitJSON = Some circuit →
     comp ∈ components circuit →
     is_Some (loadedComponents (this st) !! comp_type comp)) →
  validateLayers net circuitJSON st = validateLayers net' circuitJSON st ∧
  (validateLayers net circuitJSON st).2 = st.
Proof.
  intros Hall. unfold validateLayers, andThen.
  destruct (validateSchema circuitJSON) as [structuralErrors| |]; [|done..].
  destruct (0 <? length structuralErrors); [done|].
  destruct (circuit_of circuitJSON) as [circuit|]; [|done].
  destruct (validateReferences_cached net net' circuit st) as [H1 H2]; [by eauto|].
  rewrite <- H1.
  destruct (validateReferences net circuit st) as [[referenceErrors| |] st2];
    cbn [snd] in H2; subst; [|done..].
  destruct (validateElectricalRules (this st) circuit) as [electricalErrors| |];
    [|done..].
  destruct (validateTopology (this st) circuit) as [topologyErrors| |]; [|done..].
  destruct (validateComponentRules_cached net net' circuit st) as [H5 H6]; [by eauto|].
  rewrite <- H5.
  destruct (validateComponentRules net circuit st) as [[componentErrors| |] st5];
    cbn [snd] in H6; by subst.
Qed.

(** X17: once the library is loaded and the definition of every component
    type of the document is in the cache, [validate] makes no request: it
    leaves the state as it is, and its outcome does not depend on the
    network. *)
Theorem validate_offline_when_cached
    (net net' : Network) (circuitJSON : JSValue) (st : State) :
  truthy (componentLibrary (this st)) = true →
  (∀ circuit comp, circuit_of circuitJSON = Some circuit →
     comp ∈ components circuit →
     is_Some (loadedComponents (this st) !! comp_type comp)) →
  validate net circuitJSON st = validate net' circuitJSON st ∧
  (validate net circuitJSON st).2 = st.
Proof.
  intros Hlib Hall. unfold validate. rewrite Hlib. cbn [negb].
  by apply validateLayers_cached.
Qed.

Lemma validate_offline_when_cached_witness :
  validate Sample.network Sample.litLed
    (validate Sample.network Sample.litLed Sample.fresh).2
  = validate Sample.offline Sample.litLed
      (validate Sample.network Sample.litLed Sample.fresh).2 ∧
  (validate Sample.network Sample.litLed
     (validate Sample.network Sample.litLed Sample.fresh).2).2
  = (validate Sample.network Sample.litLed Sample.fresh).2.
Proof.
  apply (validate_offline_when_cached Sample.network Sample.offline Sample.litLed).
  - vm_compute. reflexivity.
  - intros circuit comp Hcircuit Hcomp. vm_compute in Hcircuit.
    injection Hcircuit as <-. cbn [components] in Hcomp.
    rewrite !elem_of_cons in Hcomp.
    destruct Hcomp as [->|[->|Hcomp]]; [vm_compute; eauto..|].
    destruct (proj1 (elem_of_nil comp) Hcomp).
Defined.

Lemma validateLayers_valid net circuitJSON st result st' :
  validateLayers net circuitJSON st = (Returned result, st') →
  valid result = true →
  result = {| valid := true; errors := []; warnings := [] |} ∧
  ∃ circuit,
    validateSchema circuitJSON = Returned [] ∧
    circuit_of circuitJSON = Some circuit ∧
    validateReferences net circuit st = (Returned [], st') ∧
    validateElectricalRules (this st') circuit = Returned [] ∧
    validateTopology (this st') circuit = Returned [] ∧
    validateComponentRules net circuit st' = (Returned [], st').
Proof.
  unfold validateLayers, andThen.
  destruct (validateSchema circuitJSON) as [structuralErrors| |] eqn:H1; [|done..].
  destruct (0 <? length structuralErrors) eqn:Hlen.
  { by intros [= <- <-]. }
  assert (structuralErrors = []) as ->.
  { apply Nat.ltb_ge in Hlen. destruct structuralErrors; [done | cbn in Hlen; lia]. }
  destruct (validateSchema_accepted circuitJSON H1)
    as (_ & _ & circuit & _ & _ & _ & _ & Hcircuit & _ & _ & Hcomps & _).
  rewrite Hcircuit.
  destruct (validateReferences net circuit st) as [[referenceErrors| |] st2] eqn:H2;
    [|done..].
  destruct (validateElectricalRules (this st2) circuit) as [electricalErrors| |] eqn:H3;
    [|done..].
  destruct (validateTopology (this st2) circuit) as [topologyErrors| |] eqn:H4; [|done..].
  destruct (validateComponentRules net circuit st2) as [[componentErrors| |] st5] eqn:H5;
    [|done..].
  intros [= <- <-]. cbn [valid errors]. intros Hvalid%Nat.eqb_eq.
  cbn [app] in Hvalid. apply length_zero_iff_nil in Hvalid.
  repeat match goal with
         | H : _ ++ _ = [] |- _ => apply app_eq_nil in H as [? ?]
         end.
  subst.
  assert (st5 = st2) as ->.
  { destruct (validateComponentRules_cached net net circuit st2) as [_ Hst].
    - intros comp Hcomp. eapply validateReferences_nil_cached; [done..|].
      rewrite Forall_forall in Hcomps. by destruct (Hcomps comp Hcomp) as (_ & ? & _).
    - by rewrite H5 in Hst. }
  split; [done|]. exists circuit. done.
Qed.

Lemma validate_valid_layers net circuitJSON st result st' :
  validate net circuitJSON st = (Returned result, st') →
  valid result = true →
  result = {| valid := true; errors := []; warnings := [] |} ∧
  truthy (componentLibrary (this st')) = true ∧
  ∃ circuit st0,
    validateSchema circuitJSON = Returned [] ∧
    circuit_of circuitJSON = Some circuit ∧
    validateReferences net circuit st0 = (Returned [], st') ∧
    validateElectricalRules (this st') circuit = Returned [] ∧
    validateTopology (this st') circuit = Returned [] ∧
    validateComponentRules net circuit st' = (Returned [], st').
Proof.
  unfold validate.
  destruct (truthy (componentLibrary (this st))) eqn:Hlib; cbn [negb].
  - intros Hres Hvalid.
    destruct (validateLayers_grows net circuitJSON st) as [(_ & _ & _ & Hsame) _].
    rewrite Hres in Hsame. cbn [snd] in Hsame.
    destruct (validateLayers_valid _ _ _ _ _ Hres Hvalid) as (-> & circuit & ?).
    split; [done|]. split; [by rewrite Hsame|]. by exists circuit, st.
  - destruct (init_cases net st)
      as (loaded & st1 & Hinit & _ & _ & _ & _ & _ & _ & Htrue & _).
    rewrite Hinit. unfold andThen. destruct loaded; cbn [negb].
    2:{ by intros [= <- <-]. }
    intros Hres Hvalid. destruct (Htrue eq_refl) as [Hlib1 _].
    destruct (validateLayers_grows net circuitJSON st1) as [(_ & _ & _ & Hsame) _].
    rewrite Hres in Hsame. cbn [snd] in Hsame.
    destruct (validateLayers_valid _ _ _ _ _ Hres Hvalid) as (-> & circuit & ?).
    split; [done|]. split; [by rewrite Hsame|]. by exists circuit, st1.
Qed.

Lemma checkComponentType_loaded net comp st componentDef st1 :
  loadComponent net (comp_type comp) st = (Returned componentDef, st1) →
  ∀ net' st2, loadedComponents (this st2) !! comp_type comp = Some componentDef →
    checkComponentType net' comp st2 = ((checkComponentType net comp st).1, st2).
Proof.
  intros Hload net' st2 Hcache. unfold checkComponentType.
  destruct (String.eqb (comp_type comp) ""); [done|].
  rewrite Hload. unfold loadComponent. by rewrite Hcache.
Qed.

Lemma collect_st_all_nil {A} (f : A → State → outcome (list Diagnostic) * State)
    arr st :
  (∀ x, x ∈ arr → f x st = (Returned [], st)) →
  collect_st f arr st = (Returned [], st).
Proof.
  induction arr as [|x rest IH]; intros Hall; cbn [collect_st]; [done|].
  rewrite Hall by left. rewrite IH; [done|]. intros; apply Hall; by right.
Qed.

(** A type check that found nothing finds nothing again, on any later
    state and network: the definition it loaded stays in the cache. *)
Lemma checkComponentType_nil_again net comp st st1 :
  checkComponentType net comp st = (Returned [], st1) →
  ∀ net' st2, loadedComponents (this st1) ⊆ loadedComponents (this st2) →
    checkComponentType net' comp st2 = (Returned [], st2).
Proof.
  intros Hcheck net' st2 Hsub.
  destruct (decide (comp_type comp = "")) as [Htype|Htype].
  { unfold checkComponentType. by rewrite Htype. }
  destruct (checkComponentType_cases net comp st Htype) as (errs & Hres & _ & Hunknown).
  rewrite Hcheck in Hres. injection Hres as <- Hst.
  destruct (loadComponent_cases net (comp_type comp) st)
    as (result & st' & Hload & _ & _ & _ & Hcache & _).
  rewrite Hload in *. cbn [fst snd] in *. subst st'.
  destruct Hcache as [(componentDef & -> & Hc)|(e & -> & _)].
  - erewrite checkComponentType_loaded; [by rewrite Hcheck|done|].
    by eapply lookup_weaken.
  - by discriminate Hunknown.
Qed.

Lemma validateReferences_nil_again net net' circuit st st' :
  validateReferences net circuit st = (Returned [], st') →
  validateReferences net' circuit st' = (Returned [], st').
Proof.
  unfold validateReferences.
  destruct (checkUniqueIds "DUPLICATE_COMPONENT_ID" _) as [dupC ids].
  destruct (collect_st (checkComponentType net) (components circuit) st)
    as [[typeErrors| |] st1] eqn:Hcollect; [|done..].
  destruct (checkUniqueIds "DUPLICATE_WIRE_ID" _) as [dupW ?].
  intros [= Hnil <-].
  assert (typeErrors = []) as ->.
  { apply app_eq_nil in Hnil as [_ Hnil]. by apply app_eq_nil in Hnil as [? _]. }
  assert (Hagain : ∀ comp, comp ∈ components circuit →
            ∀ net' st2, loadedComponents (this st1) ⊆ loadedComponents (this st2) →
              checkComponentType net' comp st2 = (Returned [], st2)).
  { apply (collect_st_nil (checkComponentType net) (components circuit) st st1
             (λ comp st, ∀ net' st2,
                loadedComponents (this st) ⊆ loadedComponents (this st2) →
                checkComponentType net' comp st2 = (Returned [], st2))); [| |done].
    - intros x st0 st2 Hx. cbv beta. by eapply checkComponentType_nil_again.
    - intros x y st0 Hx net2 st2 Hsub. apply Hx.
      destruct (checkComponentType_grows net y st0) as [_ [_ Hsub']]. by etrans. }
  rewrite (collect_st_all_nil (checkComponentType net')); [by rewrite Hnil|].
  intros comp Hcomp. by apply Hagain.
Qed.

(** X18: a validation that ended with [valid] true can be repeated: on
    the state it left, [validate] of the same document returns the same
    result, makes no request and leaves the state as it is, whatever the
    network answers by then. *)
Theorem validate_valid_again
    (net net' : Network) (circuitJSON : JSValue) (st st' : State)
    (result : ValidationResult) :
  validate net circuitJSON st = (Returned result, st') →
  valid result = true →
  validate net' circuitJSON st' = (Returned result, st').
Proof.
  intros Hres Hvalid.
  destruct (validate_valid_layers _ _ _ _ _ Hres Hvalid)
    as (-> & Hlib & circuit & st0 & H1 & Hcircuit & H2 & H3 & H4 & H5).
  destruct (validateSchema_accepted circuitJSON H1)
    as (_ & _ & circuit' & _ & _ & _ & _ & Hcircuit' & _ & _ & Hcomps & _).
  assert (circuit' = circuit) as -> by congruence.
  assert (Hcached : ∀ comp, comp ∈ components circuit →
            is_Some (loadedComponents (this st') !! comp_type comp)).
  { intros comp Hcomp. eapply validateReferences_nil_cached; [done..|].
    rewrite Forall_forall in Hcomps. by destruct (Hcomps comp Hcomp) as (_ & ? & _). }
  pose proof (validateReferences_nil_again net net' circuit st0 st' H2) as H2'.
  destruct (validateComponentRules_cached net' net circuit st' Hcached) as [H5' _].
  unfold validate. rewrite Hlib. cbn [negb].
  unfold validateLayers, andThen. rewrite H1. cbn [length Nat.ltb Nat.leb].
  rewrite Hcircuit, H2', H3, H4, H5', H5. done.
Qed.

Lemma validate_valid_again_witness :
  validate Sample.offline Sample.litLed
    (validate Sample.network Sample.litLed Sample.fresh).2
  = (Returned {| valid := true; errors := []; warnings := [] |},
     (validate Sample.network Sample.litLed Sample.fresh).2).
Proof.
  apply (validate_valid_again Sample.network Sample.offline Sample.litLed Sample.fresh).
  - vm_compute. reflexivity.
  - reflexivity.
Defined.

(** ** Layer 3: bus conflicts, whatever the buses are called *)

Lemma pins_on_nonempty bus pbs :
  pins_on bus pbs ≠ [] → ∃ pb, pb ∈ pbs ∧ pb_bus pb = bus.
Proof.
  unfold pins_on. destruct (filter _ pbs) as [|pb l] eqn:E; [done|]. intros _.
  assert (Hin : pb ∈ filter (λ pb, pb_bus pb = bus) pbs) by (rewrite E; left).
  apply list_elem_of_filter in Hin as [? ?]. eauto.
Qed.

Lemma groupPins_returned pbs busCounts processed grouped :
  NoDup busCounts.*1 →
  (∀ pb, pb ∈ processed → inherited_key (pb_bus pb) = false) →
  (∀ bus, Dict.get bus busCounts =
          match pins_on bus processed with [] => None | pins => Some pins end) →
  groupPins busCounts pbs = Returned grouped →
  NoDup grouped.*1 ∧
  (∀ pb, pb ∈ pbs → inherited_key (pb_bus pb) = false) ∧
  ∀ bus, Dict.get bus grouped =
         match pins_on bus (processed ++ pbs) with [] => None | pins => Some pins end.
Proof.
  revert busCounts processed.
  induction pbs as [|pb pbs IH]; intros busCounts processed Hnodup Hplain Hget.
  - intros [= <-]. rewrite app_nil_r. split; [done|]. split; [|done].
    by intros pb ?%elem_of_nil.
  - assert (Hstep : ∀ pins' : list string,
      pins' = pins_on (pb_bus pb) processed ++ [pb_pin pb] →
      ∀ bus, Dict.get bus (Dict.set (pb_bus pb) pins' busCounts) =
        match pins_on bus (processed ++ [pb]) with [] => None | pins => Some pins end).
    { intros pins' -> bus. rewrite Dict_get_set, pins_on_app, Hget, pins_on_singleton.
      destruct (String.eqb (pb_bus pb) bus) eqn:E.
      - apply String.eqb_eq in E. subst bus.
        by destruct (pins_on (pb_bus pb) processed).
      - by rewrite app_nil_r. }
    assert (Hkey : groupPins busCounts (pb :: pbs) = Returned grouped →
                   inherited_key (pb_bus pb) = false).
    { cbn [groupPins]. unfold groupPin. rewrite (Hget (pb_bus pb)).
      destruct (pins_on (pb_bus pb) processed) as [|pin pins] eqn:Hpins.
      - by destruct (inherited_key (pb_bus pb)).
      - intros _. destruct (pins_on_nonempty (pb_bus pb) processed) as (pb' & Hin & Heq);
          [by rewrite Hpins|]. rewrite <- Heq. by apply Hplain. }
    intros Hres. pose proof (Hkey Hres) as Hpb. clear Hkey. revert Hres.
    cbn [groupPins]. unfold groupPin.
    rewrite (Hget (pb_bus pb)).
    replace (processed ++ pb :: pbs) with ((processed ++ [pb]) ++ pbs)
      by (by rewrite <- app_assoc).
    assert (Hplain' : ∀ pb', pb' ∈ processed ++ [pb] → inherited_key (pb_bus pb') = false).
    { intros pb' [?| ->%list_elem_of_singleton]%elem_of_app; auto. }
    destruct (pins_on (pb_bus pb) processed) as [|pin pins] eqn:Hpins.
    + rewrite Hpb. cbn [mbind outcome_bind]. intros Hres.
      eapply IH in Hres as (? & Hrest & ?); [|by apply Dict_set_NoDup|done|].
      * split; [done|]. split; [|done].
        intros pb' [->|?]%elem_of_cons; auto.
      * apply Hstep. by rewrite ?Hpins.
    + cbn [mbind outcome_bind]. intros Hres.
      eapply IH in Hres as (? & Hrest & Hall); [|by apply Dict_set_NoDup|done|].
      * split; [done|]. split; [|done].
        intros pb' [->|?]%elem_of_cons; auto.
      * apply Hstep. by rewrite ?Hpins.
Qed.

Lemma groupPins_finishes pbs busCounts : groupPins busCounts pbs ≠ OutOfFuel.
Proof.
  revert busCounts. induction pbs as [|pb pbs IH]; intros busCounts; [done|].
  cbn [groupPins]. apply bind_finishes; [|done].
  unfold groupPin. destruct (Dict.get _ _); [done|]. by destruct (inherited_key _).
Qed.

Lemma groupPins_throws_TypeError pbs busCounts e :
  groupPins busCounts pbs = Thrown e → e = TypeError.
Proof.
  revert busCounts. induction pbs as [|pb pbs IH]; intros busCounts; [done|].
  cbn [groupPins]. unfold groupPin.
  destruct (Dict.get _ _); cbn [mbind outcome_bind]; [apply IH|].
  destruct (inherited_key _); cbn [mbind outcome_bind]; [by intros [= <-] | apply IH].
Qed.

Lemma checkBusConflicts_returned this component errs :
  checkBusConflicts this component = Returned errs →
  (∀ pb, pb ∈ pinBuses this component → inherited_key (pb_bus pb) = false) ∧
  ∀ d, d ∈ errs ↔
    ∃ bus, 1 < length (pins_on bus (pinBuses this component)) ∧
      d = createError "SHORT_CIRCUIT" (comp_id component)
            (ShortCircuitExtra bus (pins_on bus (pinBuses this component))
               (pb_hole <$> filter (λ pb, pb_bus pb = bus) (pinBuses this component))).
Proof.
  unfold checkBusConflicts.
  destruct (groupPins [] (pinBuses this component)) as [grouped| |] eqn:Hgroup; [|done..].
  apply (groupPins_returned _ [] []) in Hgroup as (Hnodup & Hplain & Hget);
    [|apply NoDup_nil_2|by intros ? ?%elem_of_nil|done].
  cbn [mbind outcome_bind mret outcome_ret]. intros [= <-]. split; [done|].
  intros d. rewrite elem_of_flat_map. rewrite app_nil_l in Hget. split.
  - intros ([bus pins] & Hin & Hd).
    apply elem_of_assoc in Hin; [|done]. fold (Dict.get bus grouped) in Hin.
    rewrite Hget in Hin.
    destruct (pins_on bus (pinBuses this component)) as [|pin pins'] eqn:Hpins; [done|].
    injection Hin as <-.
    destruct (1 <? length (pin :: pins')) eqn:Hlen; [|by apply elem_of_nil in Hd].
    apply list_elem_of_singleton in Hd. apply Nat.ltb_lt in Hlen.
    exists bus. by rewrite Hpins.
  - intros (bus & Hlen & ->).
    exists (bus, pins_on bus (pinBuses this component)). split.
    + apply assoc_elem_of. fold (Dict.get bus grouped). rewrite Hget.
      by destruct (pins_on bus (pinBuses this component)); [simpl in Hlen; lia|].
    + apply Nat.ltb_lt in Hlen. rewrite Hlen. by apply list_elem_of_singleton.
Qed.

(** X19: [checkBusConflicts] returns exactly when no placed pin of the
    component sits on a bus named like a member of [Object.prototype]
    (['constructor'], ['toString'], ...); otherwise it throws a TypeError:
    the grouping object [busCounts] answers the inherited member for such
    a name, no list is created, and the [push] fails. *)
Theorem checkBusConflicts_throws_on_inherited_names
    (this : CircuitValidator) (component : ComponentInstance) :
  ((∃ errs, checkBusConflicts this component = Returned errs) ∨
   checkBusConflicts this component = Thrown TypeError) ∧
  (checkBusConflicts this component = Thrown TypeError ↔
   ∃ pinName holeId bus,
     (pinName, holeId) ∈ comp_placement component ∧
     busMap this !! holeId = Some bus ∧ inherited_key bus = true).
Proof.
  assert (Hcases : (∃ errs, checkBusConflicts this component = Returned errs ∧
                      ∀ pb, pb ∈ pinBuses this component →
                            inherited_key (pb_bus pb) = false) ∨
                   (checkBusConflicts this component = Thrown TypeError ∧
                    ∃ pb, pb ∈ pinBuses this component ∧
                          inherited_key (pb_bus pb) = true)).
  { destruct (checkBusConflicts this component) as [errs|e|] eqn:Hres.
    - left. exists errs. split; [done|]. by apply checkBusConflicts_returned in Hres as [? _].
    - right. unfold checkBusConflicts in Hres.
      destruct (groupPins [] (pinBuses this component)) as [grouped|e'|] eqn:Hgroup;
        [done| |done].
      injection Hres as <-. split; [by apply groupPins_throws_TypeError in Hgroup as ->|].
      destruct (decide (Forall (λ pb, inherited_key (pb_bus pb) = false)
                               (pinBuses this component))) as [Hall|Hex].
      + rewrite Forall_forall in Hall.
        destruct (groupPins_spec (pinBuses this component) [] [] Hall)
          as (grouped & Hret & _); [apply NoDup_nil_2|done|congruence].
      + apply not_Forall_Exists in Hex; [|apply _].
        apply Exists_exists in Hex as (pb & Hpb & Hkey). exists pb. split; [done|].
        unfold compose in Hkey. destruct (inherited_key (pb_bus pb)); congruence.
    - exfalso. unfold checkBusConflicts in Hres.
      destruct (groupPins [] (pinBuses this component)) eqn:Hgroup; [done..|].
      by eapply groupPins_finishes. }
  split.
  - destruct Hcases as [(errs & ? & _)|[? _]]; [left; eauto | by right].
  - destruct Hcases as [(errs & Hres & Hplain)|[Hres (pb & Hpb & Hkey)]].
    + rewrite Hres. split; [done|]. intros (pinName & holeId & bus & Hin & Hbus & Hkey).
      exfalso. assert (bus ≠ "") as Hne by (by intros ->).
      assert (Hpb : {| pb_pin := pinName; pb_hole := holeId; pb_bus := bus |}
                    ∈ pinBuses this component).
      { unfold pinBuses. apply list_elem_of_omap. exists (pinName, holeId).
        split; [done|]. rewrite Hbus. apply bus_truthy_Some in Hne. by rewrite Hne. }
      apply Hplain in Hpb. cbn in Hpb. congruence.
    + split; [intros _|done].
      apply elem_of_pinBuses in Hpb as (Hin & Hbus & _).
      by exists (pb_pin pb), (pb_hole pb), (pb_bus pb).
Qed.

(** ** What a valid verdict guarantees *)

Lemma not_repeated_NoDup (ids : list string) : (∀ id, ¬ repeated id ids) → NoDup ids.
Proof.
  intros Hrep. apply NoDup_alt. intros i j id Hi Hj.
  destruct (Nat.lt_trichotomy i j) as [Hlt|[->|Hlt]]; [|done|].
  - destruct (Hrep id). by exists i, j.
  - destruct (Hrep id). by exists j, i.
Qed.

Lemma validateReferences_nil_types net circuit st st' :
  validateReferences net circuit st = (Returned [], st') →
  ∀ comp, comp ∈ components circuit →
    ∀ net' st2, loadedComponents (this st') ⊆ loadedComponents (this st2) →
      checkComponentType net' comp st2 = (Returned [], st2).
Proof.
  unfold validateReferences.
  destruct (checkUniqueIds "DUPLICATE_COMPONENT_ID" _) as [dupC ids].
  destruct (collect_st (checkComponentType net) (components circuit) st)
    as [[typeErrors| |] st1] eqn:Hcollect; [|done..].
  destruct (checkUniqueIds "DUPLICATE_WIRE_ID" _) as [dupW ?].
  intros [= Hnil <-].
  assert (typeErrors = []) as ->.
  { apply app_eq_nil in Hnil as [_ Hnil]. by apply app_eq_nil in Hnil as [? _]. }
  apply (collect_st_nil (checkComponentType net) (components circuit) st st1
           (λ comp st, ∀ net' st2,
              loadedComponents (this st) ⊆ loadedComponents (this st2) →
              checkComponentType net' comp st2 = (Returned [], st2))); [| |done].
  - intros x st0 st2 Hx. cbv beta. by eapply checkComponentType_nil_again.
  - intros x y st0 Hx net2 st2 Hsub. apply Hx.
    destruct (checkComponentType_grows net y st0) as [_ [_ Hsub']]. by etrans.
Qed.

Lemma endpoint_resolves_same_board this this' circuit reference :
  holeMap this' = holeMap this →
  endpoint_resolves this circuit reference → endpoint_resolves this' circuit reference.
Proof. unfold endpoint_resolves. by intros ->. Qed.

Lemma validate_valid_references_aux net circuitJSON st result st' :
  validate net circuitJSON st = (Returned result, st') →
  valid result = true →
  ∃ circuit, circuit_of circuitJSON = Some circuit ∧
    NoDup (comp_id <$> components circuit) ∧
    NoDup (wire_id <$> wires circuit) ∧
    (∀ comp pinName holeId, comp ∈ components circuit →
       (pinName, holeId) ∈ comp_placement comp →
       is_Some (holeMap (this st') !! holeId)) ∧
    (∀ wire, wire ∈ wires circuit →
       endpoint_resolves (this st') circuit (wire_from wire) ∧
       endpoint_resolves (this st') circuit (wire_to wire)) ∧
    (∀ comp, comp ∈ components circuit →
       ∃ componentDef,
         loadedComponents (this st') !! comp_type comp = Some componentDef ∧
         nullish componentDef = false ∧
         (truthy (own_prop "pins" componentDef) = true →
          ∃ definedPins,
            object_keys (own_prop "pins" componentDef) = Returned definedPins ∧
            ∀ pinName, pinName ∈ (comp_placement comp).*1 → pinName ∈ definedPins)).
Proof.
  intros Hres Hvalid.
  destruct (validate_valid_layers _ _ _ _ _ Hres Hvalid)
    as (_ & _ & circuit & st0 & H1 & Hcircuit & H2 & _).
  destruct (validateSchema_accepted circuitJSON H1)
    as (_ & _ & circuit' & _ & _ & _ & _ & Hcircuit' & _ & _ & Hcomps & Hwires).
  assert (circuit' = circuit) as -> by congruence.
  rewrite Forall_forall in Hcomps. rewrite Forall_forall in Hwires.
  exists circuit. split; [done|].
  destruct (elem_of_validateReferences net circuit st0)
    as (typeErrors & errs & st1 & _ & Hres2 & Hboard & _ & Hin).
  rewrite H2 in Hres2. injection Hres2 as <- <-.
  destruct Hboard as (_ & _ & Hhole & _).
  assert (Hnone : ∀ d, ¬ d ∈ @nil Diagnostic) by (intros d Hd; by apply elem_of_nil in Hd).
  split_and!.
  - apply not_repeated_NoDup. intros id Hrep.
    apply (Hnone (createError "DUPLICATE_COMPONENT_ID" id NoExtra)), Hin. left.
    exists id. split; [done|]. split; [|done].
    destruct Hrep as (i & _ & _ & Hi & _).
    apply list_lookup_fmap_Some in Hi as (comp & -> & Hcomp%list_elem_of_lookup_2).
    by destruct (Hcomps comp Hcomp).
  - apply not_repeated_NoDup. intros id Hrep.
    apply (Hnone (createError "DUPLICATE_WIRE_ID" id NoExtra)), Hin. do 4 right.
    exists id. split; [done|]. split; [|done].
    destruct Hrep as (i & _ & _ & Hi & _).
    apply list_lookup_fmap_Some in Hi as (wire & -> & Hwire%list_elem_of_lookup_2).
    by destruct (Hwires wire Hwire).
  - intros comp pinName holeId Hcomp Hpin. rewrite Hhole.
    destruct (holeMap (this st0) !! holeId) eqn:E; [done|]. exfalso.
    apply (Hnone (createError "INVALID_HOLE_REFERENCE" (comp_id comp) NoExtra)), Hin.
    right. right. left. by exists comp, pinName, holeId.
  - assert (Hend : ∀ wire reference, wire ∈ wires circuit →
              reference = wire_from wire ∨ reference = wire_to wire →
              endpoint_resolves (this st') circuit reference).
    { intros wire reference Hwire Href.
      apply (endpoint_resolves_same_board (this st0)); [done|].
      destruct (checkUniqueIds_spec "DUPLICATE_COMPONENT_ID"
                  (comp_id <$> components circuit)) as [Hids _].
      destruct (validateWireEndpoint_spec (this st0) circuit wire reference _ Hids)
        as [[? _]|[Hnot Hd]]; [done|]. exfalso.
      destruct Hd as [[Hdot _]|[Hdot _]].
      - apply (Hnone (createError "INVALID_WIRE_COMPONENT" (wire_id wire) NoExtra)), Hin.
        do 3 right. left. exists wire, reference. split_and!; try done. by left.
      - apply (Hnone (createError "INVALID_WIRE_HOLE" (wire_id wire) NoExtra)), Hin.
        do 3 right. left. exists wire, reference. split_and!; try done. by right. }
    intros wire Hwire. split; eapply Hend; eauto.
  - intros comp Hcomp.
    assert (Htype : comp_type comp ≠ "") by (by destruct (Hcomps comp Hcomp) as (_ & ? & _)).
    pose proof (validateReferences_nil_types _ _ _ _ H2 comp Hcomp net st'
                  ltac:(done)) as Hcheck.
    destruct (validateReferences_nil_cached _ _ _ _ H2 comp Hcomp Htype)
      as [componentDef Hcache].
    exists componentDef. split; [done|].
    destruct (checkComponentType_cases net comp st' Htype)
      as (errs & Herrs & Hdef & Hunknown).
    rewrite Hcheck in Herrs. injection Herrs as <- _.
    assert (Hload : loadComponent net (comp_type comp) st' = (Returned componentDef, st')).
    { unfold loadComponent. by rewrite Hcache. }
    rewrite Hload in Hdef, Hunknown. cbn [fst] in Hdef, Hunknown.
    destruct (nullish componentDef) eqn:Hnull.
    { exfalso. assert ([] = [createError "UNKNOWN_COMPONENT_TYPE" (comp_id comp) NoExtra])
        as Hbad; [|done]. apply Hunknown. intros ? [= <-]. done. }
    split; [done|]. intros Hpins.
    destruct (Hdef componentDef eq_refl Hnull) as [_ Hkeys].
    destruct (Hkeys Hpins) as (definedPins & Hobj & Hflat).
    exists definedPins. split; [done|]. intros pinName Hpin.
    symmetry in Hflat. pose proof (flat_map_nil _ _ Hflat pinName Hpin) as Hone.
    cbv beta in Hone. by case_bool_decide.
Qed.

(** X20: when [validate] returns [valid] true, the references of the
    document are sound: no two components and no two wires share an id,
    every pin is placed on a hole of the breadboard, both ends of every
    wire resolve (to a hole, or to a component of the circuit), and the
    definition of every component's type is loaded, not [null], and lists
    every placed pin (when it lists pins at all). *)
Theorem validate_valid_references
    (net : Network) (circuitJSON : JSValue) (st st' : State)
    (result : ValidationResult) :
  validate net circuitJSON st = (Returned result, st') →
  valid result = true →
  ∃ circuit, circuit_of circuitJSON = Some circuit ∧
    NoDup (comp_id <$> components circuit) ∧
    NoDup (wire_id <$> wires circuit) ∧
    (∀ comp pinName holeId, comp ∈ components circuit →
       (pinName, holeId) ∈ comp_placement comp →
       is_Some (holeMap (this st') !! holeId)) ∧
    (∀ wire, wire ∈ wires circuit →
       endpoint_resolves (this st') circuit (wire_from wire) ∧
       endpoint_resolves (this st') circuit (wire_to wire)) ∧
    (∀ comp, comp ∈ components circuit →
       ∃ componentDef,
         loadedComponents (this st') !! comp_type comp = Some componentDef ∧
         nullish componentDef = false ∧
         (truthy (own_prop "pins" componentDef) = true →
          ∃ definedPins,
            object_keys (own_prop "pins" componentDef) = Returned definedPins ∧
            ∀ pinName, pinName ∈ (comp_placement comp).*1 → pinName ∈ definedPins)).
Proof. apply validate_valid_references_aux. Qed.

Lemma validate_valid_references_witness :
  ∃ circuit, circuit_of Sample.litLed = Some circuit ∧
    NoDup (comp_id <$> components circuit) ∧
    NoDup (wire_id <$> wires circuit).
Proof.
  destruct (validate_valid_references Sample.network Sample.litLed Sample.fresh
              (validate Sample.network Sample.litLed Sample.fresh).2
              {| valid := true; errors := []; warnings := [] |})
    as (circuit & Hcircuit & Hcomps & Hwires & _).
  - vm_compute. reflexivity.
  - reflexivity.
  - exists circuit. split; [exact Hcircuit|]. split; [exact Hcomps | exact Hwires].
Defined.

Lemma validateElectricalRules_nil this circuit :
  validateElectricalRules this circuit = Returned [] →
  (∀ comp, comp ∈ components circuit → checkBusConflicts this comp = Returned []) ∧
  checkPowerGroundShorts this circuit = [].
Proof.
  unfold validateElectricalRules.
  destruct (collect _ 0 (components circuit)) as [busConflicts| |] eqn:Hcollect; [|done..].
  cbn [mbind outcome_bind mret outcome_ret]. intros [= Hnil].
  apply app_eq_nil in Hnil as [-> Hshorts]. split; [|done].
  intros comp [i Hi]%list_elem_of_lookup_1.
  by apply (collect_nil _ _ _ Hcollect i comp Hi).
Qed.

Lemma validate_valid_electrical_aux net circuitJSON st result st' :
  validate net circuitJSON st = (Returned result, st') →
  valid result = true →
  ∃ circuit, circuit_of circuitJSON = Some circuit ∧
    (∀ comp i j pin1 hole1 pin2 hole2 bus,
       comp ∈ components circuit → i ≠ j →
       comp_placement comp !! i = Some (pin1, hole1) →
       comp_placement comp !! j = Some (pin2, hole2) →
       busMap (this st') !! hole1 = Some bus →
       busMap (this st') !! hole2 = Some bus →
       bus = "") ∧
    (∀ wire, wire ∈ wires circuit → ¬ power_to_ground (this st') wire).
Proof.
  intros Hres Hvalid.
  destruct (validate_valid_layers _ _ _ _ _ Hres Hvalid)
    as (_ & _ & circuit & st0 & _ & Hcircuit & _ & H3 & _).
  exists circuit. split; [done|].
  apply validateElectricalRules_nil in H3 as [Hbus Hshorts]. split.
  - intros comp i j pin1 hole1 pin2 hole2 bus Hcomp Hij Hi Hj H1 H2.
    destruct (decide (bus = "")) as [|Hne]; [done|]. exfalso.
    pose proof (Hbus comp Hcomp) as Hc.
    apply checkBusConflicts_returned in Hc as [_ Hnone].
    assert (Hlen : 2 ≤ length (pins_on bus (pinBuses (this st') comp))).
    { destruct (Nat.lt_trichotomy i j) as [Hlt|[->|Hlt]]; [|done|].
      - by destruct (pins_on_two (this st') comp i j pin1 hole1 pin2 hole2 bus).
      - by destruct (pins_on_two (this st') comp j i pin2 hole2 pin1 hole1 bus). }
    eapply elem_of_nil, Hnone. exists bus. split; [lia | done].
  - intros wire [netId Hwire]%list_elem_of_lookup_1 Hshort.
    eapply elem_of_nil. rewrite <- Hshorts.
    apply elem_of_checkPowerGroundShorts. by exists netId, wire.
Qed.

(** X21: when [validate] returns [valid] true, no component of the
    document has two placed pins on the same bus, and no wire of the
    document joins a hole of type ['power'] to a hole of type
    ['ground']. *)
Theorem validate_valid_electrical
    (net : Network) (circuitJSON : JSValue) (st st' : State)
    (result : ValidationResult) :
  validate net circuitJSON st = (Returned result, st') →
  valid result = true →
  ∃ circuit, circuit_of circuitJSON = Some circuit ∧
    (∀ comp i j pin1 hole1 pin2 hole2 bus,
       comp ∈ components circuit → i ≠ j →
       comp_placement comp !! i = Some (pin1, hole1) →
       comp_placement comp !! j = Some (pin2, hole2) →
       busMap (this st') !! hole1 = Some bus →
       busMap (this st') !! hole2 = Some bus →
       bus = "") ∧
    (∀ wire, wire ∈ wires circuit → ¬ power_to_ground (this st') wire).
Proof. apply validate_valid_electrical_aux. Qed.

Lemma validate_valid_electrical_witness :
  ∃ circuit, circuit_of Sample.litLed = Some circuit ∧
    ∀ wire, wire ∈ wires circuit →
      ¬ power_to_ground (this (validate Sample.network Sample.litLed Sample.fresh).2) wire.
Proof.
  destruct (validate_valid_electrical Sample.network Sample.litLed Sample.fresh
              (validate Sample.network Sample.litLed Sample.fresh).2
              {| valid := true; errors := []; warnings := [] |})
    as (circuit & Hcircuit & _ & Hwires).
  - vm_compute. reflexivity.
  - reflexivity.
  - exists circuit. split; [exact Hcircuit | exact Hwires].
Defined.

Lemma validate_valid_topology_aux net circuitJSON st result st' :
  validate net circuitJSON st = (Returned result, st') →
  valid result = true →
  ∃ circuit, circuit_of circuitJSON = Some circuit ∧
    components circuit ≠ [] ∧ wires circuit ≠ [] ∧
    connected (buildBusConnectivityGraph (this st') circuit) ∧
    ∀ led, List.find is_led (components circuit) = Some led →
      (∃ start bus, placedPinBus (this st') led "cathode" = Some start ∧ start ≠ "" ∧
         reachable (buildBusConnectivityGraph (this st') circuit)
           (Some start) (Some bus) ∧
         grounded (this st') circuit bus) ∧
      (∃ start bus, placedPinBus (this st') led "anode" = Some start ∧ start ≠ "" ∧
         reachable (buildBusConnectivityGraph (this st') circuit)
           (Some start) (Some bus) ∧
         powered (this st') circuit bus) ∧
      (∀ resistor, List.find is_resistor (components circuit) = Some resistor →
         series_connected (this st') circuit led resistor).
Proof.
  intros Hres Hvalid.
  destruct (validate_valid_layers _ _ _ _ _ Hres Hvalid)
    as (_ & _ & circuit & st0 & _ & Hcircuit & _ & _ & H4 & _).
  exists circuit. split; [done|].
  destruct (validateTopology_spec (this st') circuit)
    as (errs & Herrs & Hempty & Hnowires & Hfull).
  rewrite H4 in Herrs. injection Herrs as <-.
  assert (Hcs : components circuit ≠ []).
  { intros Hnil. by specialize (Hempty Hnil). }
  assert (Hws : wires circuit ≠ []).
  { intros Hnil. by specialize (Hnowires Hcs Hnil). }
  destruct (Hfull Hcs Hws) as (seriesErrors & pathErrors & isolationErrors &
                               Hseries & Hpaths & Hisolated & Hnil).
  symmetry in Hnil. apply app_eq_nil in Hnil as [-> Hnil].
  apply app_eq_nil in Hnil as [-> ->].
  split; [done|]. split; [done|]. split.
  { destruct (checkIsolatedComponents_connected (this st') circuit)
      as (errs & Herrs & Hconn & _).
    rewrite Hisolated in Herrs. injection Herrs as <-. by apply Hconn. }
  intros led Hled. split_and!.
  - revert Hpaths. unfold checkCompletePaths. rewrite Hled.
    destruct (pathToGround_spec (this st') (placedPinBus (this st') led "cathode")
                (buildBusConnectivityGraph (this st') circuit) circuit)
      as (toGround & -> & Hground).
    cbn [mbind outcome_bind].
    destruct (pathToPowerSource _ _ _ _) as [source| |]; [|done..].
    cbn [mbind outcome_bind mret outcome_ret]. intros [= Hnil].
    apply app_eq_nil in Hnil as [Hnil _].
    destruct toGround; [|done]. by apply Hground.
  - revert Hpaths. unfold checkCompletePaths. rewrite Hled.
    destruct (pathToGround _ _ _ _) as [toGround| |]; [|done..].
    cbn [mbind outcome_bind].
    destruct (pathToPowerSource_spec (this st') (placedPinBus (this st') led "anode")
                (buildBusConnectivityGraph (this st') circuit) circuit)
      as (source & -> & Hsource & _).
    cbn [mbind outcome_bind mret outcome_ret]. intros [= Hnil].
    apply app_eq_nil in Hnil as [_ Hnil].
    destruct (found source); [|done]. by apply Hsource.
  - intros resistor Hresistor.
    destruct (checkSeriesConnections_spec (this st') circuit led resistor Hled Hresistor)
      as [[? _]|[_ Hopen]]; [done|]. congruence.
Qed.

(** X22: when [validate] returns [valid] true, the document has a
    component and a wire and its circuit is in one piece (any two buses
    that are joined to another bus are wired together); and if it has an
    LED (a component of type ['led'] or ['led-red-5mm'], the first one
    counts), then the LED's cathode bus is, or is wired to, a bus with a
    ground, its anode bus is, or is wired to, a bus with a power source,
    and the LED is in series with the first resistor, if there is one. *)
Theorem validate_valid_topology
    (net : Network) (circuitJSON : JSValue) (st st' : State)
    (result : ValidationResult) :
  validate net circuitJSON st = (Returned result, st') →
  valid result = true →
  ∃ circuit, circuit_of circuitJSON = Some circuit ∧
    components circuit ≠ [] ∧ wires circuit ≠ [] ∧
    in_one_piece (this st') circuit ∧
    ∀ led, List.find is_led (components circuit) = Some led →
      (∃ start bus, pin_bus (this st') led "cathode" start ∧ start ≠ "" ∧
         wired (this st') circuit start bus ∧ grounded (this st') circuit bus) ∧
      (∃ start bus, pin_bus (this st') led "anode" start ∧ start ≠ "" ∧
         wired (this st') circuit start bus ∧ powered (this st') circuit bus) ∧
      (∀ resistor, List.find is_resistor (components circuit) = Some resistor →
         in_series (this st') circuit led resistor).
Proof.
  intros Hres Hvalid.
  destruct (validate_valid_topology_aux net circuitJSON st result st' Hres Hvalid)
    as (circuit & Hcircuit & Hcs & Hws & Hconn & Hled).
  exists circuit. split; [exact Hcircuit|]. split; [exact Hcs|]. split; [exact Hws|].
  split; [by apply connected_in_one_piece|].
  intros led Hfind.
  destruct (Hled led Hfind)
    as ((c & cb & Hc%placedPinBus_Some & Hcne & Hcpath%reachable_wired & Hground)
        & (a & ab & Ha%placedPinBus_Some & Hane & Hapath%reachable_wired & Hpower)
        & Hseries).
  split; [by exists c, cb|]. split; [by exists a, ab|].
  intros resistor Hresistor. by apply series_connected_iff, Hseries.
Qed.

Lemma validate_valid_topology_witness :
  ∃ circuit, circuit_of Sample.litLed = Some circuit ∧
    components circuit ≠ [] ∧ wires circuit ≠ [] ∧
    in_one_piece (this (validate Sample.network Sample.litLed Sample.fresh).2) circuit.
Proof.
  destruct (validate_valid_topology Sample.network Sample.litLed Sample.fresh
              (validate Sample.network Sample.litLed Sample.fresh).2
              {| valid := true; errors := []; warnings := [] |})
    as (circuit & Hcircuit & Hcs & Hws & Hconn & _).
  - vm_compute. reflexivity.
  - reflexivity.
  - exists circuit. split; [exact Hcircuit|]. split; [exact Hcs|].
    split; [exact Hws | exact Hconn].
Defined.

(** ** When [validate] throws *)










(** With the library loaded, [validate] throws as well on a document whose
    only component has an [id] without a string form and no [type]. *)
Example validate_unprintableId :
  Forall (λ x, nullish x = false) (array_items (components_of Sample.unprintableId)) ∧
  (validate Sample.network Sample.unprintableId Sample.ready).1 = Thrown TypeError.
Proof. split; [by repeat constructor | vm_compute; reflexivity]. Qed.


(** ** References to component pins *)

(** X24: what [getEndpointBus] answers.  For an endpoint without a ['.']
    it is the bus of the hole of that id.  For [`${id}.${pin}`], where
    [id] (without a ['.']) is the id of a component of the circuit, it is
    the bus of the hole where the first component of that id has the pin,
    and nothing when that component does not place the pin; and nothing
    when no component has the id. *)
Theorem getEndpointBus_resolution (this : CircuitValidator) (circuit : Circuit) :
  (∀ holeId, includes "." holeId = false →
     getEndpointBus this holeId circuit = busMap this !! holeId) ∧
  (∀ component pinName,
     includes "." (comp_id component) = false → includes "." pinName = false →
     List.find (λ c, String.eqb (comp_id c) (comp_id component)) (components circuit)
     = Some component →
     (∀ holeId, assoc pinName (comp_placement component) = Some holeId →
        holeId ≠ "" →
        getEndpointBus this (comp_id component +:+ "." +:+ pinName) circuit
        = busMap this !! holeId) ∧
     (assoc pinName (comp_placement component) = None →
      getEndpointBus this (comp_id component +:+ "." +:+ pinName) circuit = None)) ∧
  (∀ compId rest,
     includes "." compId = false →
     (∀ c, c ∈ components circuit → comp_id c ≠ compId) →
     getEndpointBus this (compId +:+ "." +:+ rest) circuit = None).
Proof.
  split_and!.
  - intros holeId Hdot. unfold getEndpointBus. by rewrite Hdot.
  - intros component pinName Hid Hpin Hfind. unfold getEndpointBus.
    rewrite includes_dot_reference, split_reference_pin_of by done.
    cbn [negb]. rewrite Hfind. change (default "undefined" (Some pinName)) with pinName.
    split.
    + intros holeId -> Hne%String.eqb_neq. by rewrite Hne.
    + by intros ->.
  - intros compId rest Hid Hnone. unfold getEndpointBus.
    rewrite includes_dot_reference. cbn [negb].
    pose proof (split_reference_component compId rest Hid) as Hsplit.
    destruct (split_reference _) as [compId' pinName]. cbn [fst] in Hsplit. subst compId'.
    by rewrite find_None_ids.
Qed.

(** X25: the reference check of a wire end never looks at the pin: for a
    component id without a ['.'], [id.anything] is accepted exactly when
    the id is a known component id, and then for every continuation, a pin
    the component has or not; a reference without a ['.'] is accepted
    exactly when it is empty or a hole of the breadboard. *)
Theorem validateWireEndpoint_ignores_the_pin
    (this : CircuitValidator) (wire : WireInstance) (componentIds : gset string) :
  (∀ compId rest, includes "." compId = false →
     (validateWireEndpoint this wire (compId +:+ "." +:+ rest) componentIds = []
      ↔ compId ∈ componentIds) ∧
     (compId ∉ componentIds →
      ∃ d, validateWireEndpoint this wire (compId +:+ "." +:+ rest) componentIds = [d] ∧
        d_type d = "INVALID_WIRE_COMPONENT" ∧ d_severity d = SevError ∧
        d_location d = wire_id wire ∧ d_extra d = NoExtra)) ∧
  (∀ reference, includes "." reference = false →
     (validateWireEndpoint this wire reference componentIds = []
      ↔ reference = "" ∨ is_Some (holeMap this !! reference)) ∧
     (reference ≠ "" → holeMap this !! reference = None →
      ∃ d, validateWireEndpoint this wire reference componentIds = [d] ∧
        d_type d = "INVALID_WIRE_HOLE" ∧ d_severity d = SevError ∧
        d_location d = wire_id wire ∧ d_extra d = NoExtra)).
Proof.
  split.
  - intros compId rest Hid. unfold validateWireEndpoint.
    assert (String.eqb (compId +:+ "." +:+ rest) "" = false) as ->.
    { apply String.eqb_neq. intros Heq.
      pose proof (includes_dot_reference compId rest) as Hdot. by rewrite Heq in Hdot. }
    rewrite includes_dot_reference.
    pose proof (split_reference_component compId rest Hid) as Hsplit.
    destruct (split_reference _) as [compId' pinName]. cbn [fst] in Hsplit. subst compId'.
    case_bool_decide; split; try done. intros _. by eexists.
  - intros reference Hdot. unfold validateWireEndpoint. rewrite Hdot.
    destruct (String.eqb reference "") eqn:E.
    + apply String.eqb_eq in E. split; [|done]. split; [by left | done].
    + apply String.eqb_neq in E.
      destruct (holeMap this !! reference) eqn:Hhole.
      * split; [|done]. split; [by right | done].
      * split; [|by intros _ _; eexists]. split; [done|]. intros [?|[? ?]]; done.
Qed.

(** ** Layer 5: the rules of a component *)

Lemma rules_of_type_gets componentDef electricalType :
  rules_of_type componentDef electricalType →
  ∃ validation rules,
    get "validation" componentDef = Returned validation ∧ truthy validation = true ∧
    get "rules" validation = Returned rules ∧ truthy rules = true ∧
    get "electricalType" validation = Returned (JStr electricalType).
Proof.
  intros (Hval & Hrules & Htype).
  assert (nullish componentDef = false) as Hdef by (by destruct componentDef).
  pose proof (truthy_not_nullish _ Hval) as Hv.
  rewrite (get_opt_present _ _ Hdef) in Hval, Hrules, Htype, Hv.
  rewrite (get_opt_present "rules" _ Hv) in Hrules.
  rewrite (get_opt_present "electricalType" _ Hv) in Htype.
  exists (own_prop "validation" componentDef),
         (own_prop "rules" (own_prop "validation" componentDef)).
  rewrite !get_present by done. rewrite Htype. by split_and!.
Qed.

Lemma validateAgainstComponentRules_typed this component componentDef circuit
    electricalType :
  rules_of_type componentDef electricalType →
  validateAgainstComponentRules this component componentDef circuit =
  (microcontrollerErrors ←
     (if String.eqb electricalType "microcontroller"
      then microcontrollerRules component componentDef circuit else mret []);
   mret ((if String.eqb electricalType "led" then ledRules this component else []) ++
         (if String.eqb electricalType "resistor" then resistorRules component else []) ++
         microcontrollerErrors)).
Proof.
  intros (validation & rules & Hv & Htv & Hr & Htr & He)%rules_of_type_gets.
  unfold validateAgainstComponentRules.
  rewrite Hv. cbn [mbind outcome_bind]. rewrite Htv. cbn [negb].
  rewrite Hr. cbn [mbind outcome_bind]. rewrite Htr. cbn [negb].
  rewrite He. reflexivity.
Qed.

Lemma placed_true component pin : placed component pin = true ↔ pin_placed component pin.
Proof.
  unfold placed, pin_placed. destruct (assoc pin _) as [holeId|].
  - rewrite negb_true_iff, String.eqb_neq. split; [eauto|]. by intros (? & [= <-] & ?).
  - split; [done|]. by intros (? & ? & _).
Qed.

Lemma rail_test this component pin type :
  existsb (is_type type) (busHoles this (placedPinBus this component pin)) = true ↔
  pin_on_rail this component pin type.
Proof.
  rewrite existsb_is_type. unfold pin_on_rail. split.
  - intros (h & Hh & Ht).
    destruct (placedPinBus this component pin) as [bus|] eqn:Hbus.
    + apply elem_of_busHoles in Hh as [Hh Hb]. apply placedPinBus_Some in Hbus.
      by exists bus, h.
    + unfold busHoles in Hh. by apply list_elem_of_filter in Hh as [? _].
  - intros (bus & h & Hbus%placedPinBus_Some & Hh & Hb & Ht). rewrite Hbus.
    exists h. split; [by apply elem_of_busHoles | done].
Qed.

Lemma has_type_test (errs : list Diagnostic) type :
  (∃ d, d ∈ errs ∧ d_type d = type) ↔
  existsb (λ d, String.eqb (d_type d) type) errs = true.
Proof. rewrite existsb_elem_of. by setoid_rewrite String.eqb_eq. Qed.

Lemma ledRules_spec this component :
  ((∃ d, d ∈ ledRules this component ∧ d_type d = "INVALID_LED_PLACEMENT") ↔
   ¬ (pin_placed component "anode" ∧ pin_placed component "cathode")) ∧
  ((∃ d, d ∈ ledRules this component ∧ d_type d = "LED_REVERSED") ↔
   pin_placed component "anode" ∧ pin_placed component "cathode" ∧
   (pin_on_rail this component "cathode" "power" ∨
    pin_on_rail this component "anode" "ground")) ∧
  Forall (λ d, (d_type d = "INVALID_LED_PLACEMENT" ∨ d_type d = "LED_REVERSED") ∧
               d_severity d = SevError ∧ d_location d = comp_id component ∧
               d_extra d = NoExtra)
         (ledRules this component).
Proof.
  rewrite !has_type_test, <- !placed_true, <- !rail_test. unfold ledRules.
  destruct (placed component "anode"), (placed component "cathode");
    cbn [negb orb andb app];
    [destruct (existsb (is_type "power") _), (existsb (is_type "ground") _)|..];
    cbn [app existsb d_type createError String.eqb Ascii.eqb Bool.eqb orb andb];
    (split_and!;
       [intuition congruence..
       | repeat first
           [ apply Forall_nil_2
           | apply Forall_cons; split;
               [split_and!; [first [by left | by right] | done..]|] ]]).
Qed.

(** X26: the LED rules of layer 5.  For a component whose definition
    carries rules of electrical type ['led'],
    [validateAgainstComponentRules] returns, and reports
    [INVALID_LED_PLACEMENT] exactly when the placement lacks the pin
    [anode] or the pin [cathode] (or has it on an empty hole id), and
    [LED_REVERSED] exactly when both are placed and the bus of the cathode
    has a hole of type ['power'] or the bus of the anode a hole of type
    ['ground'].  It reports nothing else; every diagnostic is an error
    located at the component, without further fields. *)
Theorem validateAgainstComponentRules_led
    (this : CircuitValidator) (component : ComponentInstance)
    (componentDef : JSValue) (circuit : Circuit) :
  rules_of_type componentDef "led" →
  ∃ errs,
    validateAgainstComponentRules this component componentDef circuit = Returned errs ∧
    ((∃ d, d ∈ errs ∧ d_type d = "INVALID_LED_PLACEMENT") ↔
     ¬ (pin_placed component "anode" ∧ pin_placed component "cathode")) ∧
    ((∃ d, d ∈ errs ∧ d_type d = "LED_REVERSED") ↔
     pin_placed component "anode" ∧ pin_placed component "cathode" ∧
     (pin_on_rail this component "cathode" "power" ∨
      pin_on_rail this component "anode" "ground")) ∧
    (∀ d, d ∈ errs →
       (d_type d = "INVALID_LED_PLACEMENT" ∨ d_type d = "LED_REVERSED") ∧
       d_severity d = SevError ∧ d_location d = comp_id component ∧
       d_extra d = NoExtra).
Proof.
  intros Hrules.
  rewrite (validateAgainstComponentRules_typed _ _ _ _ _ Hrules).
  change (String.eqb "led" "microcontroller") with false.
  change (String.eqb "led" "led") with true.
  change (String.eqb "led" "resistor") with false.
  cbn [mbind outcome_bind mret outcome_ret app]. rewrite app_nil_r.
  exists (ledRules this component). split; [done|].
  destruct (ledRules_spec this component) as (Hplacement & Hreversed & Hshape).
  split; [exact Hplacement|]. split; [exact Hreversed|].
  by apply Forall_forall.
Qed.

Lemma validateAgainstComponentRules_led_witness :
  ∃ errs,
    validateAgainstComponentRules Sample.validator Sample.reversedLed
      Sample.ledDefinition Sample.apartNoWires = Returned errs ∧
    ∃ d, d ∈ errs ∧ d_type d = "LED_REVERSED".
Proof.
  destruct (validateAgainstComponentRules_led Sample.validator Sample.reversedLed
              Sample.ledDefinition Sample.apartNoWires)
    as (errs & Hres & _ & Hreversed & _).
  - split; [reflexivity|]. split; reflexivity.
  - exists errs. split; [exact Hres|]. apply Hreversed.
    split; [exists "1F"; split; [reflexivity | discriminate]|].
    split; [exists "1W"; split; [reflexivity | discriminate]|].
    left. exists "rail-top-W", (Sample.hole "1W" "rail-top-W" "power").
    split; [exists "1W"; split; reflexivity|].
    split; [|split; reflexivity].
    do 9 apply list_elem_of_further. apply list_elem_of_here.
Defined.

Lemma resistorRules_spec component :
  (resistorRules component = [] ↔ length (comp_placement component) = 2) ∧
  ∀ d, d ∈ resistorRules component →
    resistorRules component = [d] ∧
    d_type d = "INVALID_RESISTOR_PLACEMENT" ∧ d_severity d = SevError ∧
    d_location d = comp_id component ∧ d_extra d = NoExtra.
Proof.
  unfold resistorRules.
  destruct (Nat.eqb_spec (length (comp_placement component)) 2) as [Htwo|Hother];
    cbn [negb].
  - split; [done|]. by intros d ?%elem_of_nil.
  - split; [done|]. by intros d ->%list_elem_of_singleton.
Qed.

(** X27: the resistor rule of layer 5.  For a component whose definition
    carries rules of electrical type ['resistor'],
    [validateAgainstComponentRules] returns: nothing when the placement
    has exactly two pins, and otherwise one [INVALID_RESISTOR_PLACEMENT]
    error located at the component, without further fields. *)
Theorem validateAgainstComponentRules_resistor
    (this : CircuitValidator) (component : ComponentInstance)
    (componentDef : JSValue) (circuit : Circuit) :
  rules_of_type componentDef "resistor" →
  ∃ errs,
    validateAgainstComponentRules this component componentDef circuit = Returned errs ∧
    (errs = [] ↔ length (comp_placement component) = 2) ∧
    (∀ d, d ∈ errs →
       errs = [d] ∧
       d_type d = "INVALID_RESISTOR_PLACEMENT" ∧ d_severity d = SevError ∧
       d_location d = comp_id component ∧ d_extra d = NoExtra).
Proof.
  intros Hrules.
  rewrite (validateAgainstComponentRules_typed _ _ _ _ _ Hrules).
  change (String.eqb "resistor" "microcontroller") with false.
  change (String.eqb "resistor" "led") with false.
  change (String.eqb "resistor" "resistor") with true.
  cbn [mbind outcome_bind mret outcome_ret app]. rewrite app_nil_r.
  exists (resistorRules component). split; [done|].
  apply resistorRules_spec.
Qed.

Lemma validateAgainstComponentRules_resistor_witness :
  ∃ d,
    validateAgainstComponentRules Sample.validator Sample.oneLeg
      Sample.resistorDefinition Sample.apartNoWires = Returned [d] ∧
    d_type d = "INVALID_RESISTOR_PLACEMENT".
Proof.
  destruct (validateAgainstComponentRules_resistor Sample.validator Sample.oneLeg
              Sample.resistorDefinition Sample.apartNoWires)
    as (errs & Hres & Hnil & Hone).
  - split; [reflexivity|]. split; reflexivity.
  - destruct errs as [|d errs].
    + exfalso. pose proof (proj1 Hnil eq_refl) as Hlen. discriminate Hlen.
    + destruct (Hone d (list_elem_of_here d errs)) as (Heq & Htype & _).
      exists d. split; [by rewrite Hres, Heq | exact Htype].
Defined.

Lemma startsWith_dot id s :
  startsWith (id +:+ ".") s = true → includes "." s = true.
Proof.
  unfold startsWith. revert s. induction id as [|a id IH]; intros s.
  - change ("" +:+ ".") with ".". destruct s as [|c s]; [done|].
    rewrite prefix_dot, includes_dot_cons. by intros ->.
  - change (String a id +:+ ".") with (String a (id +:+ ".")).
    destruct s as [|b s]; [done|]. cbn [String.prefix].
    destruct (ascii_dec a b); [|done]. intros Hs%IH.
    rewrite includes_dot_cons, Hs. apply orb_true_r.
Qed.

Lemma get_get_opt k v : nullish v = false → get k v = Returned (get_opt k v).
Proof. by destruct v. Qed.

Lemma is_string_true s v : is_string s v = true ↔ v = JStr s.
Proof.
  destruct v; cbn [is_string]; try (split; [done | by intros ?]).
  rewrite String.eqb_eq. split; [by intros -> | by intros [= ->]].
Qed.

Lemma is_false_true v : is_false v = true ↔ v = JBool false.
Proof. destruct v as [| | [|] | | | |]; cbn; split; done. Qed.

Lemma pwm_signal_test wire :
  is_string "pwm" (get_opt "signal_type" (wire_properties wire))
  || is_string "signal" (get_opt "function" (wire_properties wire)) = true ↔
  pwm_signal wire.
Proof. unfold pwm_signal. by rewrite orb_true_iff, !is_string_true. Qed.

Lemma wire_end_touches component wire :
  touches component (wire_from wire) = true ∨ touches component (wire_to wire) = true →
  wire_end component wire
    (if touches component (wire_from wire) then wire_from wire else wire_to wire).
Proof.
  unfold wire_end, touches.
  destruct (startsWith _ (wire_from wire)); [by left|].
  intros [?|Hto]; [done|]. by right.
Qed.

Lemma wire_end_pin component wire endpoint :
  wire_end component wire endpoint →
  endpoint = (if touches component (wire_from wire) then wire_from wire else wire_to wire) ∧
  (touches component (wire_from wire) = true ∨ touches component (wire_to wire) = true) ∧
  ∃ pinName, split_dot endpoint !! 1 = Some pinName.
Proof.
  unfold wire_end, touches.
  intros [[Hfrom ->]|(Hfrom & Hto & ->)]; rewrite Hfrom.
  - split; [done|]. split; [by left|].
    apply startsWith_dot, split_dot_two in Hfrom as (first & second & rest & ->). by exists second.
  - split; [done|]. split; [by right|].
    apply startsWith_dot, split_dot_two in Hto as (first & second & rest & ->). by exists second.
Qed.

(** What the PWM rule says of one wire at the component. *)
Lemma microcontrollerRules_spec component componentDef circuit :
  nullish componentDef = false →
  nullish (get_opt "pins" componentDef) = false →
  (∀ pinName,
     printable (get_opt "pwmChannel" (get_opt pinName (get_opt "pins" componentDef)))) →
  ∃ errs,
    microcontrollerRules component componentDef circuit = Returned errs ∧
    ∀ d, d ∈ errs ↔
      ∃ wire endpoint pinName,
        wire ∈ wires circuit ∧ pwm_signal wire ∧ wire_end component wire endpoint ∧
        split_dot endpoint !! 1 = Some pinName ∧
        truthy (get_opt pinName (get_opt "pins" componentDef)) = true ∧
        get_opt "pwmCapable" (get_opt pinName (get_opt "pins" componentDef))
        = JBool false ∧
        d = createError "INVALID_PWM_PIN" (comp_id component)
              (PwmPinExtra (Some pinName) (wire_id wire)).
Proof.
  intros Hdef Hpins Hprint. unfold microcontrollerRules.
  assert (Hone : ∀ wire (index : nat),
    touches component (wire_from wire) = true ∨ touches component (wire_to wire) = true →
    ∃ es,
      (if is_string "pwm" (get_opt "signal_type" (wire_properties wire))
          || is_string "signal" (get_opt "function" (wire_properties wire))
       then
         pins ← get "pins" componentDef;
         pinDef ← get (default "undefined"
                         (split_dot (if touches component (wire_from wire)
                                     then wire_from wire else wire_to wire) !! 1)) pins;
         _ ← (if truthy pinDef && is_true (get_opt "pwmCapable" pinDef)
              then to_string (get_opt "pwmChannel" pinDef) else mret "");
         mret (if truthy pinDef && is_false (get_opt "pwmCapable" pinDef)
               then [createError "INVALID_PWM_PIN" (comp_id component)
                       (PwmPinExtra
                          (split_dot (if touches component (wire_from wire)
                                      then wire_from wire else wire_to wire) !! 1)
                          (wire_id wire))]
               else [])
       else mret []) = Returned es ∧
      ∀ d, d ∈ es ↔
        ∃ endpoint pinName,
          pwm_signal wire ∧ wire_end component wire endpoint ∧
          split_dot endpoint !! 1 = Some pinName ∧
          truthy (get_opt pinName (get_opt "pins" componentDef)) = true ∧
          get_opt "pwmCapable" (get_opt pinName (get_opt "pins" componentDef))
          = JBool false ∧
          d = createError "INVALID_PWM_PIN" (comp_id component)
                (PwmPinExtra (Some pinName) (wire_id wire))).
  { intros wire index Htouch.
    pose proof (wire_end_touches component wire Htouch) as Hend.
    destruct (wire_end_pin _ _ _ Hend) as (_ & _ & pinName & Hpin).
    destruct (_ || _) eqn:Hpwm.
    2:{ exists []. split; [done|]. intros d. split; [by intros ?%elem_of_nil|].
        intros (? & ? & Hsignal%pwm_signal_test & _). congruence. }
    apply pwm_signal_test in Hpwm.
    rewrite (get_get_opt _ _ Hdef). cbn [mbind outcome_bind].
    rewrite Hpin. change (default "undefined" (Some pinName)) with pinName.
    rewrite (get_get_opt _ _ Hpins). cbn [mbind outcome_bind].
    set (pinDef := get_opt pinName (get_opt "pins" componentDef)).
    assert (Hchannel : ∃ text,
              (if truthy pinDef && is_true (get_opt "pwmCapable" pinDef)
               then to_string (get_opt "pwmChannel" pinDef) else mret "")
              = Returned text).
    { destruct (_ && _); [apply Hprint | by eexists]. }
    destruct Hchannel as [text ->]. cbn [mbind outcome_bind].
    eexists. split; [reflexivity|]. intros d.
    destruct (truthy pinDef) eqn:Htruthy; cbn [andb].
    2:{ split; [by intros ?%elem_of_nil|].
        intros (endpoint & pinName' & _ & (-> & _ & _)%wire_end_pin & Hpin' & Ht & _).
        rewrite Hpin in Hpin'. injection Hpin' as <-. fold pinDef in Ht. congruence. }
    destruct (is_false (get_opt "pwmCapable" pinDef)) eqn:Hcapable.
    - apply is_false_true in Hcapable. rewrite list_elem_of_singleton. split.
      + intros ->. by eexists _, pinName.
      + intros (endpoint & pinName' & _ & (-> & _ & _)%wire_end_pin & Hpin' & _ & _ & ->).
        rewrite Hpin in Hpin'. by injection Hpin' as <-.
    - split; [by intros ?%elem_of_nil|].
      intros (endpoint & pinName' & _ & (-> & _ & _)%wire_end_pin & Hpin' & _ & Hc & _).
      rewrite Hpin in Hpin'. injection Hpin' as <-. fold pinDef in Hc.
      apply is_false_true in Hc. congruence. }
  match goal with
  | |- context [collect ?f 0 ?arr] =>
      destruct (collect_returns f 0 arr) as (errs & Hres & Hin)
  end.
  { intros i wire Hwire%list_elem_of_lookup_2.
    apply list_elem_of_filter in Hwire as [Htouch _].
    destruct (Hone wire (0 + i) Htouch) as (es & Hes & _). by exists es. }
  exists errs. split; [exact Hres|]. intros d. rewrite Hin. split.
  - intros (i & wire & es & Hwire%list_elem_of_lookup_2 & Hes & Hd).
    apply list_elem_of_filter in Hwire as [Htouch Hwire].
    destruct (Hone wire (0 + i) Htouch) as (es' & Hes' & Hspec).
    cbv beta zeta in Hes. rewrite Hes' in Hes. injection Hes as ->.
    apply Hspec in Hd as (endpoint & pinName & Hd). by exists wire, endpoint, pinName.
  - intros (wire & endpoint & pinName & Hwire & Hd).
    destruct (wire_end_pin _ _ _ (proj1 (proj2 Hd))) as (_ & Htouch & _).
    assert (wire ∈ filter (λ w, touches component (wire_from w) = true
                               ∨ touches component (wire_to w) = true) (wires circuit))
      as [i Hi]%list_elem_of_lookup_1 by (by apply list_elem_of_filter).
    destruct (Hone wire (0 + i) Htouch) as (es & Hes & Hspec).
    exists i, wire, es. split; [exact Hi|]. split; [exact Hes|].
    apply Hspec. by exists endpoint, pinName.
Qed.

Lemma diagnostic_fields d type location extra :
  d = createError type location extra ↔
  d_type d = type ∧ d_severity d = SevError ∧ d_location d = location ∧ d_extra d = extra.
Proof.
  destruct d as [t s l e]. unfold createError. cbn. split.
  - by intros [= -> -> -> ->].
  - by intros (-> & -> & -> & ->).
Qed.

(** X28: the PWM rule of layer 5.  For a component whose definition
    carries rules of electrical type ['microcontroller'] and a [pins]
    object (no pin of which has a [pwmChannel] without a string form),
    [validateAgainstComponentRules] returns, and its diagnostics are
    exactly the [INVALID_PWM_PIN] errors located at the component, with
    the pin and the wire id as fields, for the wires of the circuit that
    carry a PWM signal and end at the component (the [from] end counts
    when it starts with the id of the component and a ['.'], otherwise the
    [to] end) at a pin (the second part of the endpoint when split at
    ['.']) that the definition lists with [pwmCapable: false]. *)
Theorem validateAgainstComponentRules_microcontroller
    (this : CircuitValidator) (component : ComponentInstance)
    (componentDef : JSValue) (circuit : Circuit) :
  rules_of_type componentDef "microcontroller" →
  nullish (get_opt "pins" componentDef) = false →
  (∀ pinName,
     printable (get_opt "pwmChannel" (get_opt pinName (get_opt "pins" componentDef)))) →
  ∃ errs,
    validateAgainstComponentRules this component componentDef circuit = Returned errs ∧
    ∀ d, d ∈ errs ↔
      ∃ wire endpoint pinName,
        wire ∈ wires circuit ∧ pwm_signal wire ∧ wire_end component wire endpoint ∧
        split_dot endpoint !! 1 = Some pinName ∧
        truthy (get_opt pinName (get_opt "pins" componentDef)) = true ∧
        get_opt "pwmCapable" (get_opt pinName (get_opt "pins" componentDef))
        = JBool false ∧
        d_type d = "INVALID_PWM_PIN" ∧ d_severity d = SevError ∧
        d_location d = comp_id component ∧
        d_extra d = PwmPinExtra (Some pinName) (wire_id wire).
Proof.
  intros Hrules Hpins Hprint.
  assert (nullish componentDef = false) as Hdef.
  { destruct Hrules as [Hvalidation _]. by destruct componentDef. }
  rewrite (validateAgainstComponentRules_typed _ _ _ _ _ Hrules).
  change (String.eqb "microcontroller" "microcontroller") with true.
  change (String.eqb "microcontroller" "led") with false.
  change (String.eqb "microcontroller" "resistor") with false.
  destruct (microcontrollerRules_spec component componentDef circuit Hdef Hpins Hprint)
    as (errs & Hres & Hin).
  rewrite Hres. cbn [mbind outcome_bind mret outcome_ret app].
  exists errs. split; [done|].
  intros d. rewrite Hin. by setoid_rewrite diagnostic_fields.
Qed.

Lemma validateAgainstComponentRules_microcontroller_witness :
  ∃ errs,
    validateAgainstComponentRules Sample.validator Sample.pico Sample.picoDefinition
      Sample.pwmOnGround = Returned errs ∧
    ∃ d, d ∈ errs ∧ d_type d = "INVALID_PWM_PIN" ∧
         d_extra d = PwmPinExtra (Some "GND_3") "w1".
Proof.
  destruct (validateAgainstComponentRules_microcontroller Sample.validator Sample.pico
              Sample.picoDefinition Sample.pwmOnGround) as (errs & Hres & Hin).
  - split; [reflexivity|]. split; reflexivity.
  - reflexivity.
  - intros pinName. unfold printable.
    change (get_opt "pins" Sample.picoDefinition)
      with (JObj [("GP0", JObj [("electricalType", JStr "gpio");
                                ("pwmCapable", JBool true);
                                ("pwmChannel", JStr "0A")]);
                  ("GND_3", JObj [("electricalType", JStr "ground");
                                  ("pwmCapable", JBool false)])]).
    cbn [get_opt own_prop assoc].
    destruct (String.eqb pinName "GP0"); [by eexists|].
    destruct (String.eqb pinName "GND_3"); by eexists.
  - exists errs. split; [exact Hres|].
    exists (createError "INVALID_PWM_PIN" "pico1" (PwmPinExtra (Some "GND_3") "w1")).
    split; [|split; reflexivity].
    apply Hin.
    exists {| wire_id := "w1"; wire_from := "pico1.GND_3"; wire_to := "9J";
              wire_properties := JObj [("signal_type", JStr "pwm")] |},
           "pico1.GND_3", "GND_3".
    split; [apply list_elem_of_here|]. split; [by left|].
    split; [by left|]. split; [reflexivity|]. split; [reflexivity|].
    split; [reflexivity|]. split; [reflexivity|]. split; [reflexivity|].
    split; reflexivity.
Defined.

Lemma validateAgainstComponentRules_shape this component componentDef circuit es :
  validateAgainstComponentRules this component componentDef circuit = Returned es →
  Forall (λ d, d_severity d = SevError ∧ d_type d ∈ rule_types ∧
               d_location d = comp_id component) es.
Proof.
  assert (Hone : ∀ type extra,
            type ∈ rule_types →
            Forall (λ d, d_severity d = SevError ∧ d_type d ∈ rule_types ∧
                         d_location d = comp_id component)
                   [createError type (comp_id component) extra]).
  { intros type extra Htype. by apply Forall_singleton. }
  unfold validateAgainstComponentRules.
  destruct (get "validation" componentDef) as [validation| |]; [|done..].
  cbn [mbind outcome_bind].
  destruct (negb (truthy validation)); [intros [= <-]; constructor|].
  destruct (get "rules" validation) as [rules| |]; [|done..].
  cbn [mbind outcome_bind].
  destruct (negb (truthy rules)); [intros [= <-]; constructor|].
  destruct (get "electricalType" validation) as [electricalType| |]; [|done..].
  cbn [mbind outcome_bind].
  destruct (if is_string "microcontroller" electricalType then _ else _)
    as [microcontrollerErrors| |] eqn:Hmicro; [|done..].
  cbn [mbind outcome_bind mret outcome_ret]. intros [= <-].
  repeat (apply Forall_app; split).
  - destruct (is_string "led" electricalType); [|constructor].
    unfold ledRules. apply Forall_app. split.
    + destruct (_ || _); [|constructor]. apply Hone. set_solver.
    + destruct (_ && _); [|constructor]. apply Forall_app.
      split; (destruct (existsb _ _); [|constructor]); apply Hone; set_solver.
  - destruct (is_string "resistor" electricalType); [|constructor].
    unfold resistorRules. destruct (negb _); [|constructor]. apply Hone. set_solver.
  - destruct (is_string "microcontroller" electricalType);
      [|injection Hmicro as <-; constructor].
    revert Hmicro. unfold microcontrollerRules. apply Forall_collect. intros wire _ es.
    destruct (_ || _); [|intros [= <-]; constructor].
    destruct (get "pins" componentDef) as [pins| |]; [|done..].
    cbn [mbind outcome_bind].
    destruct (get _ pins) as [pinDef| |]; [|done..].
    cbn [mbind outcome_bind].
    destruct (if truthy pinDef && is_true _ then _ else _); [|done..].
    intros [= <-]. destruct (_ && _); [|constructor]. apply Hone. set_solver.
Qed.

Lemma elem_of_collect_st {A} (R : State → State → Prop)
    (f : A → State → outcome (list Diagnostic) * State) arr st errs st' :
  (∀ st, R st st) → (∀ st1 st2 st3, R st1 st2 → R st2 st3 → R st1 st3) →
  (∀ x st, R st (f x st).2) →
  collect_st f arr st = (Returned errs, st') →
  ∀ d, d ∈ errs →
    ∃ x st0 es, x ∈ arr ∧ (f x st0).1 = Returned es ∧ d ∈ es ∧ R (f x st0).2 st'.
Proof.
  intros Hrefl Htrans Hf. revert st errs.
  induction arr as [|x rest IH]; intros st errs; cbn [collect_st].
  { intros [= <- _] d ?%elem_of_nil. done. }
  pose proof (Hf x st) as Hstep.
  destruct (f x st) as [[here| |] st1] eqn:Hhere; [|done..].
  destruct (collect_st f rest st1) as [[later| |] st2] eqn:Hlater; [|done..].
  intros [= <- <-] d [Hd|Hd]%elem_of_app.
  - exists x, st, here. rewrite Hhere. split; [left|]. split; [done|]. split; [done|].
    pose proof (collect_st_state R f rest st1 Hrefl Htrans Hf) as Hrest.
    by rewrite Hlater in Hrest.
  - destruct (IH st1 later Hlater d Hd) as (y & st0 & es & Hy & Hes & Hdes & HR).
    exists y, st0, es. split; [by right | done].
Qed.

(** X29: layer 5 never throws: [validateComponentRules] returns on every
    circuit, whatever the network does and whatever the definitions hold
    (what [loadComponent] or a rule throws is caught, and the component
    skipped).  Every diagnostic it returns is an error of one of the four
    layer-5 types, located at a component of the circuit whose definition
    is in the cache afterwards. *)
Theorem validateComponentRules_diagnostics
    (net : Network) (circuit : Circuit) (st : State) :
  ∃ errs st', validateComponentRules net circuit st = (Returned errs, st') ∧
    ∀ d, d ∈ errs →
      d_severity d = SevError ∧ d_type d ∈ rule_types ∧
      ∃ comp, comp ∈ components circuit ∧ d_location d = comp_id comp ∧
        is_Some (loadedComponents (this st') !! comp_type comp).
Proof.
  destruct (validateComponentRules_returns net circuit st) as (errs & st' & Hres & _).
  exists errs, st'. split; [exact Hres|]. intros d Hd.
  destruct (elem_of_collect_st (λ st1 st2, same_board st1 st2 ∧ extends st1 st2)
              (checkComponentRules net circuit) (components circuit) st errs st'
              grows_refl grows_trans (checkComponentRules_grows net circuit) Hres d Hd)
    as (comp & st0 & es & Hcomp & Hes & Hdes & _ & _ & Hcache).
  revert Hes Hcache. unfold checkComponentRules.
  destruct (loadComponent_cases net (comp_type comp) st0)
    as (loaded & st1 & -> & _ & _ & _ & Hloaded & _).
  cbn [fst snd]. intros [Hbody|(e & _ & [= <-])]%try_catch_Returned Hcache;
    [|by apply elem_of_nil in Hdes].
  destruct Hloaded as [(componentDef & -> & Hdef)|(e & -> & _)]; [|done].
  cbn [mbind outcome_bind] in Hbody.
  destruct (get "validation" componentDef) as [validation| |]; [|done..].
  cbn [mbind outcome_bind] in Hbody.
  destruct (truthy validation);
    [|injection Hbody as <-; by apply elem_of_nil in Hdes].
  apply validateAgainstComponentRules_shape in Hbody.
  rewrite Forall_forall in Hbody. destruct (Hbody d Hdes) as (Hsev & Htype & Hloc).
  split; [exact Hsev|]. split; [exact Htype|].
  exists comp. split; [exact Hcomp|]. split; [exact Hloc|].
  exists componentDef. eapply lookup_weaken; [exact Hdef | exact Hcache].
Qed.

(** X30: a microcontroller definition without [pins].  For a component
    whose definition carries rules of electrical type
    ['microcontroller'] and no [pins],
    [validateAgainstComponentRules] throws a TypeError when a wire of the
    circuit carries a PWM signal and ends at the component (the read of
    the pin in [componentDef.pins] fails), and returns nothing
    otherwise. *)
Theorem validateAgainstComponentRules_without_pins
    (this : CircuitValidator) (component : ComponentInstance)
    (componentDef : JSValue) (circuit : Circuit) :
  rules_of_type componentDef "microcontroller" →
  nullish (get_opt "pins" componentDef) = true →
  (validateAgainstComponentRules this component componentDef circuit = Thrown TypeError ∧
   ∃ wire endpoint,
     wire ∈ wires circuit ∧ pwm_signal wire ∧ wire_end component wire endpoint) ∨
  (validateAgainstComponentRules this component componentDef circuit = Returned [] ∧
   ¬ ∃ wire endpoint,
       wire ∈ wires circuit ∧ pwm_signal wire ∧ wire_end component wire endpoint).
Proof.
  intros Hrules Hpins.
  assert (nullish componentDef = false) as Hdef.
  { destruct Hrules as [Hvalidation _]. by destruct componentDef. }
  rewrite (validateAgainstComponentRules_typed _ _ _ _ _ Hrules).
  change (String.eqb "microcontroller" "microcontroller") with true.
  change (String.eqb "microcontroller" "led") with false.
  change (String.eqb "microcontroller" "resistor") with false.
  unfold microcontrollerRules.
  match goal with
  | |- context [collect ?f 0 ?arr] =>
      destruct (collect_elements f (λ w, ¬ pwm_signal w) pwm_signal 0 arr)
        as [[Hall [es Hes]]|[Hex Hthrow]]
  end.
  - intros wire index. cbv beta zeta.
    destruct (_ || _) eqn:Hpwm.
    + right. apply pwm_signal_test in Hpwm. split; [|done].
      rewrite (get_get_opt _ _ Hdef). cbn [mbind outcome_bind].
      by destruct (get_opt "pins" componentDef).
    + left. exists []. split; [done|]. intros Hsignal%pwm_signal_test. congruence.
  - assert (Forall (λ _, False) es) as Hnone.
    { eapply Forall_collect; [|exact Hes]. intros wire index es'. cbv beta zeta.
      destruct (_ || _); [|by intros [= <-]].
      rewrite (get_get_opt _ _ Hdef). cbn [mbind outcome_bind].
      by destruct (get_opt "pins" componentDef). }
    destruct Hnone as [|? ? []].
    right. rewrite Hes. split; [done|].
    intros (wire & endpoint & Hwire & Hpwm & (_ & Htouch & _)%wire_end_pin).
    rewrite Forall_forall in Hall. apply (Hall wire); [|done].
    by apply list_elem_of_filter.
  - left. rewrite Hthrow. split; [done|].
    apply Exists_exists in Hex as (wire & [Htouch Hwire]%list_elem_of_filter & Hpwm).
    exists wire. eexists. split; [done|]. split; [done|].
    by apply wire_end_touches.
Qed.

Lemma validateAgainstComponentRules_without_pins_witness :
  validateAgainstComponentRules Sample.validator Sample.pico Sample.bareDefinition
    Sample.pwmOnGround = Thrown TypeError.
Proof.
  destruct (validateAgainstComponentRules_without_pins Sample.validator Sample.pico
              Sample.bareDefinition Sample.pwmOnGround) as [[Hres _]|[_ Hnone]].
  - split; [reflexivity|]. split; reflexivity.
  - reflexivity.
  - exact Hres.
  - exfalso. apply Hnone.
    exists {| wire_id := "w1"; wire_from := "pico1.GND_3"; wire_to := "9J";
              wire_properties := JObj [("signal_type", JStr "pwm")] |}, "pico1.GND_3".
    split; [apply list_elem_of_here|]. split; [by left | by left].
Defined.
